(** * Multi-function network evaluation (functions/intern/multi_functions/network.cc)

    A shallow embedding of [NetworkEvaluationStorage] and of
    [MF_EvaluateNetwork] together with the properties claimed about them.

    Conventions of the embedding.
    - Sockets, nodes and buffers are identified by their dense ids, as the
      source indexes its arrays with [socket.id()] and [node.id()].
    - [BLI_assert (c)] is a contract check: a failed check ends the run with
      [AssertFail].  The same outcome stands for an array access out of
      bounds, for the use of a null slot pointer and for the use of a
      freed buffer.
    - Loops that the source writes as [while (!stack.is_empty())] take a
      fuel argument and end with [OutOfFuel] when it is used up.
    - Every outcome of a stateful operation carries the state in which the
      operation ended, so that the logs of a failed run can be read.
    - [max_remaining_users] is a C++ [int]; it is kept in [Z].  The counts
      stored in it are socket fan-outs and node depths are bounded by the
      number of nodes, so no wrap-around is modelled.
    - The value structs ([SingleValue], [VectorValue]) are reached through
      exactly one slot pointer; a slot therefore holds the struct itself,
      while the buffers the structs refer to live in a separate memory
      and are referred to by id. *)

From Stdlib Require Import ZArith Lia.
From stdpp Require Import base numbers option list.

Set Default Proof Using "Type".

(** ** Outcomes of the pure loops *)

Inductive Res (A : Type) : Type :=
| Done (a : A)
| Failed
| Exhausted.
Arguments Done {A} a.
Arguments Failed {A}.
Arguments Exhausted {A}.

(** ** Generic values *)

(** An [IndexMask] is the ordered list of the active indices.
    [IndexMask::min_array_size]: one more than the largest index. *)
Definition min_array_size (mask : list nat) : nat :=
  foldr (λ i acc, Nat.max (S i) acc) 0 mask.

(** Every index of the mask is an index of an array of [size] elements. *)
Definition mask_fits (mask : list nat) (size : nat) : bool :=
  forallb (λ i, bool_decide (i < size)) mask.

(** A raw array has one cell per index; [None] is an unconstructed cell.
    A [GenericVectorArray] has one list per index. *)
Inductive Buffer :=
| ArrayBuffer (cells : list (option Z))
| VectorArray (lists : list (list Z)).

(** Read-only views: over caller data, or over a buffer of the storage. *)
Inductive GenericVirtualListRef :=
| ListOfCaller (f : nat → Z)
| ListOfArray (b : nat).

Inductive GenericVirtualListListRef :=
| ListListOfCaller (f : nat → list Z)
| ListListOfVectorArray (b : nat).

(** [CPPType::copy_to_uninitialized_indices (src, dst, mask)]. *)
Definition copy_to_uninitialized_indices
    (src dst : list (option Z)) (mask : list nat) : list (option Z) :=
  foldl (λ d i, <[i := mjoin (src !! i)]> d) dst mask.

(** [GenericVirtualListRef::materialize_to_uninitialized (mask, dst)] for a
    caller view. *)
Definition materialize_to_uninitialized
    (f : nat → Z) (mask : list nat) (dst : list (option Z)) : list (option Z) :=
  foldl (λ d i, <[i := Some (f i)]> d) dst mask.

(** [GenericVectorArray::extend_single__copy (i, values)]. *)
Definition extend_single__copy
    (i : nat) (values : list Z) (dst : list (list Z)) : list (list Z) :=
  match dst !! i with
  | Some old => <[i := old ++ values]> dst
  | None => dst
  end.

(** [GenericVectorArray::extend_multiple__copy (mask, values)]. *)
Definition extend_multiple__copy
    (mask : list nat) (values : nat → list Z) (dst : list (list Z))
  : list (list Z) :=
  foldl (λ d i, extend_single__copy i (values i) d) dst mask.

(** ** Output values of the storage *)

Inductive OutputValue :=
| SingleFromCallerValue (list_ref : nat → Z)
| VectorFromCallerValue (list_list_ref : nat → list Z)
| SingleValue (array_ref : nat) (max_remaining_users : Z)
| VectorValue (vector_array : nat) (max_remaining_users : Z).

(** ** Network interface *)

Inductive MFDataType :=
| MFSingle (type : nat)
| MFVector (base_type : nat).

Inductive MFParamType :=
| SingleInput
| VectorInput
| SingleOutput
| VectorOutput
| MutableSingle
| MutableVector.

(** What [MFParamsBuilder] hands to a function body. *)
Inductive BoundParam :=
| ReadonlySingleInput (values : GenericVirtualListRef)
| ReadonlyVectorInput (values : GenericVirtualListListRef)
| BoundSingleOutput (b : nat)
| BoundVectorOutput (b : nat)
| BoundMutableSingle (b : nat)
| BoundMutableVector (b : nat).

(** What a function body leaves in its writable parameters, by parameter
    index. *)
Record FnResult := {
  single_result : nat → list (option Z);
  vector_result : nat → list (list Z);
}.

(** The part of [MFNetwork], [MFNode], [MFSocket] and [MultiFunction] that
    network.cc reads.  The graph and the function bodies are built
    elsewhere; the evaluation only reads them. *)
Record MFNetwork := {
  socket_id_amount : nat;
  node_id_amount : nat;
  dummy_nodes : list nat;
  function_nodes : list nat;
  node_is_dummy : nat → bool;
  node_inputs : nat → list nat;
  node_outputs : nat → list nat;
  socket_is_input : nat → bool;
  socket_node : nat → nat;
  socket_data_type : nat → MFDataType;
  socket_origin : nat → nat;
  socket_targets : nat → list nat;
  fn_param_types : nat → list MFParamType;
  input_for_param : nat → nat → nat;
  output_for_param : nat → nat → nat;
  fn_call : nat → list nat → list BoundParam → list (option Buffer) → FnResult;
}.

(** ** State of one evaluation call

    The storage object ([m_mask], [m_value_per_output_id]), the memory its
    buffers are allocated from, and two logs that record, newest first,
    the calls of [finish_input_socket] and of the function bodies. *)
Record EvalState := {
  m_mask : list nat;
  m_value_per_output_id : list (option OutputValue);
  memory : list (option Buffer);
  finished_inputs : list nat;
  called_nodes : list nat;
}.

Definition with_values (v : list (option OutputValue)) (s : EvalState) :=
  {| m_mask := m_mask s; m_value_per_output_id := v; memory := memory s;
     finished_inputs := finished_inputs s; called_nodes := called_nodes s |}.

Definition with_memory (h : list (option Buffer)) (s : EvalState) :=
  {| m_mask := m_mask s; m_value_per_output_id := m_value_per_output_id s;
     memory := h; finished_inputs := finished_inputs s;
     called_nodes := called_nodes s |}.

Definition log_finish (socket : nat) (s : EvalState) :=
  {| m_mask := m_mask s; m_value_per_output_id := m_value_per_output_id s;
     memory := memory s; finished_inputs := socket :: finished_inputs s;
     called_nodes := called_nodes s |}.

Definition log_call (node : nat) (s : EvalState) :=
  {| m_mask := m_mask s; m_value_per_output_id := m_value_per_output_id s;
     memory := memory s; finished_inputs := finished_inputs s;
     called_nodes := node :: called_nodes s |}.

(** Outcomes of the stateful operations, and the evaluation monad. *)
Inductive Outcome (A : Type) : Type :=
| Ok (a : A) (s : EvalState)
| AssertFail (s : EvalState)
| OutOfFuel (s : EvalState).
Arguments Ok {A} a s.
Arguments AssertFail {A} s.
Arguments OutOfFuel {A} s.

Definition state_of {A} (o : Outcome A) : EvalState :=
  match o with Ok _ s | AssertFail s | OutOfFuel s => s end.

Definition Eval (A : Type) : Type := EvalState → Outcome A.

Definition ret {A} (a : A) : Eval A := λ s, Ok a s.

Definition bind {A B} (c : Eval A) (k : A → Eval B) : Eval B :=
  λ s, match c s with
       | Ok a s' => k a s'
       | AssertFail s' => AssertFail s'
       | OutOfFuel s' => OutOfFuel s'
       end.

Notation "'do' x <- c ; k" := (bind c (λ x, k))
  (at level 10, x name, c at level 100, k at level 200).
Notation "'do_' c ; k" := (bind c (λ _, k))
  (at level 10, c at level 100, k at level 200).

Definition BLI_assert (c : bool) : Eval unit :=
  λ s, if c then Ok tt s else AssertFail s.

Definition gets {A} (f : EvalState → A) : Eval A := λ s, Ok (f s) s.

Definition modify (f : EvalState → EvalState) : Eval unit := λ s, Ok tt (f s).

(** [for (x : xs) body (x)] *)
Fixpoint for_each {A} (xs : list A) (body : A → Eval unit) : Eval unit :=
  match xs with
  | [] => ret tt
  | x :: xs' => do_ body x; for_each xs' body
  end.

(** *** Memory *)

Definition allocate (b : Buffer) : Eval nat :=
  λ s, Ok (length (memory s)) (with_memory (memory s ++ [Some b]) s).

Definition deallocate (b : nat) : Eval unit :=
  λ s, match memory s !! b with
       | Some (Some _) => Ok tt (with_memory (<[b := None]> (memory s)) s)
       | _ => AssertFail s
       end.

Definition read_array (b : nat) : Eval (list (option Z)) :=
  λ s, match memory s !! b with
       | Some (Some (ArrayBuffer cells)) => Ok cells s
       | _ => AssertFail s
       end.

Definition read_vector_array (b : nat) : Eval (list (list Z)) :=
  λ s, match memory s !! b with
       | Some (Some (VectorArray lists)) => Ok lists s
       | _ => AssertFail s
       end.

(** A write through a buffer reference keeps the kind of the buffer. *)
Definition write_array (b : nat) (cells : list (option Z))
    (h : list (option Buffer)) : list (option Buffer) :=
  match h !! b with
  | Some (Some (ArrayBuffer _)) => <[b := Some (ArrayBuffer cells)]> h
  | _ => h
  end.

Definition write_vector_array (b : nat) (lists : list (list Z))
    (h : list (option Buffer)) : list (option Buffer) :=
  match h !! b with
  | Some (Some (VectorArray _)) => <[b := Some (VectorArray lists)]> h
  | _ => h
  end.

(** *** Slot table *)

(** [m_value_per_output_id[id]] as an rvalue. *)
Definition get_value (id : nat) : Eval (option OutputValue) :=
  λ s, match m_value_per_output_id s !! id with
       | Some v => Ok v s
       | None => AssertFail s
       end.

(** [m_value_per_output_id[id] = v]. *)
Definition set_value (id : nat) (v : option OutputValue) : Eval unit :=
  λ s, if decide (id < length (m_value_per_output_id s))
       then Ok tt (with_values (<[id := v]> (m_value_per_output_id s)) s)
       else AssertFail s.

Definition is_null (v : option OutputValue) : bool :=
  match v with None => true | Some _ => false end.

Definition single__cpp_type (t : MFDataType) : Eval nat :=
  match t with
  | MFSingle c => ret c
  | MFVector _ => do_ BLI_assert false; ret 0
  end.

Definition vector__cpp_base_type (t : MFDataType) : Eval nat :=
  match t with
  | MFVector c => ret c
  | MFSingle _ => do_ BLI_assert false; ret 0
  end.

(** The lists of a vector array seen as a list-of-lists view. *)
Definition lists_of (src : list (list Z)) : nat → list Z :=
  λ i, default [] (src !! i).

(** ** NetworkEvaluationStorage *)

Section storage.
Variable net : MFNetwork.

(** [socket.targets().size()], converted to the [int] it is stored in. *)
Definition target_count (socket : nat) : Z :=
  Z.of_nat (length (socket_targets net socket)).

Definition add_single_from_caller (socket : nat) (list_ref : nat → Z)
  : Eval unit :=
  do v <- get_value socket;
  do_ BLI_assert (is_null v);
  set_value socket (Some (SingleFromCallerValue list_ref)).

Definition add_vector_from_caller (socket : nat)
    (list_list_ref : nat → list Z) : Eval unit :=
  do v <- get_value socket;
  do_ BLI_assert (is_null v);
  set_value socket (Some (VectorFromCallerValue list_list_ref)).

Definition allocate_single_output (socket : nat) : Eval nat :=
  do v <- get_value socket;
  do_ BLI_assert (is_null v);
  do_ single__cpp_type (socket_data_type net socket);
  do mask <- gets m_mask;
  do buffer <- allocate (ArrayBuffer (replicate (min_array_size mask) None));
  do_ set_value socket (Some (SingleValue buffer (target_count socket)));
  ret buffer.

Definition allocate_vector_output (socket : nat) : Eval nat :=
  do v <- get_value socket;
  do_ BLI_assert (is_null v);
  do_ vector__cpp_base_type (socket_data_type net socket);
  do mask <- gets m_mask;
  do vector_array <- allocate (VectorArray (replicate (min_array_size mask) []));
  do_ set_value socket (Some (VectorValue vector_array (target_count socket)));
  ret vector_array.

(** In the branch [max_remaining_users == 1] the source stores the struct
    pointer at [to], clears [from] and then writes the new count through
    the pointer; the count is written here with the store at [to]. *)
Definition get_mutable_single (input output : nat) : Eval nat :=
  let from := socket_origin net input in
  let to := output in
  do any_value <- get_value from;
  do_ BLI_assert (negb (is_null any_value));
  do type_from <- single__cpp_type (socket_data_type net from);
  do type_to <- single__cpp_type (socket_data_type net to);
  do_ BLI_assert (bool_decide (type_from = type_to));
  match any_value with
  | Some (SingleValue array_ref users) =>
      if bool_decide (users = 1%Z) then
        do_ set_value to (Some (SingleValue array_ref (target_count to)));
        do_ set_value from None;
        ret array_ref
      else
        do mask <- gets m_mask;
        do src <- read_array array_ref;
        do new_buffer <- allocate (ArrayBuffer
            (copy_to_uninitialized_indices src
               (replicate (min_array_size mask) None) mask));
        do_ set_value to (Some (SingleValue new_buffer (target_count to)));
        ret new_buffer
  | Some (SingleFromCallerValue list_ref) =>
      do mask <- gets m_mask;
      do new_buffer <- allocate (ArrayBuffer
          (materialize_to_uninitialized list_ref mask
             (replicate (min_array_size mask) None)));
      do_ set_value to (Some (SingleValue new_buffer (target_count to)));
      ret new_buffer
  | _ => do_ BLI_assert false; ret 0
  end.

Definition get_mutable_vector (input output : nat) : Eval nat :=
  let from := socket_origin net input in
  let to := output in
  do any_value <- get_value from;
  do_ BLI_assert (negb (is_null any_value));
  do type_from <- vector__cpp_base_type (socket_data_type net from);
  do type_to <- vector__cpp_base_type (socket_data_type net to);
  do_ BLI_assert (bool_decide (type_from = type_to));
  match any_value with
  | Some (VectorValue vector_array users) =>
      if bool_decide (users = 1%Z) then
        do_ set_value to (Some (VectorValue vector_array (target_count to)));
        do_ set_value from None;
        ret vector_array
      else
        do mask <- gets m_mask;
        do src <- read_vector_array vector_array;
        do new_array <- allocate (VectorArray
            (extend_multiple__copy mask (lists_of src)
               (replicate (min_array_size mask) [])));
        do_ set_value to (Some (VectorValue new_array (target_count to)));
        ret new_array
  | Some (VectorFromCallerValue list_list_ref) =>
      do mask <- gets m_mask;
      do new_array <- allocate (VectorArray
          (foldl (λ d i, extend_single__copy i (list_list_ref i) d)
             (replicate (min_array_size mask) []) mask));
      do_ set_value to (Some (VectorValue new_array (target_count to)));
      ret new_array
  | _ => do_ BLI_assert false; ret 0
  end.

(** A null slot fails [BLI_assert (any_value != nullptr)] and the
    dereference [any_value->type] that follows it. *)
Definition finish_input_socket (socket : nat) : Eval unit :=
  let origin := socket_origin net socket in
  do_ modify (log_finish socket);
  do any_value <- get_value origin;
  match any_value with
  | None => BLI_assert false
  | Some (SingleFromCallerValue _) => ret tt
  | Some (VectorFromCallerValue _) => ret tt
  | Some (SingleValue array_ref users) =>
      do_ BLI_assert (bool_decide (1 ≤ users)%Z);
      if bool_decide ((users - 1)%Z = 0%Z) then
        do_ deallocate array_ref;
        set_value origin None
      else set_value origin (Some (SingleValue array_ref (users - 1)))
  | Some (VectorValue vector_array users) =>
      do_ BLI_assert (bool_decide (1 ≤ users)%Z);
      if bool_decide ((users - 1)%Z = 0%Z) then
        do_ deallocate vector_array;
        set_value origin None
      else set_value origin (Some (VectorValue vector_array (users - 1)))
  end.

Definition get_single_input (socket : nat) : Eval GenericVirtualListRef :=
  let origin := socket_origin net socket in
  do any_value <- get_value origin;
  match any_value with
  | Some (SingleValue array_ref _) => ret (ListOfArray array_ref)
  | Some (SingleFromCallerValue list_ref) => ret (ListOfCaller list_ref)
  | _ => do_ BLI_assert false; ret (ListOfCaller (λ _, 0%Z))
  end.

Definition get_vector_input (socket : nat) : Eval GenericVirtualListListRef :=
  let origin := socket_origin net socket in
  do any_value <- get_value origin;
  match any_value with
  | Some (VectorValue vector_array _) => ret (ListListOfVectorArray vector_array)
  | Some (VectorFromCallerValue list_list_ref) =>
      ret (ListListOfCaller list_list_ref)
  | _ => do_ BLI_assert false; ret (ListListOfCaller (λ _, []))
  end.

Definition input_is_computed (socket : nat) : Eval bool :=
  let origin := socket_origin net socket in
  do any_value <- get_value origin;
  ret (negb (is_null any_value)).

(** [~NetworkEvaluationStorage] *)
Definition destruct_storage : Eval unit :=
  do values <- gets m_value_per_output_id;
  for_each values (λ any_value,
    match any_value with
    | Some (SingleValue array_ref _) => deallocate array_ref
    | Some (VectorValue vector_array _) => deallocate vector_array
    | _ => ret tt
    end).

End storage.

(** [NetworkEvaluationStorage (array_allocator, mask, socket_id_amount)] *)
Definition new_storage (mask : list nat) (socket_id_amount : nat) : EvalState :=
  {| m_mask := mask;
     m_value_per_output_id := replicate socket_id_amount None;
     memory := [];
     finished_inputs := [];
     called_nodes := [] |}.

(** ** MF_EvaluateNetwork *)

(** The parameters the caller passes to [MF_EvaluateNetwork::call], by
    global parameter index: the views it lends and the destinations it
    owns. *)
Inductive MFParam :=
| ParamSingleInput (values : nat → Z)
| ParamVectorInput (values : nat → list Z)
| ParamSingleOutput (cells : list (option Z))
| ParamVectorOutput (lists : list (list Z)).

(** What a call of [MF_EvaluateNetwork::call] leaves: the caller's
    parameters when it returned at once, or the outcome of the evaluation
    with the caller's parameters after it. *)
Inductive CallResult :=
| ReturnedAtOnce (params : list MFParam)
| Evaluated (o : Outcome (list MFParam)).

Record MF_EvaluateNetwork := {
  network : MFNetwork;
  m_inputs : list nat;
  m_outputs : list nat;
}.

Definition is_single (t : MFDataType) : bool :=
  match t with MFSingle _ => true | MFVector _ => false end.

(** *** Depth of the nodes *)

Definition res_bind {A B} (c : Res A) (k : A → Res B) : Res B :=
  match c with
  | Done a => k a
  | Failed => Failed
  | Exhausted => Exhausted
  end.

(** [array[id]] on an [Array<int>]. *)
Definition depth_at (depths : list Z) (id : nat) : Res Z :=
  match depths !! id with
  | Some d => Done d
  | None => Failed
  end.

Section depth.
Variable net : MFNetwork.

Definition origin_node (socket : nat) : nat :=
  socket_node net (socket_origin net socket).

(** The [for] loop over [current.inputs ()]: the nodes pushed, whether all
    inputs were computed, and the largest incoming depth. *)
Fixpoint check_incoming (depths : list Z) (inputs : list nat)
    (stack : list nat) (all_inputs_computed : bool) (max_incoming_depth : Z)
  : Res (list nat * bool * Z) :=
  match inputs with
  | [] => Done (stack, all_inputs_computed, max_incoming_depth)
  | socket :: rest =>
      res_bind (depth_at depths (origin_node socket)) (λ origin_depth,
        if bool_decide (origin_depth = (-1)%Z) then
          check_incoming depths rest (origin_node socket :: stack) false
            max_incoming_depth
        else
          check_incoming depths rest stack all_inputs_computed
            (Z.max max_incoming_depth origin_depth))
  end.

(** One iteration of [while (!nodes_to_check.is_empty ())]; the top of the
    stack is the head of the list. *)
Definition depth_iteration (depths : list Z) (current : nat)
    (below : list nat) : Res (list Z * list nat) :=
  res_bind (depth_at depths current) (λ d,
    if bool_decide (0 ≤ d)%Z then Done (depths, below)
    else
      res_bind (check_incoming depths (node_inputs net current)
                  (current :: below) true 0%Z)
        (λ '(stack, all_inputs_computed, max_incoming_depth),
           if negb all_inputs_computed then Done (depths, stack)
           else Done (<[current := (max_incoming_depth + 1)%Z]> depths, below))).

Fixpoint depth_loop (fuel : nat) (depths : list Z) (stack : list nat)
  : Res (list Z) :=
  match stack with
  | [] => Done depths
  | current :: below =>
      match fuel with
      | 0 => Exhausted
      | S fuel' =>
          res_bind (depth_iteration depths current below)
            (λ '(depths', stack'), depth_loop fuel' depths' stack')
      end
  end.

(** [r_max_depths[node->id ()] = 0] for every dummy node. *)
Fixpoint zero_dummies (depths : list Z) (nodes : list nat) : Res (list Z) :=
  match nodes with
  | [] => Done depths
  | node :: rest =>
      if decide (node < length depths)
      then zero_dummies (<[node := 0%Z]> depths) rest
      else Failed
  end.

Definition compute_max_depth_per_node (fuel : nat) : Res (list Z) :=
  res_bind (zero_dummies (replicate (node_id_amount net) (-1)%Z)
              (dummy_nodes net))
    (λ depths, depth_loop fuel depths (reverse (function_nodes net))).

End depth.

(** *** Scheduler, function invocation and the call *)

Section evaluate.
(** [std::sort] with a comparison; which of two equal elements comes first
    is left to the implementation. *)
Variable std_sort : (nat → nat → bool) → list nat → list nat.
Variable fn : MF_EvaluateNetwork.

Local Abbreviation net := (network fn).

(** The [switch] over the parameter type in [evaluate_function]. *)
Definition bind_param (node param_index : nat) (param_type : MFParamType)
  : Eval BoundParam :=
  match param_type with
  | SingleInput =>
      do values <- get_single_input net (input_for_param net node param_index);
      ret (ReadonlySingleInput values)
  | VectorInput =>
      do values <- get_vector_input net (input_for_param net node param_index);
      ret (ReadonlyVectorInput values)
  | SingleOutput =>
      do values <- allocate_single_output net
                     (output_for_param net node param_index);
      ret (BoundSingleOutput values)
  | VectorOutput =>
      do values <- allocate_vector_output net
                     (output_for_param net node param_index);
      ret (BoundVectorOutput values)
  | MutableSingle =>
      do values <- get_mutable_single net
                     (input_for_param net node param_index)
                     (output_for_param net node param_index);
      ret (BoundMutableSingle values)
  | MutableVector =>
      do values <- get_mutable_vector net
                     (input_for_param net node param_index)
                     (output_for_param net node param_index);
      ret (BoundMutableVector values)
  end.

(** [for (uint param_index : function.param_indices ())], from
    [param_index] on. *)
Fixpoint bind_params (node param_index : nat) (param_types : list MFParamType)
  : Eval (list BoundParam) :=
  match param_types with
  | [] => ret []
  | param_type :: rest =>
      do p <- bind_param node param_index param_type;
      do ps <- bind_params node (S param_index) rest;
      ret (p :: ps)
  end.

(** The body writes what it computed into its writable parameters. *)
Fixpoint write_results (r : FnResult) (param_index : nat)
    (params : list BoundParam) (h : list (option Buffer))
  : list (option Buffer) :=
  match params with
  | [] => h
  | p :: rest =>
      let h' :=
        match p with
        | BoundSingleOutput b | BoundMutableSingle b =>
            write_array b (single_result r param_index) h
        | BoundVectorOutput b | BoundMutableVector b =>
            write_vector_array b (vector_result r param_index) h
        | _ => h
        end in
      write_results r (S param_index) rest h'
  end.

(** [function.call (storage.mask (), params_builder, global_context)] *)
Definition call_function (node : nat) (params : list BoundParam) : Eval unit :=
  λ s, let r := fn_call net node (m_mask s) params (memory s) in
       Ok tt (log_call node
                (with_memory (write_results r 0 params (memory s)) s)).

Definition evaluate_function (function_node : nat) : Eval unit :=
  do params <- bind_params function_node 0 (fn_param_types net function_node);
  do_ call_function function_node params;
  for_each (node_inputs net function_node) (finish_input_socket net).

(** The inputs of a node that are not computed, in the order of the
    node's inputs. *)
Fixpoint find_missing_inputs (inputs : list nat) : Eval (list nat) :=
  match inputs with
  | [] => ret []
  | input_socket :: rest =>
      do computed <- input_is_computed net input_socket;
      do missing <- find_missing_inputs rest;
      ret (if computed then missing else input_socket :: missing)
  end.

(** The comparison handed to [std::sort]. *)
Definition depth_less (max_depths : list Z) (a b : nat) : bool :=
  bool_decide (default 0%Z (max_depths !! origin_node net a)
               < default 0%Z (max_depths !! origin_node net b))%Z.

(** One iteration of [while (!sockets_to_compute.is_empty ())] with
    [socket] on top of the stack and [below] under it. *)
Definition scheduler_iteration (max_depths : list Z) (socket : nat)
    (below : list nat) : Eval (list nat) :=
  if socket_is_input net socket then
    do computed <- input_is_computed net socket;
    if computed then ret below
    else ret (socket_origin net socket :: socket :: below)
  else
    let function_node := socket_node net socket in
    do_ BLI_assert (negb (node_is_dummy net function_node));
    do missing_inputs <- find_missing_inputs (node_inputs net function_node);
    let pushed := reverse missing_inputs ++ socket :: below in
    let sorted := std_sort (depth_less max_depths) missing_inputs in
    let pushed_again := reverse sorted ++ pushed in
    match missing_inputs with
    | [] =>
        do_ evaluate_function function_node;
        ret below
    | _ => ret pushed_again
    end.

Fixpoint scheduler_loop (fuel : nat) (max_depths : list Z)
    (sockets_to_compute : list nat) : Eval unit :=
  match sockets_to_compute with
  | [] => ret tt
  | socket :: below =>
      match fuel with
      | 0 => OutOfFuel
      | S fuel' =>
          do stack <- scheduler_iteration max_depths socket below;
          scheduler_loop fuel' max_depths stack
      end
  end.

Definition evaluate_network_to_compute_outputs (fuel : nat) : Eval unit :=
  λ s, match compute_max_depth_per_node net fuel with
       | Done max_depths =>
           scheduler_loop fuel max_depths (reverse (m_outputs fn)) s
       | Failed => AssertFail s
       | Exhausted => OutOfFuel s
       end.

(** [params.readonly_single_input (index)] and its siblings. *)
Definition readonly_single_input (params : list MFParam) (index : nat)
  : Eval (nat → Z) :=
  match params !! index with
  | Some (ParamSingleInput values) => ret values
  | _ => do_ BLI_assert false; ret (λ _, 0%Z)
  end.

Definition readonly_vector_input (params : list MFParam) (index : nat)
  : Eval (nat → list Z) :=
  match params !! index with
  | Some (ParamVectorInput values) => ret values
  | _ => do_ BLI_assert false; ret (λ _, [])
  end.

Definition uninitialized_single_output (params : list MFParam) (index : nat)
  : Eval (list (option Z)) :=
  match params !! index with
  | Some (ParamSingleOutput cells) => ret cells
  | _ => do_ BLI_assert false; ret []
  end.

Definition vector_output (params : list MFParam) (index : nat)
  : Eval (list (list Z)) :=
  match params !! index with
  | Some (ParamVectorOutput lists) => ret lists
  | _ => do_ BLI_assert false; ret []
  end.

(** [for (uint input_index : m_inputs.index_range ())], from [input_index]
    on. *)
Fixpoint copy_inputs_from (params : list MFParam) (input_index : nat)
    (inputs : list nat) : Eval unit :=
  match inputs with
  | [] => ret tt
  | socket :: rest =>
      do_ (if is_single (socket_data_type net socket) then
             do input_list <- readonly_single_input params input_index;
             add_single_from_caller socket input_list
           else
             do input_list_list <- readonly_vector_input params input_index;
             add_vector_from_caller socket input_list_list);
      copy_inputs_from params (S input_index) rest
  end.

Definition copy_inputs_to_storage (params : list MFParam) : Eval unit :=
  copy_inputs_from params 0 (m_inputs fn).

(** The body of the loop of [copy_computed_values_to_outputs].  The
    destination of the caller is written at every index of the mask; a
    destination that lacks one of these indices is accessed out of
    bounds. *)
Definition copy_output (params : list MFParam) (output_index socket : nat)
  : Eval (list MFParam) :=
  let global_param_index := length (m_inputs fn) + output_index in
  do mask <- gets m_mask;
  if is_single (socket_data_type net socket) then
    do values <- get_single_input net socket;
    do output_values <- uninitialized_single_output params global_param_index;
    do_ BLI_assert (mask_fits mask (length output_values));
    match values with
    | ListOfCaller f =>
        ret (<[global_param_index :=
                 ParamSingleOutput
                   (materialize_to_uninitialized f mask output_values)]> params)
    | ListOfArray b =>
        do src <- read_array b;
        ret (<[global_param_index :=
                 ParamSingleOutput
                   (copy_to_uninitialized_indices src output_values mask)]>
               params)
    end
  else
    do values <- get_vector_input net socket;
    do output_values <- vector_output params global_param_index;
    do_ BLI_assert (mask_fits mask (length output_values));
    match values with
    | ListListOfCaller f =>
        ret (<[global_param_index :=
                 ParamVectorOutput
                   (extend_multiple__copy mask f output_values)]> params)
    | ListListOfVectorArray b =>
        do src <- read_vector_array b;
        ret (<[global_param_index :=
                 ParamVectorOutput
                   (extend_multiple__copy mask (lists_of src) output_values)]>
               params)
    end.

Fixpoint copy_outputs_from (params : list MFParam) (output_index : nat)
    (outputs : list nat) : Eval (list MFParam) :=
  match outputs with
  | [] => ret params
  | socket :: rest =>
      do params' <- copy_output params output_index socket;
      copy_outputs_from params' (S output_index) rest
  end.

Definition copy_computed_values_to_outputs (params : list MFParam)
  : Eval (list MFParam) :=
  copy_outputs_from params 0 (m_outputs fn).

(** [MF_EvaluateNetwork::call].  With an empty mask the call returns
    before a storage is constructed; otherwise the outcome carries the
    state of the storage, after its destructor ran when the call
    returned. *)
Definition call (fuel : nat) (mask : list nat) (params : list MFParam)
  : CallResult :=
  if bool_decide (length mask = 0) then ReturnedAtOnce params
  else
    Evaluated
      ((do_ copy_inputs_to_storage params;
        do_ evaluate_network_to_compute_outputs fuel;
        do params' <- copy_computed_values_to_outputs params;
        do_ destruct_storage;
        ret params')
         (new_storage mask (socket_id_amount net))).

End evaluate.

(** ** Two small networks

    [add_mul]: the caller lends [a], [b], [c]; [Add (a, b) -> x],
    [Mul (x, c) -> y]; [y] is requested.
    [in_place]: [Fill () -> x], [Negate (x)] takes [x] as a mutable
    parameter and gives [y]; [y] is requested. *)

Module Networks.

(** Insertion sort, as one admissible [std::sort]. *)
Fixpoint insert_sorted (lt : nat → nat → bool) (x : nat) (l : list nat)
  : list nat :=
  match l with
  | [] => [x]
  | y :: l' => if lt y x then y :: insert_sorted lt x l' else x :: y :: l'
  end.

Definition insertion_sort (lt : nat → nat → bool) (l : list nat) : list nat :=
  foldr (insert_sorted lt) [] l.

Definition view_single (h : list (option Buffer)) (p : option BoundParam)
    (i : nat) : Z :=
  match p with
  | Some (ReadonlySingleInput (ListOfCaller f)) => f i
  | Some (ReadonlySingleInput (ListOfArray b))
  | Some (BoundMutableSingle b) =>
      match h !! b with
      | Some (Some (ArrayBuffer cells)) => default 0%Z (mjoin (cells !! i))
      | _ => 0%Z
      end
  | _ => 0%Z
  end.

(** A body that combines its first two parameters with [op] at the mask
    indices and writes the result to every single output. *)
Definition pointwise (op : Z → Z → Z) (mask : list nat)
    (params : list BoundParam) (h : list (option Buffer)) : FnResult :=
  {| single_result := λ _,
       foldl (λ d i, <[i := Some (op (view_single h (params !! 0) i)
                                     (view_single h (params !! 1) i))]> d)
         (replicate (min_array_size mask) None) mask;
     vector_result := λ _, [] |}.

Definition add_mul_net : MFNetwork := {|
  socket_id_amount := 10;
  node_id_amount := 4;
  dummy_nodes := [0; 3];
  function_nodes := [1; 2];
  node_is_dummy := λ n, match n with 1 | 2 => false | _ => true end;
  node_inputs := λ n,
    match n with 1 => [3; 4] | 2 => [6; 7] | 3 => [9] | _ => [] end;
  node_outputs := λ n,
    match n with 0 => [0; 1; 2] | 1 => [5] | 2 => [8] | _ => [] end;
  socket_is_input := λ s,
    match s with 3 | 4 | 6 | 7 | 9 => true | _ => false end;
  socket_node := λ s,
    match s with
    | 0 | 1 | 2 => 0 | 3 | 4 | 5 => 1 | 6 | 7 | 8 => 2 | _ => 3
    end;
  socket_data_type := λ _, MFSingle 0;
  socket_origin := λ s,
    match s with 3 => 0 | 4 => 1 | 6 => 5 | 7 => 2 | 9 => 8 | _ => 0 end;
  socket_targets := λ s,
    match s with
    | 0 => [3] | 1 => [4] | 2 => [7] | 5 => [6] | 8 => [9] | _ => []
    end;
  fn_param_types := λ n,
    match n with
    | 1 | 2 => [SingleInput; SingleInput; SingleOutput]
    | _ => []
    end;
  input_for_param := λ n i,
    match n, i with
    | 1, 0 => 3 | 1, 1 => 4 | 2, 0 => 6 | 2, 1 => 7 | _, _ => 0
    end;
  output_for_param := λ n i,
    match n, i with 1, 2 => 5 | 2, 2 => 8 | _, _ => 0 end;
  fn_call := λ n,
    match n with 1 => pointwise Z.add | _ => pointwise Z.mul end;
|}.

Definition add_mul : MF_EvaluateNetwork :=
  {| network := add_mul_net; m_inputs := [0; 1; 2]; m_outputs := [9] |}.

Definition add_mul_params : list MFParam :=
  [ ParamSingleInput (λ i, Z.of_nat (S i));
    ParamSingleInput (λ i, (10 * Z.of_nat (S i))%Z);
    ParamSingleInput (λ _, 2%Z);
    ParamSingleOutput [None; None; None] ].

Definition in_place_net : MFNetwork := {|
  socket_id_amount := 4;
  node_id_amount := 3;
  dummy_nodes := [2];
  function_nodes := [0; 1];
  node_is_dummy := λ n, match n with 0 | 1 => false | _ => true end;
  node_inputs := λ n, match n with 1 => [1] | 2 => [3] | _ => [] end;
  node_outputs := λ n, match n with 0 => [0] | 1 => [2] | _ => [] end;
  socket_is_input := λ s, match s with 1 | 3 => true | _ => false end;
  socket_node := λ s, match s with 0 => 0 | 1 | 2 => 1 | _ => 2 end;
  socket_data_type := λ _, MFSingle 0;
  socket_origin := λ s, match s with 1 => 0 | 3 => 2 | _ => 0 end;
  socket_targets := λ s, match s with 0 => [1] | 2 => [3] | _ => [] end;
  fn_param_types := λ n,
    match n with 0 => [SingleOutput] | 1 => [MutableSingle] | _ => [] end;
  input_for_param := λ n i, match n, i with 1, 0 => 1 | _, _ => 0 end;
  output_for_param := λ n i,
    match n, i with 0, 0 => 0 | 1, 0 => 2 | _, _ => 0 end;
  fn_call := λ n,
    match n with
    | 0 => pointwise (λ _ _, 7%Z)
    | _ => pointwise (λ x _, (- x)%Z)
    end;
|}.

Definition in_place : MF_EvaluateNetwork :=
  {| network := in_place_net; m_inputs := []; m_outputs := [3] |}.

(** A node with two outputs of which only the first has a target. *)
Definition unused_output_net : MFNetwork := {|
  socket_id_amount := 3;
  node_id_amount := 2;
  dummy_nodes := [1];
  function_nodes := [0];
  node_is_dummy := λ n, match n with 0 => false | _ => true end;
  node_inputs := λ n, match n with 1 => [2] | _ => [] end;
  node_outputs := λ n, match n with 0 => [0; 1] | _ => [] end;
  socket_is_input := λ s, match s with 2 => true | _ => false end;
  socket_node := λ s, match s with 0 | 1 => 0 | _ => 1 end;
  socket_data_type := λ _, MFSingle 0;
  socket_origin := λ _, 0;
  socket_targets := λ s, match s with 0 => [2] | _ => [] end;
  fn_param_types := λ n,
    match n with 0 => [SingleOutput; SingleOutput] | _ => [] end;
  input_for_param := λ _ _, 0;
  output_for_param := λ n i, match n, i with 0, 1 => 1 | _, _ => 0 end;
  fn_call := λ _, pointwise (λ _ _, 7%Z);
|}.

Definition unused_output : MF_EvaluateNetwork :=
  {| network := unused_output_net; m_inputs := []; m_outputs := [2] |}.

(** An input of the call that is requested as an output of the call. *)
Definition forward_net : MFNetwork := {|
  socket_id_amount := 2;
  node_id_amount := 2;
  dummy_nodes := [0; 1];
  function_nodes := [];
  node_is_dummy := λ _, true;
  node_inputs := λ n, match n with 1 => [1] | _ => [] end;
  node_outputs := λ n, match n with 0 => [0] | _ => [] end;
  socket_is_input := λ s, match s with 1 => true | _ => false end;
  socket_node := λ s, s;
  socket_data_type := λ _, MFSingle 0;
  socket_origin := λ _, 0;
  socket_targets := λ s, match s with 0 => [1] | _ => [] end;
  fn_param_types := λ _, [];
  input_for_param := λ _ _, 0;
  output_for_param := λ _ _, 0;
  fn_call := λ _, pointwise Z.add;
|}.

Definition forward : MF_EvaluateNetwork :=
  {| network := forward_net; m_inputs := [0]; m_outputs := [1] |}.

Definition forward_params : list MFParam :=
  [ ParamSingleInput (λ i, (Z.of_nat i + 5)%Z);
    ParamSingleOutput [None; None; None] ].

(** A storage of [in_place_net] after its first node ran: the buffer of
    socket 0 has one remaining user. *)
Definition held_once : EvalState :=
  {| m_mask := [0; 1; 2];
     m_value_per_output_id := [Some (SingleValue 0 1); None; None; None];
     memory := [Some (ArrayBuffer [Some 7%Z; Some 7%Z; Some 7%Z])];
     finished_inputs := [];
     called_nodes := [0] |}.

(** What the call on [add_mul] with the mask [0; 1; 2] and
    [add_mul_params] leaves: the state of the storage after the inputs
    were bound, the state when the call has returned, and the parameters
    of the caller. *)
Definition add_mul_bound : EvalState :=
  {| m_mask := [0; 1; 2];
     m_value_per_output_id :=
       [ Some (SingleFromCallerValue (λ i, Z.of_nat (S i)));
         Some (SingleFromCallerValue (λ i, (10 * Z.of_nat (S i))%Z));
         Some (SingleFromCallerValue (λ _, 2%Z));
         None; None; None; None; None; None; None ];
     memory := [];
     finished_inputs := [];
     called_nodes := [] |}.

Definition add_mul_final : EvalState :=
  {| m_mask := [0; 1; 2];
     m_value_per_output_id :=
       [ Some (SingleFromCallerValue (λ i, Z.of_nat (S i)));
         Some (SingleFromCallerValue (λ i, (10 * Z.of_nat (S i))%Z));
         Some (SingleFromCallerValue (λ _, 2%Z));
         None; None; None; None; None; Some (SingleValue 1 1); None ];
     memory := [None; None];
     finished_inputs := [7; 6; 4; 3];
     called_nodes := [2; 1] |}.

Definition add_mul_returned : list MFParam :=
  [ ParamSingleInput (λ i, Z.of_nat (S i));
    ParamSingleInput (λ i, (10 * Z.of_nat (S i))%Z);
    ParamSingleInput (λ _, 2%Z);
    ParamSingleOutput [Some 22%Z; Some 44%Z; Some 66%Z] ].

(** What the call on [forward] with the mask [0; 2] leaves. *)
Definition forward_final : EvalState :=
  {| m_mask := [0; 2];
     m_value_per_output_id :=
       [Some (SingleFromCallerValue (λ i, (Z.of_nat i + 5)%Z)); None];
     memory := [];
     finished_inputs := [];
     called_nodes := [] |}.

Definition forward_returned : list MFParam :=
  [ ParamSingleInput (λ i, (Z.of_nat i + 5)%Z);
    ParamSingleOutput [Some 5%Z; None; Some 7%Z] ].


(** The storage of [in_place] where the call on it stops. *)
Definition in_place_stopped : EvalState :=
  {| m_mask := [0; 1; 2];
     m_value_per_output_id := [None; None; Some (SingleValue 0 1); None];
     memory := [Some (ArrayBuffer [Some (-7)%Z; Some (-7)%Z; Some (-7)%Z])];
     finished_inputs := [1];
     called_nodes := [1; 0] |}.

(** A network in which node 2 consumes its own output; the requested
    output, socket 1, is fed by the input of the call and does not depend
    on node 2. *)
Definition self_loop_net : MFNetwork := {|
  socket_id_amount := 4;
  node_id_amount := 3;
  dummy_nodes := [0; 1];
  function_nodes := [2];
  node_is_dummy := λ n, match n with 2 => false | _ => true end;
  node_inputs := λ n, match n with 1 => [1] | 2 => [2] | _ => [] end;
  node_outputs := λ n, match n with 0 => [0] | 2 => [3] | _ => [] end;
  socket_is_input := λ s, match s with 1 | 2 => true | _ => false end;
  socket_node := λ s, match s with 0 => 0 | 1 => 1 | _ => 2 end;
  socket_data_type := λ _, MFSingle 0;
  socket_origin := λ s, match s with 2 => 3 | _ => 0 end;
  socket_targets := λ s, match s with 0 => [1] | 3 => [2] | _ => [] end;
  fn_param_types := λ n,
    match n with 2 => [SingleInput; SingleOutput] | _ => [] end;
  input_for_param := λ _ _, 2;
  output_for_param := λ _ _, 3;
  fn_call := λ _, pointwise Z.add;
|}.

Definition self_loop : MF_EvaluateNetwork :=
  {| network := self_loop_net; m_inputs := [0]; m_outputs := [1] |}.

(** An input of the call that is requested as an output of the call, next
    to a requested output that is computed in place: node 1 fills socket
    1, node 2 takes it through a mutable parameter as its only user and
    yields socket 3.  Socket 4 requests socket 0, the input of the call;
    socket 5 requests socket 3. *)
Definition forward_and_in_place_net : MFNetwork := {|
  socket_id_amount := 6;
  node_id_amount := 5;
  dummy_nodes := [0; 3; 4];
  function_nodes := [1; 2];
  node_is_dummy := λ n, match n with 1 | 2 => false | _ => true end;
  node_inputs := λ n,
    match n with 2 => [2] | 3 => [4] | 4 => [5] | _ => [] end;
  node_outputs := λ n,
    match n with 0 => [0] | 1 => [1] | 2 => [3] | _ => [] end;
  socket_is_input := λ s, match s with 2 | 4 | 5 => true | _ => false end;
  socket_node := λ s,
    match s with 0 => 0 | 1 => 1 | 2 | 3 => 2 | 4 => 3 | _ => 4 end;
  socket_data_type := λ _, MFSingle 0;
  socket_origin := λ s, match s with 2 => 1 | 5 => 3 | _ => 0 end;
  socket_targets := λ s,
    match s with 0 => [4] | 1 => [2] | 3 => [5] | _ => [] end;
  fn_param_types := λ n,
    match n with 1 => [SingleOutput] | 2 => [MutableSingle] | _ => [] end;
  input_for_param := λ n i, match n, i with 2, 0 => 2 | _, _ => 0 end;
  output_for_param := λ n i,
    match n, i with 1, 0 => 1 | 2, 0 => 3 | _, _ => 0 end;
  fn_call := λ n,
    match n with
    | 1 => pointwise (λ _ _, 7%Z)
    | _ => pointwise (λ x _, (- x)%Z)
    end;
|}.

Definition forward_and_in_place : MF_EvaluateNetwork :=
  {| network := forward_and_in_place_net;
     m_inputs := [0]; m_outputs := [4; 5] |}.

(** The same network with the requested outputs in the other order. *)
Definition in_place_and_forward : MF_EvaluateNetwork :=
  {| network := forward_and_in_place_net;
     m_inputs := [0]; m_outputs := [5; 4] |}.

Definition forward_and_in_place_params : list MFParam :=
  [ ParamSingleInput (λ i, (Z.of_nat i + 5)%Z);
    ParamSingleOutput [None; None; None];
    ParamSingleOutput [None; None; None] ].

(** The storage of either of them where the call on it stops. *)
Definition forward_and_in_place_stopped : EvalState :=
  {| m_mask := [0; 1; 2];
     m_value_per_output_id :=
       [ Some (SingleFromCallerValue (λ i, (Z.of_nat i + 5)%Z));
         None; None; Some (SingleValue 0 1); None; None ];
     memory := [Some (ArrayBuffer [Some (-7)%Z; Some (-7)%Z; Some (-7)%Z])];
     finished_inputs := [2];
     called_nodes := [2; 1] |}.

End Networks.

(** ** Predicates on the storage *)

Definition from_caller (v : OutputValue) : bool :=
  match v with
  | SingleFromCallerValue _ | VectorFromCallerValue _ => true
  | _ => false
  end.

(** The remaining-user count of an owned value. *)
Definition remaining_users (v : OutputValue) : option Z :=
  match v with
  | SingleValue _ users | VectorValue _ users => Some users
  | _ => None
  end.

(** The buffer of an owned value. *)
Definition owned_buffer (v : OutputValue) : option nat :=
  match v with
  | SingleValue b _ | VectorValue b _ => Some b
  | _ => None
  end.



(** The slot of a socket. *)
Definition slot (s : EvalState) (id : nat) : option (option OutputValue) :=
  m_value_per_output_id s !! id.

(** The buffers the destructor of the storage frees: those of the owned
    values that are still present. *)
Definition owned_by_slots (s : EvalState) (b : nat) : Prop :=
  ∃ id v, slot s id = Some (Some v) ∧ owned_buffer v = Some b.



(** The targets of every output socket are distinct, and they are inputs
    that have the socket as their origin. *)
Definition targets_wf (net : MFNetwork) : Prop :=
  Forall (λ id, NoDup (socket_targets net id) ∧
                Forall (λ t, socket_origin net t = id)
                  (socket_targets net id))
    (seq 0 (socket_id_amount net)).

(** ** Depth of the nodes: what is expected *)

Section depth_spec.
Variable net : MFNetwork.

(** The largest depth among the nodes that produce the given inputs;
    0 when there is none. *)
Definition max_origin_depth (depths : list Z) (inputs : list nat) : Z :=
  foldr (λ socket acc,
           Z.max (default (-1)%Z (depths !! origin_node net socket)) acc)
    0%Z inputs.

(** The nodes of the network are listed, the lists of dummy and function
    nodes are disjoint, every input of a function node comes from a listed
    node, and [rank] decreases from a function node to the nodes that
    produce its inputs: the graph is acyclic. *)
Definition acyclic (rank : nat → nat) : Prop :=
  Forall (λ node, node < node_id_amount net) (dummy_nodes net) ∧
  Forall (λ node,
            node < node_id_amount net ∧
            (node ∉ dummy_nodes net) ∧
            Forall (λ socket,
                      (origin_node net socket ∈ dummy_nodes net ∨
                       origin_node net socket ∈ function_nodes net) ∧
                      rank (origin_node net socket) < rank node)
              (node_inputs net node))
    (function_nodes net).

(** The depths the claim describes. *)
Definition depths_as_claimed (depths : list Z) : Prop :=
  length depths = node_id_amount net ∧
  (∀ node, node ∈ dummy_nodes net → depths !! node = Some 0%Z) ∧
  (∀ node, node ∈ function_nodes net →
     depths !! node
     = Some (1 + max_origin_depth depths (node_inputs net node))%Z).

(** Invariant of the worklist of [compute_max_depth_per_node]. *)
Definition assigned (depths : list Z) (node : nat) : Prop :=
  ∃ d, depths !! node = Some d ∧ (0 ≤ d)%Z.

Definition settled (depths : list Z) (node : nat) : Prop :=
  depths !! node
  = Some (1 + max_origin_depth depths (node_inputs net node))%Z ∧
  Forall (λ socket, assigned depths (origin_node net socket))
    (node_inputs net node).

Definition depths_inv (depths : list Z) : Prop :=
  length depths = node_id_amount net ∧
  (∀ node d, depths !! node = Some d → d = (-1)%Z ∨ (0 ≤ d)%Z) ∧
  (∀ node, node ∈ dummy_nodes net → depths !! node = Some 0%Z) ∧
  (∀ node, node ∈ function_nodes net →
     depths !! node = Some (-1)%Z ∨ settled depths node).

Definition depths_extend (depths depths' : list Z) : Prop :=
  ∀ node, assigned depths node → depths' !! node = depths !! node.

(** The nodes that [check_incoming] pushes: the origins that have no depth
    yet, the last one on top. *)
Fixpoint unassigned_origins (depths : list Z) (inputs : list nat)
  : list nat :=
  match inputs with
  | [] => []
  | socket :: rest =>
      if bool_decide (depths !! origin_node net socket = Some (-1)%Z)
      then unassigned_origins depths rest ++ [origin_node net socket]
      else unassigned_origins depths rest
  end.

(** Some iterations of the worklist lead from one configuration to
    another, whatever fuel is left after them. *)
Definition depth_leads (depths : list Z) (stack : list nat)
    (depths' : list Z) (stack' : list nat) : Prop :=
  ∃ k, ∀ fuel,
    depth_loop net (k + fuel) depths stack = depth_loop net fuel depths' stack'.

End depth_spec.

#[global] Instance targets_wf_dec net : Decision (targets_wf net).
Proof. unfold targets_wf. apply _. Defined.

#[global] Instance acyclic_dec net rank : Decision (acyclic net rank).
Proof. unfold acyclic. apply _. Defined.

(** ** Well-formed networks *)

Definition is_input_param (t : MFParamType) : bool :=
  match t with SingleOutput | VectorOutput => false | _ => true end.

Definition is_output_param (t : MFParamType) : bool :=
  match t with SingleInput | VectorInput => false | _ => true end.

Definition is_mutable_param (t : MFParamType) : bool :=
  match t with MutableSingle | MutableVector => true | _ => false end.

Definition is_single_param (t : MFParamType) : bool :=
  match t with SingleInput | SingleOutput | MutableSingle => true | _ => false end.

Section network_wf.
Variable fn : MF_EvaluateNetwork.
Local Abbreviation net := (network fn).

(** The input sockets of the parameters from [param_index] on, in the
    order of the parameters; likewise the output sockets. *)
Fixpoint param_inputs (node param_index : nat) (types : list MFParamType)
  : list nat :=
  match types with
  | [] => []
  | t :: rest =>
      (if is_input_param t then [input_for_param net node param_index]
       else []) ++ param_inputs node (S param_index) rest
  end.

Fixpoint param_outputs (node param_index : nat) (types : list MFParamType)
  : list nat :=
  match types with
  | [] => []
  | t :: rest =>
      (if is_output_param t then [output_for_param net node param_index]
       else []) ++ param_outputs node (S param_index) rest
  end.

(** The sockets of a parameter carry data of the category of the
    parameter, and the two sockets of a mutable parameter carry the same
    type. *)
Fixpoint params_typed (node param_index : nat) (types : list MFParamType)
  : Prop :=
  match types with
  | [] => True
  | t :: rest =>
      (is_input_param t = true →
       is_single (socket_data_type net (input_for_param net node param_index))
       = is_single_param t) ∧
      (is_output_param t = true →
       is_single (socket_data_type net (output_for_param net node param_index))
       = is_single_param t) ∧
      (is_mutable_param t = true →
       socket_data_type net (input_for_param net node param_index)
       = socket_data_type net (output_for_param net node param_index)) ∧
      params_typed node (S param_index) rest
  end.

(** An input socket belongs to its node, its origin is an output socket
    that lists it as a target and carries the same type, and an origin on
    a dummy node is one of the inputs of the call.  An output socket
    belongs to its node and its targets are the inputs it is the origin
    of. *)
Definition socket_wf (socket : nat) : Prop :=
  socket_node net socket < node_id_amount net ∧
  (socket_is_input net socket = true →
     socket ∈ node_inputs net (socket_node net socket) ∧
     socket_origin net socket < socket_id_amount net ∧
     socket_is_input net (socket_origin net socket) = false ∧
     socket ∈ socket_targets net (socket_origin net socket) ∧
     socket_data_type net socket
     = socket_data_type net (socket_origin net socket) ∧
     (node_is_dummy net (origin_node net socket) = true →
      socket_origin net socket ∈ m_inputs fn)) ∧
  (socket_is_input net socket = false →
     socket ∈ node_outputs net (socket_node net socket) ∧
     NoDup (socket_targets net socket) ∧
     Forall (λ t, t < socket_id_amount net ∧
                  socket_is_input net t = true ∧
                  socket_origin net t = socket)
       (socket_targets net socket)).

(** The sockets of a node are its own, a node is listed as what it is,
    and the sockets of a function node are those of its parameters. *)
Definition node_wf (node : nat) : Prop :=
  NoDup (node_inputs net node) ∧
  NoDup (node_outputs net node) ∧
  Forall (λ socket, socket < socket_id_amount net ∧
                    socket_is_input net socket = true ∧
                    socket_node net socket = node)
    (node_inputs net node) ∧
  Forall (λ socket, socket < socket_id_amount net ∧
                    socket_is_input net socket = false ∧
                    socket_node net socket = node)
    (node_outputs net node) ∧
  (node_is_dummy net node = true → node ∈ dummy_nodes net) ∧
  (node_is_dummy net node = false →
     node ∈ function_nodes net ∧
     node_inputs net node = param_inputs node 0 (fn_param_types net node) ∧
     node_outputs net node = param_outputs node 0 (fn_param_types net node) ∧
     params_typed node 0 (fn_param_types net node)).

Definition network_wf (rank : nat → nat) : Prop :=
  acyclic net rank ∧
  Forall socket_wf (seq 0 (socket_id_amount net)) ∧
  Forall node_wf (seq 0 (node_id_amount net)) ∧
  Forall (λ node, node_is_dummy net node = true) (dummy_nodes net) ∧
  NoDup (m_inputs fn) ∧
  Forall (λ socket, socket < socket_id_amount net ∧
                    socket_is_input net socket = false ∧
                    node_is_dummy net (socket_node net socket) = true)
    (m_inputs fn) ∧
  Forall (λ socket, socket < socket_id_amount net ∧
                    socket_is_input net socket = true ∧
                    node_is_dummy net (socket_node net socket) = true)
    (m_outputs fn).

(** Some function node of the network has a mutable parameter. *)
Definition has_mutable_param : Prop :=
  Exists (λ node, node_is_dummy net node = false ∧
                  Exists (λ t, is_mutable_param t = true)
                    (fn_param_types net node))
    (seq 0 (node_id_amount net)).

End network_wf.

#[global] Instance MFDataType_eq_dec : EqDecision MFDataType.
Proof. solve_decision. Defined.

#[global] Instance params_typed_dec fn node i types :
  Decision (params_typed fn node i types).
Proof. revert i. induction types; intros i; simpl; apply _. Defined.

#[global] Instance network_wf_dec fn rank : Decision (network_wf fn rank).
Proof. unfold network_wf, node_wf, socket_wf. apply _. Defined.

#[global] Instance has_mutable_param_dec fn : Decision (has_mutable_param fn).
Proof. unfold has_mutable_param. apply _. Defined.

(** ** Invariant of one evaluation *)

(** The view the caller passes for an input of the call matches the slot
    value [v]. *)
Definition holds_param (p : option MFParam) (v : OutputValue) : Prop :=
  match p, v with
  | Some (ParamSingleInput f), SingleFromCallerValue g => f = g
  | Some (ParamVectorInput f), VectorFromCallerValue g => f = g
  | _, _ => False
  end.

Section invariant.
Variable fn : MF_EvaluateNetwork.
Local Abbreviation net := (network fn).

(** The targets of an output socket on which [finish_input_socket] was not
    called yet. *)
Definition unfinished_targets (s : EvalState) (socket : nat) : list nat :=
  filter (λ t, t ∉ finished_inputs s) (socket_targets net socket).


(** The kind of a value is the category of the socket it is the value
    of. *)
Definition value_matches (t : MFDataType) (v : OutputValue) : Prop :=
  match v with
  | SingleFromCallerValue _ | SingleValue _ _ => is_single t = true
  | VectorFromCallerValue _ | VectorValue _ _ => is_single t = false
  end.

(** The buffer of an owned value is allocated and of the kind of the
    value. *)
Definition buffer_matches (h : list (option Buffer)) (v : OutputValue)
  : Prop :=
  match v with
  | SingleValue b _ => ∃ cells, h !! b = Some (Some (ArrayBuffer cells))
  | VectorValue b _ => ∃ lists, h !! b = Some (Some (VectorArray lists))
  | _ => True
  end.

(** The owned values and the allocated buffers correspond one to one. *)
Record heap_inv (s : EvalState) : Prop := {
  hi_matches : ∀ id v, slot s id = Some (Some v) → buffer_matches (memory s) v;
  hi_distinct : ∀ id id' v v' b,
    slot s id = Some (Some v) → slot s id' = Some (Some v') →
    owned_buffer v = Some b → owned_buffer v' = Some b → id = id';
  hi_owned : ∀ b x, memory s !! b = Some (Some x) → owned_by_slots s b;
}.

(** What holds of the slot of an output socket of a function node that was
    called: it is present with as many remaining users as it has
    unfinished targets, or it was cleared after the last of its targets
    was finished. *)
Definition called_slot (s : EvalState) (socket : nat) : Prop :=
  (∃ v, slot s socket = Some (Some v) ∧
        remaining_users v
        = Some (Z.of_nat (length (unfinished_targets s socket))) ∧
        value_matches (socket_data_type net socket) v ∧
        (unfinished_targets s socket = [] → socket_targets net socket = [])) ∨
  (slot s socket = Some None ∧ socket_targets net socket ≠ [] ∧
   unfinished_targets s socket = []).

(** What holds of the slot of an output socket of a dummy node: the
    inputs of the call hold the caller's views, the others are empty. *)
Definition dummy_slot (args : list MFParam) (s : EvalState) (socket : nat) :
    Prop :=
  (socket ∈ m_inputs fn →
   ∃ v, slot s socket = Some (Some v) ∧ from_caller v = true ∧
        value_matches (socket_data_type net socket) v ∧
        ∀ k, m_inputs fn !! k = Some socket → holds_param (args !! k) v) ∧
  (socket ∉ m_inputs fn → slot s socket = Some None).

Record core_inv (args : list MFParam) (mask : list nat) (s : EvalState) :
    Prop := {
  ci_mask : m_mask s = mask;
  ci_length : length (m_value_per_output_id s) = socket_id_amount net;
  ci_called_NoDup : NoDup (called_nodes s);
  ci_called : ∀ node, node ∈ called_nodes s →
    node < node_id_amount net ∧ node_is_dummy net node = false;
  ci_closed : ∀ node socket,
    node ∈ called_nodes s → socket ∈ node_inputs net node →
    node_is_dummy net (origin_node net socket) = true ∨
    origin_node net socket ∈ called_nodes s;
  ci_finished_NoDup : NoDup (finished_inputs s);
  ci_finished : ∀ socket, socket ∈ finished_inputs s →
    socket < socket_id_amount net ∧ socket_is_input net socket = true ∧
    socket_node net socket ∈ called_nodes s;
  ci_dummy : ∀ socket,
    socket < socket_id_amount net → socket_is_input net socket = false →
    node_is_dummy net (socket_node net socket) = true →
    dummy_slot args s socket;
  ci_uncalled : ∀ socket,
    socket < socket_id_amount net → socket_is_input net socket = false →
    node_is_dummy net (socket_node net socket) = false →
    socket_node net socket ∉ called_nodes s →
    slot s socket = Some None;
  ci_called_slot : ∀ socket,
    socket < socket_id_amount net → socket_is_input net socket = false →
    socket_node net socket ∈ called_nodes s →
    called_slot s socket;
  ci_heap : heap_inv s;
}.

(** Between two iterations of the scheduler every input of a called node
    is finished. *)
Definition boundary_inv (args : list MFParam) (mask : list nat)
    (s : EvalState) : Prop :=
  core_inv args mask s ∧
  ∀ node socket, node ∈ called_nodes s → socket ∈ node_inputs net node →
    socket ∈ finished_inputs s.

End invariant.

(** ** Runs of the scheduler *)

Section runs.
Variable std_sort : (nat → nat → bool) → list nat → list nat.
Variable fn : MF_EvaluateNetwork.
Variable max_depths : list Z.

(** Some iterations lead from one configuration of the scheduler to
    another, whatever fuel is left after them. *)
Definition leads (stack : list nat) (s : EvalState)
    (stack' : list nat) (s' : EvalState) : Prop :=
  ∃ k, ∀ fuel,
    scheduler_loop std_sort fn (k + fuel) max_depths stack s
    = scheduler_loop std_sort fn fuel max_depths stack' s'.

(** Some iterations end in a failed contract check. *)
Definition aborts (stack : list nat) (s s' : EvalState) : Prop :=
  ∃ k, ∀ fuel,
    scheduler_loop std_sort fn (k + fuel) max_depths stack s = AssertFail s'.

End runs.

(** ** Computations that run no function body *)

(** The computation ends, and it leaves the log of the calls and the mask
    as they were. *)
Definition quiet {A} (c : Eval A) : Prop :=
  ∀ s, match c s with
       | Ok _ s' | AssertFail s' =>
           called_nodes s' = called_nodes s ∧ m_mask s' = m_mask s
       | OutOfFuel _ => False
       end.

(** The computation empties no slot into which it was not told to write:
    an empty slot outside [written] stays empty. *)
Definition keeps_empty {A} (written : nat → Prop) (c : Eval A) : Prop :=
  ∀ s a s', c s = Ok a s' →
    ∀ id, ¬ written id → slot s id = Some None → slot s' id = Some None.

(** What a cell of the memory is: unallocated, freed, an array or a vector
    array. *)
Inductive CellKind := Unallocated | Freed | IsArray | IsVectorArray.

Definition cell_kind (c : option (option Buffer)) : CellKind :=
  match c with
  | None => Unallocated
  | Some None => Freed
  | Some (Some (ArrayBuffer _)) => IsArray
  | Some (Some (VectorArray _)) => IsVectorArray
  end.

(** Two memories that differ in the contents of their buffers only. *)
Definition same_shape (h h' : list (option Buffer)) : Prop :=
  ∀ b, cell_kind (h !! b) = cell_kind (h' !! b).

(** ** Binding the parameters of a function node *)

(** The state [s1] reached from [s] while the parameters of a node are
    bound, after the output sockets [bound] were given their buffers. *)
Definition params_bound (net : MFNetwork) (s s1 : EvalState)
    (bound : list nat) : Prop :=
  heap_inv s1 ∧
  m_mask s1 = m_mask s ∧
  finished_inputs s1 = finished_inputs s ∧
  called_nodes s1 = called_nodes s ∧
  length (m_value_per_output_id s1) = length (m_value_per_output_id s) ∧
  (∀ id, id ∉ bound → slot s1 id = slot s id) ∧
  (∀ id, id ∈ bound →
     ∃ v, slot s1 id = Some (Some v) ∧
          remaining_users v = Some (target_count net id) ∧
          value_matches (socket_data_type net id) v).

(** The origin of an input holds a value of the category of its socket. *)
Definition input_ready (net : MFNetwork) (s : EvalState) (socket : nat)
  : Prop :=
  ∃ v, slot s (socket_origin net socket) = Some (Some v) ∧
       value_matches (socket_data_type net (socket_origin net socket)) v.

(** ** What the scheduler resolves *)

Section resolve.
Variable fn : MF_EvaluateNetwork.
Variable rank : nat → nat.
Local Abbreviation net := (network fn).

(** The origin of the input holds no value. *)
Definition is_missing (s : EvalState) (socket : nat) : bool :=
  match slot s (socket_origin net socket) with
  | Some None => true
  | _ => false
  end.

(** Measure of a socket on the stack: an input is above its origin, an
    output above the inputs of its node. *)
Definition item_rank (socket : nat) : nat :=
  if socket_is_input net socket
  then 2 * rank (origin_node net socket) + 2
  else 2 * rank (socket_node net socket) + 1.

(** The node whose call resolves a socket. *)
Definition item_node (socket : nat) : nat :=
  if socket_is_input net socket
  then origin_node net socket
  else socket_node net socket.

(** A socket may be worked on: an input was not finished, an output
    belongs to a function node that was not called. *)
Definition item_pending (s : EvalState) (socket : nat) : Prop :=
  socket < socket_id_amount net ∧
  if socket_is_input net socket
  then socket ∉ finished_inputs s
  else node_is_dummy net (socket_node net socket) = false ∧
       socket_node net socket ∉ called_nodes s.

(** A socket is resolved: the node that produces it was called, or it is
    an input that comes from a dummy node. *)
Definition item_resolved (s : EvalState) (socket : nat) : Prop :=
  (socket_is_input net socket = true ∧
   node_is_dummy net (item_node socket) = true) ∨
  item_node socket ∈ called_nodes s.

(** From [s] to [s'] the calls were kept and the new ones are of nodes
    for which [allowed] holds. *)
Definition calls_grow (allowed : nat → Prop) (s s' : EvalState) : Prop :=
  (∀ node, node ∈ called_nodes s → node ∈ called_nodes s') ∧
  (∀ node, node ∈ called_nodes s' → node ∈ called_nodes s ∨ allowed node).

(** A failed run: the log of the calls has no duplicate, and the network
    has a mutable parameter. *)
Definition failed_run (s' : EvalState) : Prop :=
  NoDup (called_nodes s') ∧ has_mutable_param fn.

End resolve.

(** A computation only adds to the log of the calls. *)
Definition extends_calls {A} (c : Eval A) : Prop :=
  ∀ s, called_nodes s `suffix_of` called_nodes (state_of (c s)).

(** ** What a call leaves *)

(** The function nodes one call invoked, newest first. *)
Definition invoked_nodes (r : CallResult) : list nat :=
  match r with
  | ReturnedAtOnce _ => []
  | Evaluated o => called_nodes (state_of o)
  end.

(** The parameters a call hands back when it returns, at once or after
    the evaluation; nothing when a contract check failed or the fuel ran
    out. *)
Definition returned (r : CallResult) : option (list MFParam) :=
  match r with
  | ReturnedAtOnce params => Some params
  | Evaluated (Ok params _) => Some params
  | Evaluated _ => None
  end.

(** The destination [after] of the caller holds, at every index of the
    mask, the values of the view [input] of the caller: constructed in the
    cells of a single destination, appended to the lists of a vector
    destination. *)
Definition passes_through (mask : list nat)
    (input before after : option MFParam) : Prop :=
  match input, before, after with
  | Some (ParamSingleInput f), Some (ParamSingleOutput cells),
    Some (ParamSingleOutput cells') =>
      length cells' = length cells ∧
      ∀ i, i ∈ mask → cells' !! i = Some (Some (f i))
  | Some (ParamVectorInput f), Some (ParamVectorOutput lists),
    Some (ParamVectorOutput lists') =>
      length lists' = length lists ∧
      ∀ i, i ∈ mask →
        ∃ old, lists !! i = Some old ∧ lists' !! i = Some (old ++ f i)
  | _, _, _ => False
  end.

(** What [copy_computed_values_to_outputs] makes of a destination of the
    caller when the value it copies from is a view lent by the caller. *)
Definition copy_of_view (mask : list nat) (v : OutputValue)
    (before after : option MFParam) : Prop :=
  match v with
  | SingleFromCallerValue f =>
      ∃ cells, before = Some (ParamSingleOutput cells) ∧
        (∀ i, i ∈ mask → i < length cells) ∧
        after = Some (ParamSingleOutput
                        (materialize_to_uninitialized f mask cells))
  | VectorFromCallerValue f =>
      ∃ lists, before = Some (ParamVectorOutput lists) ∧
        (∀ i, i ∈ mask → i < length lists) ∧
        after = Some (ParamVectorOutput (extend_multiple__copy mask f lists))
  | _ => True
  end.

(** The parameters of the caller are of the kinds of the boundary sockets:
    a view for every input of the call, a destination for every requested
    output, with room for every index of the mask. *)
Definition fits_input (t : MFDataType) (p : option MFParam) : Prop :=
  match p with
  | Some (ParamSingleInput _) => is_single t = true
  | Some (ParamVectorInput _) => is_single t = false
  | _ => False
  end.

Definition fits_output (t : MFDataType) (p : option MFParam) : Prop :=
  match p with
  | Some (ParamSingleOutput _) => is_single t = true
  | Some (ParamVectorOutput _) => is_single t = false
  | _ => False
  end.

(** A destination has every index of the mask. *)
Definition has_room (mask : list nat) (p : option MFParam) : Prop :=
  match p with
  | Some (ParamSingleOutput cells) => ∀ i, i ∈ mask → i < length cells
  | Some (ParamVectorOutput lists) => ∀ i, i ∈ mask → i < length lists
  | _ => True
  end.

Definition params_fit (fn : MF_EvaluateNetwork) (mask : list nat)
    (params : list MFParam) : Prop :=
  (∀ j socket, m_inputs fn !! j = Some socket →
     fits_input (socket_data_type (network fn) socket) (params !! j)) ∧
  (∀ k socket, m_outputs fn !! k = Some socket →
     fits_output (socket_data_type (network fn) socket)
       (params !! (length (m_inputs fn) + k)) ∧
     has_room mask (params !! (length (m_inputs fn) + k))).

(** A destination of the caller before and after a call: of the same kind
    and size, and as it was at every index outside the mask. *)
Definition same_outside (mask : list nat) (before after : option MFParam)
  : Prop :=
  match before, after with
  | Some (ParamSingleOutput cells), Some (ParamSingleOutput cells') =>
      length cells' = length cells ∧
      ∀ i, i ∉ mask → cells' !! i = cells !! i
  | Some (ParamVectorOutput lists), Some (ParamVectorOutput lists') =>
      length lists' = length lists ∧
      ∀ i, i ∉ mask → lists' !! i = lists !! i
  | _, _ => False
  end.

(** ** Dependency cycles *)

(** The nodes of [nodes] feed one another: there is at least one, each is
    a listed function node and no dummy node, and each has an input that a
    node of [nodes] produces.  A finite set of this kind contains a
    dependency cycle. *)
Definition feed_one_another (net : MFNetwork) (nodes : list nat) : Prop :=
  nodes ≠ [] ∧
  ∀ node, node ∈ nodes →
    node ∈ function_nodes net ∧ (node ∉ dummy_nodes net) ∧
    ∃ socket, socket ∈ node_inputs net node ∧
              origin_node net socket ∈ nodes.

(** No node of [nodes] has a depth yet. *)
Definition undecided (nodes : list nat) (depths : list Z) : Prop :=
  ∀ c, c ∈ nodes → depths !! c = Some (-1)%Z ∨ depths !! c = None.

(** ** The order of the invocations *)

(** In the log of the calls, newest first, every input of an invoked node
    comes from an input of the call or from a node that was invoked
    before. *)
Fixpoint in_dependency_order (fn : MF_EvaluateNetwork) (calls : list nat)
  : Prop :=
  match calls with
  | [] => True
  | node :: earlier =>
      (∀ socket, socket ∈ node_inputs (network fn) node →
         socket_origin (network fn) socket ∈ m_inputs fn ∨
         origin_node (network fn) socket ∈ earlier) ∧
      in_dependency_order fn earlier
  end.

(** The slot of a socket that is no input of the call and whose node was
    not invoked is null. *)
Definition unproduced_are_null (fn : MF_EvaluateNetwork) (s : EvalState)
  : Prop :=
  ∀ socket, socket < socket_id_amount (network fn) →
    socket ∉ m_inputs fn →
    socket_node (network fn) socket ∉ called_nodes s →
    slot s socket = Some None.

(** ** The nodes a call needs *)

(** The function nodes on which a requested output depends: those that
    produce a requested output, and those that produce an input of a
    node that is needed. *)
Inductive needed (fn : MF_EvaluateNetwork) : nat → Prop :=
| needed_requested socket :
    socket ∈ m_outputs fn →
    node_is_dummy (network fn) (origin_node (network fn) socket) = false →
    needed fn (origin_node (network fn) socket)
| needed_input node socket :
    needed fn node →
    socket ∈ node_inputs (network fn) node →
    node_is_dummy (network fn) (origin_node (network fn) socket) = false →
    needed fn (origin_node (network fn) socket).

(** What the stack of the scheduler holds: requested sockets, inputs of
    needed nodes, and outputs of nodes that are needed unless they are
    dummy nodes. *)
Definition stack_needed (fn : MF_EvaluateNetwork) (stack : list nat)
  : Prop :=
  Forall (λ t,
            if socket_is_input (network fn) t
            then t ∈ m_outputs fn ∨
                 ∃ node, needed fn node ∧ t ∈ node_inputs (network fn) node
            else node_is_dummy (network fn) (socket_node (network fn) t)
                 = true ∨
                 needed fn (socket_node (network fn) t))
    stack.

(** ** The values a network computes *)

(** A value at every index for every output socket: the value a single
    socket carries, and the list a vector socket carries. *)
Record Valuation := {
  single_at : nat → nat → Z;
  vector_at : nat → nat → list Z;
}.

Section values.
Variable mask : list nat.
Variable val : Valuation.

(** A buffer is allocated and holds the values [f] at the indices of the
    mask. *)
Definition array_holds (h : list (option Buffer)) (b : nat) (f : nat → Z)
  : Prop :=
  ∃ cells, h !! b = Some (Some (ArrayBuffer cells)) ∧
           ∀ i, i ∈ mask → cells !! i = Some (Some (f i)).

Definition vector_array_holds (h : list (option Buffer)) (b : nat)
    (f : nat → list Z) : Prop :=
  ∃ lists, h !! b = Some (Some (VectorArray lists)) ∧
           ∀ i, i ∈ mask → lists !! i = Some (f i).

(** The value in the slot of [socket] is the one the valuation gives to
    the socket, at the indices of the mask. *)
Definition value_holds (h : list (option Buffer)) (socket : nat)
    (v : OutputValue) : Prop :=
  match v with
  | SingleFromCallerValue f => ∀ i, i ∈ mask → f i = single_at val socket i
  | VectorFromCallerValue f => ∀ i, i ∈ mask → f i = vector_at val socket i
  | SingleValue b _ => array_holds h b (single_at val socket)
  | VectorValue b _ => vector_array_holds h b (vector_at val socket)
  end.

(** A parameter handed to a function body is of the type [t], and when it
    is read by the body it shows the value of the socket [origin]. *)
Definition param_shows (h : list (option Buffer)) (origin : nat)
    (t : MFParamType) (p : option BoundParam) : Prop :=
  match t, p with
  | SingleInput, Some (ReadonlySingleInput (ListOfCaller f)) =>
      ∀ i, i ∈ mask → f i = single_at val origin i
  | SingleInput, Some (ReadonlySingleInput (ListOfArray b)) =>
      array_holds h b (single_at val origin)
  | VectorInput, Some (ReadonlyVectorInput (ListListOfCaller f)) =>
      ∀ i, i ∈ mask → f i = vector_at val origin i
  | VectorInput, Some (ReadonlyVectorInput (ListListOfVectorArray b)) =>
      vector_array_holds h b (vector_at val origin)
  | SingleOutput, Some (BoundSingleOutput _) => True
  | VectorOutput, Some (BoundVectorOutput _) => True
  | MutableSingle, Some (BoundMutableSingle b) =>
      array_holds h b (single_at val origin)
  | MutableVector, Some (BoundMutableVector b) =>
      vector_array_holds h b (vector_at val origin)
  | _, _ => False
  end.

(** The body of a node computes, from parameters that show the values of
    the origins of its inputs, the values of its outputs. *)
Definition body_computes (net : MFNetwork) (node : nat) : Prop :=
  ∀ params h,
    (∀ i t, fn_param_types net node !! i = Some t →
       param_shows h (socket_origin net (input_for_param net node i)) t
         (params !! i)) →
    ∀ i t, fn_param_types net node !! i = Some t →
      match t with
      | SingleOutput | MutableSingle =>
          ∀ j, j ∈ mask →
            single_result (fn_call net node mask params h) i !! j
            = Some (Some (single_at val (output_for_param net node i) j))
      | VectorOutput | MutableVector =>
          ∀ j, j ∈ mask →
            vector_result (fn_call net node mask params h) i !! j
            = Some (vector_at val (output_for_param net node i) j)
      | _ => True
      end.

(** The valuation is a model of the network under the parameters of the
    caller: it gives to the inputs of the call the values of the views
    the caller lends, and to the outputs of every needed node what the
    body of the node computes. *)
Definition is_model (fn : MF_EvaluateNetwork) (params : list MFParam)
  : Prop :=
  (∀ k socket, m_inputs fn !! k = Some socket →
     match params !! k with
     | Some (ParamSingleInput f) =>
         ∀ i, i ∈ mask → f i = single_at val socket i
     | Some (ParamVectorInput f) =>
         ∀ i, i ∈ mask → f i = vector_at val socket i
     | _ => True
     end) ∧
  ∀ node, needed fn node → body_computes (network fn) node.

(** The destination [after] of the caller holds, at every index of the
    mask, the values of the socket [origin]: constructed in the cells of a
    single destination, appended to the lists of a vector destination. *)
Definition destination_holds (origin : nat) (before after : option MFParam)
  : Prop :=
  match before, after with
  | Some (ParamSingleOutput cells), Some (ParamSingleOutput cells') =>
      ∀ i, i ∈ mask → cells' !! i = Some (Some (single_at val origin i))
  | Some (ParamVectorOutput lists), Some (ParamVectorOutput lists') =>
      ∀ i, i ∈ mask →
        ∃ old, lists !! i = Some old ∧
               lists' !! i = Some (old ++ vector_at val origin i)
  | _, _ => False
  end.

(** Invariant of the storage: every value in a slot outside [pending] is
    the one of the valuation, every owned buffer was allocated, and no
    buffer is owned by two slots. *)
Definition values_inv (pending : list nat) (s : EvalState) : Prop :=
  m_mask s = mask ∧
  (∀ socket v, slot s socket = Some (Some v) → socket ∉ pending →
     value_holds (memory s) socket v) ∧
  (∀ socket v b, slot s socket = Some (Some v) → owned_buffer v = Some b →
     b < length (memory s)) ∧
  (∀ id id' v v' b,
     slot s id = Some (Some v) → slot s id' = Some (Some v') →
     owned_buffer v = Some b → owned_buffer v' = Some b → id = id').

(** The parameter [p] of index [i] was bound for a body: it shows the
    value of its input, and the slot of its output owns the buffer the
    body writes to. *)
Definition param_bound (net : MFNetwork) (node i : nat) (t : MFParamType)
    (p : BoundParam) (s : EvalState) : Prop :=
  param_shows (memory s) (socket_origin net (input_for_param net node i)) t
    (Some p) ∧
  match p with
  | BoundSingleOutput b | BoundMutableSingle b =>
      ∃ users cells,
        slot s (output_for_param net node i)
        = Some (Some (SingleValue b users)) ∧
        memory s !! b = Some (Some (ArrayBuffer cells))
  | BoundVectorOutput b | BoundMutableVector b =>
      ∃ users lists,
        slot s (output_for_param net node i)
        = Some (Some (VectorValue b users)) ∧
        memory s !! b = Some (Some (VectorArray lists))
  | _ => True
  end.

End values.

(** From [s] to [s'] buffers were allocated only, and the slots of
    [pending] were left alone. *)
Definition binding_stable (pending : list nat) (s s' : EvalState) : Prop :=
  (∃ extra, memory s' = memory s ++ extra) ∧
  ∀ id, id ∈ pending → slot s' id = slot s id.

(** The parameter [p] of a body writes to the buffer [b]. *)
Definition writes_single (p : BoundParam) (b : nat) : Prop :=
  match p with
  | BoundSingleOutput b' | BoundMutableSingle b' => b' = b
  | _ => False
  end.

Definition writes_vector (p : BoundParam) (b : nat) : Prop :=
  match p with
  | BoundVectorOutput b' | BoundMutableVector b' => b' = b
  | _ => False
  end.

#[global] Instance writes_single_dec p b : Decision (writes_single p b).
Proof. destruct p; simpl; apply _. Defined.

#[global] Instance writes_vector_dec p b : Decision (writes_vector p b).
Proof. destruct p; simpl; apply _. Defined.

(** The values of the sockets of [Networks.add_mul] under
    [Networks.add_mul_params]. *)
Definition add_mul_values : Valuation :=
  {| single_at := λ socket i,
       match socket with
       | 0 => Z.of_nat (S i)
       | 1 => (10 * Z.of_nat (S i))%Z
       | 2 => 2%Z
       | 5 => (Z.of_nat (S i) + 10 * Z.of_nat (S i))%Z
       | 8 => ((Z.of_nat (S i) + 10 * Z.of_nat (S i)) * 2)%Z
       | _ => 0%Z
       end;
     vector_at := λ _ _, [] |}.

(** ** The buffers a call allocates *)

(** The number of output sockets of the nodes of a list. *)
Definition output_count (net : MFNetwork) (nodes : list nat) : nat :=
  sum_list (map (λ node, length (node_outputs net node)) nodes).

(** * Properties

    ** Generic values: what the copies leave *)

Lemma min_array_size_gt (mask : list nat) i : i ∈ mask → i < min_array_size mask.
Proof.
  induction mask as [|j mask IH]; simpl.
  - intros H. inversion H.
  - intros [->|H]%elem_of_cons; [lia|]. specialize (IH H). lia.
Qed.

Lemma min_array_size_nil : min_array_size [] = 0.
Proof. reflexivity. Qed.

Lemma mask_fits_spec mask size :
  mask_fits mask size = true ↔ ∀ i, i ∈ mask → i < size.
Proof.
  unfold mask_fits. induction mask as [|j mask IH]; simpl.
  - split; [by intros _ i ?%elem_of_nil|done].
  - rewrite andb_true_iff, bool_decide_eq_true, IH. split.
    + intros [Hj Hmask] i [->|Hi]%elem_of_cons; auto.
    + intros Hall. split; [apply Hall; by left|].
      intros i Hi. apply Hall. by right.
Qed.

Lemma length_copy_to_uninitialized_indices src dst mask :
  length (copy_to_uninitialized_indices src dst mask) = length dst.
Proof.
  unfold copy_to_uninitialized_indices. revert dst.
  induction mask as [|j mask IH]; intros dst; simpl; [done|].
  rewrite IH. apply length_insert.
Qed.

Lemma copy_to_uninitialized_indices_other src dst mask i :
  i ∉ mask → copy_to_uninitialized_indices src dst mask !! i = dst !! i.
Proof.
  unfold copy_to_uninitialized_indices. revert dst.
  induction mask as [|j mask IH]; intros dst Hi; simpl; [done|].
  apply not_elem_of_cons in Hi as [Hne Hi].
  rewrite IH by done. by apply list_lookup_insert_ne.
Qed.

Lemma copy_to_uninitialized_indices_written src dst mask i :
  i < length dst →
  i ∈ mask ∨ dst !! i = Some (mjoin (src !! i)) →
  copy_to_uninitialized_indices src dst mask !! i = Some (mjoin (src !! i)).
Proof.
  unfold copy_to_uninitialized_indices. revert dst.
  induction mask as [|j mask IH]; intros dst Hlen H; simpl.
  - destruct H as [H|H]; [inversion H|done].
  - apply IH; [by rewrite length_insert|].
    destruct (decide (i = j)) as [->|Hne].
    + right. by apply list_lookup_insert_eq.
    + destruct H as [[?|H]%elem_of_cons|H]; [done|by left|].
      right. by rewrite list_lookup_insert_ne.
Qed.

Lemma copy_to_uninitialized_indices_lookup src dst mask i :
  i ∈ mask → i < length dst →
  copy_to_uninitialized_indices src dst mask !! i = Some (mjoin (src !! i)).
Proof. intros. apply copy_to_uninitialized_indices_written; auto. Qed.

Lemma length_materialize_to_uninitialized f mask dst :
  length (materialize_to_uninitialized f mask dst) = length dst.
Proof.
  unfold materialize_to_uninitialized. revert dst.
  induction mask as [|j mask IH]; intros dst; simpl; [done|].
  rewrite IH. apply length_insert.
Qed.

Lemma materialize_to_uninitialized_other f mask dst i :
  i ∉ mask → materialize_to_uninitialized f mask dst !! i = dst !! i.
Proof.
  unfold materialize_to_uninitialized. revert dst.
  induction mask as [|j mask IH]; intros dst Hi; simpl; [done|].
  apply not_elem_of_cons in Hi as [Hne Hi].
  rewrite IH by done. by apply list_lookup_insert_ne.
Qed.

Lemma materialize_to_uninitialized_written f mask dst i :
  i < length dst →
  i ∈ mask ∨ dst !! i = Some (Some (f i)) →
  materialize_to_uninitialized f mask dst !! i = Some (Some (f i)).
Proof.
  unfold materialize_to_uninitialized. revert dst.
  induction mask as [|j mask IH]; intros dst Hlen H; simpl.
  - destruct H as [H|H]; [inversion H|done].
  - apply IH; [by rewrite length_insert|].
    destruct (decide (i = j)) as [->|Hne].
    + right. by apply list_lookup_insert_eq.
    + destruct H as [[?|H]%elem_of_cons|H]; [done|by left|].
      right. by rewrite list_lookup_insert_ne.
Qed.

Lemma materialize_to_uninitialized_lookup f mask dst i :
  i ∈ mask → i < length dst →
  materialize_to_uninitialized f mask dst !! i = Some (Some (f i)).
Proof. intros. apply materialize_to_uninitialized_written; auto. Qed.

Lemma length_extend_single__copy i values dst :
  length (extend_single__copy i values dst) = length dst.
Proof.
  unfold extend_single__copy. destruct (dst !! i); [apply length_insert|done].
Qed.

Lemma extend_single__copy_other i j values dst :
  i ≠ j → extend_single__copy i values dst !! j = dst !! j.
Proof.
  intros Hne. unfold extend_single__copy.
  destruct (dst !! i); [by apply list_lookup_insert_ne|done].
Qed.

Lemma extend_single__copy_at i values dst old :
  dst !! i = Some old →
  extend_single__copy i values dst !! i = Some (old ++ values).
Proof.
  intros H. unfold extend_single__copy. rewrite H.
  apply list_lookup_insert_eq. by eapply lookup_lt_Some.
Qed.

Lemma length_extend_multiple__copy mask values dst :
  length (extend_multiple__copy mask values dst) = length dst.
Proof.
  unfold extend_multiple__copy. revert dst.
  induction mask as [|j mask IH]; intros dst; simpl; [done|].
  rewrite IH. apply length_extend_single__copy.
Qed.

Lemma extend_multiple__copy_other mask values dst i :
  i ∉ mask → extend_multiple__copy mask values dst !! i = dst !! i.
Proof.
  unfold extend_multiple__copy. revert dst.
  induction mask as [|j mask IH]; intros dst Hi; simpl; [done|].
  apply not_elem_of_cons in Hi as [Hne Hi].
  rewrite IH by done. by apply extend_single__copy_other.
Qed.

Lemma extend_multiple__copy_lookup mask values dst i old :
  NoDup mask → i ∈ mask → dst !! i = Some old →
  extend_multiple__copy mask values dst !! i = Some (old ++ values i).
Proof.
  unfold extend_multiple__copy. revert dst.
  induction mask as [|j mask IH]; intros dst Hnd Hi Hold; simpl.
  - inversion Hi.
  - apply NoDup_cons in Hnd as [Hj Hnd].
    apply elem_of_cons in Hi as [->|Hi].
    + pose proof (extend_multiple__copy_other mask values
                    (extend_single__copy j (values j) dst) j Hj) as H.
      unfold extend_multiple__copy in H. rewrite H.
      by apply extend_single__copy_at.
    + apply IH; [done..|]. rewrite extend_single__copy_other; [done|].
      intros ->. done.
Qed.

Lemma lookup_extend_new_vector mask values i :
  NoDup mask → i ∈ mask →
  extend_multiple__copy mask values (replicate (min_array_size mask) []) !! i
  = Some (values i).
Proof.
  intros Hnd Hi.
  rewrite (extend_multiple__copy_lookup mask values _ i []); [done..|].
  apply lookup_replicate. split; [done|]. by apply min_array_size_gt.
Qed.

(** ** The evaluation monad *)

Lemma bind_Ok {A B} (c : Eval A) (k : A → Eval B) s b s' :
  bind c k s = Ok b s' ↔ ∃ a s1, c s = Ok a s1 ∧ k a s1 = Ok b s'.
Proof.
  unfold bind. split.
  - destruct (c s) as [a s1| |]; [|done..]. eauto.
  - intros (a & s1 & -> & H). done.
Qed.

Lemma bind_eq_Ok {A B} (c : Eval A) (k : A → Eval B) s a s1 :
  c s = Ok a s1 → bind c k s = k a s1.
Proof. unfold bind. by intros ->. Qed.

Lemma bind_eq_AssertFail {A B} (c : Eval A) (k : A → Eval B) s s1 :
  c s = AssertFail s1 → bind c k s = AssertFail s1.
Proof. unfold bind. by intros ->. Qed.

Lemma bind_eq_OutOfFuel {A B} (c : Eval A) (k : A → Eval B) s s1 :
  c s = OutOfFuel s1 → bind c k s = OutOfFuel s1.
Proof. unfold bind. by intros ->. Qed.

Ltac eval_unfold :=
  unfold bind, ret, gets, modify, BLI_assert, get_value, set_value, allocate,
    deallocate, read_array, read_vector_array, single__cpp_type,
    vector__cpp_base_type in *.

(** Invert one [bind] in a hypothesis that says a computation is [Ok]. *)
Ltac bind_inv H :=
  let a := fresh "a" in
  let s1 := fresh "s" in
  let H1 := fresh H in
  apply bind_Ok in H as (a & s1 & H1 & H).

Lemma get_value_Ok id s v s' :
  get_value id s = Ok v s' ↔ m_value_per_output_id s !! id = Some v ∧ s' = s.
Proof.
  unfold get_value. destruct (m_value_per_output_id s !! id); split.
  - intros [= -> ->]. done.
  - intros [[= ->] ->]. done.
  - done.
  - intros [? _]. done.
Qed.

Lemma set_value_Ok id v s u s' :
  set_value id v s = Ok u s' ↔
  id < length (m_value_per_output_id s) ∧
  s' = with_values (<[id := v]> (m_value_per_output_id s)) s.
Proof.
  unfold set_value. destruct u. case_decide; split.
  - intros [= <-]. done.
  - intros [_ ->]. done.
  - done.
  - intros [? _]. done.
Qed.

Lemma BLI_assert_Ok c s u s' : BLI_assert c s = Ok u s' ↔ c = true ∧ s' = s.
Proof.
  unfold BLI_assert. destruct u, c; split.
  - intros [= <-]. done.
  - intros [_ ->]. done.
  - done.
  - intros [? _]. done.
Qed.

Lemma ret_Ok {A} (a b : A) s s' : ret a s = Ok b s' ↔ b = a ∧ s' = s.
Proof. unfold ret. split; [by intros [= -> ->]|by intros [-> ->]]. Qed.

Lemma gets_Ok {A} (f : EvalState → A) b s s' :
  gets f s = Ok b s' ↔ b = f s ∧ s' = s.
Proof. unfold gets. split; [by intros [= <- <-]|by intros [-> ->]]. Qed.

Lemma modify_Ok f u s s' : modify f s = Ok u s' ↔ s' = f s.
Proof. unfold modify. destruct u. split; [by intros [= <-]|by intros ->]. Qed.

Lemma allocate_Ok b n s s' :
  allocate b s = Ok n s' ↔
  n = length (memory s) ∧ s' = with_memory (memory s ++ [Some b]) s.
Proof. unfold allocate. split; [by intros [= <- <-]|by intros [-> ->]]. Qed.

Lemma deallocate_Ok b u s s' :
  deallocate b s = Ok u s' ↔
  (∃ x, memory s !! b = Some (Some x)) ∧
  s' = with_memory (<[b := None]> (memory s)) s.
Proof.
  unfold deallocate. destruct u.
  destruct (memory s !! b) as [[x|]|]; split.
  - intros [= <-]. eauto.
  - intros [_ ->]. done.
  - done.
  - intros [[x [=]] _].
  - done.
  - intros [[x [=]] _].
Qed.

Lemma read_array_Ok b cells s s' :
  read_array b s = Ok cells s' ↔
  memory s !! b = Some (Some (ArrayBuffer cells)) ∧ s' = s.
Proof.
  unfold read_array. destruct (memory s !! b) as [[[c|l]|]|]; split;
    try done; try (by intros [[=] _]).
  - by intros [= -> ->].
  - by intros [[= ->] ->].
Qed.

Lemma read_vector_array_Ok b lists s s' :
  read_vector_array b s = Ok lists s' ↔
  memory s !! b = Some (Some (VectorArray lists)) ∧ s' = s.
Proof.
  unfold read_vector_array. destruct (memory s !! b) as [[[c|l]|]|]; split;
    try done; try (by intros [[=] _]).
  - by intros [= -> ->].
  - by intros [[= ->] ->].
Qed.

Lemma single__cpp_type_Ok t c s s' :
  single__cpp_type t s = Ok c s' ↔ t = MFSingle c ∧ s' = s.
Proof.
  destruct t; simpl; split; try done.
  - by intros [[= ->] ->]%ret_Ok.
  - by intros [[= ->] ->].
  - by intros [[= ->] ->].
Qed.

Lemma vector__cpp_base_type_Ok t c s s' :
  vector__cpp_base_type t s = Ok c s' ↔ t = MFVector c ∧ s' = s.
Proof.
  destruct t; simpl; split; try done.
  - by intros [[= ->] ->].
  - by intros [[= ->] ->]%ret_Ok.
  - by intros [[= ->] ->].
Qed.

(** Invert every step of a computation that is known to be [Ok]. *)
Ltac eval_inv :=
  repeat match goal with
  | H : bind _ _ _ = Ok _ _ |- _ =>
      let a := fresh "a" in
      let s1 := fresh "s" in
      let H1 := fresh "Hstep" in
      apply bind_Ok in H as (a & s1 & H1 & H)
  | H : ret _ _ = Ok _ _ |- _ => apply ret_Ok in H as [? ?]; subst
  | H : gets _ _ = Ok _ _ |- _ => apply gets_Ok in H as [? ?]; subst
  | H : modify _ _ = Ok _ _ |- _ => apply modify_Ok in H; subst
  | H : get_value _ _ = Ok _ _ |- _ => apply get_value_Ok in H as [? ?]; subst
  | H : set_value _ _ _ = Ok _ _ |- _ =>
      apply set_value_Ok in H as [? ?]; subst
  | H : BLI_assert _ _ = Ok _ _ |- _ =>
      apply BLI_assert_Ok in H as [? ?]; subst
  | H : allocate _ _ = Ok _ _ |- _ => apply allocate_Ok in H as [? ?]; subst
  | H : deallocate _ _ = Ok _ _ |- _ =>
      apply deallocate_Ok in H as [[? ?] ?]; subst
  | H : read_array _ _ = Ok _ _ |- _ =>
      apply read_array_Ok in H as [? ?]; subst
  | H : read_vector_array _ _ = Ok _ _ |- _ =>
      apply read_vector_array_Ok in H as [? ?]; subst
  | H : single__cpp_type _ _ = Ok _ _ |- _ =>
      apply single__cpp_type_Ok in H as [? ?]; subst
  | H : vector__cpp_base_type _ _ = Ok _ _ |- _ =>
      apply vector__cpp_base_type_Ok in H as [? ?]; subst
  end.

(** ** take_mutable: move or copy *)

Section take_mutable.
Variable net : MFNetwork.
Implicit Types s : EvalState.

Lemma slot_with_values_eq s vs id v :
  id < length vs → slot (with_values (<[id := v]> vs) s) id = Some v.
Proof. intros. unfold slot. simpl. by apply list_lookup_insert_eq. Qed.

Lemma slot_with_values_ne s vs id id' v :
  id ≠ id' → slot (with_values (<[id := v]> vs) s) id' = vs !! id'.
Proof. intros. unfold slot. simpl. by apply list_lookup_insert_ne. Qed.

Lemma get_mutable_single_move input output s b t :
  socket_data_type net (socket_origin net input) = MFSingle t →
  socket_data_type net output = MFSingle t →
  slot s (socket_origin net input) = Some (Some (SingleValue b 1)) →
  output < length (m_value_per_output_id s) →
  get_mutable_single net input output s
  = Ok b (with_values
            (<[socket_origin net input := None]>
               (<[output := Some (SingleValue b (target_count net output))]>
                  (m_value_per_output_id s))) s).
Proof.
  intros Hf Ht Hslot Hlen. unfold slot in Hslot.
  pose proof (lookup_lt_Some _ _ _ Hslot) as Hlt.
  unfold get_mutable_single. eval_unfold. rewrite Hslot, Hf, Ht. simpl.
  rewrite bool_decide_true by done. simpl.
  rewrite decide_True by done. simpl.
  rewrite decide_True by (by rewrite length_insert). done.
Qed.

Lemma get_mutable_single_copy input output s b users t src :
  socket_data_type net (socket_origin net input) = MFSingle t →
  socket_data_type net output = MFSingle t →
  slot s (socket_origin net input) = Some (Some (SingleValue b users)) →
  users ≠ 1%Z →
  memory s !! b = Some (Some (ArrayBuffer src)) →
  output < length (m_value_per_output_id s) →
  get_mutable_single net input output s
  = Ok (length (memory s))
      (with_values
         (<[output := Some (SingleValue (length (memory s))
                              (target_count net output))]>
            (m_value_per_output_id s))
         (with_memory
            (memory s ++
               [Some (ArrayBuffer
                  (copy_to_uninitialized_indices src
                     (replicate (min_array_size (m_mask s)) None) (m_mask s)))])
            s)).
Proof.
  intros Hf Ht Hslot Hne Hmem Hlen. unfold slot in Hslot.
  unfold get_mutable_single. eval_unfold. rewrite Hslot, Hf, Ht. simpl.
  rewrite bool_decide_true by done. simpl.
  rewrite bool_decide_false by done. rewrite Hmem. simpl.
  rewrite decide_True by done. done.
Qed.

Lemma get_mutable_single_from_caller input output s f t :
  socket_data_type net (socket_origin net input) = MFSingle t →
  socket_data_type net output = MFSingle t →
  slot s (socket_origin net input) = Some (Some (SingleFromCallerValue f)) →
  output < length (m_value_per_output_id s) →
  get_mutable_single net input output s
  = Ok (length (memory s))
      (with_values
         (<[output := Some (SingleValue (length (memory s))
                              (target_count net output))]>
            (m_value_per_output_id s))
         (with_memory
            (memory s ++
               [Some (ArrayBuffer
                  (materialize_to_uninitialized f (m_mask s)
                     (replicate (min_array_size (m_mask s)) None)))])
            s)).
Proof.
  intros Hf Ht Hslot Hlen. unfold slot in Hslot.
  unfold get_mutable_single. eval_unfold. rewrite Hslot, Hf, Ht. simpl.
  rewrite bool_decide_true by done. simpl.
  rewrite decide_True by done. done.
Qed.

Lemma get_mutable_vector_move input output s b t :
  socket_data_type net (socket_origin net input) = MFVector t →
  socket_data_type net output = MFVector t →
  slot s (socket_origin net input) = Some (Some (VectorValue b 1)) →
  output < length (m_value_per_output_id s) →
  get_mutable_vector net input output s
  = Ok b (with_values
            (<[socket_origin net input := None]>
               (<[output := Some (VectorValue b (target_count net output))]>
                  (m_value_per_output_id s))) s).
Proof.
  intros Hf Ht Hslot Hlen. unfold slot in Hslot.
  pose proof (lookup_lt_Some _ _ _ Hslot) as Hlt.
  unfold get_mutable_vector. eval_unfold. rewrite Hslot, Hf, Ht. simpl.
  rewrite bool_decide_true by done. simpl.
  rewrite decide_True by done. simpl.
  rewrite decide_True by (by rewrite length_insert). done.
Qed.

Lemma get_mutable_vector_copy input output s b users t src :
  socket_data_type net (socket_origin net input) = MFVector t →
  socket_data_type net output = MFVector t →
  slot s (socket_origin net input) = Some (Some (VectorValue b users)) →
  users ≠ 1%Z →
  memory s !! b = Some (Some (VectorArray src)) →
  output < length (m_value_per_output_id s) →
  get_mutable_vector net input output s
  = Ok (length (memory s))
      (with_values
         (<[output := Some (VectorValue (length (memory s))
                              (target_count net output))]>
            (m_value_per_output_id s))
         (with_memory
            (memory s ++
               [Some (VectorArray
                  (extend_multiple__copy (m_mask s) (lists_of src)
                     (replicate (min_array_size (m_mask s)) [])))])
            s)).
Proof.
  intros Hf Ht Hslot Hne Hmem Hlen. unfold slot in Hslot.
  unfold get_mutable_vector. eval_unfold. rewrite Hslot, Hf, Ht. simpl.
  rewrite bool_decide_true by done. simpl.
  rewrite bool_decide_false by done. rewrite Hmem. simpl.
  rewrite decide_True by done. done.
Qed.

Lemma get_mutable_vector_from_caller input output s f t :
  socket_data_type net (socket_origin net input) = MFVector t →
  socket_data_type net output = MFVector t →
  slot s (socket_origin net input) = Some (Some (VectorFromCallerValue f)) →
  output < length (m_value_per_output_id s) →
  get_mutable_vector net input output s
  = Ok (length (memory s))
      (with_values
         (<[output := Some (VectorValue (length (memory s))
                              (target_count net output))]>
            (m_value_per_output_id s))
         (with_memory
            (memory s ++
               [Some (VectorArray
                  (extend_multiple__copy (m_mask s) f
                     (replicate (min_array_size (m_mask s)) [])))])
            s)).
Proof.
  intros Hf Ht Hslot Hlen. unfold slot in Hslot.
  unfold get_mutable_vector. eval_unfold. rewrite Hslot, Hf, Ht. simpl.
  rewrite bool_decide_true by done. simpl.
  rewrite decide_True by done. done.
Qed.

(** C3.  [get_mutable_single] and [get_mutable_vector] move or copy.
    With a remaining-user count of 1 at the origin, the buffer itself is
    handed over: it becomes the slot of the output socket with the target
    count of that socket, the slot of the origin is cleared and nothing is
    allocated.  With a count above 1, and for a value lent by the caller,
    a new buffer is allocated whose contents over the mask are those of
    the source, the output socket gets it with its own target count, and
    the slot of the origin is as it was. *)
Theorem take_mutable_moves_or_copies input output s t :
  let from := socket_origin net input in
  from ≠ output →
  output < length (m_value_per_output_id s) →
  NoDup (m_mask s) →
  (socket_data_type net from = MFSingle t →
   socket_data_type net output = MFSingle t →
   (∀ b, slot s from = Some (Some (SingleValue b 1)) →
      ∃ s', get_mutable_single net input output s = Ok b s' ∧
        memory s' = memory s ∧
        slot s' output = Some (Some (SingleValue b (target_count net output))) ∧
        slot s' from = Some None) ∧
   (∀ b users src, (1 < users)%Z →
      slot s from = Some (Some (SingleValue b users)) →
      memory s !! b = Some (Some (ArrayBuffer src)) →
      ∃ s' cells,
        get_mutable_single net input output s = Ok (length (memory s)) s' ∧
        memory s' = memory s ++ [Some (ArrayBuffer cells)] ∧
        (∀ i, i ∈ m_mask s → cells !! i = Some (mjoin (src !! i))) ∧
        slot s' output
        = Some (Some (SingleValue (length (memory s))
                        (target_count net output))) ∧
        slot s' from = Some (Some (SingleValue b users))) ∧
   (∀ f, slot s from = Some (Some (SingleFromCallerValue f)) →
      ∃ s' cells,
        get_mutable_single net input output s = Ok (length (memory s)) s' ∧
        memory s' = memory s ++ [Some (ArrayBuffer cells)] ∧
        (∀ i, i ∈ m_mask s → cells !! i = Some (Some (f i))) ∧
        slot s' output
        = Some (Some (SingleValue (length (memory s))
                        (target_count net output))) ∧
        slot s' from = Some (Some (SingleFromCallerValue f)))) ∧
  (socket_data_type net from = MFVector t →
   socket_data_type net output = MFVector t →
   (∀ b, slot s from = Some (Some (VectorValue b 1)) →
      ∃ s', get_mutable_vector net input output s = Ok b s' ∧
        memory s' = memory s ∧
        slot s' output = Some (Some (VectorValue b (target_count net output))) ∧
        slot s' from = Some None) ∧
   (∀ b users src, (1 < users)%Z →
      slot s from = Some (Some (VectorValue b users)) →
      memory s !! b = Some (Some (VectorArray src)) →
      ∃ s' lists,
        get_mutable_vector net input output s = Ok (length (memory s)) s' ∧
        memory s' = memory s ++ [Some (VectorArray lists)] ∧
        (∀ i, i ∈ m_mask s → lists !! i = Some (lists_of src i)) ∧
        slot s' output
        = Some (Some (VectorValue (length (memory s))
                        (target_count net output))) ∧
        slot s' from = Some (Some (VectorValue b users))) ∧
   (∀ f, slot s from = Some (Some (VectorFromCallerValue f)) →
      ∃ s' lists,
        get_mutable_vector net input output s = Ok (length (memory s)) s' ∧
        memory s' = memory s ++ [Some (VectorArray lists)] ∧
        (∀ i, i ∈ m_mask s → lists !! i = Some (f i)) ∧
        slot s' output
        = Some (Some (VectorValue (length (memory s))
                        (target_count net output))) ∧
        slot s' from = Some (Some (VectorFromCallerValue f)))).
Proof.
  intros from Hne Hlen Hmask. split; intros Hf Ht; repeat split.
  - intros b Hslot. eexists. split; [by eapply get_mutable_single_move|].
    pose proof (lookup_lt_Some _ _ _ Hslot) as Hlt.
    split; [done|]. unfold slot. simpl. split.
    + rewrite list_lookup_insert_ne by done. by apply list_lookup_insert_eq.
    + apply list_lookup_insert_eq. by rewrite length_insert.
  - intros b users src Hu Hslot Hmem. eexists _, _.
    split; [eapply get_mutable_single_copy; eauto; lia|].
    split; [done|]. split; [|split].
    + intros i Hi. apply copy_to_uninitialized_indices_lookup; [done|].
      rewrite length_replicate. by apply min_array_size_gt.
    + by apply slot_with_values_eq.
    + rewrite slot_with_values_ne by done. done.
  - intros f Hslot. eexists _, _.
    split; [eapply get_mutable_single_from_caller; eauto|].
    split; [done|]. split; [|split].
    + intros i Hi. apply materialize_to_uninitialized_lookup; [done|].
      rewrite length_replicate. by apply min_array_size_gt.
    + by apply slot_with_values_eq.
    + rewrite slot_with_values_ne by done. done.
  - intros b Hslot. eexists. split; [by eapply get_mutable_vector_move|].
    pose proof (lookup_lt_Some _ _ _ Hslot) as Hlt.
    split; [done|]. unfold slot. simpl. split.
    + rewrite list_lookup_insert_ne by done. by apply list_lookup_insert_eq.
    + apply list_lookup_insert_eq. by rewrite length_insert.
  - intros b users src Hu Hslot Hmem. eexists _, _.
    split; [eapply get_mutable_vector_copy; eauto; lia|].
    split; [done|]. split; [|split].
    + intros i Hi. by apply lookup_extend_new_vector.
    + by apply slot_with_values_eq.
    + rewrite slot_with_values_ne by done. done.
  - intros f Hslot. eexists _, _.
    split; [eapply get_mutable_vector_from_caller; eauto|].
    split; [done|]. split; [|split].
    + intros i Hi. by apply lookup_extend_new_vector.
    + by apply slot_with_values_eq.
    + rewrite slot_with_values_ne by done. done.
Qed.

(** The defect behind the failed runs, at the level of the storage: once
    take_mutable has handed the buffer of the origin over, the slot of the
    origin is null, and [finish_input_socket] on the same input fails its
    contract check. *)
Theorem finish_after_move_fails input output s b t :
  socket_origin net input ≠ output →
  output < length (m_value_per_output_id s) →
  (socket_data_type net (socket_origin net input) = MFSingle t →
   socket_data_type net output = MFSingle t →
   slot s (socket_origin net input) = Some (Some (SingleValue b 1)) →
   ∃ s', get_mutable_single net input output s = Ok b s' ∧
         finish_input_socket net input s' = AssertFail (log_finish input s')) ∧
  (socket_data_type net (socket_origin net input) = MFVector t →
   socket_data_type net output = MFVector t →
   slot s (socket_origin net input) = Some (Some (VectorValue b 1)) →
   ∃ s', get_mutable_vector net input output s = Ok b s' ∧
         finish_input_socket net input s' = AssertFail (log_finish input s')).
Proof.
  intros Hne Hlen.
  assert (∀ vs, socket_origin net input < length vs →
            finish_input_socket net input
              (with_values (<[socket_origin net input := None]> vs) s)
            = AssertFail
                (log_finish input
                   (with_values (<[socket_origin net input := None]> vs) s)))
    as Hfinish.
  { intros vs Hlt. unfold finish_input_socket. eval_unfold. simpl.
    by rewrite list_lookup_insert_eq. }
  split; intros Hf Ht Hslot; eexists;
    (split; [by first [eapply get_mutable_single_move
                      |eapply get_mutable_vector_move]|]);
    apply Hfinish; rewrite length_insert; by eapply lookup_lt_Some.
Qed.

End take_mutable.

(** ** The slot invariant and the storage operations *)

Section slots.
Variable net : MFNetwork.
Implicit Types s : EvalState.











End slots.

(** ** Loops over lists *)

Lemma for_each_ind {A} (P : EvalState → Prop) (xs : list A)
    (body : A → Eval unit) s s' :
  P s →
  (∀ x s1 s2, x ∈ xs → P s1 → body x s1 = Ok tt s2 → P s2) →
  for_each xs body s = Ok tt s' → P s'.
Proof.
  revert s. induction xs as [|x xs IH]; intros s Hs Hbody H; simpl in H.
  - by eval_inv.
  - eval_inv. destruct a. eapply IH; [| |done].
    + eapply Hbody; [|done..]. by left.
    + intros y s1 s2 Hy. apply Hbody. by right.
Qed.

(** ** Values lent by the caller *)

Section caller_values.
Variable net : MFNetwork.
Implicit Types s : EvalState.

Lemma finish_input_socket_from_caller socket s v :
  slot s (socket_origin net socket) = Some (Some v) →
  from_caller v = true →
  finish_input_socket net socket s = Ok tt (log_finish socket s).
Proof.
  intros Hslot Hv. unfold finish_input_socket.
  rewrite (bind_eq_Ok _ _ _ tt (log_finish socket s)) by done.
  rewrite (bind_eq_Ok _ _ _ (Some v) (log_finish socket s)).
  - by destruct v.
  - apply get_value_Ok. done.
Qed.

Lemma destruct_storage_frees_owned s s' :
  destruct_storage s = Ok tt s' →
  m_value_per_output_id s' = m_value_per_output_id s ∧
  finished_inputs s' = finished_inputs s ∧
  called_nodes s' = called_nodes s ∧
  ∀ b, ¬ owned_by_slots s b → memory s' !! b = memory s !! b.
Proof.
  unfold destruct_storage. intros H. eval_inv.
  eapply (for_each_ind (λ s1,
    m_value_per_output_id s1 = m_value_per_output_id s ∧
    finished_inputs s1 = finished_inputs s ∧
    called_nodes s1 = called_nodes s ∧
    ∀ b, ¬ owned_by_slots s b → memory s1 !! b = memory s !! b));
    [done| |exact H].
  intros v s1 s2 Hv (Hvals & Hfin & Hcalled & Hmem) Hbody.
  assert (body_spec : m_value_per_output_id s2 = m_value_per_output_id s1 ∧
            finished_inputs s2 = finished_inputs s1 ∧
            called_nodes s2 = called_nodes s1 ∧
            ∀ b, (∀ v', v = Some v' → owned_buffer v' ≠ Some b) →
                 memory s2 !! b = memory s1 !! b).
  { destruct v as [[| |b0 users|b0 users]|]; eval_inv; try done.
    - split_and!; try done. intros b Hb. simpl.
      apply list_lookup_insert_ne. intros ->. by eapply Hb.
    - split_and!; try done. intros b Hb. simpl.
      apply list_lookup_insert_ne. intros ->. by eapply Hb. }
  destruct body_spec as (Hvals' & Hfin' & Hcalled' & Hmem').
  split_and!; try congruence.
  intros b Hb. rewrite <- Hmem by done. apply Hmem'.
  intros v' -> Hv'. apply Hb.
  apply list_elem_of_lookup in Hv as [id Hid]. by exists id, v'.
Qed.

(** C8.  A value lent by the caller is never changed and never freed:
    [finish_input_socket] on an input whose origin holds such a value only
    records the call, the destructor of the storage leaves the slot table
    alone and frees no buffer but those of owned values, and take_mutable
    fills a newly allocated buffer from the view and leaves the slot of
    the origin as it was. *)
Theorem caller_values_are_left_alone s :
  (∀ socket v,
     slot s (socket_origin net socket) = Some (Some v) →
     from_caller v = true →
     finish_input_socket net socket s = Ok tt (log_finish socket s) ∧
     m_value_per_output_id (log_finish socket s) = m_value_per_output_id s ∧
     memory (log_finish socket s) = memory s) ∧
  (∀ s', destruct_storage s = Ok tt s' →
     m_value_per_output_id s' = m_value_per_output_id s ∧
     ∀ b, ¬ owned_by_slots s b → memory s' !! b = memory s !! b) ∧
  (∀ input output f b s',
     slot s (socket_origin net input) = Some (Some (SingleFromCallerValue f)) →
     socket_origin net input ≠ output →
     get_mutable_single net input output s = Ok b s' →
     slot s' (socket_origin net input) = Some (Some (SingleFromCallerValue f)) ∧
     b = length (memory s) ∧
     ∃ cells, memory s' = memory s ++ [Some (ArrayBuffer cells)] ∧
       ∀ i, i ∈ m_mask s → cells !! i = Some (Some (f i))) ∧
  (∀ input output f b s',
     slot s (socket_origin net input) = Some (Some (VectorFromCallerValue f)) →
     socket_origin net input ≠ output →
     NoDup (m_mask s) →
     get_mutable_vector net input output s = Ok b s' →
     slot s' (socket_origin net input) = Some (Some (VectorFromCallerValue f)) ∧
     b = length (memory s) ∧
     ∃ lists, memory s' = memory s ++ [Some (VectorArray lists)] ∧
       ∀ i, i ∈ m_mask s → lists !! i = Some (f i)).
Proof.
  split_and!.
  - intros socket v Hslot Hv. split; [|done].
    by eapply finish_input_socket_from_caller.
  - intros s' H. apply destruct_storage_frees_owned in H as (? & _ & _ & ?).
    done.
  - intros input output f b s' Hslot Hne H.
    unfold get_mutable_single in H. eval_inv.
    unfold slot in Hslot. rewrite Hslot in H0. injection H0 as <-. eval_inv.
    split; [|split; [done|]].
    + rewrite slot_with_values_ne by done. done.
    + eexists. split; [done|]. intros i Hi.
      apply materialize_to_uninitialized_lookup; [done|].
      rewrite length_replicate. by apply min_array_size_gt.
  - intros input output f b s' Hslot Hne Hnd H.
    unfold get_mutable_vector in H. eval_inv.
    unfold slot in Hslot. rewrite Hslot in H0. injection H0 as <-. eval_inv.
    split; [|split; [done|]].
    + rewrite slot_with_values_ne by done. done.
    + eexists. split; [done|]. intros i Hi.
      by apply lookup_extend_new_vector.
Qed.

End caller_values.

(** ** The call with an empty mask *)

(** C10.  With a mask of size 0 [call] returns at once: no storage is made,
    no function runs, and the caller's parameters, the destinations among
    them, are as they were. *)
Theorem empty_mask_returns_at_once std_sort fn fuel mask params :
  length mask = 0 →
  call std_sort fn fuel mask params = ReturnedAtOnce params ∧
  invoked_nodes (call std_sort fn fuel mask params) = [].
Proof.
  intros Hmask. unfold call. rewrite bool_decide_true by done. done.
Qed.

(** ** Depth of the nodes *)

Section depth_proofs.
Variable net : MFNetwork.
Variable rank : nat → nat.
Hypothesis Hacyclic : acyclic net rank.

Lemma dummy_node_lt node :
  node ∈ dummy_nodes net → node < node_id_amount net.
Proof using Hacyclic.
  destruct Hacyclic as [Hd _]. rewrite Forall_forall in Hd. apply Hd.
Qed.

Lemma function_node_spec node :
  node ∈ function_nodes net →
  node < node_id_amount net ∧ (node ∉ dummy_nodes net) ∧
  ∀ socket, socket ∈ node_inputs net node →
    (origin_node net socket ∈ dummy_nodes net ∨
     origin_node net socket ∈ function_nodes net) ∧
    rank (origin_node net socket) < rank node.
Proof using Hacyclic.
  destruct Hacyclic as [_ Hf]. rewrite Forall_forall in Hf.
  intros H. destruct (Hf _ H) as (? & ? & Hin). rewrite Forall_forall in Hin.
  done.
Qed.

Lemma listed_node_lt node :
  node ∈ dummy_nodes net ∨ node ∈ function_nodes net →
  node < node_id_amount net.
Proof using Hacyclic.
  intros [H|H]; [by apply dummy_node_lt|by apply function_node_spec].
Qed.

Lemma zero_dummies_spec nodes depths :
  Forall (λ node, node < length depths) nodes →
  ∃ depths', zero_dummies depths nodes = Done depths' ∧
    length depths' = length depths ∧
    (∀ node, node ∈ nodes → depths' !! node = Some 0%Z) ∧
    (∀ node, node ∉ nodes → depths' !! node = depths !! node).
Proof.
  revert depths. induction nodes as [|n nodes IH]; intros depths Hall; simpl.
  - exists depths. split_and!; try done. intros node H. inversion H.
  - apply Forall_cons in Hall as [Hn Hall]. rewrite decide_True by done.
    destruct (IH (<[n := 0%Z]> depths)) as (d' & Hd' & Hlen & Hin & Hout).
    { by setoid_rewrite length_insert. }
    exists d'. rewrite length_insert in Hlen. split_and!; try done.
    + intros node [->|H]%elem_of_cons; [|by apply Hin].
      destruct (decide (n ∈ nodes)) as [|Hni]; [by apply Hin|].
      rewrite Hout by done. by apply list_lookup_insert_eq.
    + intros node [Hne Hni]%not_elem_of_cons. rewrite Hout by done.
      by apply list_lookup_insert_ne.
Qed.

Lemma depths_inv_initial :
  ∃ depths,
    zero_dummies (replicate (node_id_amount net) (-1)%Z) (dummy_nodes net)
    = Done depths ∧ depths_inv net depths.
Proof using Hacyclic.
  destruct (zero_dummies_spec (dummy_nodes net)
              (replicate (node_id_amount net) (-1)%Z))
    as (d & Hd & Hlen & Hin & Hout).
  { rewrite length_replicate. apply Hacyclic. }
  rewrite length_replicate in Hlen.
  exists d. split; [done|]. split_and!; try done.
  - intros node x Hx. destruct (decide (node ∈ dummy_nodes net)) as [Hi|Hni].
    + rewrite Hin in Hx by done. injection Hx as <-. right. lia.
    + rewrite Hout in Hx by done. apply lookup_replicate in Hx as [-> _].
      by left.
  - intros node Hnode. left.
    destruct (function_node_spec node Hnode) as (Hlt & Hni & _).
    rewrite Hout by done. by apply lookup_replicate.
Qed.


Lemma max_origin_depth_nonneg depths inputs :
  (0 ≤ max_origin_depth net depths inputs)%Z.
Proof. induction inputs as [|socket inputs IH]; simpl; lia. Qed.

Lemma check_incoming_spec depths inputs stack all mx :
  length depths = node_id_amount net →
  (∀ socket, socket ∈ inputs → origin_node net socket < node_id_amount net) →
  (0 ≤ mx)%Z →
  check_incoming net depths inputs stack all mx
  = Done (unassigned_origins net depths inputs ++ stack,
          match unassigned_origins net depths inputs with
          | [] => all
          | _ => false
          end,
          Z.max mx (max_origin_depth net depths inputs)).
Proof.
  intros Hlen. revert stack all mx.
  induction inputs as [|socket inputs IH]; intros stack all mx Hin Hmx; simpl.
  - do 3 f_equal. lia.
  - assert (origin_node net socket < length depths) as Hlt.
    { rewrite Hlen. apply Hin. by left. }
    apply lookup_lt_is_Some_2 in Hlt as [d Hd].
    unfold depth_at. rewrite Hd. simpl.
    pose proof (max_origin_depth_nonneg depths inputs).
    assert (∀ socket, socket ∈ inputs →
              origin_node net socket < node_id_amount net) as Hin'.
    { intros ? ?. apply Hin. by right. }
    case_bool_decide as Hcase.
    + subst d. rewrite bool_decide_true by done.
      rewrite IH by done. rewrite <- app_assoc. simpl. f_equal. f_equal.
      * f_equal. by destruct (unassigned_origins net depths inputs).
      * lia.
    + rewrite bool_decide_false by congruence.
      rewrite IH by (done || lia). do 2 f_equal. lia.
Qed.

Lemma unassigned_origins_nil depths inputs :
  Forall (λ socket, assigned depths (origin_node net socket)) inputs →
  unassigned_origins net depths inputs = [].
Proof.
  induction 1 as [|socket inputs [d [Hd Hpos]] _ IH]; simpl; [done|].
  rewrite bool_decide_false; [done|]. rewrite Hd. intros [= ->]. lia.
Qed.

Lemma elem_of_unassigned_origins depths inputs node :
  node ∈ unassigned_origins net depths inputs →
  ∃ socket, socket ∈ inputs ∧ node = origin_node net socket ∧
            depths !! node = Some (-1)%Z.
Proof.
  induction inputs as [|socket inputs IH]; simpl; [by intros ?%elem_of_nil|].
  case_bool_decide as Hcase.
  - intros [H|H]%elem_of_app.
    + destruct (IH H) as (s' & ? & ? & ?). exists s'. split; [by right|done].
    + apply list_elem_of_singleton in H as ->. exists socket.
      split; [by left|done].
  - intros H. destruct (IH H) as (s' & ? & ? & ?). exists s'.
    split; [by right|done].
Qed.

Lemma depth_leads_refl depths stack : depth_leads net depths stack depths stack.
Proof. by exists 0. Qed.

Lemma depth_leads_trans d1 st1 d2 st2 d3 st3 :
  depth_leads net d1 st1 d2 st2 → depth_leads net d2 st2 d3 st3 →
  depth_leads net d1 st1 d3 st3.
Proof.
  intros [k1 H1] [k2 H2]. exists (k1 + k2). intros fuel.
  rewrite <- Nat.add_assoc, H1, H2. done.
Qed.

Lemma depth_leads_step depths current below depths' stack' :
  depth_iteration net depths current below = Done (depths', stack') →
  depth_leads net depths (current :: below) depths' stack'.
Proof. intros H. exists 1. intros fuel. simpl. by rewrite H. Qed.

Lemma depths_extend_refl depths : depths_extend depths depths.
Proof. by intros node _. Qed.

Lemma depths_extend_trans d1 d2 d3 :
  depths_extend d1 d2 → depths_extend d2 d3 → depths_extend d1 d3.
Proof.
  intros H12 H23 node Hn. rewrite <- (H12 node Hn). apply H23.
  destruct Hn as [d [Hd ?]]. exists d. by rewrite H12 by (by exists d).
Qed.

Lemma assigned_extend d1 d2 node :
  depths_extend d1 d2 → assigned d1 node → assigned d2 node.
Proof.
  intros H [d [Hd ?]]. exists d. by rewrite H by (by exists d).
Qed.

Lemma max_origin_depth_update depths inputs node v :
  depths !! node = Some (-1)%Z →
  Forall (λ socket, assigned depths (origin_node net socket)) inputs →
  max_origin_depth net (<[node := v]> depths) inputs
  = max_origin_depth net depths inputs.
Proof.
  intros Hnode. induction 1 as [|socket inputs [d [Hd Hpos]] _ IH]; simpl;
    [done|].
  rewrite IH. rewrite list_lookup_insert_ne; [done|].
  intros Heq. rewrite Heq, Hd in Hnode. injection Hnode as ->. lia.
Qed.

(** Giving a depth to a function node whose origins all have one. *)
Lemma depths_inv_assign depths node :
  depths_inv net depths →
  node ∈ function_nodes net →
  depths !! node = Some (-1)%Z →
  Forall (λ socket, assigned depths (origin_node net socket))
    (node_inputs net node) →
  let depths' :=
    <[node := (max_origin_depth net depths (node_inputs net node) + 1)%Z]>
      depths in
  depths_inv net depths' ∧ depths_extend depths depths' ∧
  assigned depths' node.
Proof using Hacyclic.
  intros (Hlen & Hrange & Hdummy & Hfun) Hnode Hminus Hall depths'.
  pose proof (max_origin_depth_nonneg depths (node_inputs net node)) as Hpos.
  assert (node < length depths) as Hlt by (by eapply lookup_lt_Some).
  assert (depths_extend depths depths') as Hext.
  { intros n [d [Hd Hd0]]. unfold depths'.
    rewrite list_lookup_insert_ne; [done|]. intros <-.
    rewrite Hd in Hminus. injection Hminus as ->. lia. }
  split; [split_and!|split; [done|]].
  - unfold depths'. by rewrite length_insert.
  - intros n d. unfold depths'. destruct (decide (node = n)) as [->|Hne].
    + rewrite list_lookup_insert_eq by done. intros [= <-]. right. lia.
    + rewrite list_lookup_insert_ne by done. apply Hrange.
  - intros n Hn. rewrite Hext; [by apply Hdummy|].
    exists 0%Z. split; [by apply Hdummy|done].
  - intros n Hn. destruct (decide (node = n)) as [<-|Hne].
    + right. split.
      * unfold depths'. rewrite list_lookup_insert_eq by done.
        rewrite max_origin_depth_update by done. f_equal. lia.
      * eapply Forall_impl; [exact Hall|]. intros socket.
        by apply assigned_extend.
    + destruct (Hfun n Hn) as [Hm|[Heq Hin]].
      * left. unfold depths'. by rewrite list_lookup_insert_ne.
      * right. split.
        -- unfold depths'. rewrite list_lookup_insert_ne by done.
           by rewrite max_origin_depth_update.
        -- eapply Forall_impl; [exact Hin|]. intros socket.
           by apply assigned_extend.
  - exists (max_origin_depth net depths (node_inputs net node) + 1)%Z.
    split; [|lia]. unfold depths'. by apply list_lookup_insert_eq.
Qed.

Lemma unassigned_origins_complete depths inputs socket :
  socket ∈ inputs → depths !! origin_node net socket = Some (-1)%Z →
  origin_node net socket ∈ unassigned_origins net depths inputs.
Proof.
  induction inputs as [|socket' inputs IH]; [by intros ?%elem_of_nil|].
  intros [->|Hin]%elem_of_cons Hd; simpl.
  - rewrite bool_decide_true by done. apply elem_of_app. right. by left.
  - case_bool_decide; [apply elem_of_app; left|]; by apply IH.
Qed.

Lemma depth_pop_assigned depths node below :
  assigned depths node →
  depth_leads net depths (node :: below) depths below.
Proof.
  intros [d [Hd Hpos]]. apply depth_leads_step.
  unfold depth_iteration, depth_at. rewrite Hd. simpl.
  by rewrite bool_decide_true.
Qed.

(** One iteration on a function node without depth whose origins all have
    one gives it its depth. *)
Lemma depth_assign depths node below :
  depths_inv net depths →
  node ∈ function_nodes net →
  depths !! node = Some (-1)%Z →
  Forall (λ socket, assigned depths (origin_node net socket))
    (node_inputs net node) →
  ∃ depths', depth_leads net depths (node :: below) depths' below ∧
    depths_inv net depths' ∧ depths_extend depths depths' ∧
    assigned depths' node.
Proof using Hacyclic.
  intros Hinv Hnode Hminus Hall.
  destruct (depths_inv_assign depths node Hinv Hnode Hminus Hall)
    as (Hinv' & Hext & Hass).
  eexists. split; [|done].
  apply depth_leads_step. unfold depth_iteration, depth_at.
  rewrite Hminus. simpl.
  rewrite check_incoming_spec; [|apply Hinv| |done].
  - simpl. rewrite unassigned_origins_nil by done. simpl.
    do 3 f_equal.
    pose proof (max_origin_depth_nonneg depths (node_inputs net node)). lia.
  - intros socket Hs. apply listed_node_lt.
    by apply (function_node_spec node Hnode).
Qed.

Lemma depth_resolve_list (P : nat → Prop) :
  (∀ node depths below, P node → depths_inv net depths →
     ∃ depths', depth_leads net depths (node :: below) depths' below ∧
       depths_inv net depths' ∧ depths_extend depths depths' ∧
       assigned depths' node) →
  ∀ nodes depths below, Forall P nodes → depths_inv net depths →
    ∃ depths', depth_leads net depths (nodes ++ below) depths' below ∧
      depths_inv net depths' ∧ depths_extend depths depths' ∧
      Forall (assigned depths') nodes.
Proof.
  intros Hone nodes. induction nodes as [|node nodes IH];
    intros depths below Hall Hinv.
  - exists depths. split; [apply depth_leads_refl|].
    split; [done|]. split; [apply depths_extend_refl|done].
  - apply Forall_cons in Hall as [Hnode Hall]. simpl.
    destruct (Hone node depths (nodes ++ below) Hnode Hinv)
      as (d1 & Hl1 & Hinv1 & Hext1 & Hass1).
    destruct (IH d1 below Hall Hinv1) as (d2 & Hl2 & Hinv2 & Hext2 & Hass2).
    exists d2. split; [by eapply depth_leads_trans|].
    split; [done|]. split; [by eapply depths_extend_trans|].
    apply Forall_cons. split; [|done]. by eapply assigned_extend.
Qed.

Lemma depth_resolve r node depths below :
  rank node < r →
  node ∈ dummy_nodes net ∨ node ∈ function_nodes net →
  depths_inv net depths →
  ∃ depths', depth_leads net depths (node :: below) depths' below ∧
    depths_inv net depths' ∧ depths_extend depths depths' ∧
    assigned depths' node.
Proof using Hacyclic.
  revert node depths below.
  induction r as [|r IH]; intros node depths below Hrank Hlisted Hinv;
    [lia|].
  assert (node < length depths) as Hlt.
  { destruct Hinv as [-> _]. by apply listed_node_lt. }
  apply lookup_lt_is_Some_2 in Hlt as [d Hd].
  destruct Hinv as (Hlen & Hrange & Hdummy & Hfun).
  assert (depths_inv net depths) as Hinv by done.
  destruct (Hrange _ _ Hd) as [->|Hpos].
  2:{ exists depths. split; [apply depth_pop_assigned; by exists d|].
      split; [done|]. split; [apply depths_extend_refl|by exists d]. }
  assert (node ∈ function_nodes net) as Hnode.
  { destruct Hlisted as [Hdum|]; [|done].
    rewrite Hdummy in Hd by done. done. }
  destruct (function_node_spec node Hnode) as (_ & _ & Hinputs).
  assert (∀ socket, socket ∈ node_inputs net node →
            origin_node net socket < node_id_amount net) as Hin_lt.
  { intros socket Hs. apply listed_node_lt. by apply Hinputs. }
  (* first visit: the origins without depth are pushed *)
  assert (depth_leads net depths (node :: below) depths
            (unassigned_origins net depths (node_inputs net node)
               ++ node :: below)
          ∨ Forall (λ socket, assigned depths (origin_node net socket))
              (node_inputs net node)) as [Hpush|Hall].
  { destruct (unassigned_origins net depths (node_inputs net node))
      as [|u us] eqn:HU.
    - right. apply Forall_forall. intros socket Hs.
      assert (origin_node net socket < length depths) as Hlt
        by (rewrite Hlen; by apply Hin_lt).
      apply lookup_lt_is_Some_2 in Hlt as [d Hd'].
      destruct (Hrange _ _ Hd') as [->|Hpos]; [|by exists d].
      pose proof (unassigned_origins_complete _ _ _ Hs Hd') as Hin.
      rewrite HU in Hin. by apply elem_of_nil in Hin.
    - left. apply depth_leads_step. unfold depth_iteration, depth_at.
      rewrite Hd. simpl.
      rewrite check_incoming_spec by done. simpl. by rewrite HU. }
  2:{ by apply depth_assign. }
  destruct (depth_resolve_list
              (λ n, rank n < r ∧
                    (n ∈ dummy_nodes net ∨ n ∈ function_nodes net))
              (λ n d b Hn, IH n d b (proj1 Hn) (proj2 Hn))
              (unassigned_origins net depths (node_inputs net node))
              depths (node :: below))
    as (d1 & Hl1 & Hinv1 & Hext1 & Hass1); [|done|].
  { apply Forall_forall. intros n Hn.
    apply elem_of_unassigned_origins in Hn as (socket & Hs & -> & _).
    destruct (Hinputs socket Hs) as [? ?]. split; [lia|done]. }
  assert (Forall (λ socket, assigned d1 (origin_node net socket))
            (node_inputs net node)) as Hall1.
  { apply Forall_forall. intros socket Hs.
    assert (origin_node net socket < length depths) as Hlt
      by (rewrite Hlen; by apply Hin_lt).
    apply lookup_lt_is_Some_2 in Hlt as [d Hd'].
    destruct (Hrange _ _ Hd') as [->|Hpos].
    - rewrite Forall_forall in Hass1. apply Hass1.
      by apply unassigned_origins_complete.
    - eapply assigned_extend; [done|]. by exists d. }
  (* second visit *)
  assert (node < length d1) as Hlt1.
  { destruct Hinv1 as [-> _]. by apply listed_node_lt. }
  apply lookup_lt_is_Some_2 in Hlt1 as [x Hx].
  destruct (proj1 (proj2 Hinv1) _ _ Hx) as [->|Hpos].
  - destruct (depth_assign d1 node below Hinv1 Hnode Hx Hall1)
      as (d2 & Hl2 & Hinv2 & Hext2 & Hass2).
    exists d2. split.
    { eapply depth_leads_trans; [exact Hpush|]. by eapply depth_leads_trans. }
    split; [done|]. split; [by eapply depths_extend_trans|done].
  - exists d1. split.
    { eapply depth_leads_trans; [exact Hpush|].
      eapply depth_leads_trans; [exact Hl1|].
      apply depth_pop_assigned. by exists x. }
    split; [done|]. split; [done|by exists x].
Qed.

(** The worklist ends, with the invariant and a depth at every function
    node. *)
Lemma depth_worklist_ends :
  ∃ fuel depths,
    (∀ fuel', fuel ≤ fuel' →
       compute_max_depth_per_node net fuel' = Done depths) ∧
    depths_inv net depths ∧
    Forall (assigned depths) (reverse (function_nodes net)).
Proof using Hacyclic.
  destruct depths_inv_initial as (d0 & Hd0 & Hinv0).
  destruct (depth_resolve_list
              (λ n, n ∈ function_nodes net)
              (λ n d b Hn, depth_resolve (S (rank n)) n d b
                             (Nat.lt_succ_diag_r _) (or_intror Hn))
              (reverse (function_nodes net)) d0 [])
    as (d1 & [k Hl1] & Hinv1 & Hext1 & Hass1); [|done|].
  { apply Forall_forall. intros n Hn. simpl. by apply elem_of_reverse. }
  exists k, d1. split; [|done].
  intros fuel' Hle. unfold compute_max_depth_per_node. rewrite Hd0. simpl.
  replace fuel' with (k + (fuel' - k)) by lia.
  rewrite <- (app_nil_r (reverse (function_nodes net))), Hl1.
  by destruct (fuel' - k).
Qed.

(** C6.  On an acyclic network [compute_max_depth_per_node] ends, and the
    depths it leaves are 0 at every dummy node and, at every function
    node, 1 plus the largest depth among the nodes that produce its
    inputs. *)
Theorem compute_max_depth_per_node_correct :
  ∃ fuel depths,
    (∀ fuel', fuel ≤ fuel' →
       compute_max_depth_per_node net fuel' = Done depths) ∧
    depths_as_claimed net depths.
Proof using Hacyclic.
  destruct depth_worklist_ends as (k & d1 & Hends & Hinv1 & Hass1).
  exists k, d1. split; [done|].
  destruct Hinv1 as (Hlen & Hrange & Hdummy & Hfun).
  split_and!; try done.
  intros node Hnode. destruct (Hfun node Hnode) as [Hm|[Heq _]]; [|done].
  rewrite Forall_forall in Hass1.
  destruct (Hass1 node) as [d [Hd Hpos]]; [by apply elem_of_reverse|].
  rewrite Hd in Hm. injection Hm as ->. lia.
Qed.

End depth_proofs.

(** ** Well-formed networks: what they provide *)

Section wf_facts.
Variable fn : MF_EvaluateNetwork.
Variable rank : nat → nat.
Hypothesis Hwf : network_wf fn rank.
Local Abbreviation net := (network fn).

Lemma wf_acyclic : acyclic net rank.
Proof using Hwf. apply Hwf. Qed.

Lemma wf_socket socket : socket < socket_id_amount net → socket_wf fn socket.
Proof using Hwf.
  intros Hlt. destruct Hwf as (_ & Hs & _). rewrite Forall_forall in Hs.
  apply Hs. apply elem_of_seq. lia.
Qed.

Lemma wf_node node : node < node_id_amount net → node_wf fn node.
Proof using Hwf.
  intros Hlt. destruct Hwf as (_ & _ & Hn & _). rewrite Forall_forall in Hn.
  apply Hn. apply elem_of_seq. lia.
Qed.

Lemma wf_socket_node socket :
  socket < socket_id_amount net → socket_node net socket < node_id_amount net.
Proof using Hwf. intros H. by apply wf_socket. Qed.

Lemma wf_node_input node socket :
  node < node_id_amount net → socket ∈ node_inputs net node →
  socket < socket_id_amount net ∧ socket_is_input net socket = true ∧
  socket_node net socket = node.
Proof using Hwf.
  intros Hn Hs. destruct (wf_node node Hn) as (_ & _ & Hin & _).
  rewrite Forall_forall in Hin. by apply Hin.
Qed.

Lemma wf_node_output node socket :
  node < node_id_amount net → socket ∈ node_outputs net node →
  socket < socket_id_amount net ∧ socket_is_input net socket = false ∧
  socket_node net socket = node.
Proof using Hwf.
  intros Hn Hs. destruct (wf_node node Hn) as (_ & _ & _ & Hout & _).
  rewrite Forall_forall in Hout. by apply Hout.
Qed.

Lemma wf_input socket :
  socket < socket_id_amount net → socket_is_input net socket = true →
  socket ∈ node_inputs net (socket_node net socket) ∧
  socket_origin net socket < socket_id_amount net ∧
  socket_is_input net (socket_origin net socket) = false ∧
  socket ∈ socket_targets net (socket_origin net socket) ∧
  socket_data_type net socket
  = socket_data_type net (socket_origin net socket) ∧
  (node_is_dummy net (origin_node net socket) = true →
   socket_origin net socket ∈ m_inputs fn).
Proof using Hwf.
  intros Hs Hin. destruct (wf_socket socket Hs) as (_ & H & _). by apply H.
Qed.

Lemma wf_output socket :
  socket < socket_id_amount net → socket_is_input net socket = false →
  socket ∈ node_outputs net (socket_node net socket) ∧
  NoDup (socket_targets net socket) ∧
  ∀ t, t ∈ socket_targets net socket →
    t < socket_id_amount net ∧ socket_is_input net t = true ∧
    socket_origin net t = socket.
Proof using Hwf.
  intros Hs Hout. destruct (wf_socket socket Hs) as (_ & _ & H).
  destruct (H Hout) as (? & ? & Hall). rewrite Forall_forall in Hall. done.
Qed.

Lemma wf_origin_node socket :
  socket < socket_id_amount net → socket_is_input net socket = true →
  origin_node net socket < node_id_amount net.
Proof using Hwf.
  intros Hs Hin. apply wf_socket_node. by apply wf_input.
Qed.

Lemma wf_dummy_listed node :
  node ∈ dummy_nodes net → node_is_dummy net node = true.
Proof using Hwf.
  destruct Hwf as (_ & _ & _ & Hd & _). rewrite Forall_forall in Hd. apply Hd.
Qed.

Lemma wf_function_listed node :
  node < node_id_amount net → node_is_dummy net node = false →
  node ∈ function_nodes net.
Proof using Hwf.
  intros Hn Hd. destruct (wf_node node Hn) as (_ & _ & _ & _ & _ & H).
  by apply H.
Qed.

Lemma wf_function_node node :
  node < node_id_amount net → node_is_dummy net node = false →
  node_inputs net node = param_inputs fn node 0 (fn_param_types net node) ∧
  node_outputs net node = param_outputs fn node 0 (fn_param_types net node) ∧
  params_typed fn node 0 (fn_param_types net node).
Proof using Hwf.
  intros Hn Hd. destruct (wf_node node Hn) as (_ & _ & _ & _ & _ & H).
  by apply H.
Qed.

Lemma wf_NoDup_inputs node :
  node < node_id_amount net → NoDup (node_inputs net node).
Proof using Hwf. intros Hn. by apply wf_node. Qed.

Lemma wf_NoDup_outputs node :
  node < node_id_amount net → NoDup (node_outputs net node).
Proof using Hwf. intros Hn. by apply wf_node. Qed.

(** The rank decreases along every input of a function node. *)
Lemma wf_rank node socket :
  node < node_id_amount net → node_is_dummy net node = false →
  socket ∈ node_inputs net node →
  rank (origin_node net socket) < rank node.
Proof using Hwf.
  intros Hn Hd Hs.
  pose proof (wf_function_listed node Hn Hd) as Hl.
  destruct (function_node_spec net rank wf_acyclic node Hl) as (_ & _ & H).
  by apply H.
Qed.

Lemma wf_origin_not_own_output node socket :
  node < node_id_amount net → node_is_dummy net node = false →
  socket ∈ node_inputs net node →
  socket_origin net socket ∉ node_outputs net node.
Proof using Hwf.
  intros Hn Hd Hs Hout.
  pose proof (wf_rank node socket Hn Hd Hs) as Hr.
  destruct (wf_node_output node _ Hn Hout) as (_ & _ & Heq).
  unfold origin_node in Hr. rewrite Heq in Hr. lia.
Qed.

Lemma wf_m_input socket :
  socket ∈ m_inputs fn →
  socket < socket_id_amount net ∧ socket_is_input net socket = false ∧
  node_is_dummy net (socket_node net socket) = true.
Proof using Hwf.
  destruct Hwf as (_ & _ & _ & _ & _ & H & _). rewrite Forall_forall in H.
  apply H.
Qed.

Lemma wf_m_output socket :
  socket ∈ m_outputs fn →
  socket < socket_id_amount net ∧ socket_is_input net socket = true ∧
  node_is_dummy net (socket_node net socket) = true.
Proof using Hwf.
  destruct Hwf as (_ & _ & _ & _ & _ & _ & H). rewrite Forall_forall in H.
  apply H.
Qed.

Lemma wf_m_inputs_NoDup : NoDup (m_inputs fn).
Proof using Hwf. apply Hwf. Qed.

End wf_facts.

(** ** Quiet computations *)

Lemma quiet_ret {A} (a : A) : quiet (ret a).
Proof. by intros s. Qed.

Lemma quiet_bind {A B} (c : Eval A) (k : A → Eval B) :
  quiet c → (∀ a, quiet (k a)) → quiet (bind c k).
Proof.
  intros Hc Hk s. unfold bind. specialize (Hc s).
  destruct (c s) as [a s1|s1|s1]; [|done..].
  specialize (Hk a s1). destruct Hc as [Hc1 Hc2].
  destruct (k a s1); [| |done]; by rewrite <- Hc1, <- Hc2.
Qed.

Lemma quiet_BLI_assert c : quiet (BLI_assert c).
Proof. intros s. unfold BLI_assert. by destruct c. Qed.

Lemma quiet_gets {A} (f : EvalState → A) : quiet (gets f).
Proof. by intros s. Qed.

Lemma quiet_get_value id : quiet (get_value id).
Proof. intros s. unfold get_value. by destruct (_ !! _). Qed.

Lemma quiet_set_value id v : quiet (set_value id v).
Proof. intros s. unfold set_value. by case_decide. Qed.

Lemma quiet_allocate b : quiet (allocate b).
Proof. by intros s. Qed.

Lemma quiet_deallocate b : quiet (deallocate b).
Proof. intros s. unfold deallocate. by destruct (_ !! _) as [[]|]. Qed.

Lemma quiet_read_array b : quiet (read_array b).
Proof. intros s. unfold read_array. by destruct (_ !! _) as [[[]|]|]. Qed.

Lemma quiet_read_vector_array b : quiet (read_vector_array b).
Proof. intros s. unfold read_vector_array. by destruct (_ !! _) as [[[]|]|]. Qed.

Lemma quiet_log_finish socket : quiet (modify (log_finish socket)).
Proof. by intros s. Qed.

Lemma quiet_single__cpp_type t : quiet (single__cpp_type t).
Proof. destruct t; simpl; [apply quiet_ret|]. by intros s. Qed.

Lemma quiet_vector__cpp_base_type t : quiet (vector__cpp_base_type t).
Proof. destruct t; simpl; [|apply quiet_ret]. by intros s. Qed.

Lemma quiet_for_each {A} (xs : list A) (body : A → Eval unit) :
  (∀ x, quiet (body x)) → quiet (for_each xs body).
Proof.
  intros Hbody. induction xs as [|x xs IH]; simpl; [apply quiet_ret|].
  apply quiet_bind; [apply Hbody|]. by intros _.
Qed.

Create HintDb quiet.
#[global] Hint Resolve quiet_ret quiet_BLI_assert quiet_gets quiet_get_value
  quiet_set_value quiet_allocate quiet_deallocate quiet_read_array
  quiet_read_vector_array quiet_log_finish quiet_single__cpp_type
  quiet_vector__cpp_base_type : quiet.

(** Decompose a computation into its steps and close each with the hints. *)
Ltac solve_quiet :=
  repeat first
    [ progress auto with quiet
    | apply quiet_bind; [|intros ?]
    | match goal with
      | |- quiet (match ?x with _ => _ end) => destruct x
      | |- quiet (if ?x then _ else _) => destruct x
      end ].

Section quiet_operations.
Variable net : MFNetwork.

Lemma quiet_add_single_from_caller socket f :
  quiet (add_single_from_caller socket f).
Proof. unfold add_single_from_caller. solve_quiet. Qed.

Lemma quiet_add_vector_from_caller socket f :
  quiet (add_vector_from_caller socket f).
Proof. unfold add_vector_from_caller. solve_quiet. Qed.

Lemma quiet_allocate_single_output socket :
  quiet (allocate_single_output net socket).
Proof. unfold allocate_single_output. solve_quiet. Qed.

Lemma quiet_allocate_vector_output socket :
  quiet (allocate_vector_output net socket).
Proof. unfold allocate_vector_output. solve_quiet. Qed.

Lemma quiet_get_mutable_single input output :
  quiet (get_mutable_single net input output).
Proof. unfold get_mutable_single. solve_quiet. Qed.

Lemma quiet_get_mutable_vector input output :
  quiet (get_mutable_vector net input output).
Proof. unfold get_mutable_vector. solve_quiet. Qed.

Lemma quiet_finish_input_socket socket :
  quiet (finish_input_socket net socket).
Proof. unfold finish_input_socket. solve_quiet. Qed.

Lemma quiet_get_single_input socket : quiet (get_single_input net socket).
Proof. unfold get_single_input. solve_quiet. Qed.

Lemma quiet_get_vector_input socket : quiet (get_vector_input net socket).
Proof. unfold get_vector_input. solve_quiet. Qed.

Lemma quiet_input_is_computed socket : quiet (input_is_computed net socket).
Proof. unfold input_is_computed. solve_quiet. Qed.

Lemma quiet_destruct_storage : quiet destruct_storage.
Proof.
  unfold destruct_storage. apply quiet_bind; [auto with quiet|].
  intros values. apply quiet_for_each. intros v. solve_quiet.
Qed.

End quiet_operations.

#[global] Hint Resolve quiet_add_single_from_caller
  quiet_add_vector_from_caller quiet_allocate_single_output
  quiet_allocate_vector_output quiet_get_mutable_single
  quiet_get_mutable_vector quiet_finish_input_socket quiet_get_single_input
  quiet_get_vector_input quiet_input_is_computed quiet_destruct_storage
  : quiet.

(** ** The owned values and the memory *)

Lemma heap_inv_ext s s' :
  m_value_per_output_id s' = m_value_per_output_id s →
  memory s' = memory s →
  heap_inv s → heap_inv s'.
Proof.
  intros Hv Hm [H1 H2 H3]. unfold owned_by_slots, slot in *.
  split; unfold owned_by_slots, slot; rewrite ?Hv, ?Hm; done.
Qed.

Lemma buffer_matches_lt h v b :
  buffer_matches h v → owned_buffer v = Some b → b < length h.
Proof.
  destruct v; simpl; try done; intros [x Hx] [= <-];
    by eapply lookup_lt_Some.
Qed.

Lemma buffer_matches_live h v b :
  buffer_matches h v → owned_buffer v = Some b → ∃ x, h !! b = Some (Some x).
Proof. destruct v; simpl; try done; intros [x Hx] [= <-]; eauto. Qed.

Lemma buffer_matches_app h v x :
  buffer_matches h v → buffer_matches (h ++ [x]) v.
Proof.
  destruct v; simpl; try done; intros [y Hy]; exists y;
    by apply lookup_app_l_Some.
Qed.

(** A new buffer for a slot that was empty. *)
Lemma heap_inv_new s s' id v buf :
  heap_inv s →
  slot s id = Some None →
  owned_buffer v = Some (length (memory s)) →
  buffer_matches (memory s ++ [Some buf]) v →
  m_value_per_output_id s' = <[id := Some v]> (m_value_per_output_id s) →
  memory s' = memory s ++ [Some buf] →
  heap_inv s'.
Proof.
  intros [H1 H2 H3] Hempty Hb Hm Hvals Hmem.
  assert (id < length (m_value_per_output_id s)) as Hid
    by (by eapply lookup_lt_Some).
  assert (∀ id' v', slot s' id' = Some (Some v') →
            (id' = id ∧ v' = v) ∨ (id' ≠ id ∧ slot s id' = Some (Some v')))
    as Hcases.
  { intros id' v'. unfold slot. rewrite Hvals.
    destruct (decide (id = id')) as [->|Hne].
    - rewrite list_lookup_insert_eq by done. intros [= <-]. by left.
    - rewrite list_lookup_insert_ne by done. intros ?. right. by split. }
  split.
  - intros id' v' Hs'. rewrite Hmem.
    destruct (Hcases _ _ Hs') as [[-> ->]|[_ Hold]]; [done|].
    apply buffer_matches_app. by eapply H1.
  - intros id1 id2 v1 v2 b Hs1 Hs2 Hb1 Hb2.
    destruct (Hcases _ _ Hs1) as [[-> ->]|[Hne1 Hold1]];
      destruct (Hcases _ _ Hs2) as [[-> ->]|[Hne2 Hold2]]; try done.
    + pose proof (buffer_matches_lt _ _ _ (H1 _ _ Hold2) Hb2).
      rewrite Hb in Hb1. injection Hb1 as <-. lia.
    + pose proof (buffer_matches_lt _ _ _ (H1 _ _ Hold1) Hb1).
      rewrite Hb in Hb2. injection Hb2 as <-. lia.
    + by eapply H2.
  - intros b x. rewrite Hmem. intros Hlook.
    destruct (decide (b < length (memory s))) as [Hlt|Hge].
    + rewrite lookup_app_l in Hlook by done.
      destruct (H3 _ _ Hlook) as (id' & v' & Hs' & Hb').
      exists id', v'. split; [|done]. unfold slot. rewrite Hvals.
      rewrite list_lookup_insert_ne; [done|]. intros <-.
      unfold slot in *. congruence.
    + assert (b = length (memory s)) as ->.
      { apply lookup_lt_Some in Hlook. rewrite length_app in Hlook.
        simpl in Hlook. lia. }
      exists id, v. split; [|done]. unfold slot. rewrite Hvals.
      by apply list_lookup_insert_eq.
Qed.

(** The buffer of a slot is freed and the slot is emptied. *)
Lemma heap_inv_free s s' id v b :
  heap_inv s →
  slot s id = Some (Some v) →
  owned_buffer v = Some b →
  m_value_per_output_id s' = <[id := None]> (m_value_per_output_id s) →
  memory s' = <[b := None]> (memory s) →
  heap_inv s'.
Proof.
  intros [H1 H2 H3] Hs Hb Hvals Hmem.
  assert (id < length (m_value_per_output_id s)) as Hid
    by (by eapply lookup_lt_Some).
  assert (∀ id' v', slot s' id' = Some (Some v') →
            id' ≠ id ∧ slot s id' = Some (Some v')) as Hcases.
  { intros id' v'. unfold slot. rewrite Hvals.
    destruct (decide (id = id')) as [->|Hne].
    - by rewrite list_lookup_insert_eq by done.
    - rewrite list_lookup_insert_ne by done. intros ?. by split. }
  assert (∀ id' v' b', slot s' id' = Some (Some v') →
            owned_buffer v' = Some b' → b' ≠ b) as Hother.
  { intros id' v' b' Hs' Hb' ->. destruct (Hcases _ _ Hs') as [Hne Hold].
    apply Hne. by eapply H2. }
  split.
  - intros id' v' Hs'. destruct (Hcases _ _ Hs') as [Hne Hold].
    pose proof (H1 _ _ Hold) as Hm. rewrite Hmem.
    destruct v'; simpl in *; try done; destruct Hm as [x Hx]; exists x;
      (rewrite list_lookup_insert_ne; [done|]);
      intros <-; by eapply Hother.
  - intros id1 id2 v1 v2 b' Hs1 Hs2 Hb1 Hb2.
    destruct (Hcases _ _ Hs1) as [_ Hold1].
    destruct (Hcases _ _ Hs2) as [_ Hold2]. by eapply H2.
  - intros b' x. rewrite Hmem. intros Hlook.
    destruct (decide (b = b')) as [->|Hne].
    + apply lookup_lt_Some in Hlook as Hlt. rewrite length_insert in Hlt.
      by rewrite list_lookup_insert_eq in Hlook.
    + rewrite list_lookup_insert_ne in Hlook by done.
      destruct (H3 _ _ Hlook) as (id' & v' & Hs' & Hb').
      exists id', v'. split; [|done]. unfold slot. rewrite Hvals.
      rewrite list_lookup_insert_ne; [done|]. intros <-.
      unfold slot in *. congruence.
Qed.

(** The remaining-user count of a slot changes, its buffer stays. *)
Lemma heap_inv_recount s s' id v v' :
  heap_inv s →
  slot s id = Some (Some v) →
  owned_buffer v' = owned_buffer v →
  (∀ h, buffer_matches h v → buffer_matches h v') →
  m_value_per_output_id s' = <[id := Some v']> (m_value_per_output_id s) →
  memory s' = memory s →
  heap_inv s'.
Proof.
  intros [H1 H2 H3] Hs Hb Hm Hvals Hmem.
  assert (id < length (m_value_per_output_id s)) as Hid
    by (by eapply lookup_lt_Some).
  assert (∀ id' w', slot s' id' = Some (Some w') →
            ∃ w, slot s id' = Some (Some w) ∧
                 owned_buffer w' = owned_buffer w ∧
                 (∀ h, buffer_matches h w → buffer_matches h w')) as Hcases.
  { intros id' w'. unfold slot. rewrite Hvals.
    destruct (decide (id = id')) as [->|Hne].
    - rewrite list_lookup_insert_eq by done. intros [= <-]. by exists v.
    - rewrite list_lookup_insert_ne by done. intros ?. by exists w'. }
  split.
  - intros id' w' Hs'. destruct (Hcases _ _ Hs') as (w & Hw & _ & Himp).
    rewrite Hmem. apply Himp. by eapply H1.
  - intros id1 id2 v1 v2 b Hs1 Hs2 Hb1 Hb2.
    destruct (Hcases _ _ Hs1) as (w1 & Hw1 & Hbw1 & _).
    destruct (Hcases _ _ Hs2) as (w2 & Hw2 & Hbw2 & _).
    apply (H2 id1 id2 w1 w2 b); [done|done|congruence|congruence].
  - intros b x. rewrite Hmem. intros Hlook.
    destruct (H3 _ _ Hlook) as (id' & w & Hw & Hbw).
    destruct (decide (id = id')) as [<-|Hne].
    + exists id, v'. split.
      * unfold slot. rewrite Hvals. by apply list_lookup_insert_eq.
      * unfold slot in *. congruence.
    + exists id', w. split; [|done]. unfold slot. rewrite Hvals.
      by rewrite list_lookup_insert_ne.
Qed.

(** ** Writes of a function body *)

Lemma same_shape_refl h : same_shape h h.
Proof. by intros b. Qed.

Lemma same_shape_trans h1 h2 h3 :
  same_shape h1 h2 → same_shape h2 h3 → same_shape h1 h3.
Proof. intros H12 H23 b. by rewrite H12. Qed.

Lemma same_shape_write_array b cells h : same_shape h (write_array b cells h).
Proof.
  intros b'. unfold write_array.
  destruct (h !! b) as [[[c|l]|]|] eqn:Hb; try done.
  destruct (decide (b = b')) as [<-|Hne].
  - rewrite Hb. rewrite list_lookup_insert_eq; [done|].
    by eapply lookup_lt_Some.
  - by rewrite list_lookup_insert_ne.
Qed.

Lemma same_shape_write_vector_array b lists h :
  same_shape h (write_vector_array b lists h).
Proof.
  intros b'. unfold write_vector_array.
  destruct (h !! b) as [[[c|l]|]|] eqn:Hb; try done.
  destruct (decide (b = b')) as [<-|Hne].
  - rewrite Hb. rewrite list_lookup_insert_eq; [done|].
    by eapply lookup_lt_Some.
  - by rewrite list_lookup_insert_ne.
Qed.

Lemma same_shape_write_results r i params h :
  same_shape h (write_results r i params h).
Proof.
  revert i h. induction params as [|p params IH]; intros i h; simpl.
  - apply same_shape_refl.
  - eapply same_shape_trans; [|apply IH].
    destruct p; try apply same_shape_refl;
      (apply same_shape_write_array || apply same_shape_write_vector_array).
Qed.

Lemma buffer_matches_same_shape h h' v :
  same_shape h h' → buffer_matches h v → buffer_matches h' v.
Proof.
  intros Hsh. destruct v as [| |b u|b u]; simpl; try done;
    intros [x Hx]; specialize (Hsh b); rewrite Hx in Hsh; simpl in Hsh;
    destruct (h' !! b) as [[[c|l]|]|]; try done; eauto.
Qed.

Lemma heap_inv_same_shape s s' :
  m_value_per_output_id s' = m_value_per_output_id s →
  same_shape (memory s) (memory s') →
  heap_inv s → heap_inv s'.
Proof.
  intros Hv Hsh [H1 H2 H3].
  split; unfold owned_by_slots, slot in *; rewrite ?Hv.
  - intros id v Hs. eapply buffer_matches_same_shape; [done|]. by eapply H1.
  - done.
  - intros b x Hlook. specialize (Hsh b). rewrite Hlook in Hsh.
    destruct (memory s !! b) as [[y|]|] eqn:Hy.
    + by eapply H3.
    + by destruct x.
    + by destruct x.
Qed.

(** ** The storage operations on known slots *)

Section operations.
Variable net : MFNetwork.
Implicit Types s : EvalState.

Lemma input_is_computed_Ok socket s v :
  slot s (socket_origin net socket) = Some v →
  input_is_computed net socket s = Ok (negb (is_null v)) s.
Proof.
  intros H. unfold input_is_computed, bind, get_value.
  unfold slot in H. by rewrite H.
Qed.

Lemma get_single_input_Ok socket s v :
  slot s (socket_origin net socket) = Some (Some v) →
  (∀ t, value_matches t v → is_single t = true) →
  ∃ view, get_single_input net socket s = Ok view s.
Proof.
  intros H Hv. unfold get_single_input, bind, get_value.
  unfold slot in H. rewrite H.
  destruct v; simpl; eauto;
    specialize (Hv (MFVector 0) eq_refl); done.
Qed.

Lemma get_vector_input_Ok socket s v :
  slot s (socket_origin net socket) = Some (Some v) →
  (∀ t, value_matches t v → is_single t = false) →
  ∃ view, get_vector_input net socket s = Ok view s.
Proof.
  intros H Hv. unfold get_vector_input, bind, get_value.
  unfold slot in H. rewrite H.
  destruct v; simpl; eauto;
    specialize (Hv (MFSingle 0) eq_refl); done.
Qed.

Lemma allocate_single_output_Ok socket s c :
  slot s socket = Some None →
  socket_data_type net socket = MFSingle c →
  allocate_single_output net socket s
  = Ok (length (memory s))
      (with_values
         (<[socket := Some (SingleValue (length (memory s))
                              (target_count net socket))]>
            (m_value_per_output_id s))
         (with_memory
            (memory s ++
               [Some (ArrayBuffer (replicate (min_array_size (m_mask s)) None))])
            s)).
Proof.
  intros H Ht. unfold slot in H.
  pose proof (lookup_lt_Some _ _ _ H) as Hlt.
  unfold allocate_single_output. eval_unfold. rewrite H, Ht. simpl.
  by rewrite decide_True by done.
Qed.

Lemma allocate_vector_output_Ok socket s c :
  slot s socket = Some None →
  socket_data_type net socket = MFVector c →
  allocate_vector_output net socket s
  = Ok (length (memory s))
      (with_values
         (<[socket := Some (VectorValue (length (memory s))
                              (target_count net socket))]>
            (m_value_per_output_id s))
         (with_memory
            (memory s ++
               [Some (VectorArray (replicate (min_array_size (m_mask s)) []))])
            s)).
Proof.
  intros H Ht. unfold slot in H.
  pose proof (lookup_lt_Some _ _ _ H) as Hlt.
  unfold allocate_vector_output. eval_unfold. rewrite H, Ht. simpl.
  by rewrite decide_True by done.
Qed.

(** [finish_input_socket] on an owned value: the count goes down by one,
    and the last user frees the buffer and empties the slot. *)
Lemma finish_input_socket_owned socket s v users b :
  slot s (socket_origin net socket) = Some (Some v) →
  remaining_users v = Some users →
  owned_buffer v = Some b →
  (1 ≤ users)%Z →
  buffer_matches (memory s) v →
  finish_input_socket net socket s
  = Ok tt
      (if bool_decide (users = 1%Z) then
         with_values
           (<[socket_origin net socket := None]> (m_value_per_output_id s))
           (with_memory (<[b := None]> (memory s)) (log_finish socket s))
       else
         with_values
           (<[socket_origin net socket :=
                Some (match v with
                      | VectorValue _ _ => VectorValue b (users - 1)
                      | _ => SingleValue b (users - 1)
                      end)]> (m_value_per_output_id s))
           (log_finish socket s)).
Proof.
  intros H Hu Hb Hpos Hm. unfold slot in H.
  pose proof (lookup_lt_Some _ _ _ H) as Hlt.
  unfold finish_input_socket. eval_unfold. simpl. rewrite H.
  destruct v as [| |b' u|b' u]; simpl in *; try done;
    injection Hu as ->; injection Hb as ->; destruct Hm as [x Hx];
    rewrite bool_decide_true by done; simpl;
    (case_bool_decide as H1; case_bool_decide as H2; try lia; simpl);
    rewrite ?Hx; simpl; rewrite decide_True by done; done.
Qed.

Lemma finish_input_socket_Ok_origin socket s s' :
  finish_input_socket net socket s = Ok tt s' →
  ∃ v, slot s (socket_origin net socket) = Some (Some v).
Proof.
  unfold finish_input_socket. intros H. eval_inv.
  destruct a0 as [v|]; [|by eval_inv]. by exists v.
Qed.

Lemma finish_input_socket_keeps_empty socket :
  keeps_empty (λ _, False) (finish_input_socket net socket).
Proof.
  intros s u s' H id _ Hid. unfold finish_input_socket in H. eval_inv.
  unfold slot in *. simpl in *.
  assert (∀ x, <[socket_origin net socket := x]> (m_value_per_output_id s)
               !! id = Some None ∨ id = socket_origin net socket) as Hins.
  { intros x. destruct (decide (socket_origin net socket = id)); [by right|].
    left. by rewrite list_lookup_insert_ne. }
  destruct a0 as [[| |b users|b users]|]; eval_inv; try done.
  - case_bool_decide; eval_inv; simpl.
    + destruct (decide (socket_origin net socket = id)) as [->|].
      * apply list_lookup_insert_eq. by eapply lookup_lt_Some.
      * by rewrite list_lookup_insert_ne.
    + destruct (Hins (Some (SingleValue b (users - 1)))) as [?| ->]; [done|].
      congruence.
  - case_bool_decide; eval_inv; simpl.
    + destruct (decide (socket_origin net socket = id)) as [->|].
      * apply list_lookup_insert_eq. by eapply lookup_lt_Some.
      * by rewrite list_lookup_insert_ne.
    + destruct (Hins (Some (VectorValue b (users - 1)))) as [?| ->]; [done|].
      congruence.
Qed.

End operations.

(** ** Counting the unfinished targets *)

Lemma filter_unfinished_out (l finished : list nat) socket :
  socket ∉ l →
  filter (λ t, t ∉ socket :: finished) l = filter (λ t, t ∉ finished) l.
Proof.
  induction l as [|x l IH]; intros Hout; [done|].
  apply not_elem_of_cons in Hout as [Hne Hout].
  rewrite !filter_cons, IH by done.
  destruct (decide (x ∉ finished)) as [Hx|Hx].
  - rewrite decide_True; [done|]. apply not_elem_of_cons. by split.
  - rewrite decide_False; [done|]. rewrite not_elem_of_cons. by intros [_ ?].
Qed.

Lemma filter_unfinished_in (l finished : list nat) socket :
  NoDup l → socket ∈ l → socket ∉ finished →
  length (filter (λ t, t ∉ finished) l)
  = S (length (filter (λ t, t ∉ socket :: finished) l)).
Proof.
  induction l as [|x l IH]; intros Hnd Hin Hfin; [by apply elem_of_nil in Hin|].
  apply NoDup_cons in Hnd as [Hx Hnd].
  apply elem_of_cons in Hin as [<-|Hin].
  - rewrite filter_cons_True by done.
    rewrite (filter_cons_False (λ t, t ∉ socket :: finished)).
    + simpl. f_equal. by rewrite filter_unfinished_out.
    + intros H. apply H. by left.
  - assert (x ≠ socket) by (by intros ->).
    destruct (decide (x ∈ finished)) as [Hxf|Hxf].
    + rewrite filter_cons_False by (by intros H'; apply H').
      rewrite (filter_cons_False (λ t, t ∉ socket :: finished)).
      * by apply IH.
      * intros H'. apply H'. by right.
    + rewrite filter_cons_True by done.
      rewrite (filter_cons_True (λ t, t ∉ socket :: finished)).
      * simpl. f_equal. by apply IH.
      * by apply not_elem_of_cons.
Qed.

(** ** Finishing an input *)

Section finish.
Variable fn : MF_EvaluateNetwork.
Variable rank : nat → nat.
Hypothesis Hwf : network_wf fn rank.
Local Abbreviation net := (network fn).
Implicit Types s : EvalState.

Lemma unfinished_targets_other s s' socket output :
  finished_inputs s' = socket :: finished_inputs s →
  socket ∉ socket_targets net output →
  unfinished_targets fn s' output = unfinished_targets fn s output.
Proof.
  intros Hfin Hout. unfold unfinished_targets. rewrite Hfin.
  by apply filter_unfinished_out.
Qed.

Lemma unfinished_targets_own s s' socket output :
  finished_inputs s' = socket :: finished_inputs s →
  NoDup (socket_targets net output) →
  socket ∈ socket_targets net output →
  socket ∉ finished_inputs s →
  length (unfinished_targets fn s output)
  = S (length (unfinished_targets fn s' output)).
Proof.
  intros Hfin Hnd Hin Hnot. unfold unfinished_targets. rewrite Hfin.
  by apply filter_unfinished_in.
Qed.

Lemma elem_of_unfinished_targets s socket output :
  socket ∈ socket_targets net output → socket ∉ finished_inputs s →
  socket ∈ unfinished_targets fn s output.
Proof. intros. unfold unfinished_targets. by apply list_elem_of_filter. Qed.

Lemma called_slot_same s s' output :
  slot s' output = slot s output →
  unfinished_targets fn s' output = unfinished_targets fn s output →
  called_slot fn s output → called_slot fn s' output.
Proof. intros Hs Hu. unfold called_slot. by rewrite Hs, Hu. Qed.

Lemma dummy_slot_same args s s' output :
  slot s' output = slot s output →
  dummy_slot fn args s output → dummy_slot fn args s' output.
Proof. intros Hs. unfold dummy_slot. by rewrite Hs. Qed.

Lemma core_inv_after_finish args mask s s' socket x :
  core_inv fn args mask s →
  socket < socket_id_amount net →
  socket_is_input net socket = true →
  socket_node net socket ∈ called_nodes s →
  socket ∉ finished_inputs s →
  node_is_dummy net (origin_node net socket) = true ∨
    origin_node net socket ∈ called_nodes s →
  m_mask s' = m_mask s →
  called_nodes s' = called_nodes s →
  finished_inputs s' = socket :: finished_inputs s →
  m_value_per_output_id s'
  = <[socket_origin net socket := x]> (m_value_per_output_id s) →
  heap_inv s' →
  (node_is_dummy net (origin_node net socket) = true →
   slot s (socket_origin net socket) = Some x) →
  (origin_node net socket ∈ called_nodes s →
   called_slot fn s' (socket_origin net socket)) →
  core_inv fn args mask s'.
Proof using Hwf.
  intros Hinv Hlt Hin Hnode Hnot Horigin Hmask Hcalled Hfin Hvals Hheap
    Hdummy Hslot.
  destruct (wf_input fn rank Hwf socket Hlt Hin)
    as (_ & Holt & Hout & Htarget & _ & _).
  assert (∀ id, id ≠ socket_origin net socket → slot s' id = slot s id)
    as Hother.
  { intros id Hne. unfold slot. rewrite Hvals.
    by rewrite list_lookup_insert_ne. }
  assert (∀ output, output < socket_id_amount net →
            socket_is_input net output = false →
            output ≠ socket_origin net socket →
            unfinished_targets fn s' output = unfinished_targets fn s output)
    as Hunf.
  { intros output Ho Hoo Hne. apply (unfinished_targets_other _ _ socket);
      [done|].
    intros Ht. apply Hne.
    destruct (wf_output fn rank Hwf output Ho Hoo) as (_ & _ & Hts).
    symmetry. by apply Hts. }
  destruct Hinv as [Xmask Xlength Xnd Xcalled Xclosed Xfnd Xfinished Xdummy
                      Xuncalled Xslot Xheap].
  split.
  - congruence.
  - rewrite Hvals. by rewrite length_insert.
  - by rewrite Hcalled.
  - rewrite Hcalled. done.
  - rewrite Hcalled. done.
  - rewrite Hfin. by apply NoDup_cons.
  - rewrite Hfin, Hcalled. intros t [->|Ht]%elem_of_cons; [done|].
    by apply Xfinished.
  - intros output Ho Hoo Hod.
    apply (dummy_slot_same args s); [|by apply Xdummy].
    destruct (decide (output = socket_origin net socket)) as [->|Hne];
      [|by apply Hother].
    rewrite Hdummy by done. unfold slot. rewrite Hvals.
    apply list_lookup_insert_eq. by rewrite Xlength.
  - rewrite Hcalled. intros output Ho Hoo Hod Hnc.
    rewrite Hother; [by apply Xuncalled|].
    intros ->. destruct Horigin as [Hd|Hc]; unfold origin_node in *;
      [congruence|done].
  - rewrite Hcalled. intros output Ho Hoo Hoc.
    destruct (decide (output = socket_origin net socket)) as [->|Hne];
      [by apply Hslot|].
    apply (called_slot_same s); [by apply Hother|by apply Hunf|].
    by apply Xslot.
  - done.
Qed.

(** [finish_input_socket] on an unfinished input of a called node whose
    origin is computed. *)
Lemma finish_step args mask s socket :
  core_inv fn args mask s →
  socket < socket_id_amount net →
  socket_is_input net socket = true →
  socket_node net socket ∈ called_nodes s →
  socket ∉ finished_inputs s →
  node_is_dummy net (origin_node net socket) = true ∨
    origin_node net socket ∈ called_nodes s →
  ∃ s', finish_input_socket net socket s = Ok tt s' ∧
    core_inv fn args mask s' ∧
    finished_inputs s' = socket :: finished_inputs s ∧
    called_nodes s' = called_nodes s.
Proof using Hwf.
  intros Hinv Hlt Hin Hnode Hnot Horigin.
  destruct (wf_input fn rank Hwf socket Hlt Hin)
    as (_ & Holt & Hout & Htarget & _ & Hbound).
  destruct (wf_output fn rank Hwf _ Holt Hout) as (_ & Hnd & _).
  destruct Horigin as [Hd|Hc].
  - (* the origin is an input of the call *)
    destruct (ci_dummy _ _ _ _ Hinv _ Holt Hout Hd) as [Hpresent _].
    destruct (Hpresent (Hbound Hd)) as (v & Hv & Hfrom & _).
    exists (log_finish socket s).
    split; [by eapply finish_input_socket_from_caller|].
    split; [|done].
    eapply (core_inv_after_finish args mask s _ socket (Some v)); try done.
    + by left.
    + simpl. symmetry. by apply list_insert_id.
    + eapply heap_inv_ext; [| |apply Hinv]; done.
    + intros Hc. destruct (ci_called _ _ _ _ Hinv _ Hc) as [_ Hnd'].
      unfold origin_node in *. congruence.
  - (* the origin is an output of a called node *)
    destruct (ci_called_slot _ _ _ _ Hinv _ Holt Hout Hc)
      as [(v & Hv & Husers & Hkind & Hnone)|(_ & _ & Hnone)].
    2:{ pose proof (elem_of_unfinished_targets s socket _ Htarget Hnot) as H.
        rewrite Hnone in H. by apply elem_of_nil in H. }
    pose proof (elem_of_unfinished_targets s socket _ Htarget Hnot) as Hunf.
    assert (∃ b, owned_buffer v = Some b) as [b Hb].
    { destruct v; simpl in *; try done; eauto. }
    pose proof (hi_matches _ (ci_heap _ _ _ _ Hinv) _ _ Hv) as Hm.
    assert (1 ≤ Z.of_nat (length (unfinished_targets fn s
                                    (socket_origin net socket))))%Z as Hpos.
    { destruct (unfinished_targets fn s (socket_origin net socket));
        [by apply elem_of_nil in Hunf|simpl; lia]. }
    eexists. split.
    { eapply finish_input_socket_owned; done. }
    assert (Hcount :
      ∀ s', finished_inputs s' = socket :: finished_inputs s →
        length (unfinished_targets fn s (socket_origin net socket))
        = S (length (unfinished_targets fn s' (socket_origin net socket)))).
    { intros s' Hs'. by apply (unfinished_targets_own s s' socket). }
    case_bool_decide as Hone;
      match goal with
      | |- core_inv _ _ _ ?st ∧ _ => pose proof (Hcount st eq_refl) as Hcount'
      end.
    + (* the last user: the buffer is freed and the slot emptied *)
      split; [|done].
      eapply (core_inv_after_finish args mask s _ socket None); try done.
      * by right.
      * eapply heap_inv_free; [apply Hinv|done..].
      * intros Hd. destruct (ci_called _ _ _ _ Hinv _ Hc) as [_ Hnd'].
        unfold origin_node in *. congruence.
      * intros _. right. split; [|split].
        -- unfold slot. simpl. apply list_lookup_insert_eq.
           by rewrite (ci_length _ _ _ _ Hinv).
        -- intros Hnil. rewrite Hnil in Htarget. by apply elem_of_nil in Htarget.
        -- apply length_zero_iff_nil. lia.
    + (* other users remain *)
      split; [|done].
      eapply (core_inv_after_finish args mask s _ socket (Some _)); try done.
      * by right.
      * eapply heap_inv_recount; [apply Hinv|done| | |done..].
        -- destruct v; simpl in *; done.
        -- intros h. destruct v; simpl in *; try done;
             injection Hb as ->; done.
      * intros Hd. destruct (ci_called _ _ _ _ Hinv _ Hc) as [_ Hnd'].
        unfold origin_node in *. congruence.
      * intros _. left. eexists. split; [|split; [|split]].
        -- unfold slot. simpl. apply list_lookup_insert_eq.
           by rewrite (ci_length _ _ _ _ Hinv).
        -- destruct v; simpl in *; try done; f_equal; lia.
        -- destruct v; simpl in *; done.
        -- intros Hnil. rewrite Hnil in Hcount'. simpl in Hcount'.
           rewrite Hcount' in Hone. done.
Qed.

End finish.

(** ** Slots that stay empty *)

Lemma keeps_empty_bind {A B} (written : nat → Prop) (c : Eval A)
    (k : A → Eval B) :
  keeps_empty written c → (∀ a, keeps_empty written (k a)) →
  keeps_empty written (bind c k).
Proof.
  intros Hc Hk s b s' H id Hid Hempty. apply bind_Ok in H as (a & s1 & H1 & H2).
  eapply Hk; [done..|]. by eapply Hc.
Qed.

(** A computation that leaves the slot table as it is. *)
Lemma keeps_empty_same {A} (written : nat → Prop) (c : Eval A) :
  (∀ s a s', c s = Ok a s' →
     m_value_per_output_id s' = m_value_per_output_id s) →
  keeps_empty written c.
Proof.
  intros Hc s a s' H id _ Hempty. unfold slot in *. by erewrite Hc.
Qed.

Lemma keeps_empty_ret {A} written (a : A) : keeps_empty written (ret a).
Proof. apply keeps_empty_same. intros s b s' H. by eval_inv. Qed.

Lemma keeps_empty_BLI_assert written c : keeps_empty written (BLI_assert c).
Proof. apply keeps_empty_same. intros s b s' H. by eval_inv. Qed.

Lemma keeps_empty_gets {A} written (f : EvalState → A) :
  keeps_empty written (gets f).
Proof. apply keeps_empty_same. intros s b s' H. by eval_inv. Qed.

Lemma keeps_empty_get_value written id : keeps_empty written (get_value id).
Proof. apply keeps_empty_same. intros s b s' H. by eval_inv. Qed.

Lemma keeps_empty_allocate written b : keeps_empty written (allocate b).
Proof. apply keeps_empty_same. intros s n s' H. by eval_inv. Qed.

Lemma keeps_empty_read_array written b : keeps_empty written (read_array b).
Proof. apply keeps_empty_same. intros s n s' H. by eval_inv. Qed.

Lemma keeps_empty_read_vector_array written b :
  keeps_empty written (read_vector_array b).
Proof. apply keeps_empty_same. intros s n s' H. by eval_inv. Qed.

Lemma keeps_empty_single__cpp_type written t :
  keeps_empty written (single__cpp_type t).
Proof. apply keeps_empty_same. intros s n s' H. by eval_inv. Qed.

Lemma keeps_empty_vector__cpp_base_type written t :
  keeps_empty written (vector__cpp_base_type t).
Proof. apply keeps_empty_same. intros s n s' H. by eval_inv. Qed.

Lemma keeps_empty_set_value (written : nat → Prop) id v :
  written id → keeps_empty written (set_value id (Some v)).
Proof.
  intros Hw s u s' H id' Hid' Hempty. eval_inv. unfold slot in *. simpl.
  rewrite list_lookup_insert_ne; [done|]. by intros <-.
Qed.

Lemma keeps_empty_clear (written : nat → Prop) id :
  keeps_empty written (set_value id None).
Proof.
  intros s u s' H id' Hid' Hempty. eval_inv. unfold slot in *. simpl.
  destruct (decide (id = id')) as [->|Hne].
  - apply list_lookup_insert_eq. by eapply lookup_lt_Some.
  - by rewrite list_lookup_insert_ne.
Qed.

Create HintDb keeps_empty.
#[global] Hint Resolve keeps_empty_ret keeps_empty_BLI_assert keeps_empty_gets
  keeps_empty_get_value keeps_empty_allocate keeps_empty_read_array
  keeps_empty_read_vector_array keeps_empty_single__cpp_type
  keeps_empty_vector__cpp_base_type keeps_empty_clear : keeps_empty.

Ltac solve_keeps_empty :=
  repeat first
    [ progress auto with keeps_empty
    | apply keeps_empty_set_value; solve [auto]
    | apply keeps_empty_bind; [|intros ?]
    | match goal with
      | |- keeps_empty _ (match ?x with _ => _ end) => destruct x
      | |- keeps_empty _ (if ?x then _ else _) => destruct x
      end ].

(** ** Binding the parameters *)

Section bind_params.
Variable std_sort : (nat → nat → bool) → list nat → list nat.
Variable fn : MF_EvaluateNetwork.
Variable rank : nat → nat.
Hypothesis Hwf : network_wf fn rank.
Local Abbreviation net := (network fn).
Implicit Types s : EvalState.

Lemma quiet_bind_param node i t : quiet (bind_param fn node i t).
Proof. unfold bind_param. destruct t; solve_quiet. Qed.

Lemma quiet_bind_params node i types : quiet (bind_params fn node i types).
Proof.
  revert i. induction types as [|t types IH]; intros i; simpl.
  - apply quiet_ret.
  - apply quiet_bind; [apply quiet_bind_param|]. intros p.
    apply quiet_bind; [apply IH|]. intros ps. apply quiet_ret.
Qed.

Lemma bind_param_keeps_empty node i t :
  keeps_empty
    (λ id, is_output_param t = true ∧ id = output_for_param net node i)
    (bind_param fn node i t).
Proof.
  unfold bind_param, get_single_input, get_vector_input,
    allocate_single_output, allocate_vector_output, get_mutable_single,
    get_mutable_vector.
  destruct t; simpl; solve_keeps_empty.
Qed.

Lemma keeps_empty_weaken {A} (w w' : nat → Prop) (c : Eval A) :
  (∀ id, w id → w' id) → keeps_empty w c → keeps_empty w' c.
Proof. intros Hw Hc s a s' H id Hid. eapply Hc; [done|]. auto. Qed.

Lemma bind_params_keeps_empty node i types :
  keeps_empty (λ id, id ∈ param_outputs fn node i types)
    (bind_params fn node i types).
Proof.
  revert i. induction types as [|t types IH]; intros i; simpl.
  - apply keeps_empty_ret.
  - apply keeps_empty_bind.
    + eapply keeps_empty_weaken; [|apply bind_param_keeps_empty].
      intros id [Ht ->]. rewrite Ht. by left.
    + intros p. apply keeps_empty_bind; [|intros ps; apply keeps_empty_ret].
      eapply keeps_empty_weaken; [|apply IH].
      intros id Hid. apply elem_of_app. by right.
Qed.

Lemma is_single_true t : is_single t = true → ∃ c, t = MFSingle c.
Proof. destruct t; [eauto|done]. Qed.

Lemma is_single_false t : is_single t = false → ∃ c, t = MFVector c.
Proof. destruct t; [done|eauto]. Qed.

Lemma params_bound_refl s : heap_inv s → params_bound net s s [].
Proof.
  intros Hh. split_and!; try done. intros id Hid. by apply elem_of_nil in Hid.
Qed.

(** An output socket gets a new buffer. *)
Lemma params_bound_new s s1 s1' bound id v buf :
  params_bound net s s1 bound →
  id ∉ bound →
  slot s1 id = Some None →
  m_mask s1' = m_mask s1 →
  finished_inputs s1' = finished_inputs s1 →
  called_nodes s1' = called_nodes s1 →
  m_value_per_output_id s1' = <[id := Some v]> (m_value_per_output_id s1) →
  memory s1' = memory s1 ++ [Some buf] →
  owned_buffer v = Some (length (memory s1)) →
  buffer_matches (memory s1 ++ [Some buf]) v →
  remaining_users v = Some (target_count net id) →
  value_matches (socket_data_type net id) v →
  params_bound net s s1' (bound ++ [id]).
Proof.
  intros (Hh & Hm & Hf & Hc & Hl & Hout & Hin) Hid Hempty Hm' Hf' Hc' Hv' Hmem'
    Hb Hbm Hu Hk.
  assert (id < length (m_value_per_output_id s1)) as Hlt
    by (by eapply lookup_lt_Some).
  split_and!; try congruence.
  - by eapply heap_inv_new.
  - rewrite Hv', length_insert. done.
  - intros id' [Hid' Hne]%not_elem_of_app. rewrite <- Hout by done.
    unfold slot. rewrite Hv'. apply list_lookup_insert_ne.
    intros ->. apply Hne. by left.
  - intros id' [Hid'|Hid']%elem_of_app.
    + destruct (Hin id' Hid') as (v' & Hs' & ? & ?). exists v'.
      split; [|done]. rewrite <- Hs'. unfold slot. rewrite Hv'.
      apply list_lookup_insert_ne. by intros ->.
    + apply list_elem_of_singleton in Hid' as ->. exists v.
      split; [|done]. unfold slot. rewrite Hv'.
      by apply list_lookup_insert_eq.
Qed.

Lemma bind_param_step s s1 node i t bound :
  params_bound net s s1 bound →
  node < node_id_amount net →
  node_is_dummy net node = false →
  (∀ id, id ∈ bound → id ∈ node_outputs net node) →
  (∀ socket, socket ∈ node_inputs net node → input_ready net s socket) →
  (∀ id, id ∈ node_outputs net node → id ∉ bound → slot s id = Some None) →
  (is_input_param t = true →
   input_for_param net node i ∈ node_inputs net node) →
  (is_output_param t = true →
   output_for_param net node i ∈ node_outputs net node ∧
   output_for_param net node i ∉ bound) →
  params_typed fn node i [t] →
  ∃ p s1', bind_param fn node i t s1 = Ok p s1' ∧
    (params_bound net s s1'
       (bound ++ if is_output_param t then [output_for_param net node i]
                 else [])
     ∨ (is_mutable_param t = true ∧
        slot s1' (socket_origin net (input_for_param net node i)) = Some None ∧
        called_nodes s1' = called_nodes s)).
Proof using Hwf.
  intros Hpb Hnode Hfun Hbound Hready Hfree Hinput Houtput
    (Htin & Htout & Htmut & _).
  pose proof Hpb as (Hh & Hm & Hf & Hc & Hl & Hsame & Hnew).
  (* what is known of the input socket of the parameter *)
  assert (is_input_param t = true →
          ∃ v, slot s1 (socket_origin net (input_for_param net node i))
               = Some (Some v) ∧
               value_matches
                 (socket_data_type net (input_for_param net node i)) v)
    as Hin_fact.
  { intros Ht. specialize (Hinput Ht).
    destruct (Hready _ Hinput) as (v & Hv & Hk).
    destruct (wf_node_input fn rank Hwf node _ Hnode Hinput) as (Hlt & Hi & _).
    destruct (wf_input fn rank Hwf _ Hlt Hi) as (_ & _ & _ & _ & Hdt & _).
    exists v. rewrite Hdt. split; [|done]. rewrite Hsame; [done|].
    intros Hb. apply Hbound in Hb.
    by eapply (wf_origin_not_own_output fn rank Hwf node). }
  (* what is known of the output socket of the parameter *)
  assert (is_output_param t = true →
          (output_for_param net node i ∉ bound) ∧
          slot s1 (output_for_param net node i) = Some None) as Hout_fact.
  { intros Ht. destruct (Houtput Ht) as [Ho Hnb]. split; [done|].
    rewrite Hsame by done. by apply Hfree. }
  unfold bind_param.
  destruct t; simpl in *.
  - (* SingleInput *)
    destruct (Hin_fact eq_refl) as (v & Hv & Hk).
    pose proof (Htin eq_refl) as Hsingle.
    destruct (get_single_input_Ok net _ s1 v Hv) as [view Hview].
    { intros t' Ht'. destruct v; simpl in *; congruence. }
    eexists _, s1. rewrite (bind_eq_Ok _ _ _ _ _ Hview). split; [done|].
    left. by rewrite app_nil_r.
  - (* VectorInput *)
    destruct (Hin_fact eq_refl) as (v & Hv & Hk).
    pose proof (Htin eq_refl) as Hsingle.
    destruct (get_vector_input_Ok net _ s1 v Hv) as [view Hview].
    { intros t' Ht'. destruct v; simpl in *; congruence. }
    eexists _, s1. rewrite (bind_eq_Ok _ _ _ _ _ Hview). split; [done|].
    left. by rewrite app_nil_r.
  - (* SingleOutput *)
    destruct (Hout_fact eq_refl) as [Hnb Hempty].
    destruct (is_single_true _ (Htout eq_refl)) as [c Hdt].
    eexists _, _.
    rewrite (bind_eq_Ok _ _ _ _ _
               (allocate_single_output_Ok net _ s1 c Hempty Hdt)).
    split; [done|]. left.
    eapply params_bound_new; try done; simpl.
    + exists (replicate (min_array_size (m_mask s1)) None).
      by apply list_lookup_middle.
    + by rewrite Hdt.
  - (* VectorOutput *)
    destruct (Hout_fact eq_refl) as [Hnb Hempty].
    destruct (is_single_false _ (Htout eq_refl)) as [c Hdt].
    eexists _, _.
    rewrite (bind_eq_Ok _ _ _ _ _
               (allocate_vector_output_Ok net _ s1 c Hempty Hdt)).
    split; [done|]. left.
    eapply params_bound_new; try done; simpl.
    + exists (replicate (min_array_size (m_mask s1)) []).
      by apply list_lookup_middle.
    + by rewrite Hdt.
  - (* MutableSingle *)
    destruct (Hin_fact eq_refl) as (v & Hv & Hk).
    pose proof (Htin eq_refl) as Hsingle.
    destruct (Hout_fact eq_refl) as [Hnb Hempty].
    destruct (is_single_true _ (Htout eq_refl)) as [c Hdt].
    assert (socket_data_type net
              (socket_origin net (input_for_param net node i)) = MFSingle c)
      as Hdt_from.
    { specialize (Hinput eq_refl).
      destruct (wf_node_input fn rank Hwf node _ Hnode Hinput)
        as (Hlt & Hi & _).
      destruct (wf_input fn rank Hwf _ Hlt Hi) as (_ & _ & _ & _ & Heq & _).
      rewrite <- Heq, (Htmut eq_refl). done. }
    assert (output_for_param net node i < length (m_value_per_output_id s1))
      as Hlt by (by eapply lookup_lt_Some).
    destruct v as [f| |b users|]; simpl in Hk; try congruence.
    + eexists _, _.
      rewrite (bind_eq_Ok _ _ _ _ _
                 (get_mutable_single_from_caller net _ _ s1 f c
                    Hdt_from Hdt Hv Hlt)).
      split; [done|]. left.
      eapply params_bound_new; try done; simpl.
      * eexists. by apply list_lookup_middle.
      * by rewrite Hdt.
    + destruct (decide (users = 1%Z)) as [->|Hne].
      * eexists _, _.
        rewrite (bind_eq_Ok _ _ _ _ _
                   (get_mutable_single_move net _ _ s1 b c
                      Hdt_from Hdt Hv Hlt)).
        split; [done|]. right. split; [done|]. split; [|done].
        unfold slot. simpl. apply list_lookup_insert_eq.
        rewrite length_insert. by eapply lookup_lt_Some.
      * destruct (hi_matches _ Hh _ _ Hv) as [src Hsrc].
        eexists _, _.
        rewrite (bind_eq_Ok _ _ _ _ _
                   (get_mutable_single_copy net _ _ s1 b users c src
                      Hdt_from Hdt Hv Hne Hsrc Hlt)).
        split; [done|]. left.
        eapply params_bound_new; try done; simpl.
        -- eexists. by apply list_lookup_middle.
        -- by rewrite Hdt.
  - (* MutableVector *)
    destruct (Hin_fact eq_refl) as (v & Hv & Hk).
    pose proof (Htin eq_refl) as Hsingle.
    destruct (Hout_fact eq_refl) as [Hnb Hempty].
    destruct (is_single_false _ (Htout eq_refl)) as [c Hdt].
    assert (socket_data_type net
              (socket_origin net (input_for_param net node i)) = MFVector c)
      as Hdt_from.
    { specialize (Hinput eq_refl).
      destruct (wf_node_input fn rank Hwf node _ Hnode Hinput)
        as (Hlt & Hi & _).
      destruct (wf_input fn rank Hwf _ Hlt Hi) as (_ & _ & _ & _ & Heq & _).
      rewrite <- Heq, (Htmut eq_refl). done. }
    assert (output_for_param net node i < length (m_value_per_output_id s1))
      as Hlt by (by eapply lookup_lt_Some).
    destruct v as [|f| |b users]; simpl in Hk; try congruence.
    + eexists _, _.
      rewrite (bind_eq_Ok _ _ _ _ _
                 (get_mutable_vector_from_caller net _ _ s1 f c
                    Hdt_from Hdt Hv Hlt)).
      split; [done|]. left.
      eapply params_bound_new; try done; simpl.
      * eexists. by apply list_lookup_middle.
      * by rewrite Hdt.
    + destruct (decide (users = 1%Z)) as [->|Hne].
      * eexists _, _.
        rewrite (bind_eq_Ok _ _ _ _ _
                   (get_mutable_vector_move net _ _ s1 b c
                      Hdt_from Hdt Hv Hlt)).
        split; [done|]. right. split; [done|]. split; [|done].
        unfold slot. simpl. apply list_lookup_insert_eq.
        rewrite length_insert. by eapply lookup_lt_Some.
      * destruct (hi_matches _ Hh _ _ Hv) as [src Hsrc].
        eexists _, _.
        rewrite (bind_eq_Ok _ _ _ _ _
                   (get_mutable_vector_copy net _ _ s1 b users c src
                      Hdt_from Hdt Hv Hne Hsrc Hlt)).
        split; [done|]. left.
        eapply params_bound_new; try done; simpl.
        -- eexists. by apply list_lookup_middle.
        -- by rewrite Hdt.
Qed.

Lemma bind_params_spec s node :
  node < node_id_amount net →
  node_is_dummy net node = false →
  (∀ socket, socket ∈ node_inputs net node → input_ready net s socket) →
  (∀ id, id ∈ node_outputs net node → slot s id = Some None) →
  ∀ types i bound s1,
    (∀ socket, socket ∈ param_inputs fn node i types →
               socket ∈ node_inputs net node) →
    node_outputs net node = bound ++ param_outputs fn node i types →
    params_typed fn node i types →
    params_bound net s s1 bound →
    match bind_params fn node i types s1 with
    | Ok _ s2 =>
        params_bound net s s2 (node_outputs net node) ∨
        ((∃ socket, socket ∈ node_inputs net node ∧
                    slot s2 (socket_origin net socket) = Some None) ∧
         called_nodes s2 = called_nodes s ∧
         Exists (λ t, is_mutable_param t = true) types)
    | AssertFail s2 =>
        called_nodes s2 = called_nodes s ∧
        Exists (λ t, is_mutable_param t = true) types
    | OutOfFuel _ => False
    end.
Proof using Hwf.
  intros Hnode Hfun Hready Hfree types.
  pose proof (wf_NoDup_outputs fn rank Hwf node Hnode) as Hnd.
  induction types as [|t types IH]; intros i bound s1 Hins Houts Htyped Hpb.
  - simpl in *. left. by rewrite Houts, app_nil_r.
  - simpl in Houts, Htyped, Hins |- *.
    destruct Htyped as (Ht1 & Ht2 & Ht3 & Htyped).
    destruct (bind_param_step s s1 node i t bound Hpb Hnode Hfun)
      as (p & s1' & Hstep & Hcases); try done.
    { intros id Hid. rewrite Houts. apply elem_of_app. by left. }
    { intros id Hid _. by apply Hfree. }
    { intros Ht. apply Hins. rewrite Ht. by left. }
    { intros Ht. rewrite Ht in Houts. split.
      - rewrite Houts. apply elem_of_app. right. by left.
      - rewrite Houts in Hnd. apply NoDup_app in Hnd as (_ & Hdisj & _).
        intros Hb. eapply Hdisj; [done|]. by left. }
    rewrite (bind_eq_Ok _ _ _ _ _ Hstep).
    assert (∀ id, id ∈ param_outputs fn node (S i) types →
                  id ∈ node_outputs net node) as Hsub.
    { intros id Hid. rewrite Houts. apply elem_of_app. right.
      apply elem_of_app. by right. }
    destruct Hcases as [Hclean|(Hmut & Hmoved & Hcalled)].
    + assert (∀ socket, socket ∈ param_inputs fn node (S i) types →
                        socket ∈ node_inputs net node) as Hins'.
      { intros socket H. apply Hins. apply elem_of_app. by right. }
      rewrite app_assoc in Houts.
      pose proof (IH (S i) _ s1' Hins' Houts Htyped Hclean) as IH'.
      unfold bind at 1.
      destruct (bind_params fn node (S i) types s1') as [ps s2|s2|s2];
        simpl; [|by destruct IH' as [? ?]; split; [|apply Exists_cons; right]
               |done].
      destruct IH' as [?|(? & ? & ?)]; [by left|right].
      split; [done|]. split; [done|]. apply Exists_cons. by right.
    + pose proof (quiet_bind_params node (S i) types s1') as Hq.
      pose proof (bind_params_keeps_empty node (S i) types s1') as Hk.
      unfold bind at 1.
      destruct (bind_params fn node (S i) types s1') as [ps s2|s2|s2];
        simpl; [| |done].
      * right. destruct Hq as [Hq _]. split; [|split].
        -- exists (input_for_param net node i). split.
           ++ apply Hins. destruct t; try done; by left.
           ++ eapply Hk; [done| |done]. intros Hin. apply Hsub in Hin.
              eapply (wf_origin_not_own_output fn rank Hwf node); [done..| |done].
              apply Hins. destruct t; try done; by left.
        -- congruence.
        -- apply Exists_cons. by left.
      * destruct Hq as [Hq _]. split; [congruence|].
        apply Exists_cons. by left.
Qed.

End bind_params.

(** ** Invoking a function node *)

Section evaluate_function.
Variable fn : MF_EvaluateNetwork.
Variable rank : nat → nat.
Hypothesis Hwf : network_wf fn rank.
Local Abbreviation net := (network fn).
Implicit Types s : EvalState.

Lemma slot_in_range args mask s id :
  core_inv fn args mask s → id < socket_id_amount net → ∃ x, slot s id = Some x.
Proof.
  intros Hinv Hlt. apply lookup_lt_is_Some_2.
  by rewrite (ci_length _ _ _ _ Hinv).
Qed.

(** An input whose origin holds a value: the value is of the category of
    the socket, and the origin is an input of the call or an output of a
    called node. *)
Lemma computed_input args mask s socket :
  core_inv fn args mask s →
  socket < socket_id_amount net → socket_is_input net socket = true →
  slot s (socket_origin net socket) ≠ Some None →
  input_ready net s socket ∧
  (node_is_dummy net (origin_node net socket) = true ∨
   origin_node net socket ∈ called_nodes s).
Proof using Hwf.
  intros Hinv Hlt Hin Hfull.
  destruct (wf_input fn rank Hwf socket Hlt Hin)
    as (_ & Holt & Hout & _ & _ & Hbound).
  destruct (slot_in_range args mask s _ Hinv Holt) as [[v|] Hv]; [|done].
  destruct (node_is_dummy net (origin_node net socket)) eqn:Hd.
  - split; [|by left].
    destruct (ci_dummy _ _ _ _ Hinv _ Holt Hout Hd) as [Hpresent _].
    destruct (Hpresent (Hbound eq_refl)) as (v' & Hv' & _ & Hk & _).
    exists v. split; [done|]. congruence.
  - destruct (decide (origin_node net socket ∈ called_nodes s)) as [Hc|Hc].
    + split; [|by right].
      destruct (ci_called_slot _ _ _ _ Hinv _ Holt Hout Hc)
        as [(v' & Hv' & _ & Hk & _)|(Hnone & _)]; [|congruence].
      exists v. split; [done|]. congruence.
    + pose proof (ci_uncalled _ _ _ _ Hinv _ Holt Hout Hd Hc). congruence.
Qed.

Lemma unfinished_targets_all s output :
  (∀ t, t ∈ socket_targets net output → t ∉ finished_inputs s) →
  unfinished_targets fn s output = socket_targets net output.
Proof.
  intros Hall. unfold unfinished_targets.
  induction (socket_targets net output) as [|t l IH]; [done|].
  rewrite filter_cons_True by (apply Hall; by left).
  f_equal. apply IH. intros t' Ht'. apply Hall. by right.
Qed.

(** The state after the parameters were bound and the body ran. *)
Lemma core_inv_after_call args mask s s2 s3 node :
  boundary_inv fn args mask s →
  node < node_id_amount net →
  node_is_dummy net node = false →
  node ∉ called_nodes s →
  (∀ socket, socket ∈ node_inputs net node →
     node_is_dummy net (origin_node net socket) = true ∨
     origin_node net socket ∈ called_nodes s) →
  params_bound net s s2 (node_outputs net node) →
  m_mask s3 = m_mask s2 →
  m_value_per_output_id s3 = m_value_per_output_id s2 →
  same_shape (memory s2) (memory s3) →
  finished_inputs s3 = finished_inputs s2 →
  called_nodes s3 = node :: called_nodes s2 →
  core_inv fn args mask s3.
Proof using Hwf.
  intros [Hinv Hdone] Hnode Hfun Hnew Hclosed
    (Hh & Hm & Hf & Hc & Hl & Hsame & Hbound) Hm3 Hv3 Hsh Hf3 Hc3.
  destruct Hinv as [Xmask Xlength Xnd Xcalled Xclosed Xfnd Xfinished Xdummy
                      Xuncalled Xslot Xheap].
  assert (∀ id, slot s3 id = slot s2 id) as Hslot3.
  { intros id. unfold slot. by rewrite Hv3. }
  assert (∀ output, unfinished_targets fn s3 output
                    = unfinished_targets fn s output) as Hunf.
  { intros output. unfold unfinished_targets. by rewrite Hf3, Hf. }
  assert (∀ output, output < socket_id_amount net →
            socket_is_input net output = false →
            socket_node net output ≠ node →
            output ∉ node_outputs net node) as Hnot_own.
  { intros output Ho Hoo Hne Hin.
    by destruct (wf_node_output fn rank Hwf node _ Hnode Hin) as (_ & _ & ?). }
  split.
  - congruence.
  - rewrite Hv3. congruence.
  - rewrite Hc3, Hc. by apply NoDup_cons.
  - rewrite Hc3, Hc. intros n [->|Hn]%elem_of_cons; [done|]. by apply Xcalled.
  - rewrite Hc3, Hc. intros n socket [->|Hn]%elem_of_cons Hs.
    + destruct (Hclosed _ Hs) as [?|?]; [by left|right; by right].
    + destruct (Xclosed _ _ Hn Hs) as [?|?]; [by left|right; by right].
  - congruence.
  - rewrite Hf3, Hf, Hc3, Hc. intros socket Hs.
    destruct (Xfinished _ Hs) as (? & ? & ?). split_and!; try done. by right.
  - intros output Ho Hoo Hod. apply (dummy_slot_same fn args s); [|by apply Xdummy].
    rewrite Hslot3. apply Hsame. apply Hnot_own; try done. congruence.
  - rewrite Hc3, Hc. intros output Ho Hoo Hod [Hne Hnc]%not_elem_of_cons.
    rewrite Hslot3, Hsame; [by apply Xuncalled|]. by apply Hnot_own.
  - rewrite Hc3, Hc. intros output Ho Hoo [Heq|Hoc]%elem_of_cons.
    + (* an output of the node that was called *)
      destruct (wf_output fn rank Hwf output Ho Hoo) as (Hown & Hndt & Hts).
      rewrite Heq in Hown. destruct (Hbound _ Hown) as (v & Hv & Hu & Hk).
      assert (unfinished_targets fn s output = socket_targets net output)
        as Hall.
      { apply unfinished_targets_all. intros t Ht Hfin.
        destruct (Hts t Ht) as (Htlt & Htin & Hto).
        destruct (Xfinished _ Hfin) as (_ & _ & Htc).
        destruct (wf_input fn rank Hwf t Htlt Htin) as (Htown & _).
        destruct (Xclosed _ _ Htc Htown) as [Hd|Hcalled];
          unfold origin_node in *; rewrite Hto, Heq in *; congruence. }
      left. exists v. rewrite Hslot3, Hunf, Hall. done.
    + apply (called_slot_same fn s); [| |by apply Xslot].
      * rewrite Hslot3. apply Hsame. apply Hnot_own; try done.
        intros Heq. by rewrite Heq in Hoc.
      * apply Hunf.
  - eapply heap_inv_same_shape; [| |exact Hh]; done.
Qed.

Lemma finish_inputs_spec args mask node :
  node < node_id_amount net →
  node_is_dummy net node = false →
  ∀ rest s,
    core_inv fn args mask s →
    node ∈ called_nodes s →
    NoDup rest →
    (∀ socket, socket ∈ rest →
       socket ∈ node_inputs net node ∧ socket ∉ finished_inputs s) →
    ∃ s', for_each rest (finish_input_socket net) s = Ok tt s' ∧
      core_inv fn args mask s' ∧
      called_nodes s' = called_nodes s ∧
      (∀ socket, socket ∈ finished_inputs s' ↔
                 socket ∈ rest ∨ socket ∈ finished_inputs s).
Proof using Hwf.
  intros Hnode Hfun rest.
  induction rest as [|socket rest IH]; intros s Hinv Hcalled Hnd Hrest; simpl.
  - exists s. split_and!; try done. intros socket. split; [by right|].
    intros [H|H]; [by apply elem_of_nil in H|done].
  - apply NoDup_cons in Hnd as [Hfresh Hnd].
    destruct (Hrest socket) as [Hown Hnot]; [by left|].
    destruct (wf_node_input fn rank Hwf node _ Hnode Hown) as (Hlt & Hin & Heq).
    destruct (finish_step fn rank Hwf args mask s socket Hinv Hlt Hin)
      as (s1 & Hstep & Hinv1 & Hfin1 & Hcalled1); try done.
    { by rewrite Heq. }
    { by eapply (ci_closed _ _ _ _ Hinv). }
    destruct (IH s1 Hinv1) as (s' & Hloop & Hinv' & Hcalled' & Hfin'); try done.
    { by rewrite Hcalled1. }
    { intros t Ht. destruct (Hrest t) as [? ?]; [by right|]. split; [done|].
      rewrite Hfin1. apply not_elem_of_cons. split; [|done]. by intros ->. }
    exists s'. rewrite (bind_eq_Ok _ _ _ _ _ Hstep).
    split_and!; try done; [congruence|].
    intros t. rewrite Hfin', Hfin1, !elem_of_cons. tauto.
Qed.

Lemma finish_inputs_need_origins rest s s' :
  for_each rest (finish_input_socket net) s = Ok tt s' →
  ∀ socket, socket ∈ rest → slot s (socket_origin net socket) ≠ Some None.
Proof.
  revert s. induction rest as [|t rest IH]; intros s H socket Hs;
    [by apply elem_of_nil in Hs|].
  simpl in H. apply bind_Ok in H as ([] & s1 & Hstep & Hloop).
  apply elem_of_cons in Hs as [->|Hs].
  - destruct (finish_input_socket_Ok_origin net _ _ _ Hstep) as [v Hv].
    congruence.
  - intros Hempty. eapply (IH s1); [done..|].
    eapply finish_input_socket_keeps_empty; [done| |done]. tauto.
Qed.

Lemma has_mutable_param_intro node :
  node < node_id_amount net →
  node_is_dummy net node = false →
  Exists (λ t, is_mutable_param t = true) (fn_param_types net node) →
  has_mutable_param fn.
Proof.
  intros Hnode Hfun Hex. apply Exists_exists. exists node.
  split; [|done]. apply elem_of_seq. lia.
Qed.

(** [evaluate_function] on a node that was not called yet and whose inputs
    are all computed: the node is called once and the invariant holds
    again, unless [finish_input_socket] meets the slot that a mutable
    parameter emptied. *)
Lemma evaluate_function_spec args mask s node :
  boundary_inv fn args mask s →
  node < node_id_amount net →
  node_is_dummy net node = false →
  node ∉ called_nodes s →
  (∀ socket, socket ∈ node_inputs net node →
     slot s (socket_origin net socket) ≠ Some None) →
  (∃ s', evaluate_function fn node s = Ok tt s' ∧
         boundary_inv fn args mask s' ∧
         called_nodes s' = node :: called_nodes s) ∨
  (∃ s', evaluate_function fn node s = AssertFail s' ∧
         NoDup (called_nodes s') ∧ has_mutable_param fn).
Proof using Hwf.
  intros Hb Hnode Hfun Hnew Hcomputed. pose proof Hb as [Hinv Hdone].
  destruct (wf_function_node fn rank Hwf node Hnode Hfun)
    as (Hins & Houts & Htyped).
  assert (∀ socket, socket ∈ node_inputs net node →
            input_ready net s socket ∧
            (node_is_dummy net (origin_node net socket) = true ∨
             origin_node net socket ∈ called_nodes s)) as Hready.
  { intros socket Hs.
    destruct (wf_node_input fn rank Hwf node _ Hnode Hs) as (Hlt & Hin & _).
    apply (computed_input args mask); auto. }
  pose proof (bind_params_spec fn rank Hwf s node Hnode Hfun
                (λ socket H, proj1 (Hready socket H))) as Hparams.
  specialize (Hparams
    (λ id H, ci_uncalled _ _ _ _ Hinv id
       (proj1 (wf_node_output fn rank Hwf node id Hnode H))
       (proj1 (proj2 (wf_node_output fn rank Hwf node id Hnode H)))
       (eq_ind_r (λ n, node_is_dummy net n = false) Hfun
          (proj2 (proj2 (wf_node_output fn rank Hwf node id Hnode H))))
       (eq_ind_r (λ n, n ∉ called_nodes s) Hnew
          (proj2 (proj2 (wf_node_output fn rank Hwf node id Hnode H)))))
    (fn_param_types net node) 0 [] s).
  rewrite <- Hins, <- Houts in Hparams.
  specialize (Hparams (λ _ H, H) eq_refl Htyped
                (params_bound_refl fn s (ci_heap _ _ _ _ Hinv))).
  unfold evaluate_function.
  destruct (bind_params fn node 0 (fn_param_types net node) s)
    as [ps s2|s2|s2] eqn:Hbp; [| |done].
  2:{ right. exists s2. destruct Hparams as [Hc Hex].
      split; [by apply bind_eq_AssertFail|].
      split; [rewrite Hc; apply Hinv|]. by eapply has_mutable_param_intro. }
  rewrite (bind_eq_Ok _ _ _ _ _ Hbp).
  set (s3 := log_call node
               (with_memory
                  (write_results (fn_call net node (m_mask s2) ps (memory s2))
                     0 ps (memory s2)) s2)).
  assert (call_function fn node ps s2 = Ok tt s3) as Hcall by done.
  rewrite (bind_eq_Ok _ _ _ _ _ Hcall).
  destruct Hparams as [Hclean|((socket & Hs & Hempty) & Hc & Hex)].
  - (* every parameter got its buffer *)
    left.
    assert (core_inv fn args mask s3) as Hinv3.
    { eapply (core_inv_after_call args mask s s2 s3 node); try done.
      - intros socket Hs. by apply Hready.
      - apply same_shape_write_results. }
    pose proof Hclean as (_ & _ & Hf2 & Hc2 & _).
    destruct (finish_inputs_spec args mask node Hnode Hfun
                (node_inputs net node) s3 Hinv3)
      as (s4 & Hloop & Hinv4 & Hc4 & Hf4).
    { simpl. by left. }
    { by apply (wf_NoDup_inputs fn rank Hwf). }
    { intros socket Hs. split; [done|]. simpl. rewrite Hf2. intros Hfin.
      destruct (ci_finished _ _ _ _ Hinv _ Hfin) as (Hlt & _ & Hcalled).
      destruct (wf_node_input fn rank Hwf node _ Hnode Hs) as (_ & _ & Heq).
      congruence. }
    exists s4. split; [done|]. split; [|by rewrite Hc4; simpl; rewrite Hc2].
    split; [done|].
    rewrite Hc4. simpl. rewrite Hc2.
    intros n socket [->|Hn]%elem_of_cons Hsocket; apply Hf4.
    + by left.
    + right. simpl. rewrite Hf2. by eapply Hdone.
  - (* a mutable parameter took the buffer of its origin *)
    right.
    pose proof (quiet_for_each (node_inputs net node)
                  (finish_input_socket net)
                  (quiet_finish_input_socket net) s3) as Hq.
    destruct (for_each (node_inputs net node) (finish_input_socket net) s3)
      as [[] s4|s4|s4] eqn:Hloop; [| |done].
    + exfalso.
      by eapply (finish_inputs_need_origins _ _ _ Hloop socket Hs).
    + exists s4. split; [done|]. destruct Hq as [Hq _].
      split; [|by eapply has_mutable_param_intro].
      rewrite Hq. simpl. rewrite Hc. apply NoDup_cons.
      split; [done|apply Hinv].
Qed.

End evaluate_function.

(** ** The scheduler *)

Section scheduler.
Variable std_sort : (nat → nat → bool) → list nat → list nat.
Hypothesis Hsort : ∀ lt l, std_sort lt l ≡ₚ l.
Variable fn : MF_EvaluateNetwork.
Variable rank : nat → nat.
Hypothesis Hwf : network_wf fn rank.
Variable max_depths : list Z.
Variable args : list MFParam.
Variable mask : list nat.
Local Abbreviation net := (network fn).
Local Abbreviation leads := (leads std_sort fn max_depths).
Local Abbreviation aborts := (aborts std_sort fn max_depths).
Implicit Types s : EvalState.

Lemma leads_refl stack s : leads stack s stack s.
Proof. by exists 0. Qed.

Lemma leads_trans st1 s1 st2 s2 st3 s3 :
  leads st1 s1 st2 s2 → leads st2 s2 st3 s3 → leads st1 s1 st3 s3.
Proof.
  intros [k1 H1] [k2 H2]. exists (k1 + k2). intros fuel.
  by rewrite <- Nat.add_assoc, H1, H2.
Qed.

Lemma leads_aborts st1 s1 st2 s2 s' :
  leads st1 s1 st2 s2 → aborts st2 s2 s' → aborts st1 s1 s'.
Proof.
  intros [k1 H1] [k2 H2]. exists (k1 + k2). intros fuel.
  by rewrite <- Nat.add_assoc, H1, H2.
Qed.

Lemma leads_step socket below s stack' s' :
  scheduler_iteration std_sort fn max_depths socket below s = Ok stack' s' →
  leads (socket :: below) s stack' s'.
Proof.
  intros H. exists 1. intros fuel. simpl. by rewrite (bind_eq_Ok _ _ _ _ _ H).
Qed.

Lemma aborts_step socket below s s' :
  scheduler_iteration std_sort fn max_depths socket below s = AssertFail s' →
  aborts (socket :: below) s s'.
Proof.
  intros H. exists 1. intros fuel. simpl.
  by rewrite (bind_eq_AssertFail _ _ _ _ H).
Qed.

Lemma find_missing_inputs_spec s inputs :
  core_inv fn args mask s →
  (∀ socket, socket ∈ inputs →
     socket < socket_id_amount net ∧ socket_is_input net socket = true) →
  find_missing_inputs fn inputs s
  = Ok (filter (λ socket, is_missing fn s socket = true) inputs) s.
Proof using Hwf.
  intros Hinv. induction inputs as [|socket inputs IH]; intros Hall; [done|].
  destruct (Hall socket) as [Hlt Hin]; [by left|].
  destruct (wf_input fn rank Hwf socket Hlt Hin) as (_ & Holt & _).
  destruct (slot_in_range fn args mask s _ Hinv Holt) as [x Hx].
  simpl. rewrite (bind_eq_Ok _ _ _ _ _ (input_is_computed_Ok net _ _ _ Hx)).
  rewrite (bind_eq_Ok _ _ _ _ _ (IH (λ t Ht, Hall t (list_elem_of_further _ _ _ Ht)))).
  unfold ret. f_equal. rewrite filter_cons. unfold is_missing. rewrite Hx.
  by destruct x.
Qed.

Lemma iteration_input_computed s socket below :
  core_inv fn args mask s →
  socket < socket_id_amount net → socket_is_input net socket = true →
  slot s (socket_origin net socket) ≠ Some None →
  scheduler_iteration std_sort fn max_depths socket below s = Ok below s.
Proof using Hwf.
  intros Hinv Hlt Hin Hfull. unfold scheduler_iteration. rewrite Hin.
  destruct (wf_input fn rank Hwf socket Hlt Hin) as (_ & Holt & _).
  destruct (slot_in_range fn args mask s _ Hinv Holt) as [[v|] Hx]; [|done].
  by rewrite (bind_eq_Ok _ _ _ _ _ (input_is_computed_Ok net _ _ _ Hx)).
Qed.

Lemma iteration_input_missing s socket below :
  socket_is_input net socket = true →
  slot s (socket_origin net socket) = Some None →
  scheduler_iteration std_sort fn max_depths socket below s
  = Ok (socket_origin net socket :: socket :: below) s.
Proof.
  intros Hin Hx. unfold scheduler_iteration. rewrite Hin.
  by rewrite (bind_eq_Ok _ _ _ _ _ (input_is_computed_Ok net _ _ _ Hx)).
Qed.

Lemma iteration_output s socket below :
  core_inv fn args mask s →
  socket < socket_id_amount net → socket_is_input net socket = false →
  node_is_dummy net (socket_node net socket) = false →
  let missing :=
    filter (λ t, is_missing fn s t = true)
      (node_inputs net (socket_node net socket)) in
  scheduler_iteration std_sort fn max_depths socket below s
  = match missing with
    | [] => (do_ evaluate_function fn (socket_node net socket); ret below) s
    | _ => Ok (reverse (std_sort (depth_less fn max_depths) missing)
                 ++ reverse missing ++ socket :: below) s
    end.
Proof using Hwf.
  intros Hinv Hlt Hout Hfun missing. unfold scheduler_iteration.
  rewrite Hout, Hfun. simpl.
  rewrite (bind_eq_Ok _ _ _ tt s) by done.
  rewrite (bind_eq_Ok _ _ _ _ _
             (find_missing_inputs_spec s _ Hinv
                (λ t Ht, conj
                   (proj1 (wf_node_input fn rank Hwf _ t
                             (wf_socket_node fn rank Hwf _ Hlt) Ht))
                   (proj1 (proj2 (wf_node_input fn rank Hwf _ t
                                    (wf_socket_node fn rank Hwf _ Hlt) Ht)))))).
  fold missing. by destruct missing.
Qed.

(** An unfinished input whose origin was called, or comes from a dummy
    node, is computed. *)
Lemma resolved_input_computed s socket :
  core_inv fn args mask s →
  socket < socket_id_amount net → socket_is_input net socket = true →
  socket ∉ finished_inputs s →
  item_resolved fn s socket →
  slot s (socket_origin net socket) ≠ Some None.
Proof using Hwf.
  intros Hinv Hlt Hin Hnot Hres.
  destruct (wf_input fn rank Hwf socket Hlt Hin)
    as (_ & Holt & Hout & Htarget & _ & Hbound).
  unfold item_resolved, item_node in Hres. rewrite Hin in Hres.
  destruct Hres as [[_ Hd]|Hc].
  - destruct (ci_dummy _ _ _ _ Hinv _ Holt Hout Hd) as [Hpresent _].
    destruct (Hpresent (Hbound Hd)) as (v & Hv & _). congruence.
  - destruct (ci_called_slot _ _ _ _ Hinv _ Holt Hout Hc)
      as [(v & Hv & _)|(_ & _ & Hnone)]; [congruence|].
    pose proof (elem_of_unfinished_targets fn s socket _ Htarget Hnot) as H.
    rewrite Hnone in H. by apply elem_of_nil in H.
Qed.

Lemma computed_input_resolved s socket :
  core_inv fn args mask s →
  socket < socket_id_amount net → socket_is_input net socket = true →
  slot s (socket_origin net socket) ≠ Some None →
  item_resolved fn s socket.
Proof using Hwf.
  intros Hinv Hlt Hin Hfull.
  destruct (computed_input fn rank Hwf args mask s socket Hinv Hlt Hin Hfull)
    as [_ [Hd|Hc]]; unfold item_resolved, item_node; rewrite Hin;
    [left|right]; done.
Qed.

Lemma item_resolved_grow allowed s s' socket :
  calls_grow allowed s s' → item_resolved fn s socket →
  item_resolved fn s' socket.
Proof.
  intros [Hkept _] [H|H]; [by left|right]. by apply Hkept.
Qed.

Lemma calls_grow_refl allowed s : calls_grow allowed s s.
Proof. split; [done|]. intros node H. by left. Qed.

Lemma calls_grow_trans (a1 a2 a3 : nat → Prop) s1 s2 s3 :
  (∀ node, a1 node → a3 node) → (∀ node, a2 node → a3 node) →
  calls_grow a1 s1 s2 → calls_grow a2 s2 s3 → calls_grow a3 s1 s3.
Proof.
  intros H13 H23 [Hk1 Hn1] [Hk2 Hn2]. split; [by auto|].
  intros node H. destruct (Hn2 node H) as [H2|H2]; [|right; auto].
  destruct (Hn1 node H2); [by left|right; auto].
Qed.

(** An input that was not finished stays so while only nodes of smaller
    rank than its own node are called. *)
Lemma unfinished_kept (allowed : nat → Prop) s s' socket :
  boundary_inv fn args mask s → core_inv fn args mask s' →
  calls_grow allowed s s' →
  socket < socket_id_amount net → socket_is_input net socket = true →
  socket ∉ finished_inputs s →
  (∀ node, allowed node → node ≠ socket_node net socket) →
  socket ∉ finished_inputs s'.
Proof using Hwf.
  intros [Hinv Hdone] Hinv' [_ Hnew] Hlt Hin Hnot Hallowed Hfin.
  destruct (ci_finished _ _ _ _ Hinv' _ Hfin) as (_ & _ & Hc).
  destruct (Hnew _ Hc) as [Hold|Ha].
  - apply Hnot. eapply Hdone; [done|].
    by apply (wf_input fn rank Hwf socket Hlt Hin).
  - by eapply Hallowed.
Qed.

Lemma unfinished_of_uncalled s socket :
  core_inv fn args mask s →
  socket_node net socket ∉ called_nodes s →
  socket ∉ finished_inputs s.
Proof.
  intros Hinv Hnc Hfin. by destruct (ci_finished _ _ _ _ Hinv _ Hfin) as (_ & _ & ?).
Qed.

Lemma unfinished_of_dummy s socket :
  core_inv fn args mask s →
  node_is_dummy net (socket_node net socket) = true →
  socket ∉ finished_inputs s.
Proof.
  intros Hinv Hd Hfin. destruct (ci_finished _ _ _ _ Hinv _ Hfin) as (_ & _ & Hc).
  destruct (ci_called _ _ _ _ Hinv _ Hc) as [_ ?]. congruence.
Qed.

(** An output socket of a node whose inputs are all computed: the node is
    called. *)
Lemma resolve_ready s socket below :
  boundary_inv fn args mask s →
  socket_is_input net socket = false →
  item_pending fn s socket →
  (∀ t, t ∈ node_inputs net (socket_node net socket) →
        slot s (socket_origin net t) ≠ Some None) →
  (∃ s', leads (socket :: below) s below s' ∧ boundary_inv fn args mask s' ∧
         calls_grow (λ node, rank node ≤ rank (item_node fn socket)) s s' ∧
         item_resolved fn s' socket) ∨
  (∃ s', aborts (socket :: below) s s' ∧ failed_run fn s').
Proof using Hwf.
  intros Hb Hout [Hlt Hpending] Hcomputed. rewrite Hout in Hpending.
  destruct Hpending as [Hfun Hnew]. pose proof Hb as [Hinv _].
  pose proof (iteration_output s socket below Hinv Hlt Hout Hfun) as Hiter.
  simpl in Hiter.
  destruct (filter (λ t, is_missing fn s t = true)
              (node_inputs net (socket_node net socket)))
    as [|t missing] eqn:Hmissing.
  2:{ exfalso. assert (t ∈ t :: missing) as Ht by (by left).
      rewrite <- Hmissing in Ht. apply list_elem_of_filter in Ht as [Hm Ht].
      apply (Hcomputed t Ht). unfold is_missing in Hm.
      by destruct (slot s (socket_origin net t)) as [[]|]. }
  destruct (evaluate_function_spec fn rank Hwf args mask s _ Hb
              (wf_socket_node fn rank Hwf _ Hlt) Hfun Hnew Hcomputed)
    as [(s' & Heval & Hb' & Hcalled)|(s' & Heval & Hfail)].
  - left. exists s'. split; [|split; [done|split]].
    + apply leads_step. rewrite Hiter. by rewrite (bind_eq_Ok _ _ _ _ _ Heval).
    + split.
      * intros node Hnode. rewrite Hcalled. by right.
      * intros node. rewrite Hcalled. intros [->|?]%elem_of_cons; [|by left].
        right. unfold item_node. by rewrite Hout.
    + right. unfold item_node. rewrite Hout, Hcalled. by left.
  - right. exists s'. split; [|done].
    apply aborts_step. rewrite Hiter. by apply bind_eq_AssertFail.
Qed.

Lemma resolve_inputs (Q : nat → Prop) :
  (∀ socket below s,
     Q socket → boundary_inv fn args mask s →
     socket_is_input net socket = true → item_pending fn s socket →
     (∃ s', leads (socket :: below) s below s' ∧ boundary_inv fn args mask s' ∧
            calls_grow (λ node, rank node ≤ rank (item_node fn socket)) s s' ∧
            item_resolved fn s' socket) ∨
     (∃ s', aborts (socket :: below) s s' ∧ failed_run fn s')) →
  ∀ limit l below s,
    boundary_inv fn args mask s →
    Forall (λ socket,
              Q socket ∧ socket_is_input net socket = true ∧
              item_pending fn s socket ∧
              rank (origin_node net socket) < limit ∧
              (node_is_dummy net (socket_node net socket) = true ∨
               ((socket_node net socket ∉ called_nodes s) ∧
                limit ≤ rank (socket_node net socket)))) l →
    (∃ s', leads (l ++ below) s below s' ∧ boundary_inv fn args mask s' ∧
           calls_grow (λ node, rank node < limit) s s' ∧
           Forall (item_resolved fn s') l) ∨
    (∃ s', aborts (l ++ below) s s' ∧ failed_run fn s').
Proof using Hwf.
  intros Hone limit l. induction l as [|socket l IH]; intros below s Hb Hall.
  - left. exists s. split; [apply leads_refl|]. split; [done|].
    split; [apply calls_grow_refl|done].
  - apply Forall_cons in Hall as [(HQ & Hin & Hpending & Hlimit & Hnode) Hall].
    destruct (Hone socket (l ++ below) s HQ Hb Hin Hpending)
      as [(s1 & Hl1 & Hb1 & Hg1 & Hr1)|(s' & Ha & Hf)].
    2:{ right. by exists s'. }
    unfold item_node in Hg1. rewrite Hin in Hg1.
    destruct (IH below s1 Hb1) as [(s2 & Hl2 & Hb2 & Hg2 & Hr2)|(s' & Ha & Hf)].
    { eapply Forall_impl; [exact Hall|]. simpl.
      intros t (HQt & Hint & [Hltt Hpt] & Hlimt & Hnodet).
      rewrite Hint in Hpt.
      assert (node_is_dummy net (socket_node net t) = true ∨
              ((socket_node net t ∉ called_nodes s1) ∧
               limit ≤ rank (socket_node net t))) as Hnodet1.
      { destruct Hnodet as [?|[Hnc Hle]]; [by left|right]. split; [|done].
        intros Hc. destruct (proj2 Hg1 _ Hc) as [?|Hr]; [done|]. lia. }
      split_and!; try done. split; [done|]. rewrite Hint.
      destruct Hnodet1 as [Hd|[Hnc _]].
      - by apply (unfinished_of_dummy s1 t (proj1 Hb1)).
      - by apply (unfinished_of_uncalled s1 t (proj1 Hb1)). }
    + left. exists s2. split; [by eapply leads_trans|]. split; [done|].
      split.
      * eapply calls_grow_trans; [| |exact Hg1|exact Hg2]; simpl; intros; lia.
      * apply Forall_cons. split; [|done]. by eapply item_resolved_grow.
    + right. exists s'. split; [|done]. by eapply leads_aborts.
Qed.

Lemma resolve n : ∀ socket below s,
  item_rank fn rank socket < n →
  boundary_inv fn args mask s →
  item_pending fn s socket →
  (∃ s', leads (socket :: below) s below s' ∧ boundary_inv fn args mask s' ∧
         calls_grow (λ node, rank node ≤ rank (item_node fn socket)) s s' ∧
         item_resolved fn s' socket) ∨
  (∃ s', aborts (socket :: below) s s' ∧ failed_run fn s').
Proof using Hwf Hsort.
  induction n as [|n IH]; intros socket below s Hrank Hb Hpending; [lia|].
  pose proof Hb as [Hinv Hdone]. pose proof Hpending as [Hlt Hpend].
  destruct (socket_is_input net socket) eqn:Hin.
  - (* an input socket *)
    destruct (wf_input fn rank Hwf socket Hlt Hin)
      as (Hown & Holt & Hout & _).
    destruct (slot_in_range fn args mask s _ Hinv Holt) as [[v|] Hx].
    + left. exists s. split; [|split; [done|split]].
      * apply leads_step. apply iteration_input_computed; try done. congruence.
      * apply calls_grow_refl.
      * apply computed_input_resolved; try done. congruence.
    + (* the origin is pushed *)
      assert (item_pending fn s (socket_origin net socket)) as Hpo.
      { split; [done|]. rewrite Hout.
        destruct (node_is_dummy net (socket_node net (socket_origin net socket)))
          eqn:Hd.
        - exfalso.
          apply (resolved_input_computed s socket Hinv Hlt Hin Hpend); [|done].
          left. unfold item_node. by rewrite Hin.
        - split; [done|]. intros Hc.
          apply (resolved_input_computed s socket Hinv Hlt Hin Hpend); [|done].
          right. unfold item_node. by rewrite Hin. }
      assert (item_node fn (socket_origin net socket) = item_node fn socket)
        as Hnode_eq.
      { unfold item_node. by rewrite Hin, Hout. }
      destruct (IH (socket_origin net socket) (socket :: below) s)
        as [(s1 & Hl1 & Hb1 & Hg1 & Hr1)|(s' & Ha & Hf)]; try done.
      { unfold item_rank in *. rewrite Hin in Hrank. rewrite Hout.
        unfold origin_node in Hrank. lia. }
      2:{ right. exists s'. split; [|done].
          eapply leads_aborts; [|exact Ha].
          apply leads_step. by apply iteration_input_missing. }
      rewrite Hnode_eq in Hg1.
      assert (socket ∉ finished_inputs s1) as Hnot1.
      { intros Hfin.
        destruct (ci_finished _ _ _ _ (proj1 Hb1) _ Hfin) as (_ & _ & Hc).
        destruct (proj2 Hg1 _ Hc) as [Hold|Hr].
        - apply Hpend. by eapply Hdone.
        - destruct (ci_called _ _ _ _ (proj1 Hb1) _ Hc) as [Hn Hfun].
          pose proof (wf_rank fn rank Hwf _ socket Hn Hfun Hown).
          unfold item_node in Hr. rewrite Hin in Hr. lia. }
      left. exists s1. split; [|split; [done|split; [done|]]].
      * eapply leads_trans.
        { apply leads_step. by apply iteration_input_missing. }
        eapply leads_trans; [exact Hl1|].
        apply leads_step.
        apply (iteration_input_computed s1 socket below (proj1 Hb1) Hlt Hin).
        apply (resolved_input_computed s1 socket (proj1 Hb1) Hlt Hin Hnot1).
        destruct Hr1 as [[Hi _]|Hc]; [congruence|].
        right. by rewrite <- Hnode_eq.
      * destruct Hr1 as [[Hi _]|Hc]; [congruence|].
        right. by rewrite <- Hnode_eq.
  - (* an output socket *)
    destruct Hpend as [Hfun Hnew].
    set (node := socket_node net socket) in *.
    assert (node < node_id_amount net) as Hnode
      by (by apply (wf_socket_node fn rank Hwf)).
    set (missing := filter (λ t, is_missing fn s t = true)
                      (node_inputs net node)).
    destruct missing as [|t0 missing0] eqn:Hmissing.
    { (* nothing is missing *)
      apply resolve_ready; [done|done|done|].
      intros t Ht Hempty.
      assert (t ∈ filter (λ t, is_missing fn s t = true)
                    (node_inputs net node)) as Hf.
      { apply list_elem_of_filter. split; [|done].
        unfold is_missing. by rewrite Hempty. }
      fold missing in Hf. rewrite Hmissing in Hf. by apply elem_of_nil in Hf. }
    (* the missing inputs are pushed, twice *)
    set (pushed := reverse (std_sort (depth_less fn max_depths) missing)
                   ++ reverse missing).
    assert (∀ t, t ∈ pushed → t ∈ node_inputs net node ∧
                              is_missing fn s t = true) as Hpushed.
    { intros t Ht. unfold pushed in Ht.
      assert (t ∈ missing) as Hm.
      { apply elem_of_app in Ht as [Ht|Ht]; rewrite elem_of_reverse in Ht;
          [|done].
        by apply (elem_of_Permutation_proper t _ _
                    (Hsort (depth_less fn max_depths) missing)). }
      unfold missing in Hm. apply list_elem_of_filter in Hm. tauto. }
    assert (leads (socket :: below) s (pushed ++ socket :: below) s) as Hpush.
    { apply leads_step.
      rewrite (iteration_output s socket below Hinv Hlt Hin Hfun).
      fold node missing. rewrite Hmissing, <- Hmissing.
      unfold pushed. by rewrite <- app_assoc. }
    destruct (resolve_inputs (λ t, item_rank fn rank t < n)
                (λ t b s0 HQ Hb0 _ Hp0, IH t b s0 HQ Hb0 Hp0)
                (rank node) pushed (socket :: below) s Hb)
      as [(s1 & Hl1 & Hb1 & Hg1 & Hr1)|(s' & Ha & Hf)].
    { apply Forall_forall. intros t Ht.
      destruct (Hpushed t Ht) as [Htin _].
      destruct (wf_node_input fn rank Hwf node t Hnode Htin)
        as (Htlt & Hti & Htnode).
      pose proof (wf_rank fn rank Hwf node t Hnode Hfun Htin) as Hr.
      split_and!; try done.
      - unfold item_rank in *. rewrite Hti. rewrite Hin in Hrank.
        fold node in Hrank. lia.
      - split; [done|]. rewrite Hti.
        apply (unfinished_of_uncalled s t Hinv). by rewrite Htnode.
      - right. rewrite Htnode. done. }
    2:{ right. exists s'. split; [|done]. by eapply leads_aborts. }
    assert (node ∉ called_nodes s1) as Hnew1.
    { intros Hc. destruct (proj2 Hg1 _ Hc) as [?|Hr]; [done|]. simpl in Hr. lia. }
    destruct (resolve_ready s1 socket below Hb1 Hin)
      as [(s2 & Hl2 & Hb2 & Hg2 & Hr2)|(s' & Ha & Hf)].
    { split; [done|]. by rewrite Hin. }
    { fold node. intros t Ht.
      destruct (wf_node_input fn rank Hwf node t Hnode Ht)
        as (Htlt & Hti & Htnode).
      apply (resolved_input_computed s1 t (proj1 Hb1) Htlt Hti).
      - apply (unfinished_of_uncalled s1 t (proj1 Hb1)). by rewrite Htnode.
      - destruct (is_missing fn s t) eqn:Hm.
        + rewrite Forall_forall in Hr1. apply Hr1. unfold pushed.
          apply elem_of_app. right. apply elem_of_reverse.
          unfold missing. by apply list_elem_of_filter.
        + eapply item_resolved_grow; [exact Hg1|].
          apply computed_input_resolved; try done.
          unfold is_missing in Hm. intros Hempty. by rewrite Hempty in Hm. }
    + left. exists s2. split; [|split; [done|split; [|done]]].
      * eapply leads_trans; [exact Hpush|]. by eapply leads_trans.
      * eapply calls_grow_trans; [| |exact Hg1|exact Hg2]; simpl.
        -- unfold item_node. rewrite Hin. fold node. intros; lia.
        -- done.
    + right. exists s'. split; [|done].
      eapply leads_aborts; [exact Hpush|]. by eapply leads_aborts.
Qed.

End scheduler.

(** ** The log of the calls only grows *)

Lemma extends_calls_quiet {A} (c : Eval A) : quiet c → extends_calls c.
Proof.
  intros Hq s. specialize (Hq s).
  destruct (c s); simpl; [| |done]; destruct Hq as [-> _]; done.
Qed.

Lemma extends_calls_bind {A B} (c : Eval A) (k : A → Eval B) :
  extends_calls c → (∀ a, extends_calls (k a)) → extends_calls (bind c k).
Proof.
  intros Hc Hk s. unfold bind. specialize (Hc s).
  destruct (c s) as [a s1|s1|s1]; simpl in *; [|done..].
  etrans; [exact Hc|]. apply Hk.
Qed.

Section extends.
Variable std_sort : (nat → nat → bool) → list nat → list nat.
Variable fn : MF_EvaluateNetwork.
Local Abbreviation net := (network fn).

Lemma extends_calls_call_function node params :
  extends_calls (call_function fn node params).
Proof. intros s. simpl. by apply suffix_cons_r. Qed.

Lemma extends_calls_evaluate_function node :
  extends_calls (evaluate_function fn node).
Proof.
  unfold evaluate_function. apply extends_calls_bind.
  { apply extends_calls_quiet, quiet_bind_params. }
  intros ps. apply extends_calls_bind; [apply extends_calls_call_function|].
  intros _. apply extends_calls_quiet, quiet_for_each.
  apply quiet_finish_input_socket.
Qed.

Lemma quiet_find_missing_inputs inputs : quiet (find_missing_inputs fn inputs).
Proof.
  induction inputs as [|t inputs IH]; simpl; [apply quiet_ret|].
  apply quiet_bind; [apply quiet_input_is_computed|]. intros c.
  apply quiet_bind; [apply IH|]. intros m. apply quiet_ret.
Qed.

Lemma extends_calls_scheduler_iteration max_depths socket below :
  extends_calls (scheduler_iteration std_sort fn max_depths socket below).
Proof.
  unfold scheduler_iteration. destruct (socket_is_input net socket).
  - apply extends_calls_quiet. apply quiet_bind; [auto with quiet|].
    intros []; apply quiet_ret.
  - apply extends_calls_bind; [apply extends_calls_quiet; auto with quiet|].
    intros _. apply extends_calls_bind.
    { apply extends_calls_quiet, quiet_find_missing_inputs. }
    intros [|t missing]; [|apply extends_calls_quiet, quiet_ret].
    apply extends_calls_bind; [apply extends_calls_evaluate_function|].
    intros _. apply extends_calls_quiet, quiet_ret.
Qed.

Lemma extends_calls_scheduler_loop fuel max_depths stack :
  extends_calls (scheduler_loop std_sort fn fuel max_depths stack).
Proof.
  revert stack. induction fuel as [|fuel IH]; intros [|socket below] s;
    simpl; try done.
  apply (extends_calls_bind _ _
           (extends_calls_scheduler_iteration max_depths socket below)
           (λ stack, IH stack)).
Qed.

Lemma scheduler_loop_nil fuel max_depths s :
  scheduler_loop std_sort fn fuel max_depths [] s = Ok tt s.
Proof. by destruct fuel. Qed.

(** With less fuel the scheduler gets through a part of the same run. *)
Lemma scheduler_loop_prefix fuel k max_depths stack s :
  called_nodes (state_of (scheduler_loop std_sort fn fuel max_depths stack s))
  `suffix_of`
  called_nodes
    (state_of (scheduler_loop std_sort fn (fuel + k) max_depths stack s)).
Proof.
  revert stack s. induction fuel as [|fuel IH]; intros [|socket below] s;
    rewrite ?scheduler_loop_nil; try done.
  - apply (extends_calls_scheduler_loop k max_depths (socket :: below) s).
  - simpl. unfold bind.
    destruct (scheduler_iteration std_sort fn max_depths socket below s)
      as [stack' s1|s1|s1]; simpl; [apply IH|done..].
Qed.

End extends.

(** ** The state after the inputs of the call were bound *)

Section copy_inputs.
Variable fn : MF_EvaluateNetwork.
Variable rank : nat → nat.
Hypothesis Hwf : network_wf fn rank.
Local Abbreviation net := (network fn).
Implicit Types s : EvalState.

Lemma copy_inputs_from_spec params inputs : ∀ i s s',
  copy_inputs_from fn params i inputs s = Ok tt s' →
  m_mask s' = m_mask s ∧ memory s' = memory s ∧
  finished_inputs s' = finished_inputs s ∧ called_nodes s' = called_nodes s ∧
  length (m_value_per_output_id s') = length (m_value_per_output_id s) ∧
  (∀ id, id ∉ inputs → slot s' id = slot s id) ∧
  (NoDup inputs → ∀ k id, inputs !! k = Some id →
     ∃ v, slot s' id = Some (Some v) ∧ from_caller v = true ∧
          value_matches (socket_data_type net id) v ∧
          holds_param (params !! (i + k)) v).
Proof.
  induction inputs as [|socket inputs IH]; intros i s s' H; simpl in H.
  - eval_inv. split_and!; done.
  - apply bind_Ok in H as ([] & s1 & Hfirst & Hrest).
    destruct (IH _ _ _ Hrest) as (Hm & Hmem & Hf & Hc & Hl & Hout & Hin).
    assert (∃ v, m_value_per_output_id s1
                 = <[socket := Some v]> (m_value_per_output_id s) ∧
                 socket < length (m_value_per_output_id s) ∧
                 m_mask s1 = m_mask s ∧ memory s1 = memory s ∧
                 finished_inputs s1 = finished_inputs s ∧
                 called_nodes s1 = called_nodes s ∧
                 from_caller v = true ∧
                 value_matches (socket_data_type net socket) v ∧
                 holds_param (params !! i) v) as (v & Hv1 & Hlt & ? & ? & ? & ? & Hfrom & Hk & Hp).
    { destruct (is_single (socket_data_type net socket)) eqn:Hsingle.
      - apply bind_Ok in Hfirst as (f & s2 & Hread & Hadd).
        unfold readonly_single_input in Hread.
        destruct (params !! i) as [[g| | |]|] eqn:Hpi; eval_inv; try done.
        unfold add_single_from_caller in Hadd. eval_inv.
        exists (SingleFromCallerValue g). by split_and!.
      - apply bind_Ok in Hfirst as (f & s2 & Hread & Hadd).
        unfold readonly_vector_input in Hread.
        destruct (params !! i) as [[|g| |]|] eqn:Hpi; eval_inv; try done.
        unfold add_vector_from_caller in Hadd. eval_inv.
        exists (VectorFromCallerValue g). by split_and!. }
    split_and!; try congruence.
    + rewrite Hl, Hv1. by rewrite length_insert.
    + intros id [Hne Hid]%not_elem_of_cons. rewrite Hout by done.
      unfold slot. rewrite Hv1. by rewrite list_lookup_insert_ne.
    + intros [Hfresh Hnd]%NoDup_cons [|k] id Hk'; simpl in Hk'.
      * injection Hk' as <-. exists v. rewrite Nat.add_0_r.
        split; [|done]. rewrite Hout by done. unfold slot. rewrite Hv1.
        by apply list_lookup_insert_eq.
      * replace (i + S k) with (S i + k) by lia. by apply Hin.
Qed.

Lemma copy_inputs_spec mask params s0 :
  copy_inputs_to_storage fn params (new_storage mask (socket_id_amount net))
  = Ok tt s0 →
  boundary_inv fn params mask s0 ∧ called_nodes s0 = [] ∧ finished_inputs s0 = [] ∧
  memory s0 = [] ∧
  ∀ k id, m_inputs fn !! k = Some id →
    ∃ v, slot s0 id = Some (Some v) ∧ holds_param (params !! k) v.
Proof using Hwf.
  intros H. unfold copy_inputs_to_storage in H.
  destruct (copy_inputs_from_spec _ _ _ _ _ H)
    as (Hm & Hmem & Hf & Hc & Hl & Hout & Hin).
  specialize (Hin (wf_m_inputs_NoDup fn rank Hwf)). simpl in *.
  rewrite length_replicate in Hl.
  assert (∀ id, id ∉ m_inputs fn → id < socket_id_amount net →
                slot s0 id = Some None) as Hempty.
  { intros id Hid Hlt. rewrite Hout by done. unfold slot. simpl.
    by apply lookup_replicate. }
  assert (∀ id v, slot s0 id = Some (Some v) → from_caller v = true) as Hfrom.
  { intros id v Hv. destruct (decide (id ∈ m_inputs fn)) as [Hi|Hi].
    - apply list_elem_of_lookup in Hi as [k Hk].
      destruct (Hin k id Hk) as (v' & Hv' & ? & _). congruence.
    - rewrite Hempty in Hv; [done..|].
      apply lookup_lt_Some in Hv. unfold slot in *. lia. }
  split; [|split_and!; try done].
  - split; [split|]; rewrite ?Hc, ?Hf; try done.
    + apply NoDup_nil_2.
    + intros node Hn. by apply elem_of_nil in Hn.
    + intros node socket Hn. by apply elem_of_nil in Hn.
    + apply NoDup_nil_2.
    + intros socket Hs. by apply elem_of_nil in Hs.
    + intros socket Hlt Hout' Hd. split.
      * intros Hi. apply list_elem_of_lookup in Hi as [k Hk].
        destruct (Hin k socket Hk) as (v & Hv & ? & ? & _). exists v.
        split_and!; try done. intros k' Hk'.
        destruct (Hin k' socket Hk') as (v' & Hv' & _ & _ & ?). congruence.
      * intros Hi. by apply Hempty.
    + intros socket Hlt Hout' Hfun _. apply Hempty; [|done].
      intros Hi. destruct (wf_m_input fn rank Hwf _ Hi) as (_ & _ & ?).
      congruence.
    + intros socket _ _ Hn. by apply elem_of_nil in Hn.
    + split.
      * intros id v Hv. apply Hfrom in Hv. by destruct v.
      * intros id id' v v' b Hv _ Hb. apply Hfrom in Hv. by destruct v.
      * intros b x. by rewrite Hmem.
    + intros node socket Hn. by apply elem_of_nil in Hn.
  - intros k id Hk. destruct (Hin k id Hk) as (v & ? & _ & _ & ?). by exists v.
Qed.

End copy_inputs.

(** ** The whole run of the scheduler *)

Lemma depth_loop_mono net fuel k depths stack r :
  depth_loop net fuel depths stack = Done r →
  depth_loop net (fuel + k) depths stack = Done r.
Proof.
  revert depths stack. induction fuel as [|fuel IH]; intros depths stack;
    destruct stack as [|current below]; simpl; try done.
  - by destruct k.
  - destruct (depth_iteration net depths current below) as [[d st]| |];
      simpl; [apply IH|done..].
Qed.

Lemma compute_max_depth_per_node_mono net fuel k r :
  compute_max_depth_per_node net fuel = Done r →
  compute_max_depth_per_node net (fuel + k) = Done r.
Proof.
  unfold compute_max_depth_per_node.
  destruct (zero_dummies _ _) as [d| |]; simpl; [|done..].
  apply depth_loop_mono.
Qed.

(** More fuel changes no run that ended. *)
Lemma depth_loop_stable net fuel k depths stack :
  depth_loop net fuel depths stack ≠ Exhausted →
  depth_loop net (fuel + k) depths stack = depth_loop net fuel depths stack.
Proof.
  revert depths stack. induction fuel as [|fuel IH]; intros depths stack;
    destruct stack as [|current below]; simpl; try done.
  - by destruct k.
  - destruct (depth_iteration net depths current below) as [[d st]| |];
      simpl; [apply IH|done..].
Qed.

Lemma compute_max_depth_per_node_stable net fuel k :
  compute_max_depth_per_node net fuel ≠ Exhausted →
  compute_max_depth_per_node net (fuel + k)
  = compute_max_depth_per_node net fuel.
Proof.
  unfold compute_max_depth_per_node.
  destruct (zero_dummies _ _) as [d| |]; simpl; [|done..].
  apply depth_loop_stable.
Qed.

Lemma scheduler_loop_stable std_sort fn fuel k max_depths stack s :
  (∀ s', scheduler_loop std_sort fn fuel max_depths stack s ≠ OutOfFuel s') →
  scheduler_loop std_sort fn (fuel + k) max_depths stack s
  = scheduler_loop std_sort fn fuel max_depths stack s.
Proof.
  revert stack s. induction fuel as [|fuel IH]; intros [|socket below] s H;
    rewrite ?scheduler_loop_nil; try done.
  - by specialize (H s).
  - simpl in *. unfold bind in *.
    destruct (scheduler_iteration std_sort fn max_depths socket below s)
      as [stack' s1|s1|s1]; [by apply IH|done|by specialize (H s1)].
Qed.

Lemma evaluate_network_to_compute_outputs_stable std_sort fn fuel k s :
  (∀ s', evaluate_network_to_compute_outputs std_sort fn fuel s
         ≠ OutOfFuel s') →
  evaluate_network_to_compute_outputs std_sort fn (fuel + k) s
  = evaluate_network_to_compute_outputs std_sort fn fuel s.
Proof.
  unfold evaluate_network_to_compute_outputs. intros H.
  rewrite compute_max_depth_per_node_stable.
  - destruct (compute_max_depth_per_node (network fn) fuel); [|done..].
    by apply scheduler_loop_stable.
  - intros Heq. rewrite Heq in H. by specialize (H s).
Qed.

Lemma called_nodes_bind_quiet {A B} (c : Eval A) (k : A → Eval B) s :
  (∀ a, quiet (k a)) →
  called_nodes (state_of (bind c k s)) = called_nodes (state_of (c s)).
Proof.
  intros Hk. unfold bind. destruct (c s) as [a s1|s1|s1]; [|done..].
  specialize (Hk a s1). simpl.
  destruct (k a s1); [| |done]; by destruct Hk as [? _].
Qed.

Section whole_run.
Variable std_sort : (nat → nat → bool) → list nat → list nat.
Hypothesis Hsort : ∀ lt l, std_sort lt l ≡ₚ l.
Variable fn : MF_EvaluateNetwork.
Variable rank : nat → nat.
Hypothesis Hwf : network_wf fn rank.
Local Abbreviation net := (network fn).
Implicit Types s : EvalState.

Lemma quiet_copy_inputs_from params i inputs :
  quiet (copy_inputs_from fn params i inputs).
Proof.
  revert i. induction inputs as [|t inputs IH]; intros i; simpl.
  - apply quiet_ret.
  - apply quiet_bind; [|intros _; apply IH].
    unfold readonly_single_input, readonly_vector_input.
    destruct (is_single _); destruct (params !! i) as [[]|]; solve_quiet.
Qed.

Lemma quiet_copy_output params i socket : quiet (copy_output fn params i socket).
Proof.
  unfold copy_output, uninitialized_single_output, vector_output.
  apply quiet_bind; [auto with quiet|]. intros m.
  destruct (is_single _).
  - apply quiet_bind; [auto with quiet|]. intros v.
    apply quiet_bind; [destruct (params !! _) as [[]|]; solve_quiet|].
    intros d. destruct v; solve_quiet.
  - apply quiet_bind; [auto with quiet|]. intros v.
    apply quiet_bind; [destruct (params !! _) as [[]|]; solve_quiet|].
    intros d. destruct v; solve_quiet.
Qed.

Lemma quiet_copy_outputs_from outputs : ∀ params i,
  quiet (copy_outputs_from fn params i outputs).
Proof.
  induction outputs as [|t outputs IH]; intros params i; simpl.
  - apply quiet_ret.
  - apply quiet_bind; [apply quiet_copy_output|]. intros p. apply IH.
Qed.

(** With enough fuel the scheduler ends: normally, with the invariant and
    every requested socket resolved, or in the failed contract check that
    follows a moved buffer. *)
Lemma scheduler_run args mask s0 :
  boundary_inv fn args mask s0 →
  ∃ fuel0 o,
    (∀ fuel, fuel0 ≤ fuel →
       evaluate_network_to_compute_outputs std_sort fn fuel s0 = o) ∧
    match o with
    | Ok _ s' =>
        boundary_inv fn args mask s' ∧
        (∀ node, node ∈ called_nodes s0 → node ∈ called_nodes s') ∧
        ∀ socket, socket ∈ m_outputs fn → item_resolved fn s' socket
    | AssertFail s' => failed_run fn s'
    | OutOfFuel _ => False
    end.
Proof using Hwf Hsort.
  intros Hb.
  destruct (depth_worklist_ends net rank (wf_acyclic fn rank Hwf))
    as (kd & depths & Hd & _).
  set (l := reverse (m_outputs fn)).
  set (limit := S (max_list ((λ t, rank (origin_node net t)) <$> l))).
  destruct (resolve_inputs std_sort fn rank Hwf depths args mask (λ _, True)
              (λ socket below s _ Hb0 _ Hp,
                 resolve std_sort Hsort fn rank Hwf depths args mask
                   (S (item_rank fn rank socket)) socket below s
                   (Nat.lt_succ_diag_r _) Hb0 Hp)
              limit l [] s0 Hb)
    as [(s' & [k Hk] & Hb' & Hg & Hr)|(s' & [k Hk] & Hf)].
  { apply Forall_forall. intros t Ht.
    assert (t ∈ m_outputs fn) as Ht' by (by apply elem_of_reverse).
    destruct (wf_m_output fn rank Hwf t Ht') as (Hlt & Hin & Hdummy).
    split_and!; try done.
    - split; [done|]. rewrite Hin.
      by apply (unfinished_of_dummy fn args mask s0 t (proj1 Hb)).
    - unfold limit. apply Nat.lt_succ_r. apply max_list_elem_of_le.
      apply list_elem_of_fmap. by exists t.
    - by left. }
  - exists (Nat.max kd k), (Ok tt s'). split.
    + intros fuel Hle. unfold evaluate_network_to_compute_outputs.
      rewrite Hd by lia. fold l. rewrite <- (app_nil_r l).
      replace fuel with (k + (fuel - k)) by lia.
      rewrite Hk. apply scheduler_loop_nil.
    + split; [done|]. split; [apply Hg|].
      intros socket Hs. rewrite Forall_forall in Hr. apply Hr.
      by apply elem_of_reverse.
  - exists (Nat.max kd k), (AssertFail s'). split; [|done].
    intros fuel Hle. unfold evaluate_network_to_compute_outputs.
    rewrite Hd by lia. fold l. rewrite <- (app_nil_r l).
    replace fuel with (k + (fuel - k)) by lia. apply Hk.
Qed.

(** A run of the scheduler that returned kept the invariant and resolved
    every requested socket. *)
Lemma evaluate_Ok_inv args mask fuel s0 s1 :
  boundary_inv fn args mask s0 →
  evaluate_network_to_compute_outputs std_sort fn fuel s0 = Ok tt s1 →
  boundary_inv fn args mask s1 ∧
  ∀ socket, socket ∈ m_outputs fn → item_resolved fn s1 socket.
Proof using Hwf Hsort.
  intros Hb H.
  destruct (scheduler_run args mask s0 Hb) as (fuel0 & o & Ho & Hcase).
  assert (o = Ok tt s1) as Heq.
  { rewrite <- (Ho (fuel + fuel0)) by lia.
    rewrite evaluate_network_to_compute_outputs_stable; [done|].
    intros s'. by rewrite H. }
  rewrite Heq in Hcase. by destruct Hcase as (? & _ & ?).
Qed.

Lemma NoDup_suffix (l1 l2 : list nat) :
  l1 `suffix_of` l2 → NoDup l2 → NoDup l1.
Proof. intros [k ->] H. by apply NoDup_app in H as (_ & _ & ?). Qed.

(** With whatever fuel, the log of the calls names no node twice. *)
Lemma evaluate_NoDup args mask fuel s0 :
  boundary_inv fn args mask s0 →
  NoDup (called_nodes
           (state_of (evaluate_network_to_compute_outputs std_sort fn fuel s0))).
Proof using Hwf Hsort.
  intros Hb.
  destruct (scheduler_run args mask s0 Hb) as (fuel0 & o & Ho & Hcase).
  assert (NoDup (called_nodes (state_of o))) as Hnd.
  { destruct o as [[] s'|s'|s']; simpl; [|apply Hcase|done].
    destruct Hcase as ((Hinv & _) & _). apply (ci_called_NoDup _ _ _ _ Hinv). }
  specialize (Ho (fuel + fuel0) ltac:(lia)).
  unfold evaluate_network_to_compute_outputs in *.
  destruct (compute_max_depth_per_node net fuel) as [d| |] eqn:Hd; simpl.
  - rewrite (compute_max_depth_per_node_mono _ _ fuel0 _ Hd) in Ho.
    eapply NoDup_suffix; [|exact Hnd]. rewrite <- Ho.
    apply scheduler_loop_prefix.
  - apply (ci_called_NoDup _ _ _ _ (proj1 Hb)).
  - apply (ci_called_NoDup _ _ _ _ (proj1 Hb)).
Qed.

Lemma quiet_after_evaluate params (u : unit) :
  quiet (do params' <- copy_computed_values_to_outputs fn params;
         do_ destruct_storage;
         ret params').
Proof.
  apply quiet_bind; [apply quiet_copy_outputs_from|]. intros p.
  apply quiet_bind; [apply quiet_destruct_storage|]. intros _. apply quiet_ret.
Qed.

(** C1.  Whatever the acyclic network, the requested outputs, the mask and
    the parameters, and however the call ends, one call of
    [MF_EvaluateNetwork::call] runs the function of no node twice: the log
    of the invocations names every node at most once. *)
Theorem each_node_is_called_at_most_once fuel mask params :
  NoDup (invoked_nodes (call std_sort fn fuel mask params)).
Proof using Hwf Hsort.
  unfold call. case_bool_decide as Hmask; simpl; [apply NoDup_nil_2|].
  pose proof (quiet_copy_inputs_from params 0 (m_inputs fn)
                (new_storage mask (socket_id_amount net))) as Hq.
  destruct (copy_inputs_to_storage fn params
              (new_storage mask (socket_id_amount net)))
    as [[] s0|s0|s0] eqn:Hcopy.
  - rewrite (bind_eq_Ok _ _ _ _ _ Hcopy).
    rewrite called_nodes_bind_quiet by apply quiet_after_evaluate.
    destruct (copy_inputs_spec fn rank Hwf mask params s0 Hcopy) as (Hb & _).
    by apply (evaluate_NoDup params mask).
  - rewrite (bind_eq_AssertFail _ _ _ _ Hcopy). simpl.
    unfold copy_inputs_to_storage in Hcopy. rewrite Hcopy in Hq.
    destruct Hq as [-> _]. apply NoDup_nil_2.
  - unfold copy_inputs_to_storage in Hcopy. by rewrite Hcopy in Hq.
Qed.

(** *** Copying the results to the caller *)

Lemma copy_output_spec params i socket s params' s' :
  copy_output fn params i socket s = Ok params' s' →
  s' = s ∧
  ∃ entry, params' = <[length (m_inputs fn) + i := entry]> params ∧
    length (m_inputs fn) + i < length params ∧
    ∀ v, slot s (socket_origin net socket) = Some (Some v) →
      copy_of_view (m_mask s) v (params !! (length (m_inputs fn) + i))
        (Some entry).
Proof.
  unfold copy_output, get_single_input, get_vector_input,
    uninitialized_single_output, vector_output. intros H.
  apply bind_Ok in H as (m & s1 & Hm & H). apply gets_Ok in Hm as [-> ->].
  destruct (is_single (socket_data_type net socket)).
  - apply bind_Ok in H as (view & s2 & Hview & H).
    apply bind_Ok in Hview as (x & s3 & Hx & Hview).
    apply get_value_Ok in Hx as [Hx ->].
    apply bind_Ok in H as (cells & s4 & Hcells & H).
    destruct (params !! (length (m_inputs fn) + i)) as [[| |cells'|]|] eqn:Hp;
      eval_inv; try done.
    pose proof (lookup_lt_Some _ _ _ Hp) as Hlt.
    destruct x as [[f|f|b users|b users]|]; eval_inv; try done.
    + split; [done|]. eexists. split_and!; [done..|].
      intros v Hv. unfold slot in Hv. rewrite Hx in Hv. injection Hv as <-.
      simpl. eexists. split_and!; [done| |done]. by apply mask_fits_spec.
    + split; [done|]. eexists. split_and!; [done..|].
      intros v Hv. unfold slot in Hv. rewrite Hx in Hv. by injection Hv as <-.
  - apply bind_Ok in H as (view & s2 & Hview & H).
    apply bind_Ok in Hview as (x & s3 & Hx & Hview).
    apply get_value_Ok in Hx as [Hx ->].
    apply bind_Ok in H as (lists & s4 & Hlists & H).
    destruct (params !! (length (m_inputs fn) + i)) as [[| | |lists']|] eqn:Hp;
      eval_inv; try done.
    pose proof (lookup_lt_Some _ _ _ Hp) as Hlt.
    destruct x as [[f|f|b users|b users]|]; eval_inv; try done.
    + split; [done|]. eexists. split_and!; [done..|].
      intros v Hv. unfold slot in Hv. rewrite Hx in Hv. injection Hv as <-.
      simpl. eexists. split_and!; [done| |done]. by apply mask_fits_spec.
    + split; [done|]. eexists. split_and!; [done..|].
      intros v Hv. unfold slot in Hv. rewrite Hx in Hv. by injection Hv as <-.
Qed.

Lemma copy_outputs_from_spec outputs : ∀ params i s params' s',
  copy_outputs_from fn params i outputs s = Ok params' s' →
  s' = s ∧
  (∀ j, j < length (m_inputs fn) + i → params' !! j = params !! j) ∧
  ∀ k socket v, outputs !! k = Some socket →
    slot s (socket_origin net socket) = Some (Some v) →
    copy_of_view (m_mask s) v (params !! (length (m_inputs fn) + i + k))
      (params' !! (length (m_inputs fn) + i + k)).
Proof.
  induction outputs as [|t outputs IH]; intros params i s params' s' H;
    simpl in H.
  - apply ret_Ok in H as [-> ->]. done.
  - apply bind_Ok in H as (p1 & s1 & Hfirst & Hrest).
    apply copy_output_spec in Hfirst as (-> & entry & -> & Hlt & Hentry).
    destruct (IH _ _ _ _ _ Hrest) as (-> & Hframe & Hcopies).
    split; [done|]. split.
    + intros j Hj. rewrite Hframe by lia.
      apply list_lookup_insert_ne. lia.
    + intros [|k] socket v Hk Hv; simpl in Hk.
      * injection Hk as ->. rewrite Nat.add_0_r.
        rewrite Hframe by lia. rewrite list_lookup_insert_eq by done.
        by apply Hentry.
      * specialize (Hcopies k socket v Hk Hv).
        replace (length (m_inputs fn) + i + S k)
          with (length (m_inputs fn) + S i + k) by lia.
        rewrite list_lookup_insert_ne in Hcopies by lia. done.
Qed.

(** The steps of a call that returned. *)
Lemma call_Ok_inv fuel mask params params' s' :
  call std_sort fn fuel mask params = Evaluated (Ok params' s') →
  ∃ s0 s1,
    copy_inputs_to_storage fn params (new_storage mask (socket_id_amount net))
    = Ok tt s0 ∧
    evaluate_network_to_compute_outputs std_sort fn fuel s0 = Ok tt s1 ∧
    copy_computed_values_to_outputs fn params s1 = Ok params' s1 ∧
    destruct_storage s1 = Ok tt s'.
Proof.
  unfold call. case_bool_decide as Hmask; [done|]. intros [= H].
  apply bind_Ok in H as ([] & s0 & Hcopy & H).
  apply bind_Ok in H as ([] & s1 & Hrun & H).
  apply bind_Ok in H as (p1 & s2 & Hout & H).
  apply bind_Ok in H as ([] & s3 & Hfree & H).
  apply ret_Ok in H as [-> ->].
  pose proof (copy_outputs_from_spec _ _ _ _ _ _ Hout) as (-> & _).
  by exists s0, s1.
Qed.

(** *** Requested sockets that are fed by an input of the call *)

Lemma passthrough_iteration max_depths socket below s v :
  socket ∈ m_outputs fn →
  slot s (socket_origin net socket) = Some (Some v) →
  scheduler_iteration std_sort fn max_depths socket below s = Ok below s.
Proof using Hwf.
  intros Hs Hv. destruct (wf_m_output fn rank Hwf socket Hs) as (_ & Hin & _).
  unfold scheduler_iteration. rewrite Hin.
  by rewrite (bind_eq_Ok _ _ _ _ _ (input_is_computed_Ok net _ _ _ Hv)).
Qed.

Lemma passthrough_loop max_depths s : ∀ l fuel,
  (∀ t, t ∈ l → t ∈ m_outputs fn ∧
     ∃ v, slot s (socket_origin net t) = Some (Some v)) →
  length l ≤ fuel →
  scheduler_loop std_sort fn fuel max_depths l s = Ok tt s.
Proof using Hwf.
  induction l as [|t l IH]; intros fuel Hall Hfuel.
  - apply scheduler_loop_nil.
  - destruct fuel as [|fuel]; simpl in *; [lia|].
    destruct (Hall t) as (Ht & v & Hv); [by left|].
    rewrite (bind_eq_Ok _ _ _ _ _ (passthrough_iteration _ _ _ _ _ Ht Hv)).
    apply IH; [|lia]. intros t' Ht'. apply Hall. by right.
Qed.

Lemma passthrough_values fuel mask params k j socket params' s' :
  NoDup mask →
  m_outputs fn !! k = Some socket →
  m_inputs fn !! j = Some (socket_origin net socket) →
  call std_sort fn fuel mask params = Evaluated (Ok params' s') →
  passes_through mask (params !! j)
    (params !! (length (m_inputs fn) + k))
    (params' !! (length (m_inputs fn) + k)).
Proof using Hwf Hsort.
  intros Hnd Hk Hj Hcall.
  apply call_Ok_inv in Hcall as (s0 & s1 & Hcopy & Hrun & Hout & _).
  destruct (copy_inputs_spec fn rank Hwf mask params s0 Hcopy) as (Hb0 & _).
  destruct (evaluate_Ok_inv params mask fuel s0 s1 Hb0 Hrun) as ((Hinv & _) & _).
  assert (socket_origin net socket ∈ m_inputs fn) as Hin
    by (by eapply list_elem_of_lookup_2).
  destruct (wf_m_input fn rank Hwf _ Hin) as (Holt & Hout' & Hd).
  destruct (ci_dummy _ _ _ _ Hinv _ Holt Hout' Hd) as [Hpresent _].
  destruct (Hpresent Hin) as (v & Hv & _ & _ & Hholds).
  specialize (Hholds j Hj).
  destruct (copy_outputs_from_spec _ _ _ _ _ _ Hout) as (_ & _ & Hcopies).
  specialize (Hcopies k socket v Hk Hv).
  rewrite (ci_mask _ _ _ _ Hinv), Nat.add_0_r in Hcopies.
  destruct (params !! j) as [[f|f| |]|]; destruct v as [g|g|b u|b u];
    simpl in Hholds; try done; subst g; simpl in Hcopies.
  - destruct Hcopies as (cells & -> & Hroom & ->). simpl. split.
    + apply length_materialize_to_uninitialized.
    + intros i Hi. apply materialize_to_uninitialized_lookup; auto.
  - destruct Hcopies as (lists & -> & Hroom & ->). simpl. split.
    + apply length_extend_multiple__copy.
    + intros i Hi.
      destruct (lookup_lt_is_Some_2 lists i (Hroom i Hi)) as [old Hold].
      exists old. split; [done|]. by apply extend_multiple__copy_lookup.
Qed.

Lemma passthrough_calls_nothing fuel mask params :
  (∀ t, t ∈ m_outputs fn → socket_origin net t ∈ m_inputs fn) →
  invoked_nodes (call std_sort fn fuel mask params) = [].
Proof using Hwf.
  intros Hall. unfold call. case_bool_decide as Hmask; simpl; [done|].
  pose proof (quiet_copy_inputs_from params 0 (m_inputs fn)
                (new_storage mask (socket_id_amount net))) as Hq.
  destruct (copy_inputs_to_storage fn params
              (new_storage mask (socket_id_amount net)))
    as [[] s0|s0|s0] eqn:Hcopy.
  - rewrite (bind_eq_Ok _ _ _ _ _ Hcopy).
    rewrite called_nodes_bind_quiet by apply quiet_after_evaluate.
    destruct (copy_inputs_spec fn rank Hwf mask params s0 Hcopy)
      as (_ & Hcalled & _ & _ & Hbound).
    unfold evaluate_network_to_compute_outputs.
    destruct (compute_max_depth_per_node net fuel) as [d| |]; simpl; [|done..].
    apply suffix_nil_inv. rewrite <- Hcalled.
    pose proof (scheduler_loop_prefix std_sort fn fuel
                  (length (m_outputs fn)) d (reverse (m_outputs fn)) s0) as Hp.
    rewrite (passthrough_loop d s0 (reverse (m_outputs fn))
               (fuel + length (m_outputs fn))) in Hp; [done| |].
    + intros t Ht. rewrite elem_of_reverse in Ht. split; [done|].
      apply Hall in Ht. apply list_elem_of_lookup in Ht as [i Hi].
      destruct (Hbound i _ Hi) as (v & Hv & _). by exists v.
    + rewrite length_reverse. lia.
  - rewrite (bind_eq_AssertFail _ _ _ _ Hcopy). simpl.
    unfold copy_inputs_to_storage in Hcopy. rewrite Hcopy in Hq.
    by destruct Hq as [-> _].
  - unfold copy_inputs_to_storage in Hcopy. by rewrite Hcopy in Hq.
Qed.

(** *** A call whose requested sockets are all fed by inputs returns *)

Lemma copy_inputs_from_total params inputs : ∀ i s,
  NoDup inputs →
  (∀ k socket, inputs !! k = Some socket →
     slot s socket = Some None ∧
     fits_input (socket_data_type net socket) (params !! (i + k))) →
  ∃ s', copy_inputs_from fn params i inputs s = Ok tt s'.
Proof.
  induction inputs as [|socket inputs IH]; intros i s Hnd Hall; simpl.
  - by exists s.
  - apply NoDup_cons in Hnd as [Hfresh Hnd].
    destruct (Hall 0 socket eq_refl) as [Hnull Hfit].
    rewrite Nat.add_0_r in Hfit.
    pose proof (lookup_lt_Some _ _ _ Hnull) as Hlt.
    assert (∃ v, (if is_single (socket_data_type net socket)
                  then do input_list <- readonly_single_input params i;
                       add_single_from_caller socket input_list
                  else do input_list_list <- readonly_vector_input params i;
                       add_vector_from_caller socket input_list_list) s
                 = Ok tt (with_values
                            (<[socket := Some v]> (m_value_per_output_id s))
                            s)) as [v Hstep].
    { unfold readonly_single_input, readonly_vector_input,
        add_single_from_caller, add_vector_from_caller.
      unfold slot in Hnull.
      destruct (params !! i) as [[f|f| |]|]; simpl in Hfit; try done;
        rewrite Hfit; eval_unfold; rewrite Hnull; simpl;
        rewrite decide_True by done; eauto. }
    rewrite (bind_eq_Ok _ _ _ _ _ Hstep). apply IH; [done|].
    intros k t Hk. destruct (Hall (S k) t Hk) as [Hnull' Hfit'].
    split; [|by replace (S i + k) with (i + S k) by lia].
    rewrite slot_with_values_ne; [done|].
    intros ->. apply Hfresh. by eapply list_elem_of_lookup_2.
Qed.

Lemma copy_outputs_from_total outputs : ∀ params i s,
  (∀ k socket, outputs !! k = Some socket →
     fits_output (socket_data_type net socket)
       (params !! (length (m_inputs fn) + i + k)) ∧
     has_room (m_mask s) (params !! (length (m_inputs fn) + i + k)) ∧
     ∃ v, slot s (socket_origin net socket) = Some (Some v) ∧
          from_caller v = true ∧
          value_matches (socket_data_type net socket) v) →
  ∃ params', copy_outputs_from fn params i outputs s = Ok params' s.
Proof.
  induction outputs as [|socket outputs IH]; intros params i s Hall; simpl.
  - by exists params.
  - destruct (Hall 0 socket eq_refl)
      as (Hfit & Hroom & v & Hv & Hfrom & Hkind).
    rewrite Nat.add_0_r in Hfit, Hroom.
    assert (∃ entry, copy_output fn params i socket s
                     = Ok (<[length (m_inputs fn) + i := entry]> params) s)
      as (entry & Hstep).
    { unfold copy_output, get_single_input, get_vector_input,
        uninitialized_single_output, vector_output.
      unfold slot in Hv.
      destruct (params !! (length (m_inputs fn) + i)) as [[| |cells|lists]|];
        simpl in Hfit, Hroom; try done; rewrite Hfit;
        apply mask_fits_spec in Hroom;
        destruct v as [f|f|b u|b u]; simpl in Hfrom, Hkind; try done;
        try congruence; eval_unfold; rewrite Hv; simpl; rewrite Hroom;
        eauto. }
    rewrite (bind_eq_Ok _ _ _ _ _ Hstep). apply IH.
    intros k t Hk. destruct (Hall (S k) t Hk) as (Hfit' & Hroom' & Hpresent).
    rewrite list_lookup_insert_ne by lia.
    by replace (length (m_inputs fn) + S i + k)
      with (length (m_inputs fn) + i + S k) by lia.
Qed.

Lemma destruct_storage_total s :
  (∀ id v, slot s id = Some (Some v) → from_caller v = true) →
  destruct_storage s = Ok tt s.
Proof.
  intros Hall. unfold destruct_storage, bind, gets.
  unfold slot in Hall. revert Hall.
  generalize (m_value_per_output_id s) as values.
  induction values as [|x values IH]; intros Hall; simpl; [done|].
  assert (match x with
          | Some (SingleValue array_ref _) => deallocate array_ref
          | Some (VectorValue vector_array _) => deallocate vector_array
          | _ => ret tt
          end s = Ok tt s) as Hx.
  { specialize (Hall 0). simpl in Hall.
    destruct x as [[| |b u|b u]|]; try done; by specialize (Hall _ eq_refl). }
  rewrite (bind_eq_Ok _ _ _ _ _ Hx). apply IH.
  intros id v Hv. by apply (Hall (S id)).
Qed.

Lemma passthrough_call_returns mask params :
  mask ≠ [] → params_fit fn mask params →
  (∀ t, t ∈ m_outputs fn → socket_origin net t ∈ m_inputs fn) →
  ∃ fuel0, ∀ fuel, fuel0 ≤ fuel →
    ∃ params' s',
      call std_sort fn fuel mask params = Evaluated (Ok params' s').
Proof using Hwf.
  intros Hmask [Hfit_in Hfit_out] Hall.
  destruct (copy_inputs_from_total params (m_inputs fn) 0
              (new_storage mask (socket_id_amount net))
              (wf_m_inputs_NoDup fn rank Hwf)) as [s0 Hcopy].
  { intros k socket Hk. split; [|by apply Hfit_in].
    unfold slot. simpl. apply lookup_replicate_2.
    apply (wf_m_input fn rank Hwf). by eapply list_elem_of_lookup_2. }
  destruct (copy_inputs_spec fn rank Hwf mask params s0 Hcopy)
    as ((Hinv & _) & Hcalled & Hfin & Hmem & Hbound).
  destruct (depth_worklist_ends net rank (wf_acyclic fn rank Hwf))
    as (kd & depths & Hd & _).
  assert (∀ t, t ∈ m_outputs fn →
            ∃ v, slot s0 (socket_origin net t) = Some (Some v) ∧
                 from_caller v = true ∧
                 value_matches (socket_data_type net t) v) as Hsource.
  { intros t Ht.
    destruct (wf_m_output fn rank Hwf t Ht) as (Hlt & Hin & _).
    destruct (wf_input fn rank Hwf t Hlt Hin)
      as (_ & Holt & Hout & _ & Htype & _).
    destruct (wf_m_input fn rank Hwf _ (Hall t Ht)) as (_ & _ & Hd').
    destruct (ci_dummy _ _ _ _ Hinv _ Holt Hout Hd') as [Hpresent _].
    destruct (Hpresent (Hall t Ht)) as (v & Hv & Hfrom & Hkind & _).
    exists v. by rewrite Htype. }
  destruct (copy_outputs_from_total (m_outputs fn) params 0 s0)
    as [params' Hout].
  { intros k socket Hk. rewrite Nat.add_0_r, (ci_mask _ _ _ _ Hinv).
    destruct (Hfit_out k socket Hk) as [Hkind Hroom].
    split_and!; [done..|].
    apply Hsource. by eapply list_elem_of_lookup_2. }
  exists (Nat.max kd (length (m_outputs fn))). intros fuel Hfuel.
  exists params', s0. unfold call. rewrite bool_decide_false.
  2:{ by destruct mask. }
  f_equal. rewrite (bind_eq_Ok _ _ _ _ _ Hcopy).
  assert (evaluate_network_to_compute_outputs std_sort fn fuel s0 = Ok tt s0)
    as Hrun.
  { unfold evaluate_network_to_compute_outputs. rewrite Hd by lia.
    apply passthrough_loop; [|rewrite length_reverse; lia].
    intros t Ht. rewrite elem_of_reverse in Ht. split; [done|].
    destruct (Hsource t Ht) as (v & Hv & _). by exists v. }
  rewrite (bind_eq_Ok _ _ _ _ _ Hrun).
  unfold copy_computed_values_to_outputs. rewrite (bind_eq_Ok _ _ _ _ _ Hout).
  rewrite (bind_eq_Ok _ _ _ tt s0); [done|].
  apply destruct_storage_total. intros id v Hv.
  pose proof (hi_matches _ (ci_heap _ _ _ _ Hinv) id v Hv) as Hm.
  rewrite Hmem in Hm. destruct v as [| |b u|b u]; try done;
    by destruct Hm as [? Hm].
Qed.

(** Let a requested output socket have as its origin an input of the
    call.  Wherever that origin holds its value, the iteration of the
    scheduler on the requested socket pops it and changes nothing, so no
    function runs for it; a call that is evaluated and returns leaves in
    the destination of the caller, at every index of the mask, the values
    of the view the caller passed for that input.  When every requested
    output is of this kind the call invokes no function node at all, and
    it returns, given enough fuel, a mask that is not empty and parameters
    of the kinds of the boundary sockets with room for the mask. *)
Theorem boundary_passthrough fuel mask params k j socket :
  NoDup mask →
  m_outputs fn !! k = Some socket →
  m_inputs fn !! j = Some (socket_origin net socket) →
  (∀ max_depths below s v,
     slot s (socket_origin net socket) = Some (Some v) →
     scheduler_iteration std_sort fn max_depths socket below s = Ok below s) ∧
  (∀ params' s',
     call std_sort fn fuel mask params = Evaluated (Ok params' s') →
     passes_through mask (params !! j)
       (params !! (length (m_inputs fn) + k))
       (params' !! (length (m_inputs fn) + k))) ∧
  ((∀ t, t ∈ m_outputs fn → socket_origin net t ∈ m_inputs fn) →
   invoked_nodes (call std_sort fn fuel mask params) = [] ∧
   (mask ≠ [] → params_fit fn mask params →
    ∃ fuel0, ∀ fuel', fuel0 ≤ fuel' →
      ∃ params' s',
        call std_sort fn fuel' mask params = Evaluated (Ok params' s'))).
Proof using Hwf Hsort.
  intros Hnd Hk Hj. split_and!.
  - intros max_depths below s v Hv.
    apply (passthrough_iteration max_depths socket below s v); [|done].
    by eapply list_elem_of_lookup_2.
  - intros params' s' Hcall. by eapply passthrough_values.
  - intros Hall. split; [by apply passthrough_calls_nothing|].
    intros Hmask Hfit. by apply passthrough_call_returns.
Qed.

(** *** The end of the loop of the scheduler *)

(** For every acyclic network and every set of requested sockets the loop
    of the scheduler ends: with enough fuel it returns with a value in the
    storage for every requested socket, or it stops in a failed contract
    check, which needs a node with a mutable parameter. *)
Theorem scheduler_ends mask params s0 :
  copy_inputs_to_storage fn params (new_storage mask (socket_id_amount net))
  = Ok tt s0 →
  ∃ fuel0 o,
    (∀ fuel, fuel0 ≤ fuel →
       evaluate_network_to_compute_outputs std_sort fn fuel s0 = o) ∧
    match o with
    | Ok _ s' =>
        ∀ socket, socket ∈ m_outputs fn →
          ∃ v, slot s' (socket_origin net socket) = Some (Some v)
    | AssertFail _ => has_mutable_param fn
    | OutOfFuel _ => False
    end.
Proof using Hwf Hsort.
  intros Hcopy.
  destruct (copy_inputs_spec fn rank Hwf mask params s0 Hcopy) as (Hb & _).
  destruct (scheduler_run params mask s0 Hb) as (fuel0 & o & Ho & Hcase).
  exists fuel0, o. split; [done|].
  destruct o as [[] s'|s'|s']; [|apply Hcase|done].
  destruct Hcase as ((Hinv & _) & _ & Hres). intros socket Hs.
  destruct (wf_m_output fn rank Hwf socket Hs) as (Hlt & Hin & Hd).
  destruct (wf_input fn rank Hwf socket Hlt Hin) as (_ & Holt & _).
  pose proof (resolved_input_computed fn rank Hwf params mask s' socket
                Hinv Hlt Hin
                (unfinished_of_dummy fn params mask s' socket Hinv Hd)
                (Hres socket Hs)) as Hfull.
  destruct (slot_in_range fn params mask s' _ Hinv Holt) as [[v|] Hx];
    [by exists v|done].
Qed.

(** *** Reference counts *)


Lemma for_each_deallocate l : ∀ s s',
  for_each l (λ any_value,
    match any_value with
    | Some (SingleValue array_ref _) => deallocate array_ref
    | Some (VectorValue vector_array _) => deallocate vector_array
    | _ => ret tt
    end) s = Ok tt s' →
  length (memory s') = length (memory s) ∧
  (∀ b, memory s !! b = Some None → memory s' !! b = Some None) ∧
  ∀ v b, Some v ∈ l → owned_buffer v = Some b → memory s' !! b = Some None.
Proof.
  induction l as [|x l IH]; intros s s' H; simpl in H.
  - apply ret_Ok in H as [_ ->]. split_and!; [done..|].
    intros v b Hv. by apply elem_of_nil in Hv.
  - apply bind_Ok in H as ([] & s1 & Hbody & Hrest).
    destruct (IH _ _ Hrest) as (Hlen & Hfreed & Hall).
    assert (length (memory s1) = length (memory s) ∧
            (∀ b, memory s !! b = Some None → memory s1 !! b = Some None) ∧
            ∀ v b, x = Some v → owned_buffer v = Some b →
                   memory s1 !! b = Some None) as (Hlen1 & Hfreed1 & Hown1).
    { destruct x as [[f|f|b0 users|b0 users]|];
        try (apply ret_Ok in Hbody as [_ ->]; split_and!; [done..|];
             by intros v b [= <-]);
        apply deallocate_Ok in Hbody as [[y Hy] ->]; simpl;
        (split_and!;
         [ apply length_insert
         | intros b Hb; destruct (decide (b = b0)) as [->|Hne];
           [congruence|by rewrite list_lookup_insert_ne]
         | intros v b [= <-] [= <-]; apply list_lookup_insert_eq;
           by eapply lookup_lt_Some ]). }
    split_and!.
    + congruence.
    + intros b Hb. by apply Hfreed, Hfreed1.
    + intros v b [Heq|Hv]%elem_of_cons Hb.
      * eapply Hfreed, Hown1; done.
      * by eapply Hall.
Qed.

(** The destructor frees every buffer that is still allocated. *)
Lemma destruct_storage_frees_all s s' :
  heap_inv s → destruct_storage s = Ok tt s' →
  ∀ b x, memory s' !! b = Some x → x = None.
Proof.
  intros Hheap H. unfold destruct_storage in H.
  apply bind_Ok in H as (values & s1 & Hvalues & H).
  apply gets_Ok in Hvalues as [-> ->].
  apply for_each_deallocate in H as (Hlen & Hfreed & Hall).
  intros b x Hx.
  destruct (memory s !! b) as [[y|]|] eqn:Hb.
  - destruct (hi_owned _ Hheap b y Hb) as (id & v & Hv & Hown).
    assert (memory s' !! b = Some None) as Hnone.
    { eapply Hall; [|done]. by eapply list_elem_of_lookup_2. }
    congruence.
  - rewrite (Hfreed b Hb) in Hx. congruence.
  - apply lookup_lt_Some in Hx. apply lookup_ge_None in Hb. lia.
Qed.




(** When a call has returned, the slot of an output socket is present
    exactly when the socket is an input of the call, or an output of an
    invoked node that still has an unfinished target or has no target at
    all. *)
Theorem slots_at_the_end fuel mask params params' s' socket :
  call std_sort fn fuel mask params = Evaluated (Ok params' s') →
  socket < socket_id_amount net → socket_is_input net socket = false →
  (∃ v, slot s' socket = Some (Some v)) ↔
  socket ∈ m_inputs fn ∨
  (socket_node net socket ∈ called_nodes s' ∧
   (unfinished_targets fn s' socket ≠ [] ∨ socket_targets net socket = [])).
Proof using Hwf Hsort.
  intros Hcall Hlt Hout.
  apply call_Ok_inv in Hcall as (s0 & s1 & Hcopy & Hrun & _ & Hfree).
  destruct (copy_inputs_spec fn rank Hwf mask params s0 Hcopy) as (Hb0 & _).
  destruct (evaluate_Ok_inv params mask fuel s0 s1 Hb0 Hrun)
    as ((Hinv & _) & _).
  apply destruct_storage_frees_owned in Hfree as (Hvals & Hfin & Hcalled & _).
  unfold slot, unfinished_targets. rewrite Hvals, Hfin, Hcalled.
  fold (slot s1 socket). fold (unfinished_targets fn s1 socket).
  split.
  - intros [v Hv].
    destruct (node_is_dummy net (socket_node net socket)) eqn:Hd.
    + left. destruct (ci_dummy _ _ _ _ Hinv _ Hlt Hout Hd) as [_ Habsent].
      destruct (decide (socket ∈ m_inputs fn)) as [|Hno]; [done|].
      rewrite (Habsent Hno) in Hv. done.
    + right.
      destruct (decide (socket_node net socket ∈ called_nodes s1))
        as [Hc|Hno].
      2:{ rewrite (ci_uncalled _ _ _ _ Hinv _ Hlt Hout Hd Hno) in Hv. done. }
      split; [done|].
      destruct (ci_called_slot _ _ _ _ Hinv _ Hlt Hout Hc)
        as [(v' & _ & _ & _ & Hempty)|(Hnone & _)]; [|congruence].
      destruct (unfinished_targets fn s1 socket); [right; by apply Hempty|].
      by left.
  - intros [Hin|[Hc Hsome]].
    + destruct (wf_m_input fn rank Hwf _ Hin) as (_ & _ & Hd).
      destruct (ci_dummy _ _ _ _ Hinv _ Hlt Hout Hd) as [Hpresent _].
      destruct (Hpresent Hin) as (v & Hv & _). by exists v.
    + destruct (ci_called_slot _ _ _ _ Hinv _ Hlt Hout Hc)
        as [(v & Hv & _)|(_ & Hne & Hunf)]; [by exists v|].
      destruct Hsome; done.
Qed.

End whole_run.

(** * The example networks *)

Lemma insert_sorted_Permutation lt x l :
  Networks.insert_sorted lt x l ≡ₚ x :: l.
Proof.
  induction l as [|y l IH]; simpl; [done|].
  destruct (lt y x); [|done]. rewrite IH. apply Permutation_swap.
Qed.

Lemma insertion_sort_Permutation lt l : Networks.insertion_sort lt l ≡ₚ l.
Proof.
  unfold Networks.insertion_sort. induction l as [|x l IH]; simpl; [done|].
  by rewrite insert_sorted_Permutation, IH.
Qed.

Lemma add_mul_wf : network_wf Networks.add_mul (λ n, n).
Proof. apply (bool_decide_unpack _). vm_compute. exact I. Qed.

Lemma in_place_wf :
  network_wf Networks.in_place (λ n, match n with 0 => 0 | 1 => 1 | _ => 2 end).
Proof. apply (bool_decide_unpack _). vm_compute. exact I. Qed.

Lemma unused_output_wf :
  network_wf Networks.unused_output (λ n, n).
Proof. apply (bool_decide_unpack _). vm_compute. exact I. Qed.

Lemma forward_wf : network_wf Networks.forward (λ n, n).
Proof. apply (bool_decide_unpack _). vm_compute. exact I. Qed.

Lemma in_place_has_mutable_param : has_mutable_param Networks.in_place.
Proof. apply (bool_decide_unpack _). vm_compute. exact I. Qed.

(** ** What the example calls leave *)

Lemma add_mul_copy_inputs :
  copy_inputs_to_storage Networks.add_mul Networks.add_mul_params
    (new_storage [0; 1; 2] 10) = Ok tt Networks.add_mul_bound.
Proof. vm_compute. reflexivity. Qed.

Lemma add_mul_call :
  call Networks.insertion_sort Networks.add_mul 30 [0; 1; 2]
    Networks.add_mul_params
  = Evaluated (Ok Networks.add_mul_returned Networks.add_mul_final).
Proof. vm_compute. reflexivity. Qed.

Lemma forward_call :
  call Networks.insertion_sort Networks.forward 30 [0; 2]
    Networks.forward_params
  = Evaluated (Ok Networks.forward_returned Networks.forward_final).
Proof. vm_compute. reflexivity. Qed.


Lemma in_place_run :
  evaluate_network_to_compute_outputs Networks.insertion_sort
    Networks.in_place 30 (new_storage [0; 1; 2] 4)
  = AssertFail Networks.in_place_stopped.
Proof. vm_compute. reflexivity. Qed.


Lemma forward_params_fit :
  params_fit Networks.forward [0; 2] Networks.forward_params.
Proof.
  split.
  - intros [|[|j]] socket H; simpl in H; try done; by injection H as <-.
  - intros [|[|k]] socket H; simpl in H; try done. injection H as <-.
    split; [done|]. simpl. intros i Hi.
    repeat (apply elem_of_cons in Hi as [->|Hi]; [lia|]).
    by apply elem_of_nil in Hi.
Qed.


(** * The defect of the moved buffer *)

(** C2.  The network [in_place] is well formed: node 0 fills socket 0, node
    1 takes it through a mutable parameter and yields socket 2, which is
    requested.  Socket 0 has one target, so [get_mutable_single] hands the
    buffer over to socket 2 and clears the slot of socket 0.  After the
    body of node 1 returned, [finish_input_socket] is called on socket 1:
    the slot of its origin is null and the contract check fails.  The call
    ends there, with node 1 invoked and the finish of socket 1 begun. *)
Theorem in_place_call_fails :
  network_wf Networks.in_place
    (λ n, match n with 0 => 0 | 1 => 1 | _ => 2 end) ∧
  call Networks.insertion_sort Networks.in_place 30 [0; 1; 2]
    [ParamSingleOutput [None; None; None]]
  = Evaluated (AssertFail Networks.in_place_stopped) ∧
  slot Networks.in_place_stopped
    (socket_origin Networks.in_place_net 1) = Some None ∧
  finished_inputs Networks.in_place_stopped = [1] ∧
  called_nodes Networks.in_place_stopped = [1; 0].
Proof.
  split; [apply in_place_wf|]. split; [|done]. vm_compute. reflexivity.
Qed.

(** C9.  On the network [in_place] the loop of the scheduler never returns:
    with 30 units of fuel it stops in the failed contract check of
    [finish_input_socket], and whatever the fuel it stops there or is out
    of fuel before. *)
Theorem in_place_scheduler_aborts :
  evaluate_network_to_compute_outputs Networks.insertion_sort
    Networks.in_place 30 (new_storage [0; 1; 2] 4)
  = AssertFail Networks.in_place_stopped ∧
  ∀ fuel, ∃ s,
    evaluate_network_to_compute_outputs Networks.insertion_sort
      Networks.in_place fuel (new_storage [0; 1; 2] 4) = AssertFail s ∨
    evaluate_network_to_compute_outputs Networks.insertion_sort
      Networks.in_place fuel (new_storage [0; 1; 2] 4) = OutOfFuel s.
Proof.
  split; [apply in_place_run|]. intros fuel.
  destruct (evaluate_network_to_compute_outputs Networks.insertion_sort
              Networks.in_place fuel (new_storage [0; 1; 2] 4))
    as [[] s|s|s] eqn:Hrun; [|by exists s; left|by exists s; right].
  pose proof (evaluate_network_to_compute_outputs_stable
                Networks.insertion_sort Networks.in_place fuel 30
                (new_storage [0; 1; 2] 4)) as Hmore.
  pose proof (evaluate_network_to_compute_outputs_stable
                Networks.insertion_sort Networks.in_place 30 fuel
                (new_storage [0; 1; 2] 4)) as Hless.
  rewrite Hrun in Hmore. rewrite in_place_run in Hless.
  rewrite (Nat.add_comm 30 fuel), Hmore in Hless by done.
  by specialize (Hless ltac:(done)).
Qed.

(** * Where the claims on the counts fail *)



(** * The theorems at the example networks *)

Lemma each_node_is_called_at_most_once_witness :
  NoDup (invoked_nodes
           (call Networks.insertion_sort Networks.add_mul 30 [0; 1; 2]
              Networks.add_mul_params)).
Proof.
  apply (each_node_is_called_at_most_once Networks.insertion_sort
           insertion_sort_Permutation Networks.add_mul (λ n, n)).
  apply (bool_decide_unpack _). vm_compute. exact I.
Defined.

Lemma take_mutable_moves_or_copies_witness :
  ∃ s', get_mutable_single Networks.in_place_net 1 2 Networks.held_once
        = Ok 0 s' ∧
        memory s' = memory Networks.held_once ∧
        slot s' 2
        = Some (Some (SingleValue 0 (target_count Networks.in_place_net 2))) ∧
        slot s' 0 = Some None.
Proof.
  destruct (take_mutable_moves_or_copies Networks.in_place_net 1 2
              Networks.held_once 0) as [Hsingle _].
  - simpl. lia.
  - simpl. lia.
  - apply (bool_decide_unpack _). vm_compute. exact I.
  - destruct (Hsingle eq_refl eq_refl) as (Hmove & _).
    apply Hmove. reflexivity.
Defined.



Lemma compute_max_depth_per_node_correct_witness :
  ∃ fuel depths,
    (∀ fuel', fuel ≤ fuel' →
       compute_max_depth_per_node Networks.add_mul_net fuel' = Done depths) ∧
    depths_as_claimed Networks.add_mul_net depths.
Proof.
  apply (compute_max_depth_per_node_correct Networks.add_mul_net (λ n, n)).
  apply (bool_decide_unpack _). vm_compute. exact I.
Defined.

Lemma boundary_passthrough_witness :
  invoked_nodes
    (call Networks.insertion_sort Networks.forward 30 [0; 2]
       Networks.forward_params) = [] ∧
  passes_through [0; 2] (Networks.forward_params !! 0)
    (Networks.forward_params !! 1) (Networks.forward_returned !! 1) ∧
  ∃ fuel0, ∀ fuel', fuel0 ≤ fuel' →
    ∃ params' s',
      call Networks.insertion_sort Networks.forward fuel' [0; 2]
        Networks.forward_params = Evaluated (Ok params' s').
Proof.
  destruct (boundary_passthrough Networks.insertion_sort
              insertion_sort_Permutation Networks.forward (λ n, n)
              forward_wf 30 [0; 2] Networks.forward_params 0 0 1)
    as (_ & Hvalues & Hall).
  - apply (bool_decide_unpack _). vm_compute. exact I.
  - reflexivity.
  - reflexivity.
  - destruct Hall as [Hnone Hreturns].
    { intros t Ht. apply list_elem_of_singleton in Ht as ->. simpl. left. }
    split_and!.
    + exact Hnone.
    + apply (Hvalues Networks.forward_returned Networks.forward_final).
      vm_compute. reflexivity.
    + apply Hreturns; [done|]. apply forward_params_fit.
Defined.

Lemma scheduler_ends_witness :
  ∃ fuel0 o,
    (∀ fuel, fuel0 ≤ fuel →
       evaluate_network_to_compute_outputs Networks.insertion_sort
         Networks.add_mul fuel Networks.add_mul_bound = o) ∧
    match o with
    | Ok _ s' =>
        ∀ socket, socket ∈ m_outputs Networks.add_mul →
          ∃ v, slot s' (socket_origin Networks.add_mul_net socket)
               = Some (Some v)
    | AssertFail _ => has_mutable_param Networks.add_mul
    | OutOfFuel _ => False
    end.
Proof.
  apply (scheduler_ends Networks.insertion_sort insertion_sort_Permutation
           Networks.add_mul (λ n, n) add_mul_wf [0; 1; 2]
           Networks.add_mul_params).
  vm_compute. reflexivity.
Defined.

Lemma empty_mask_returns_at_once_witness :
  call Networks.insertion_sort Networks.add_mul 30 []
    Networks.add_mul_params = ReturnedAtOnce Networks.add_mul_params ∧
  invoked_nodes
    (call Networks.insertion_sort Networks.add_mul 30 []
       Networks.add_mul_params) = [].
Proof. apply empty_mask_returns_at_once. reflexivity. Defined.

Lemma finish_after_move_fails_witness :
  ∃ s', get_mutable_single Networks.in_place_net 1 2 Networks.held_once
        = Ok 0 s' ∧
        finish_input_socket Networks.in_place_net 1 s'
        = AssertFail (log_finish 1 s').
Proof.
  destruct (finish_after_move_fails Networks.in_place_net 1 2
              Networks.held_once 0 0) as [Hsingle _].
  - simpl. lia.
  - simpl. lia.
  - apply Hsingle; reflexivity.
Defined.

Lemma slots_at_the_end_witness :
  (∃ v, slot Networks.add_mul_final 8 = Some (Some v)) ↔
  8 ∈ m_inputs Networks.add_mul ∨
  (socket_node Networks.add_mul_net 8 ∈ called_nodes Networks.add_mul_final ∧
   (unfinished_targets Networks.add_mul Networks.add_mul_final 8 ≠ [] ∨
    socket_targets Networks.add_mul_net 8 = [])).
Proof.
  apply (slots_at_the_end Networks.insertion_sort insertion_sort_Permutation
           Networks.add_mul (λ n, n) add_mul_wf 30 [0; 1; 2]
           Networks.add_mul_params Networks.add_mul_returned).
  - vm_compute. reflexivity.
  - simpl. lia.
  - reflexivity.
Defined.

(** * Calls that return *)

(** ** The destructor on a consistent heap *)

Lemma for_each_deallocate_total l : ∀ s,
  (∀ i v b, l !! i = Some (Some v) → owned_buffer v = Some b →
     ∃ x, memory s !! b = Some (Some x)) →
  (∀ i j v w b, l !! i = Some (Some v) → l !! j = Some (Some w) →
     owned_buffer v = Some b → owned_buffer w = Some b → i = j) →
  ∃ s', for_each l (λ any_value,
          match any_value with
          | Some (SingleValue array_ref _) => deallocate array_ref
          | Some (VectorValue vector_array _) => deallocate vector_array
          | _ => ret tt
          end) s = Ok tt s'.
Proof.
  induction l as [|x l IH]; intros s Hlive Hdistinct; simpl.
  - by exists s.
  - assert (∃ s1, match x with
                  | Some (SingleValue array_ref _) => deallocate array_ref
                  | Some (VectorValue vector_array _) => deallocate vector_array
                  | _ => ret tt
                  end s = Ok tt s1 ∧
                  ∀ b, (∀ v, x = Some v → owned_buffer v ≠ Some b) →
                       memory s1 !! b = memory s !! b) as (s1 & Hx & Hkept).
    { destruct x as [[f|f|b0 u|b0 u]|]; try (by exists s);
        destruct (Hlive 0 _ b0 eq_refl eq_refl) as [y Hy];
        (eexists; split; [by apply deallocate_Ok; eauto|]);
        intros b Hb; simpl; apply list_lookup_insert_ne;
        intros ->; by eapply Hb. }
    rewrite (bind_eq_Ok _ _ _ _ _ Hx). apply IH.
    + intros i v b Hv Hb. rewrite Hkept; [by eapply (Hlive (S i))|].
      intros v0 -> Hb0.
      by specialize (Hdistinct 0 (S i) v0 v b eq_refl Hv Hb0 Hb).
    + intros i j v w b Hv Hw Hb Hb'.
      by specialize (Hdistinct (S i) (S j) v w b Hv Hw Hb Hb') as [= ->].
Qed.

Lemma destruct_storage_total_heap s :
  heap_inv s → ∃ s', destruct_storage s = Ok tt s'.
Proof.
  intros Hheap. unfold destruct_storage, bind, gets.
  apply for_each_deallocate_total.
  - intros i v b Hv Hb. pose proof (hi_matches _ Hheap i v Hv) as Hm.
    destruct v as [| |b0 u|b0 u]; simpl in *; try done;
      injection Hb as ->; destruct Hm as [? Hm]; eauto.
  - intros i j v w b Hv Hw Hb Hb'. by eapply (hi_distinct _ Hheap).
Qed.

(** ** What a call does to the parameters of the caller *)

Section caller_params.
Variable fn : MF_EvaluateNetwork.
Local Abbreviation net := (network fn).

Lemma copy_output_entry params i socket s params' s' :
  copy_output fn params i socket s = Ok params' s' →
  ∃ before after,
    params !! (length (m_inputs fn) + i) = Some before ∧
    params' = <[length (m_inputs fn) + i := after]> params ∧
    same_outside (m_mask s) (Some before) (Some after).
Proof.
  unfold copy_output, get_single_input, get_vector_input,
    uninitialized_single_output, vector_output. intros H.
  apply bind_Ok in H as (m & s1 & Hm & H). apply gets_Ok in Hm as [-> ->].
  destruct (is_single (socket_data_type net socket)).
  - apply bind_Ok in H as (view & s2 & Hview & H).
    apply bind_Ok in Hview as (x & s3 & Hx & Hview).
    apply get_value_Ok in Hx as [Hx ->].
    apply bind_Ok in H as (cells & s4 & Hcells & H).
    destruct (params !! (length (m_inputs fn) + i)) as [[| |cells'|]|] eqn:Hp;
      eval_inv; try done.
    destruct x as [[f|f|b users|b users]|]; eval_inv; try done;
      (eexists _, _; split_and!; [done..|]); simpl; split.
    + apply length_materialize_to_uninitialized.
    + intros j Hj. by apply materialize_to_uninitialized_other.
    + apply length_copy_to_uninitialized_indices.
    + intros j Hj. by apply copy_to_uninitialized_indices_other.
  - apply bind_Ok in H as (view & s2 & Hview & H).
    apply bind_Ok in Hview as (x & s3 & Hx & Hview).
    apply get_value_Ok in Hx as [Hx ->].
    apply bind_Ok in H as (lists & s4 & Hlists & H).
    destruct (params !! (length (m_inputs fn) + i)) as [[| | |lists']|] eqn:Hp;
      eval_inv; try done.
    destruct x as [[f|f|b users|b users]|]; eval_inv; try done;
      (eexists _, _; split_and!; [done..|]); simpl; split;
      first [apply length_extend_multiple__copy
            |intros j Hj; by apply extend_multiple__copy_other].
Qed.

Lemma copy_outputs_from_frame outputs : ∀ params i s params' s',
  copy_outputs_from fn params i outputs s = Ok params' s' →
  length params' = length params ∧
  (∀ j, j < length (m_inputs fn) + i ∨
        length (m_inputs fn) + i + length outputs ≤ j →
        params' !! j = params !! j) ∧
  ∀ k, k < length outputs →
    same_outside (m_mask s) (params !! (length (m_inputs fn) + i + k))
      (params' !! (length (m_inputs fn) + i + k)).
Proof.
  induction outputs as [|t outputs IH]; intros params i s params' s' H;
    simpl in H.
  - apply ret_Ok in H as [-> ->]. split_and!; [done..|]. simpl. lia.
  - apply bind_Ok in H as (p1 & s1 & Hfirst & Hrest).
    pose proof (copy_output_spec fn _ _ _ _ _ _ Hfirst) as (-> & _).
    apply copy_output_entry in Hfirst
      as (before & after & Hbefore & -> & Hsame).
    destruct (IH _ _ _ _ _ Hrest) as (Hlen & Hframe & Hcells).
    pose proof (lookup_lt_Some _ _ _ Hbefore) as Hlt.
    split_and!.
    + by rewrite Hlen, length_insert.
    + intros j Hj. simpl in Hj. rewrite Hframe by lia.
      apply list_lookup_insert_ne. lia.
    + intros [|k] Hk; simpl in Hk.
      * rewrite Nat.add_0_r, Hframe by lia.
        by rewrite list_lookup_insert_eq, Hbefore.
      * specialize (Hcells k ltac:(lia)).
        replace (length (m_inputs fn) + i + S k)
          with (length (m_inputs fn) + S i + k) by lia.
        by rewrite list_lookup_insert_ne in Hcells by lia.
Qed.

End caller_params.

Section returning_calls.
Variable std_sort : (nat → nat → bool) → list nat → list nat.
Hypothesis Hsort : ∀ lt l, std_sort lt l ≡ₚ l.
Variable fn : MF_EvaluateNetwork.
Variable rank : nat → nat.
Hypothesis Hwf : network_wf fn rank.
Local Abbreviation net := (network fn).

(** A call that returns leaves the parameter list of the caller as long
    as it was, writes to no parameter but the destinations of the requested
    outputs, and in a destination to no index outside the mask. *)
Theorem call_writes_only_the_destinations fuel mask params params' s' :
  call std_sort fn fuel mask params = Evaluated (Ok params' s') →
  length params' = length params ∧
  (∀ j, j < length (m_inputs fn) ∨
        length (m_inputs fn) + length (m_outputs fn) ≤ j →
        params' !! j = params !! j) ∧
  ∀ k, k < length (m_outputs fn) →
    same_outside mask (params !! (length (m_inputs fn) + k))
      (params' !! (length (m_inputs fn) + k)).
Proof using Hwf Hsort.
  intros Hcall.
  apply call_Ok_inv in Hcall as (s0 & s1 & Hcopy & Hrun & Hout & _).
  destruct (copy_inputs_spec fn rank Hwf mask params s0 Hcopy) as (Hb0 & _).
  destruct (evaluate_Ok_inv std_sort Hsort fn rank Hwf params mask fuel s0 s1
              Hb0 Hrun) as ((Hinv & _) & _).
  destruct (copy_outputs_from_frame fn _ _ _ _ _ _ Hout)
    as (Hlen & Hframe & Hcells).
  rewrite (ci_mask _ _ _ _ Hinv) in Hcells.
  split_and!; [done| |].
  - intros j Hj. apply Hframe. lia.
  - intros k Hk. specialize (Hcells k Hk). by rewrite Nat.add_0_r in Hcells.
Qed.

Lemma copy_outputs_from_total_heap outputs : ∀ params i s,
  (∀ k socket, outputs !! k = Some socket →
     fits_output (socket_data_type net socket)
       (params !! (length (m_inputs fn) + i + k)) ∧
     has_room (m_mask s) (params !! (length (m_inputs fn) + i + k)) ∧
     ∃ v, slot s (socket_origin net socket) = Some (Some v) ∧
          value_matches (socket_data_type net socket) v ∧
          buffer_matches (memory s) v) →
  ∃ params', copy_outputs_from fn params i outputs s = Ok params' s.
Proof.
  induction outputs as [|socket outputs IH]; intros params i s Hall; simpl.
  - by exists params.
  - destruct (Hall 0 socket eq_refl)
      as (Hfit & Hroom & v & Hv & Hkind & Hbuf).
    rewrite Nat.add_0_r in Hfit, Hroom.
    assert (∃ entry, copy_output fn params i socket s
                     = Ok (<[length (m_inputs fn) + i := entry]> params) s ∧
                     ∀ t, fits_output t (params !! (length (m_inputs fn) + i)) →
                          fits_output t (Some entry)) as (entry & Hstep & Hsame).
    { unfold copy_output, get_single_input, get_vector_input,
        uninitialized_single_output, vector_output.
      unfold slot in Hv.
      destruct (params !! (length (m_inputs fn) + i)) as [[| |cells|lists]|];
        simpl in Hfit, Hroom; try done; rewrite Hfit;
        apply mask_fits_spec in Hroom;
        destruct v as [f|f|b u|b u]; simpl in Hkind, Hbuf; try done;
        try congruence;
        try (match type of Hbuf with ex _ => destruct Hbuf as [x Hx] end);
        eval_unfold; rewrite Hv; simpl; rewrite Hroom; simpl;
        rewrite ?Hx; eauto. }
    rewrite (bind_eq_Ok _ _ _ _ _ Hstep). apply IH.
    intros k t Hk. destruct (Hall (S k) t Hk) as (Hfit' & Hroom' & Hpresent).
    rewrite list_lookup_insert_ne by lia.
    by replace (length (m_inputs fn) + S i + k)
      with (length (m_inputs fn) + i + S k) by lia.
Qed.

(** On a network none of whose nodes has a mutable parameter, built with
    at least one requested output as the constructor demands, no contract
    check fails: with a mask that is not empty and parameters of the kinds
    of the boundary sockets, every destination having every index of the
    mask, the call returns once the fuel suffices. *)
Theorem call_returns mask params :
  ¬ has_mutable_param fn → m_outputs fn ≠ [] → mask ≠ [] →
  params_fit fn mask params →
  ∃ fuel0, ∀ fuel, fuel0 ≤ fuel →
    ∃ params' s',
      call std_sort fn fuel mask params = Evaluated (Ok params' s').
Proof using Hwf Hsort.
  intros Hpure _ Hmask [Hfit_in Hfit_out].
  destruct (copy_inputs_from_total fn params (m_inputs fn) 0
              (new_storage mask (socket_id_amount net))
              (wf_m_inputs_NoDup fn rank Hwf)) as [s0 Hcopy].
  { intros k socket Hk. split; [|by apply Hfit_in].
    unfold slot. simpl. apply lookup_replicate_2.
    apply (wf_m_input fn rank Hwf). by eapply list_elem_of_lookup_2. }
  destruct (copy_inputs_spec fn rank Hwf mask params s0 Hcopy) as (Hb0 & _).
  destruct (scheduler_run std_sort Hsort fn rank Hwf params mask s0 Hb0)
    as (fuel0 & o & Ho & Hcase).
  destruct o as [[] s1|s1|s1]; [|by destruct Hcase|done].
  destruct Hcase as ((Hinv & _) & _ & Hres).
  destruct (copy_outputs_from_total_heap (m_outputs fn) params 0 s1)
    as [params' Hout].
  { intros k socket Hk. rewrite Nat.add_0_r.
    destruct (Hfit_out k socket Hk) as [Hkind_out Hroom].
    split; [done|]. split; [by rewrite (ci_mask _ _ _ _ Hinv)|].
    assert (socket ∈ m_outputs fn) as Hs by (by eapply list_elem_of_lookup_2).
    destruct (wf_m_output fn rank Hwf socket Hs) as (Hlt & Hin & Hd).
    destruct (wf_input fn rank Hwf socket Hlt Hin)
      as (_ & _ & _ & _ & Htype & _).
    pose proof (resolved_input_computed fn rank Hwf params mask s1 socket
                  Hinv Hlt Hin
                  (unfinished_of_dummy fn params mask s1 socket Hinv Hd)
                  (Hres socket Hs)) as Hfull.
    destruct (computed_input fn rank Hwf params mask s1 socket Hinv Hlt Hin
                Hfull) as [(v & Hv & Hkind) _].
    exists v. split_and!; [done|by rewrite Htype|].
    by apply (hi_matches _ (ci_heap _ _ _ _ Hinv) _ _ Hv). }
  destruct (destruct_storage_total_heap s1 (ci_heap _ _ _ _ Hinv))
    as [s' Hfree].
  exists fuel0. intros fuel Hfuel. exists params', s'.
  unfold call. rewrite bool_decide_false by (by destruct mask).
  f_equal. rewrite (bind_eq_Ok _ _ _ _ _ Hcopy).
  rewrite (bind_eq_Ok _ _ _ _ _ (Ho fuel Hfuel)).
  unfold copy_computed_values_to_outputs.
  rewrite (bind_eq_Ok _ _ _ _ _ Hout).
  by rewrite (bind_eq_Ok _ _ _ _ _ Hfree).
Qed.

End returning_calls.

(** * Networks with a dependency cycle *)

Section cycles.
Variable net : MFNetwork.
Variable nodes : list nat.
Hypothesis Hcycle : feed_one_another net nodes.

Lemma zero_dummies_other dummies : ∀ depths depths',
  zero_dummies depths dummies = Done depths' →
  ∀ c, c ∉ dummies → depths' !! c = depths !! c.
Proof.
  induction dummies as [|n dummies IH]; intros depths depths' H c Hc;
    simpl in H.
  - by injection H as <-.
  - apply not_elem_of_cons in Hc as [Hne Hc]. case_decide; [|done].
    rewrite (IH _ _ H c Hc). by apply list_lookup_insert_ne.
Qed.

Lemma check_incoming_grows depths inputs : ∀ stack all mx stack' all' mx',
  check_incoming net depths inputs stack all mx = Done (stack', all', mx') →
  stack `suffix_of` stack' ∧
  (all' = true → all = true) ∧
  ∀ socket, socket ∈ inputs →
    ∃ d, depths !! origin_node net socket = Some d ∧
         (all' = true → d ≠ (-1)%Z).
Proof.
  induction inputs as [|socket inputs IH];
    intros stack all mx stack' all' mx' H; simpl in H.
  - injection H as <- <- <-. split_and!; [done..|].
    intros socket Hs. by apply elem_of_nil in Hs.
  - unfold depth_at in H.
    destruct (depths !! origin_node net socket) as [d|] eqn:Hd; [|done].
    simpl in H. case_bool_decide as Hminus.
    + apply IH in H as (Hsuffix & Hall & Hrest). split_and!.
      * etrans; [|exact Hsuffix]. by apply suffix_cons_r.
      * intros Htrue. by specialize (Hall Htrue).
      * intros t [->|Ht]%elem_of_cons; [|by apply Hrest].
        exists d. split; [done|]. intros Htrue. by specialize (Hall Htrue).
    + apply IH in H as (Hsuffix & Hall & Hrest). split_and!; [done..|].
      intros t [->|Ht]%elem_of_cons; [|by apply Hrest]. by exists d.
Qed.

Lemma depth_iteration_keeps_cycle depths current below depths' stack' :
  depth_iteration net depths current below = Done (depths', stack') →
  undecided nodes depths → (∃ c, c ∈ nodes ∧ c ∈ current :: below) →
  undecided nodes depths' ∧ ∃ c, c ∈ nodes ∧ c ∈ stack'.
Proof using Hcycle.
  unfold depth_iteration, depth_at. intros H Hund (c & Hc & Hstack).
  destruct (depths !! current) as [d|] eqn:Hd; [|done]. simpl in H.
  case_bool_decide as Hpos.
  - injection H as <- <-. split; [done|]. exists c. split; [done|].
    apply elem_of_cons in Hstack as [->|]; [|done].
    destruct (Hund current Hc) as [Hm|Hn]; rewrite Hd in *; [|done].
    injection Hm as ->. lia.
  - destruct (check_incoming net depths (node_inputs net current)
                (current :: below) true 0%Z) as [[[st all] mx]| |] eqn:Hcheck;
      [|done..].
    simpl in H.
    apply check_incoming_grows in Hcheck as (Hsuffix & _ & Hinputs).
    destruct all; simpl in H; injection H as <- <-.
    + assert (current ∉ nodes) as Hout.
      { intros Hin. destruct Hcycle as [_ Hfeeds].
        destruct (Hfeeds current Hin) as (_ & _ & socket & Hs & Ho).
        destruct (Hinputs socket Hs) as (d' & Hd' & Hassigned).
        destruct (Hund _ Ho) as [Hm|Hn]; [|congruence].
        rewrite Hd' in Hm. injection Hm as ->. by apply Hassigned. }
      split.
      * intros c' Hc'. rewrite list_lookup_insert_ne; [by apply Hund|].
        by intros ->.
      * exists c. split; [done|].
        apply elem_of_cons in Hstack as [->|]; done.
    + split; [done|]. exists c. split; [done|].
      destruct Hsuffix as [k ->]. apply elem_of_app. by right.
Qed.

Lemma depth_loop_on_cycle fuel : ∀ depths stack,
  undecided nodes depths → (∃ c, c ∈ nodes ∧ c ∈ stack) →
  depth_loop net fuel depths stack = Exhausted ∨
  depth_loop net fuel depths stack = Failed.
Proof using Hcycle.
  induction fuel as [|fuel IH]; intros depths stack Hund Hstack;
    destruct stack as [|current below];
    try (destruct Hstack as (c & _ & Hin); by apply elem_of_nil in Hin).
  - by left.
  - simpl.
    destruct (depth_iteration net depths current below) as [[d st]| |] eqn:Hit;
      simpl; [|by right|by left].
    destruct (depth_iteration_keeps_cycle _ _ _ _ _ Hit Hund Hstack).
    by apply IH.
Qed.

Lemma compute_max_depth_per_node_on_cycle fuel :
  compute_max_depth_per_node net fuel = Exhausted ∨
  compute_max_depth_per_node net fuel = Failed.
Proof using Hcycle.
  unfold compute_max_depth_per_node.
  destruct (zero_dummies _ _) as [d0| |] eqn:Hzero; simpl;
    [|by right|by left].
  apply depth_loop_on_cycle.
  - intros c Hc. destruct Hcycle as [_ Hfeeds].
    destruct (Hfeeds c Hc) as (_ & Hnd & _).
    rewrite (zero_dummies_other _ _ _ Hzero c Hnd).
    destruct (decide (c < node_id_amount net)).
    + left. by apply lookup_replicate_2.
    + right. apply lookup_ge_None. rewrite length_replicate. lia.
  - destruct Hcycle as [Hne Hfeeds].
    destruct nodes as [|c rest]; [done|]. exists c. split; [by left|].
    apply elem_of_reverse. apply (Hfeeds c). by left.
Qed.

End cycles.

(** On a network in which some function nodes feed one another
    [compute_max_depth_per_node] never returns, whatever the fuel: it is
    still running, or it failed an array access.  The loop of the scheduler
    is therefore never entered, whichever sockets are requested: the
    evaluation ends where it started, out of fuel or failed, with the
    storage untouched. *)
Theorem cycle_is_never_evaluated std_sort fn nodes :
  feed_one_another (network fn) nodes →
  (∀ fuel, compute_max_depth_per_node (network fn) fuel = Exhausted ∨
           compute_max_depth_per_node (network fn) fuel = Failed) ∧
  ∀ fuel s,
    evaluate_network_to_compute_outputs std_sort fn fuel s = OutOfFuel s ∨
    evaluate_network_to_compute_outputs std_sort fn fuel s = AssertFail s.
Proof.
  intros Hcycle.
  pose proof (compute_max_depth_per_node_on_cycle (network fn) nodes Hcycle)
    as Hdepth.
  split; [done|]. intros fuel s.
  unfold evaluate_network_to_compute_outputs.
  destruct (Hdepth fuel) as [-> | ->]; [by left|by right].
Qed.

(** * Counting the users of a buffer down *)

Section count_down.
Variable net : MFNetwork.
Implicit Types s : EvalState.

Lemma finish_input_socket_null socket s :
  slot s (socket_origin net socket) = Some None →
  finish_input_socket net socket s = AssertFail (log_finish socket s).
Proof.
  intros H. unfold slot in H. unfold finish_input_socket. eval_unfold. simpl.
  by rewrite H.
Qed.

Lemma finish_input_socket_spent socket s v users :
  slot s (socket_origin net socket) = Some (Some v) →
  remaining_users v = Some users → (users < 1)%Z →
  finish_input_socket net socket s = AssertFail (log_finish socket s).
Proof.
  intros H Hu Hneg. unfold slot in H.
  unfold finish_input_socket. eval_unfold. simpl. rewrite H.
  destruct v as [| |b u|b u]; simpl in *; try done; injection Hu as ->;
    by rewrite bool_decide_false by lia.
Qed.

(** One call of [finish_input_socket] with more than one user left. *)
Lemma finish_input_socket_decrement socket s v users b :
  slot s (socket_origin net socket) = Some (Some v) →
  remaining_users v = Some users → owned_buffer v = Some b →
  (1 < users)%Z → buffer_matches (memory s) v →
  ∃ s' v',
    finish_input_socket net socket s = Ok tt s' ∧
    slot s' (socket_origin net socket) = Some (Some v') ∧
    remaining_users v' = Some (users - 1)%Z ∧ owned_buffer v' = Some b ∧
    buffer_matches (memory s') v' ∧ memory s' = memory s ∧
    finished_inputs s' = socket :: finished_inputs s.
Proof.
  intros H Hu Hb Hpos Hm.
  pose proof (finish_input_socket_owned net socket s v users b H Hu Hb
                ltac:(lia) Hm) as Hstep.
  rewrite bool_decide_false in Hstep by lia.
  eexists _, _. split; [exact Hstep|].
  unfold slot in *. simpl.
  rewrite list_lookup_insert_eq by (by eapply lookup_lt_Some).
  split; [done|]. destruct v; simpl in *; try done; by injection Hb as ->.
Qed.

(** The last user frees the buffer. *)
Lemma finish_input_socket_last socket s v b :
  slot s (socket_origin net socket) = Some (Some v) →
  remaining_users v = Some 1%Z → owned_buffer v = Some b →
  buffer_matches (memory s) v →
  ∃ s',
    finish_input_socket net socket s = Ok tt s' ∧
    slot s' (socket_origin net socket) = Some None ∧
    memory s' = <[b := None]> (memory s) ∧
    finished_inputs s' = socket :: finished_inputs s.
Proof.
  intros H Hu Hb Hm.
  pose proof (finish_input_socket_owned net socket s v 1 b H Hu Hb
                ltac:(lia) Hm) as Hstep.
  rewrite bool_decide_true in Hstep by done.
  eexists. split; [exact Hstep|].
  unfold slot in *. simpl.
  by rewrite list_lookup_insert_eq by (by eapply lookup_lt_Some).
Qed.

Lemma count_down_above output b inputs : ∀ s v users,
  (∀ socket, socket ∈ inputs → socket_origin net socket = output) →
  slot s output = Some (Some v) →
  remaining_users v = Some users → owned_buffer v = Some b →
  buffer_matches (memory s) v →
  (Z.of_nat (length inputs) < users)%Z →
  ∃ s' v',
    for_each inputs (finish_input_socket net) s = Ok tt s' ∧
    slot s' output = Some (Some v') ∧
    remaining_users v' = Some (users - Z.of_nat (length inputs))%Z ∧
    owned_buffer v' = Some b ∧ buffer_matches (memory s') v' ∧
    memory s' = memory s ∧
    finished_inputs s' = reverse inputs ++ finished_inputs s.
Proof.
  induction inputs as [|socket inputs IH]; intros s v users Ho Hv Hu Hb Hm Hk.
  - exists s, v. simpl. rewrite Z.sub_0_r. by split_and!.
  - simpl in Hk.
    pose proof (Ho socket ltac:(by left)) as Hsocket.
    rewrite <- Hsocket in Hv.
    destruct (finish_input_socket_decrement socket s v users b Hv Hu Hb
                ltac:(lia) Hm)
      as (s1 & v1 & Hstep & Hv1 & Hu1 & Hb1 & Hm1 & Hmem1 & Hfin1).
    rewrite Hsocket in Hv1.
    destruct (IH s1 v1 (users - 1)%Z) as (s' & v' & Hrest & ? & Hu' & ? & ? & ? & ?);
      try done; [intros t Ht; apply Ho; by right|lia|].
    exists s', v'. simpl. rewrite (bind_eq_Ok _ _ _ _ _ Hstep).
    split_and!; try done; try congruence.
    + rewrite Hu'. f_equal. lia.
    + rewrite reverse_cons, <- app_assoc. simpl. congruence.
Qed.

Lemma count_down_exact output b inputs : ∀ s v,
  (∀ socket, socket ∈ inputs → socket_origin net socket = output) →
  slot s output = Some (Some v) →
  remaining_users v = Some (Z.of_nat (length inputs)) →
  owned_buffer v = Some b → buffer_matches (memory s) v →
  inputs ≠ [] →
  ∃ s',
    for_each inputs (finish_input_socket net) s = Ok tt s' ∧
    slot s' output = Some None ∧
    memory s' = <[b := None]> (memory s) ∧
    finished_inputs s' = reverse inputs ++ finished_inputs s.
Proof.
  induction inputs as [|socket inputs IH]; intros s v Ho Hv Hu Hb Hm Hne;
    [done|].
  pose proof (Ho socket ltac:(by left)) as Hsocket.
  rewrite <- Hsocket in Hv.
  destruct inputs as [|next inputs].
  - destruct (finish_input_socket_last socket s v b Hv Hu Hb Hm)
      as (s1 & Hstep & Hv1 & Hmem1 & Hfin1).
    exists s1. simpl. rewrite (bind_eq_Ok _ _ _ _ _ Hstep).
    by rewrite <- Hsocket.
  - destruct (finish_input_socket_decrement socket s v _ b Hv Hu Hb
                ltac:(simpl; lia) Hm)
      as (s1 & v1 & Hstep & Hv1 & Hu1 & Hb1 & Hm1 & Hmem1 & Hfin1).
    rewrite Hsocket in Hv1.
    destruct (IH s1 v1) as (s' & Hrest & ? & ? & ?); try done.
    { intros t Ht. apply Ho. by right. }
    { rewrite Hu1. f_equal. simpl. lia. }
    exists s'. simpl in *. rewrite (bind_eq_Ok _ _ _ _ _ Hstep).
    split_and!; try done; try congruence.
    rewrite (reverse_cons _ socket), <- app_assoc. simpl. congruence.
Qed.

Lemma count_down_below output b inputs : ∀ s v users,
  (∀ socket, socket ∈ inputs → socket_origin net socket = output) →
  slot s output = Some (Some v) →
  remaining_users v = Some users → owned_buffer v = Some b →
  buffer_matches (memory s) v →
  (users < Z.of_nat (length inputs))%Z → inputs ≠ [] →
  ∃ s', for_each inputs (finish_input_socket net) s = AssertFail s'.
Proof.
  induction inputs as [|socket inputs IH];
    intros s v users Ho Hv Hu Hb Hm Hk Hne; [done|].
  pose proof (Ho socket ltac:(by left)) as Hsocket.
  rewrite <- Hsocket in Hv. simpl in Hk. simpl.
  destruct (decide (users < 1)%Z) as [Hspent|Hleft].
  - eexists. apply bind_eq_AssertFail.
    by eapply finish_input_socket_spent.
  - destruct (decide (users = 1%Z)) as [->|Hmore].
    + destruct (finish_input_socket_last socket s v b Hv Hu Hb Hm)
        as (s1 & Hstep & Hv1 & _).
      rewrite (bind_eq_Ok _ _ _ _ _ Hstep).
      destruct inputs as [|next rest]; [simpl in Hk; lia|].
      simpl. eexists. apply bind_eq_AssertFail.
      apply finish_input_socket_null.
      rewrite (Ho next) by (right; by left). by rewrite <- Hsocket.
    + destruct (finish_input_socket_decrement socket s v users b Hv Hu Hb
                  ltac:(lia) Hm)
        as (s1 & v1 & Hstep & Hv1 & Hu1 & Hb1 & Hm1 & _).
      rewrite (bind_eq_Ok _ _ _ _ _ Hstep). rewrite Hsocket in Hv1.
      apply (IH s1 v1 (users - 1)%Z); try done.
      * intros t Ht. apply Ho. by right.
      * lia.
      * destruct inputs; [simpl in Hk; lia|done].
Qed.

(** The reference count of a buffer, counted down by the calls of
    [finish_input_socket] on inputs that come from one output socket: with
    fewer calls than remaining users the count goes down by their number
    and the buffer stays; the call that brings the count to zero frees the
    buffer and clears the slot; a call beyond that fails the contract
    check. *)
Theorem finishes_count_down output inputs s v users b :
  (∀ socket, socket ∈ inputs → socket_origin net socket = output) →
  slot s output = Some (Some v) →
  remaining_users v = Some users → owned_buffer v = Some b →
  buffer_matches (memory s) v →
  inputs ≠ [] →
  ((Z.of_nat (length inputs) < users)%Z →
   ∃ s' v',
     for_each inputs (finish_input_socket net) s = Ok tt s' ∧
     slot s' output = Some (Some v') ∧
     remaining_users v' = Some (users - Z.of_nat (length inputs))%Z ∧
     owned_buffer v' = Some b ∧ memory s' = memory s ∧
     finished_inputs s' = reverse inputs ++ finished_inputs s) ∧
  (Z.of_nat (length inputs) = users →
   ∃ s',
     for_each inputs (finish_input_socket net) s = Ok tt s' ∧
     slot s' output = Some None ∧
     memory s' = <[b := None]> (memory s) ∧
     finished_inputs s' = reverse inputs ++ finished_inputs s) ∧
  ((users < Z.of_nat (length inputs))%Z →
   ∃ s', for_each inputs (finish_input_socket net) s = AssertFail s').
Proof.
  intros Ho Hv Hu Hb Hm Hne. split_and!.
  - intros Hk.
    destruct (count_down_above output b inputs s v users Ho Hv Hu Hb Hm Hk)
      as (s' & v' & ? & ? & ? & ? & _ & ? & ?).
    by exists s', v'.
  - intros Hk. rewrite <- Hk in Hu.
    by apply (count_down_exact output b inputs s v).
  - intros Hk. by apply (count_down_below output b inputs s v users).
Qed.

End count_down.

(** * The order of the invocations *)

Lemma keeps_empty_for_each {A} (written : nat → Prop) (xs : list A)
    (body : A → Eval unit) :
  (∀ x, keeps_empty written (body x)) →
  keeps_empty written (for_each xs body).
Proof.
  intros Hbody. induction xs as [|x xs IH]; simpl; [apply keeps_empty_ret|].
  apply keeps_empty_bind; [apply Hbody|]. by intros _.
Qed.

Section dependency_order.
Variable std_sort : (nat → nat → bool) → list nat → list nat.
Hypothesis Hsort : ∀ lt l, std_sort lt l ≡ₚ l.
Variable fn : MF_EvaluateNetwork.
Variable rank : nat → nat.
Hypothesis Hwf : network_wf fn rank.
Local Abbreviation net := (network fn).
Implicit Types s : EvalState.

Lemma keeps_empty_call_function written node ps :
  keeps_empty written (call_function fn node ps).
Proof.
  intros s a s' H id _ Hid. unfold call_function in H.
  injection H as _ <-. exact Hid.
Qed.

Lemma keeps_empty_evaluate_function node :
  keeps_empty (λ id, id ∈ param_outputs fn node 0 (fn_param_types net node))
    (evaluate_function fn node).
Proof.
  unfold evaluate_function. apply keeps_empty_bind.
  { apply bind_params_keeps_empty. }
  intros ps. apply keeps_empty_bind; [apply keeps_empty_call_function|].
  intros _. apply keeps_empty_for_each. intros socket.
  eapply keeps_empty_weaken; [|apply finish_input_socket_keeps_empty]. done.
Qed.

(** However the evaluation of a node ends, it logged at most the call of
    the node; when it returns it logged it. *)
Lemma evaluate_function_calls node s :
  (called_nodes (state_of (evaluate_function fn node s)) = called_nodes s ∨
   called_nodes (state_of (evaluate_function fn node s))
   = node :: called_nodes s) ∧
  ∀ s', evaluate_function fn node s = Ok tt s' →
        called_nodes s' = node :: called_nodes s.
Proof.
  unfold evaluate_function.
  pose proof (quiet_bind_params fn node 0 (fn_param_types net node) s) as Hq.
  destruct (bind_params fn node 0 (fn_param_types net node) s)
    as [ps s2|s2|s2] eqn:Hbind; [| |done].
  2:{ rewrite (bind_eq_AssertFail _ _ _ _ Hbind). destruct Hq as [Hq _].
      split; [by left|done]. }
  destruct Hq as [Hq _]. rewrite (bind_eq_Ok _ _ _ _ _ Hbind).
  set (s3 := log_call node
               (with_memory
                  (write_results
                     (fn_call net node (m_mask s2) ps (memory s2)) 0 ps
                     (memory s2)) s2)).
  rewrite (bind_eq_Ok _ _ _ tt s3) by done.
  pose proof (quiet_for_each (node_inputs net node) (finish_input_socket net)
                (quiet_finish_input_socket net) s3) as Hf.
  destruct (for_each _ _ s3) as [[] s4|s4|s4]; [| |done];
    destruct Hf as [Hf _]; simpl in *; rewrite Hf, Hq.
  - split; [by right|]. intros s' [= <-]. by rewrite Hf, Hq.
  - split; [by right|done].
Qed.

Lemma find_missing_inputs_Ok inputs : ∀ s missing s',
  find_missing_inputs fn inputs s = Ok missing s' →
  s' = s ∧ (∀ t, t ∈ missing → t ∈ inputs) ∧
  ∀ t, t ∈ inputs → t ∉ missing →
    ∃ v, slot s (socket_origin net t) = Some (Some v).
Proof.
  induction inputs as [|t inputs IH]; intros s missing s' H; simpl in H.
  - apply ret_Ok in H as [-> ->]. split_and!; [done..|].
    intros t Ht. by apply elem_of_nil in Ht.
  - apply bind_Ok in H as (c & s1 & Hc & H).
    apply bind_Ok in H as (m & s2 & Hm & H). apply ret_Ok in H as [-> ->].
    unfold input_is_computed in Hc.
    apply bind_Ok in Hc as (x & s3 & Hx & Hc).
    apply get_value_Ok in Hx as [Hx ->]. apply ret_Ok in Hc as [-> ->].
    apply IH in Hm as (-> & Hsub & Hrest). split; [done|].
    destruct x as [v|]; simpl.
    + split.
      * intros t' Ht'. right. by apply Hsub.
      * intros t' [->|Ht']%elem_of_cons Hno; [by exists v|by apply Hrest].
    + split.
      * intros t' [->|Ht']%elem_of_cons; [by left|right; by apply Hsub].
      * intros t' [->|Ht']%elem_of_cons Hno.
        { destruct Hno. by left. }
        apply Hrest; [done|]. intros Hin. apply Hno. by right.
Qed.

(** The new node of the log comes after the nodes that feed it. *)
Lemma order_after_call node s :
  node < node_id_amount net →
  unproduced_are_null fn s →
  in_dependency_order fn (called_nodes s) →
  (∀ t, t ∈ node_inputs net node →
     ∃ v, slot s (socket_origin net t) = Some (Some v)) →
  in_dependency_order fn (node :: called_nodes s).
Proof using Hwf.
  intros Hnode Hnull Horder Hready. split; [|done].
  intros socket Hs. destruct (Hready socket Hs) as [v Hv].
  destruct (wf_node_input fn rank Hwf node socket Hnode Hs) as (Hlt & Hin & _).
  destruct (wf_input fn rank Hwf socket Hlt Hin) as (_ & Holt & _).
  destruct (decide (socket_origin net socket ∈ m_inputs fn)); [by left|].
  right. destruct (decide (origin_node net socket ∈ called_nodes s)); [done|].
  rewrite (Hnull _ Holt) in Hv; done.
Qed.

Lemma scheduler_iteration_order max_depths socket below s :
  Forall (λ t, t < socket_id_amount net) (socket :: below) →
  unproduced_are_null fn s →
  in_dependency_order fn (called_nodes s) →
  in_dependency_order fn
    (called_nodes
       (state_of (scheduler_iteration std_sort fn max_depths socket below s))) ∧
  ∀ stack' s',
    scheduler_iteration std_sort fn max_depths socket below s = Ok stack' s' →
    Forall (λ t, t < socket_id_amount net) stack' ∧
    unproduced_are_null fn s'.
Proof using Hwf Hsort.
  intros Hstack Hnull Horder.
  apply Forall_cons in Hstack as [Hlt Hbelow].
  unfold scheduler_iteration.
  destruct (socket_is_input net socket) eqn:Hin.
  - unfold input_is_computed, bind, get_value.
    destruct (m_value_per_output_id s !! socket_origin net socket)
      as [x|]; simpl; [|done].
    split; [by destruct x|].
    intros stack' s' H.
    destruct x; simpl in H; injection H as <- <-; (split; [|done]);
      [done|].
    apply Forall_cons. split; [by apply (wf_input fn rank Hwf)|].
    by apply Forall_cons.
  - pose proof (wf_socket_node fn rank Hwf socket Hlt) as Hnode.
    destruct (node_is_dummy net (socket_node net socket)) eqn:Hd; simpl;
      [done|].
    rewrite (bind_eq_Ok _ _ _ tt s) by done.
    pose proof (quiet_find_missing_inputs fn
                  (node_inputs net (socket_node net socket)) s) as Hq.
    destruct (find_missing_inputs fn _ s) as [missing s1|s1|s1] eqn:Hfind;
      [| |done].
    2:{ rewrite (bind_eq_AssertFail _ _ _ _ Hfind). simpl.
        destruct Hq as [-> _]. done. }
    rewrite (bind_eq_Ok _ _ _ _ _ Hfind).
    apply find_missing_inputs_Ok in Hfind as (-> & Hsub & Hready).
    destruct missing as [|m missing].
    + assert (in_dependency_order fn
                (socket_node net socket :: called_nodes s)) as Hnew.
      { apply order_after_call; try done.
        intros t Ht. apply Hready; [done|]. by intros ?%elem_of_nil. }
      destruct (evaluate_function_calls (socket_node net socket) s)
        as [Hcalls Hcalled].
      destruct (evaluate_function fn (socket_node net socket) s)
        as [[] s2|s2|s2] eqn:Heval; simpl in Hcalls.
      * rewrite (bind_eq_Ok _ _ _ _ _ Heval). simpl.
        split; [by rewrite (Hcalled s2 eq_refl)|].
        intros stack' s' [= <- <-]. split; [done|].
        intros P HP Hno Hnc. rewrite (Hcalled s2 eq_refl) in Hnc.
        apply not_elem_of_cons in Hnc as [Hne Hnc].
        eapply (keeps_empty_evaluate_function _ _ _ _ Heval);
          [|by apply Hnull].
        intros Hout.
        destruct (wf_function_node fn rank Hwf _ Hnode Hd) as (_ & Houts & _).
        rewrite <- Houts in Hout.
        destruct (wf_node_output fn rank Hwf _ P Hnode Hout) as (_ & _ & ?).
        congruence.
      * rewrite (bind_eq_AssertFail _ _ _ _ Heval). simpl.
        split; [|done]. destruct Hcalls as [-> | ->]; done.
      * rewrite (bind_eq_OutOfFuel _ _ _ _ Heval). simpl.
        split; [|done]. destruct Hcalls as [-> | ->]; done.
    + simpl. split; [done|]. intros stack' s' [= <- <-]. split; [|done].
      assert (Forall (λ t, t < socket_id_amount net) (m :: missing))
        as Hmissing.
      { apply Forall_forall. intros t Ht.
        by apply (wf_node_input fn rank Hwf (socket_node net socket)),
          Hsub. }
      rewrite !Forall_app, !Forall_reverse. split_and!; try done.
      * by rewrite (Hsort (depth_less fn max_depths) (m :: missing)).
      * by apply Forall_cons.
Qed.

Lemma scheduler_loop_order max_depths fuel : ∀ stack s,
  Forall (λ t, t < socket_id_amount net) stack →
  unproduced_are_null fn s →
  in_dependency_order fn (called_nodes s) →
  in_dependency_order fn
    (called_nodes
       (state_of (scheduler_loop std_sort fn fuel max_depths stack s))).
Proof using Hwf Hsort.
  induction fuel as [|fuel IH]; intros [|socket below] s Hstack Hnull Horder;
    simpl; try done.
  destruct (scheduler_iteration_order max_depths socket below s
              Hstack Hnull Horder) as [Hnow Hnext].
  unfold bind.
  destruct (scheduler_iteration std_sort fn max_depths socket below s)
    as [stack' s'|s'|s']; [|done..].
  destruct (Hnext stack' s' eq_refl). by apply IH.
Qed.

(** However a call ends, it invoked every node after the nodes that
    produce its inputs: each input of an invoked node comes from an input
    of the call or from a node invoked before. *)
Theorem invocations_follow_dependencies fuel mask params :
  in_dependency_order fn
    (invoked_nodes (call std_sort fn fuel mask params)).
Proof using Hwf Hsort.
  unfold call. case_bool_decide as Hmask; simpl; [done|].
  pose proof (quiet_copy_inputs_from fn params 0 (m_inputs fn)
                (new_storage mask (socket_id_amount net))) as Hq.
  destruct (copy_inputs_to_storage fn params
              (new_storage mask (socket_id_amount net)))
    as [[] s0|s0|s0] eqn:Hcopy.
  - rewrite (bind_eq_Ok _ _ _ _ _ Hcopy).
    rewrite called_nodes_bind_quiet by apply quiet_after_evaluate.
    destruct (copy_inputs_from_spec fn _ _ _ _ _ Hcopy)
      as (_ & _ & _ & Hcalled & _ & Hother & _).
    unfold evaluate_network_to_compute_outputs.
    assert (in_dependency_order fn (called_nodes s0)) as Horder
      by (by rewrite Hcalled).
    destruct (compute_max_depth_per_node net fuel) as [d| |]; [|done..].
    apply scheduler_loop_order; [|
      |done].
    + apply Forall_forall. intros t Ht. rewrite elem_of_reverse in Ht.
      by apply (wf_m_output fn rank Hwf).
    + intros P HP Hno _. rewrite Hother by done. unfold slot. simpl.
      by apply lookup_replicate_2.
  - rewrite (bind_eq_AssertFail _ _ _ _ Hcopy). simpl.
    unfold copy_inputs_to_storage in Hcopy. rewrite Hcopy in Hq.
    by destruct Hq as [-> _].
  - unfold copy_inputs_to_storage in Hcopy. by rewrite Hcopy in Hq.
Qed.

End dependency_order.

(** * Binding the views of the caller *)

Section caller_views.
Variable net : MFNetwork.
Implicit Types s : EvalState.

(** A view bound to a null slot is what the inputs fed by the socket read
    back: the input counts as computed and [get_single_input] returns the
    view, while [get_vector_input] fails its contract check; no other slot
    and no buffer changes; a second binding to the same socket fails.  The
    same holds of a vector view, with the two getters exchanged. *)
Theorem caller_view_round_trip s socket :
  slot s socket = Some None →
  (∀ f, ∃ s',
     add_single_from_caller socket f s = Ok tt s' ∧
     memory s' = memory s ∧
     (∀ other, other ≠ socket → slot s' other = slot s other) ∧
     (∀ input, socket_origin net input = socket →
        input_is_computed net input s' = Ok true s' ∧
        get_single_input net input s' = Ok (ListOfCaller f) s' ∧
        get_vector_input net input s' = AssertFail s') ∧
     (∀ g, add_single_from_caller socket g s' = AssertFail s') ∧
     (∀ g, add_vector_from_caller socket g s' = AssertFail s')) ∧
  (∀ f, ∃ s',
     add_vector_from_caller socket f s = Ok tt s' ∧
     memory s' = memory s ∧
     (∀ other, other ≠ socket → slot s' other = slot s other) ∧
     (∀ input, socket_origin net input = socket →
        input_is_computed net input s' = Ok true s' ∧
        get_vector_input net input s' = Ok (ListListOfCaller f) s' ∧
        get_single_input net input s' = AssertFail s') ∧
     (∀ g, add_single_from_caller socket g s' = AssertFail s') ∧
     (∀ g, add_vector_from_caller socket g s' = AssertFail s')).
Proof.
  intros Hnull. unfold slot in Hnull.
  pose proof (lookup_lt_Some _ _ _ Hnull) as Hlt.
  split; intros f; eexists;
    (split; [unfold add_single_from_caller, add_vector_from_caller;
             eval_unfold; rewrite Hnull; simpl;
             by rewrite decide_True by done|]);
    (split; [done|]);
    (split; [intros other Hne; unfold slot; simpl;
             by apply list_lookup_insert_ne|]);
    (split; [intros input <-|split; intros g]);
    unfold input_is_computed, get_single_input, get_vector_input,
      add_single_from_caller, add_vector_from_caller; eval_unfold; simpl;
    rewrite list_lookup_insert_eq by done; done.
Qed.

End caller_views.

Section copy_inputs_total.
Variable fn : MF_EvaluateNetwork.
Variable rank : nat → nat.
Hypothesis Hwf : network_wf fn rank.
Local Abbreviation net := (network fn).
Implicit Types s : EvalState.

(** One step of the loop of [copy_inputs_to_storage] returns only for a
    view of the kind of the socket, and then writes the slot of the
    socket alone. *)
Lemma copy_input_step params i socket s s' :
  (if is_single (socket_data_type net socket) then
     do input_list <- readonly_single_input params i;
     add_single_from_caller socket input_list
   else
     do input_list_list <- readonly_vector_input params i;
     add_vector_from_caller socket input_list_list) s = Ok tt s' →
  fits_input (socket_data_type net socket) (params !! i) ∧
  ∀ other, other ≠ socket → slot s' other = slot s other.
Proof.
  unfold readonly_single_input, readonly_vector_input,
    add_single_from_caller, add_vector_from_caller.
  intros H.
  destruct (is_single (socket_data_type net socket)) eqn:Hsingle;
    destruct (params !! i) as [[g|g| |]|]; eval_inv; try done;
    (split; [done|]); intros other Hne; unfold slot; simpl;
    by apply list_lookup_insert_ne.
Qed.

Lemma quiet_copy_input_step params i socket :
  quiet (if is_single (socket_data_type net socket) then
           do input_list <- readonly_single_input params i;
           add_single_from_caller socket input_list
         else
           do input_list_list <- readonly_vector_input params i;
           add_vector_from_caller socket input_list_list).
Proof.
  unfold readonly_single_input, readonly_vector_input.
  destruct (is_single _); destruct (params !! i) as [[]|]; solve_quiet.
Qed.

Lemma copy_inputs_from_misfit params inputs : ∀ i s k socket,
  inputs !! k = Some socket →
  ¬ fits_input (socket_data_type net socket) (params !! (i + k)) →
  ∃ s', copy_inputs_from fn params i inputs s = AssertFail s'.
Proof.
  induction inputs as [|t inputs IH]; intros i s k socket Hk Hmis; [done|].
  simpl.
  pose proof (quiet_copy_input_step params i t s) as Hq.
  pose proof (copy_input_step params i t s) as Hfit.
  match goal with
  | |- context [bind ?c _ s] => destruct (c s) as [[] s1|s1|s1] eqn:Hstep
  end; [|exists s1; by apply bind_eq_AssertFail|done].
  rewrite (bind_eq_Ok _ _ _ _ _ Hstep).
  destruct (Hfit s1 eq_refl) as [Hfits _].
  destruct k as [|k]; simpl in Hk.
  - injection Hk as ->. rewrite Nat.add_0_r in Hmis. done.
  - apply (IH (S i) s1 k socket); [done|].
    by replace (S i + k) with (i + S k) by lia.
Qed.

(** [copy_inputs_to_storage] on a new storage returns exactly when the
    caller passes, for every input of the call, a view of the kind of the
    socket.  It then leaves the view in the slot of each input, every
    other slot null, and has allocated nothing; a view of the wrong kind
    fails a contract check. *)
Theorem copy_inputs_needs_fitting_views mask params :
  ((∀ j socket, m_inputs fn !! j = Some socket →
      fits_input (socket_data_type net socket) (params !! j)) →
   ∃ s0,
     copy_inputs_to_storage fn params
       (new_storage mask (socket_id_amount net)) = Ok tt s0 ∧
     m_mask s0 = mask ∧ memory s0 = [] ∧
     called_nodes s0 = [] ∧ finished_inputs s0 = [] ∧
     (∀ j socket, m_inputs fn !! j = Some socket →
        ∃ v, slot s0 socket = Some (Some v) ∧ holds_param (params !! j) v) ∧
     (∀ socket, socket < socket_id_amount net → socket ∉ m_inputs fn →
        slot s0 socket = Some None)) ∧
  (∀ j socket, m_inputs fn !! j = Some socket →
     ¬ fits_input (socket_data_type net socket) (params !! j) →
     ∃ s, copy_inputs_to_storage fn params
            (new_storage mask (socket_id_amount net)) = AssertFail s).
Proof using Hwf.
  split.
  - intros Hfit.
    destruct (copy_inputs_from_total fn params (m_inputs fn) 0
                (new_storage mask (socket_id_amount net))
                (wf_m_inputs_NoDup fn rank Hwf)) as [s0 Hcopy].
    { intros k socket Hk. split; [|by apply Hfit].
      unfold slot. simpl. apply lookup_replicate_2.
      apply (wf_m_input fn rank Hwf). by eapply list_elem_of_lookup_2. }
    exists s0. split; [done|].
    destruct (copy_inputs_spec fn rank Hwf mask params s0 Hcopy)
      as ((Hinv & _) & ? & ? & ? & Hbound).
    destruct (copy_inputs_from_spec fn _ _ _ _ _ Hcopy)
      as (_ & _ & _ & _ & _ & Hother & _).
    split_and!; try done.
    + apply (ci_mask _ _ _ _ Hinv).
    + intros socket Hlt Hno. rewrite Hother by done. unfold slot. simpl.
      by apply lookup_replicate_2.
  - intros j socket Hj Hmis.
    by apply (copy_inputs_from_misfit params (m_inputs fn) 0 _ j socket).
Qed.

End copy_inputs_total.

(** * The nodes a call invokes *)

Section needed_nodes.
Variable std_sort : (nat → nat → bool) → list nat → list nat.
Hypothesis Hsort : ∀ lt l, std_sort lt l ≡ₚ l.
Variable fn : MF_EvaluateNetwork.
Variable rank : nat → nat.
Hypothesis Hwf : network_wf fn rank.
Local Abbreviation net := (network fn).
Implicit Types s : EvalState.

Lemma scheduler_iteration_needed max_depths socket below s :
  Forall (λ t, t < socket_id_amount net) (socket :: below) →
  stack_needed fn (socket :: below) →
  (∀ node, node ∈ called_nodes s → needed fn node) →
  (∀ node,
     node ∈ called_nodes
              (state_of
                 (scheduler_iteration std_sort fn max_depths socket below s)) →
     needed fn node) ∧
  ∀ stack' s',
    scheduler_iteration std_sort fn max_depths socket below s = Ok stack' s' →
    Forall (λ t, t < socket_id_amount net) stack' ∧ stack_needed fn stack'.
Proof using Hsort Hwf.
  intros Hrange Hstack Hcalled.
  apply Forall_cons in Hrange as [Hlt Hrange].
  pose proof Hstack as Hall. apply Forall_cons in Hstack as [Htop Hbelow].
  unfold scheduler_iteration.
  destruct (socket_is_input net socket) eqn:Hin.
  - destruct (wf_input fn rank Hwf socket Hlt Hin) as (_ & Holt & Hout & _).
    unfold input_is_computed, bind, get_value.
    destruct (m_value_per_output_id s !! socket_origin net socket)
      as [x|]; simpl; [|done].
    split; [by destruct x|].
    intros stack' s' H.
    destruct x; simpl in H; injection H as <- <-; [done|].
    split; [by repeat (apply Forall_cons; split)|].
    apply Forall_cons. split; [|done]. rewrite Hout.
    destruct (node_is_dummy net (socket_node net (socket_origin net socket)))
      eqn:Hd; [by left|right].
    destruct Htop as [Hreq|(node & Hnode & Hs)].
    + by apply needed_requested.
    + by eapply needed_input.
  - destruct (node_is_dummy net (socket_node net socket)) eqn:Hd; simpl;
      [done|].
    destruct Htop as [|Hneeded]; [done|].
    rewrite (bind_eq_Ok _ _ _ tt s) by done.
    pose proof (quiet_find_missing_inputs fn
                  (node_inputs net (socket_node net socket)) s) as Hq.
    destruct (find_missing_inputs fn _ s) as [missing s1|s1|s1] eqn:Hfind;
      [| |done].
    2:{ rewrite (bind_eq_AssertFail _ _ _ _ Hfind). simpl.
        destruct Hq as [-> _]. done. }
    rewrite (bind_eq_Ok _ _ _ _ _ Hfind).
    apply (find_missing_inputs_Ok fn) in Hfind as (-> & Hsub & _).
    destruct missing as [|m missing].
    + destruct (evaluate_function_calls fn (socket_node net socket) s)
        as [Hcalls _].
      assert (∀ node,
                node ∈ called_nodes
                  (state_of (evaluate_function fn (socket_node net socket) s)) →
                needed fn node) as Hafter.
      { intros node. destruct Hcalls as [-> | ->]; [by apply Hcalled|].
        intros [->|?]%elem_of_cons; [done|by apply Hcalled]. }
      destruct (evaluate_function fn (socket_node net socket) s)
        as [[] s2|s2|s2] eqn:Heval; simpl in Hafter.
      * rewrite (bind_eq_Ok _ _ _ _ _ Heval). simpl. split; [done|].
        by intros stack' s' [= <- <-].
      * by rewrite (bind_eq_AssertFail _ _ _ _ Heval).
      * by rewrite (bind_eq_OutOfFuel _ _ _ _ Heval).
    + simpl. split; [done|]. intros stack' s' [= <- <-].
      assert (Forall (λ t, t < socket_id_amount net ∧
                           socket_is_input net t = true ∧
                           ∃ node, needed fn node ∧ t ∈ node_inputs net node)
                (m :: missing)) as Hmissing.
      { apply Forall_forall. intros t Ht. apply Hsub in Ht.
        destruct (wf_node_input fn rank Hwf (socket_node net socket) t
                    (wf_socket_node fn rank Hwf _ Hlt) Ht) as (? & ? & _).
        split_and!; [done..|]. by exists (socket_node net socket). }
      assert (Forall (λ t, t < socket_id_amount net ∧
                           socket_is_input net t = true ∧
                           ∃ node, needed fn node ∧ t ∈ node_inputs net node)
                (std_sort (depth_less fn max_depths) (m :: missing)))
        as Hsorted.
      { by rewrite (Hsort (depth_less fn max_depths) (m :: missing)). }
      unfold stack_needed.
      rewrite !Forall_app, !Forall_reverse. split; split_and!; try done.
      * eapply Forall_impl; [exact Hsorted|]. by intros t (? & _).
      * eapply Forall_impl; [exact Hmissing|]. by intros t (? & _).
      * by apply Forall_cons.
      * eapply Forall_impl; [exact Hsorted|].
        intros t (_ & -> & ?). by right.
      * eapply Forall_impl; [exact Hmissing|].
        intros t (_ & -> & ?). by right.
Qed.

Lemma scheduler_loop_needed max_depths fuel : ∀ stack s,
  Forall (λ t, t < socket_id_amount net) stack →
  stack_needed fn stack →
  (∀ node, node ∈ called_nodes s → needed fn node) →
  ∀ node,
    node ∈ called_nodes
             (state_of (scheduler_loop std_sort fn fuel max_depths stack s)) →
    needed fn node.
Proof using Hsort Hwf.
  induction fuel as [|fuel IH]; intros [|socket below] s Hrange Hstack Hcalled;
    simpl; try done.
  destruct (scheduler_iteration_needed max_depths socket below s
              Hrange Hstack Hcalled) as [Hnow Hnext].
  unfold bind.
  destruct (scheduler_iteration std_sort fn max_depths socket below s)
    as [stack' s'|s'|s']; [|done..].
  destruct (Hnext stack' s' eq_refl). by apply IH.
Qed.

Lemma invoked_nodes_are_needed fuel mask params node :
  node ∈ invoked_nodes (call std_sort fn fuel mask params) → needed fn node.
Proof using Hsort Hwf.
  unfold call. case_bool_decide as Hmask; simpl;
    [by intros ?%elem_of_nil|].
  pose proof (quiet_copy_inputs_from fn params 0 (m_inputs fn)
                (new_storage mask (socket_id_amount net))) as Hq.
  destruct (copy_inputs_to_storage fn params
              (new_storage mask (socket_id_amount net)))
    as [[] s0|s0|s0] eqn:Hcopy.
  - rewrite (bind_eq_Ok _ _ _ _ _ Hcopy).
    rewrite called_nodes_bind_quiet by apply quiet_after_evaluate.
    unfold copy_inputs_to_storage in Hcopy. rewrite Hcopy in Hq.
    destruct Hq as [Hcalled _]. simpl in Hcalled.
    unfold evaluate_network_to_compute_outputs.
    destruct (compute_max_depth_per_node net fuel) as [d| |]; simpl;
      [|rewrite Hcalled; by intros ?%elem_of_nil..].
    apply scheduler_loop_needed.
    + apply Forall_forall. intros t Ht. rewrite elem_of_reverse in Ht.
      by apply (wf_m_output fn rank Hwf).
    + apply Forall_forall. intros t Ht. rewrite elem_of_reverse in Ht.
      destruct (wf_m_output fn rank Hwf t Ht) as (_ & -> & _). by left.
    + rewrite Hcalled. by intros ? ?%elem_of_nil.
  - rewrite (bind_eq_AssertFail _ _ _ _ Hcopy). simpl.
    unfold copy_inputs_to_storage in Hcopy. rewrite Hcopy in Hq.
    destruct Hq as [-> _]. by intros ?%elem_of_nil.
  - unfold copy_inputs_to_storage in Hcopy. by rewrite Hcopy in Hq.
Qed.

(** A call invokes the nodes it needs and no other: however it ends,
    every node it invoked is one on which a requested output depends; with
    a mask that is not empty, a call that returns has invoked all of them;
    with an empty mask the call returns at once and has invoked none. *)
Theorem call_invokes_the_needed_nodes fuel mask params :
  (∀ node, node ∈ invoked_nodes (call std_sort fn fuel mask params) →
           needed fn node) ∧
  (mask ≠ [] →
   ∀ params', returned (call std_sort fn fuel mask params) = Some params' →
     ∀ node, needed fn node →
       node ∈ invoked_nodes (call std_sort fn fuel mask params)) ∧
  (mask = [] →
   call std_sort fn fuel mask params = ReturnedAtOnce params ∧
   invoked_nodes (call std_sort fn fuel mask params) = []).
Proof using Hsort Hwf.
  split; [intros node; apply invoked_nodes_are_needed|]. split.
  - intros Hmask params' Hret.
    destruct (call std_sort fn fuel mask params) as [p|[p s'|s'|s']]
      eqn:Hcall; simpl in Hret; try done.
    { unfold call in Hcall. by rewrite bool_decide_false in Hcall
        by (by destruct mask). }
    clear Hret. simpl.
    apply call_Ok_inv in Hcall as (s0 & s1 & Hcopy & Hrun & _ & Hfree).
    destruct (copy_inputs_spec fn rank Hwf mask params s0 Hcopy)
      as (Hb0 & _).
    destruct (evaluate_Ok_inv std_sort Hsort fn rank Hwf params mask fuel
                s0 s1 Hb0 Hrun) as ((Hinv & _) & Hres).
    apply destruct_storage_frees_owned in Hfree as (_ & _ & -> & _).
    intros node Hneeded.
    induction Hneeded as [socket Hreq Hd|node socket Hnode IH Hs Hd].
    + destruct (Hres socket Hreq) as [[_ Hdummy]|Hc].
      * destruct (wf_m_output fn rank Hwf socket Hreq) as (_ & Hin & _).
        unfold item_node in Hdummy. rewrite Hin in Hdummy. congruence.
      * destruct (wf_m_output fn rank Hwf socket Hreq) as (_ & Hin & _).
        unfold item_node in Hc. by rewrite Hin in Hc.
    + destruct (ci_closed _ _ _ _ Hinv node socket IH Hs);
        [congruence|done].
  - intros ->. by unfold call.
Qed.

End needed_nodes.

(** * The values a call computes *)

(** ** What a body writes *)

Lemma write_array_lookup_ne b b' cells h :
  b ≠ b' → write_array b' cells h !! b = h !! b.
Proof.
  intros Hne. unfold write_array.
  destruct (h !! b') as [[[c|l]|]|]; try done.
  by rewrite list_lookup_insert_ne.
Qed.

Lemma write_vector_array_lookup_ne b b' lists h :
  b ≠ b' → write_vector_array b' lists h !! b = h !! b.
Proof.
  intros Hne. unfold write_vector_array.
  destruct (h !! b') as [[[c|l]|]|]; try done.
  by rewrite list_lookup_insert_ne.
Qed.

Lemma write_array_lookup_eq b cells h old :
  h !! b = Some (Some (ArrayBuffer old)) →
  write_array b cells h !! b = Some (Some (ArrayBuffer cells)).
Proof.
  intros Hb. unfold write_array. rewrite Hb.
  apply list_lookup_insert_eq. by eapply lookup_lt_Some.
Qed.

Lemma write_vector_array_lookup_eq b lists h old :
  h !! b = Some (Some (VectorArray old)) →
  write_vector_array b lists h !! b = Some (Some (VectorArray lists)).
Proof.
  intros Hb. unfold write_vector_array. rewrite Hb.
  apply list_lookup_insert_eq. by eapply lookup_lt_Some.
Qed.

Lemma write_results_snoc r ps p : ∀ i h,
  write_results r i (ps ++ [p]) h
  = write_results r (i + length ps) [p] (write_results r i ps h).
Proof.
  induction ps as [|q ps IH]; intros i h; simpl.
  - by rewrite Nat.add_0_r.
  - rewrite IH. by replace (S i + length ps) with (i + S (length ps)) by lia.
Qed.

Lemma write_results_unwritten r b ps : ∀ i h,
  (∀ p, p ∈ ps → ¬ writes_single p b ∧ ¬ writes_vector p b) →
  write_results r i ps h !! b = h !! b.
Proof.
  induction ps as [|p ps IH]; intros i h Hps; simpl; [done|].
  rewrite IH by (intros q Hq; apply Hps; by right).
  destruct (Hps p) as [Hs Hv]; [by left|].
  destruct p as [| |b'|b'|b'|b']; simpl in Hs, Hv; try done.
  - apply write_array_lookup_ne. congruence.
  - apply write_vector_array_lookup_ne. congruence.
  - apply write_array_lookup_ne. congruence.
  - apply write_vector_array_lookup_ne. congruence.
Qed.

Lemma write_results_single r b ps : ∀ i h cells,
  h !! b = Some (Some (ArrayBuffer cells)) →
  (∃ p, p ∈ ps ∧ writes_single p b) →
  ∃ j p, ps !! j = Some p ∧ writes_single p b ∧
    write_results r i ps h !! b
    = Some (Some (ArrayBuffer (single_result r (i + j)))).
Proof.
  induction ps as [|p ps IH] using rev_ind; intros i h cells Hb (q & Hq & Hw).
  { by apply elem_of_nil in Hq. }
  rewrite write_results_snoc.
  assert (∃ cells1, write_results r i ps h !! b
                    = Some (Some (ArrayBuffer cells1))) as [cells1 Hb1].
  { pose proof (same_shape_write_results r i ps h b) as Hshape.
    rewrite Hb in Hshape. simpl in Hshape.
    destruct (write_results r i ps h !! b) as [[[c|l]|]|]; try done.
    by exists c. }
  destruct (decide (writes_single p b)) as [Hp|Hp].
  - exists (length ps), p. split_and!; [|done|].
    + by rewrite lookup_app_r, Nat.sub_diag by lia.
    + destruct p; simpl in Hp; try done; subst; simpl;
        by eapply write_array_lookup_eq.
  - assert (q ∈ ps) as Hq'.
    { apply elem_of_app in Hq as [Hq|Hq%list_elem_of_singleton]; [done|].
      by subst q. }
    destruct (IH i h cells Hb) as (j & p' & Hj & Hw' & Hres); [by eauto|].
    exists j, p'. split_and!; [|done|].
    + by apply lookup_app_l_Some.
    + rewrite <- Hres.
      destruct p as [| |b'|b'|b'|b']; simpl in Hp |- *; try done.
      * apply write_array_lookup_ne. congruence.
      * destruct (decide (b = b')) as [<-|Hne];
          [|by apply write_vector_array_lookup_ne].
        unfold write_vector_array. by rewrite Hb1.
      * apply write_array_lookup_ne. congruence.
      * destruct (decide (b = b')) as [<-|Hne];
          [|by apply write_vector_array_lookup_ne].
        unfold write_vector_array. by rewrite Hb1.
Qed.

Lemma write_results_vector r b ps : ∀ i h lists,
  h !! b = Some (Some (VectorArray lists)) →
  (∃ p, p ∈ ps ∧ writes_vector p b) →
  ∃ j p, ps !! j = Some p ∧ writes_vector p b ∧
    write_results r i ps h !! b
    = Some (Some (VectorArray (vector_result r (i + j)))).
Proof.
  induction ps as [|p ps IH] using rev_ind; intros i h lists Hb (q & Hq & Hw).
  { by apply elem_of_nil in Hq. }
  rewrite write_results_snoc.
  assert (∃ lists1, write_results r i ps h !! b
                    = Some (Some (VectorArray lists1))) as [lists1 Hb1].
  { pose proof (same_shape_write_results r i ps h b) as Hshape.
    rewrite Hb in Hshape. simpl in Hshape.
    destruct (write_results r i ps h !! b) as [[[c|l]|]|]; try done.
    by exists l. }
  destruct (decide (writes_vector p b)) as [Hp|Hp].
  - exists (length ps), p. split_and!; [|done|].
    + by rewrite lookup_app_r, Nat.sub_diag by lia.
    + destruct p; simpl in Hp; try done; subst; simpl;
        by eapply write_vector_array_lookup_eq.
  - assert (q ∈ ps) as Hq'.
    { apply elem_of_app in Hq as [Hq|Hq%list_elem_of_singleton]; [done|].
      by subst q. }
    destruct (IH i h lists Hb) as (j & p' & Hj & Hw' & Hres); [by eauto|].
    exists j, p'. split_and!; [|done|].
    + by apply lookup_app_l_Some.
    + rewrite <- Hres.
      destruct p as [| |b'|b'|b'|b']; simpl in Hp |- *; try done.
      * destruct (decide (b = b')) as [<-|Hne];
          [|by apply write_array_lookup_ne].
        unfold write_array. by rewrite Hb1.
      * apply write_vector_array_lookup_ne. congruence.
      * destruct (decide (b = b')) as [<-|Hne];
          [|by apply write_array_lookup_ne].
        unfold write_array. by rewrite Hb1.
      * apply write_vector_array_lookup_ne. congruence.
Qed.

(** ** The invariant under the operations of the storage *)

Section values_of_slots.
Variable mask : list nat.
Variable val : Valuation.

Lemma array_holds_app h extra b f :
  array_holds mask h b f → array_holds mask (h ++ extra) b f.
Proof.
  intros (cells & Hb & Hcells). exists cells. split; [|done].
  by apply lookup_app_l_Some.
Qed.

Lemma vector_array_holds_app h extra b f :
  vector_array_holds mask h b f → vector_array_holds mask (h ++ extra) b f.
Proof.
  intros (lists & Hb & Hlists). exists lists. split; [|done].
  by apply lookup_app_l_Some.
Qed.

Lemma value_holds_app h extra socket v :
  value_holds mask val h socket v →
  value_holds mask val (h ++ extra) socket v.
Proof.
  destruct v; simpl; auto using array_holds_app, vector_array_holds_app.
Qed.

Lemma param_shows_app h extra origin t p :
  param_shows mask val h origin t p →
  param_shows mask val (h ++ extra) origin t p.
Proof.
  destruct t, p as [[[f|b]|[f|b]|b|b|b|b]|]; simpl;
    auto using array_holds_app, vector_array_holds_app.
Qed.

Lemma value_holds_ext h h' socket v :
  (∀ b, owned_buffer v = Some b → h' !! b = h !! b) →
  value_holds mask val h socket v → value_holds mask val h' socket v.
Proof.
  intros Hsame. destruct v as [f|f|b users|b users]; simpl; try done.
  - intros (cells & Hb & Hcells). exists cells.
    by rewrite (Hsame b eq_refl).
  - intros (lists & Hb & Hlists). exists lists.
    by rewrite (Hsame b eq_refl).
Qed.

Lemma value_holds_lt h socket v b :
  value_holds mask val h socket v → owned_buffer v = Some b → b < length h.
Proof.
  destruct v as [f|f|b' users|b' users]; simpl; try done.
  - intros (cells & Hb & _) [= <-]. by eapply lookup_lt_Some.
  - intros (lists & Hb & _) [= <-]. by eapply lookup_lt_Some.
Qed.

Lemma values_inv_ext pending s s' :
  m_mask s' = m_mask s →
  m_value_per_output_id s' = m_value_per_output_id s →
  memory s' = memory s →
  values_inv mask val pending s → values_inv mask val pending s'.
Proof.
  intros Hm Hv Hh. unfold values_inv, slot. by rewrite Hm, Hv, Hh.
Qed.

Lemma values_inv_weaken pending pending' s :
  (∀ id, id ∈ pending → id ∈ pending') →
  values_inv mask val pending s → values_inv mask val pending' s.
Proof.
  intros Hsub (Hm & Hv & Ha & Hd). split_and!; try done.
  intros socket v Hs Hp. apply Hv; [done|]. intros ?. apply Hp. by apply Hsub.
Qed.

(** A slot is cleared and its buffer freed. *)
Lemma values_inv_free pending s s' id v b :
  values_inv mask val pending s →
  slot s id = Some (Some v) →
  owned_buffer v = Some b →
  m_mask s' = m_mask s →
  m_value_per_output_id s' = <[id := None]> (m_value_per_output_id s) →
  memory s' = <[b := None]> (memory s) →
  values_inv mask val pending s'.
Proof.
  intros (Hm & Hv & Ha & Hd) Hid Hb Hm' Hv' Hh'.
  assert (∀ id' v', slot s' id' = Some (Some v') →
                    id' ≠ id ∧ slot s id' = Some (Some v')) as Hold.
  { intros id' v' H. unfold slot in H |- *. rewrite Hv' in H.
    destruct (decide (id' = id)) as [->|Hne].
    - rewrite list_lookup_insert_eq in H; [done|]. by eapply lookup_lt_Some.
    - by rewrite list_lookup_insert_ne in H. }
  split_and!.
  - congruence.
  - intros socket v' Hs Hp. destruct (Hold _ _ Hs) as [Hne Hs'].
    rewrite Hh'. eapply value_holds_ext; [|by apply Hv].
    intros b' Hb'. apply list_lookup_insert_ne. intros <-.
    apply Hne. by eapply Hd.
  - intros socket v' b' Hs Hb'. destruct (Hold _ _ Hs) as [_ Hs'].
    rewrite Hh', length_insert. by eapply Ha.
  - intros id1 id2 v1 v2 b' H1 H2. destruct (Hold _ _ H1) as [_ H1'].
    destruct (Hold _ _ H2) as [_ H2']. by eapply Hd.
Qed.

(** The value of a slot is replaced by one on the same buffer. *)
Lemma values_inv_recount pending s s' id v v' :
  values_inv mask val pending s →
  slot s id = Some (Some v) →
  owned_buffer v' = owned_buffer v →
  (∀ h, value_holds mask val h id v → value_holds mask val h id v') →
  m_mask s' = m_mask s →
  m_value_per_output_id s' = <[id := Some v']> (m_value_per_output_id s) →
  memory s' = memory s →
  values_inv mask val pending s'.
Proof.
  intros (Hm & Hv & Ha & Hd) Hid Hb Hsame Hm' Hv' Hh'.
  assert (∀ id1 v1, slot s' id1 = Some (Some v1) →
            (id1 = id ∧ v1 = v') ∨
            (id1 ≠ id ∧ slot s id1 = Some (Some v1))) as Hold.
  { intros id1 v1 H. unfold slot in H |- *. rewrite Hv' in H.
    destruct (decide (id1 = id)) as [->|Hne].
    - rewrite list_lookup_insert_eq in H by (by eapply lookup_lt_Some).
      left. split; congruence.
    - rewrite list_lookup_insert_ne in H by done. by right. }
  assert (∀ id1 v1 b, slot s' id1 = Some (Some v1) →
            owned_buffer v1 = Some b →
            ∃ v0, slot s id1 = Some (Some v0) ∧ owned_buffer v0 = Some b)
    as Hown.
  { intros id1 v1 b H Hb1. destruct (Hold _ _ H) as [[-> ->]|[_ H']].
    - exists v. split; [done|congruence].
    - by exists v1. }
  split_and!.
  - congruence.
  - intros socket v1 Hs Hp. rewrite Hh'.
    destruct (Hold _ _ Hs) as [[-> ->]|[_ Hs']]; [|by apply Hv].
    apply Hsame. by apply Hv.
  - intros socket v1 b Hs Hb1. rewrite Hh'.
    destruct (Hown _ _ _ Hs Hb1) as (v0 & H0 & Hb0). by eapply Ha.
  - intros id1 id2 v1 v2 b H1 H2 Hb1 Hb2.
    destruct (Hown _ _ _ H1 Hb1) as (? & ? & ?).
    destruct (Hown _ _ _ H2 Hb2) as (? & ? & ?). by eapply Hd.
Qed.

(** A slot is given a value on a new buffer; its value is pending. *)
Lemma values_inv_new pending s s' id v buf :
  values_inv mask val pending s →
  id < length (m_value_per_output_id s) →
  owned_buffer v = Some (length (memory s)) →
  m_mask s' = m_mask s →
  m_value_per_output_id s' = <[id := Some v]> (m_value_per_output_id s) →
  memory s' = memory s ++ [buf] →
  values_inv mask val (pending ++ [id]) s'.
Proof.
  intros (Hm & Hv & Ha & Hd) Hid Hb Hm' Hv' Hh'.
  assert (∀ id1 v1, slot s' id1 = Some (Some v1) →
            (id1 = id ∧ v1 = v) ∨
            (id1 ≠ id ∧ slot s id1 = Some (Some v1))) as Hold.
  { intros id1 v1 H. unfold slot in H |- *. rewrite Hv' in H.
    destruct (decide (id1 = id)) as [->|Hne].
    - rewrite list_lookup_insert_eq in H by done.
      left. split; congruence.
    - rewrite list_lookup_insert_ne in H by done. by right. }
  split_and!.
  - congruence.
  - intros socket v1 Hs Hp. rewrite Hh'.
    destruct (Hold _ _ Hs) as [[-> ->]|[_ Hs']].
    + exfalso. apply Hp. apply elem_of_app. right. by left.
    + apply value_holds_app. apply Hv; [done|].
      intros ?. apply Hp. apply elem_of_app. by left.
  - intros socket v1 b Hs Hb1. rewrite Hh', length_app. simpl.
    destruct (Hold _ _ Hs) as [[-> ->]|[_ Hs']].
    + assert (b = length (memory s)) by congruence. lia.
    + pose proof (Ha _ _ _ Hs' Hb1). lia.
  - intros id1 id2 v1 v2 b H1 H2 Hb1 Hb2.
    destruct (Hold _ _ H1) as [[-> ->]|[Hne1 H1']];
      destruct (Hold _ _ H2) as [[-> ->]|[Hne2 H2']]; try done.
    + pose proof (Ha _ _ _ H2' Hb2).
      assert (b = length (memory s)) by congruence. lia.
    + pose proof (Ha _ _ _ H1' Hb1).
      assert (b = length (memory s)) by congruence. lia.
    + by eapply Hd.
Qed.

(** The buffer of a slot is moved to another slot; its value there is
    pending. *)
Lemma values_inv_move pending s s' from to v v' b :
  values_inv mask val pending s →
  slot s from = Some (Some v) →
  owned_buffer v = Some b →
  owned_buffer v' = Some b →
  from ≠ to →
  to < length (m_value_per_output_id s) →
  m_mask s' = m_mask s →
  m_value_per_output_id s'
  = <[from := None]> (<[to := Some v']> (m_value_per_output_id s)) →
  memory s' = memory s →
  values_inv mask val (pending ++ [to]) s'.
Proof.
  intros (Hm & Hv & Ha & Hd) Hfrom Hb Hb' Hne Hto Hm' Hv' Hh'.
  assert (∀ id1 v1, slot s' id1 = Some (Some v1) →
            (id1 = to ∧ v1 = v') ∨
            (id1 ≠ to ∧ id1 ≠ from ∧ slot s id1 = Some (Some v1))) as Hold.
  { intros id1 v1 H. unfold slot in H |- *. rewrite Hv' in H.
    destruct (decide (id1 = from)) as [->|Hne1].
    { rewrite list_lookup_insert_eq in H; [done|].
      rewrite length_insert. by eapply lookup_lt_Some. }
    rewrite list_lookup_insert_ne in H by done.
    destruct (decide (id1 = to)) as [->|Hne2].
    - rewrite list_lookup_insert_eq in H by done. left. split; congruence.
    - rewrite list_lookup_insert_ne in H by done. by right. }
  split_and!.
  - congruence.
  - intros socket v1 Hs Hp. rewrite Hh'.
    destruct (Hold _ _ Hs) as [[-> ->]|(_ & _ & Hs')].
    + exfalso. apply Hp. apply elem_of_app. right. by left.
    + apply Hv; [done|]. intros ?. apply Hp. apply elem_of_app. by left.
  - intros socket v1 b1 Hs Hb1. rewrite Hh'.
    destruct (Hold _ _ Hs) as [[-> ->]|(_ & _ & Hs')]; [|by eapply Ha].
    assert (b1 = b) as -> by congruence. by eapply Ha.
  - intros id1 id2 v1 v2 b1 H1 H2 Hb1 Hb2.
    destruct (Hold _ _ H1) as [[-> ->]|(_ & Hf1 & H1')];
      destruct (Hold _ _ H2) as [[-> ->]|(_ & Hf2 & H2')]; try done.
    + assert (b1 = b) as -> by congruence.
      exfalso. apply Hf2. by eapply Hd.
    + assert (b1 = b) as -> by congruence.
      exfalso. apply Hf1. by eapply Hd.
    + by eapply Hd.
Qed.

Lemma finish_input_socket_values net socket s s' :
  values_inv mask val [] s →
  finish_input_socket net socket s = Ok tt s' →
  values_inv mask val [] s'.
Proof.
  intros Hinv H. unfold finish_input_socket in H.
  apply bind_Ok in H as ([] & s1 & Hlog & H).
  apply modify_Ok in Hlog as ->.
  apply bind_Ok in H as (x & s2 & Hx & H).
  apply get_value_Ok in Hx as [Hx ->]. simpl in Hx.
  assert (values_inv mask val [] (log_finish socket s)) as Hinv1.
  { by eapply values_inv_ext. }
  destruct x as [[f|f|b users|b users]|]; eval_inv; try done.
  - case_bool_decide; eval_inv.
    + eapply (values_inv_free _ (log_finish socket s)); try done.
    + eapply (values_inv_recount _ (log_finish socket s) _ _
                (SingleValue b users) (SingleValue b (users - 1)));
        try done.
  - case_bool_decide; eval_inv.
    + eapply (values_inv_free _ (log_finish socket s)); try done.
    + eapply (values_inv_recount _ (log_finish socket s) _ _
                (VectorValue b users) (VectorValue b (users - 1)));
        try done.
Qed.

End values_of_slots.

(** ** Binding the parameters of a node *)

Lemma binding_stable_refl pending s : binding_stable pending s s.
Proof. split; [|done]. exists []. by rewrite app_nil_r. Qed.

Lemma binding_stable_trans pending pending' s1 s2 s3 :
  (∀ id, id ∈ pending → id ∈ pending') →
  binding_stable pending s1 s2 → binding_stable pending' s2 s3 →
  binding_stable pending s1 s3.
Proof.
  intros Hsub [[e1 H1] Hs1] [[e2 H2] Hs2]. split.
  - exists (e1 ++ e2). by rewrite H2, H1, app_assoc.
  - intros id Hid. rewrite Hs2 by (by apply Hsub). by apply Hs1.
Qed.

Section values_of_a_call.
Variable std_sort : (nat → nat → bool) → list nat → list nat.
Hypothesis Hsort : ∀ lt l, std_sort lt l ≡ₚ l.
Variable fn : MF_EvaluateNetwork.
Variable rank : nat → nat.
Hypothesis Hwf : network_wf fn rank.
Variable mask : list nat.
Variable val : Valuation.
Hypothesis Hmask : NoDup mask.
Local Abbreviation net := (network fn).

Lemma param_bound_stable node i t p pending s s' :
  param_bound mask val net node i t p s →
  binding_stable pending s s' →
  (is_output_param t = true → output_for_param net node i ∈ pending) →
  param_bound mask val net node i t p s'.
Proof.
  intros [Hshows Hslot] [[extra Hh] Hslots] Hout. split.
  - rewrite Hh. by apply param_shows_app.
  - destruct t, p as [[f|b]|[f|b]|b|b|b|b]; simpl in Hshows |- *; try done;
      destruct Hslot as (users & x & Hs & Hb); exists users, x;
      (split; [by rewrite Hslots by (by apply Hout)|]);
      rewrite Hh; by apply lookup_app_l_Some.
Qed.

Lemma bind_param_values node i t pending s p s' :
  values_inv mask val pending s →
  (∀ id, id ∈ pending → id ∈ node_outputs net node) →
  (is_output_param t = true →
   output_for_param net node i ∈ node_outputs net node ∧
   output_for_param net node i ∉ pending) →
  (is_input_param t = true →
   socket_origin net (input_for_param net node i) ∉ node_outputs net node) →
  bind_param fn node i t s = Ok p s' →
  values_inv mask val
    (pending ++ if is_output_param t then [output_for_param net node i]
                else []) s' ∧
  binding_stable pending s s' ∧
  param_bound mask val net node i t p s'.
Proof using Hmask.
  intros Hinv Hpending Hout Hin H.
  pose proof Hinv as (Hm & Hv & Ha & Hd).
  destruct t; simpl in *.
  - unfold get_single_input in H. eval_inv.
    rewrite app_nil_r.
    destruct a0 as [[f|f|b users|b users]|]; eval_inv; try done.
    + split_and!; [done|apply binding_stable_refl|].
      split; [|done]. simpl. apply (Hv _ _ H).
      intros ?. apply Hin; [done|]. by apply Hpending.
    + split_and!; [done|apply binding_stable_refl|].
      split; [|done]. simpl. apply (Hv _ _ H).
      intros ?. apply Hin; [done|]. by apply Hpending.
  - unfold get_vector_input in H. eval_inv.
    rewrite app_nil_r.
    destruct a0 as [[f|f|b users|b users]|]; eval_inv; try done.
    + split_and!; [done|apply binding_stable_refl|].
      split; [|done]. simpl. apply (Hv _ _ H).
      intros ?. apply Hin; [done|]. by apply Hpending.
    + split_and!; [done|apply binding_stable_refl|].
      split; [|done]. simpl. apply (Hv _ _ H).
      intros ?. apply Hin; [done|]. by apply Hpending.
  - unfold allocate_single_output in H. eval_inv.
    destruct Hout as [_ Hfresh]; [done|]. simpl in *. split_and!.
    + eapply (values_inv_new _ _ _ s _ _ (SingleValue (length (memory s)) _));
        done.
    + split; [by eexists|]. intros id Hid. unfold slot. simpl.
      apply list_lookup_insert_ne. by intros <-.
    + split; [done|]. simpl. eexists _, _. split.
      * unfold slot. simpl. by apply list_lookup_insert_eq.
      * simpl. by rewrite lookup_app_r, Nat.sub_diag by lia.
  - unfold allocate_vector_output in H. eval_inv.
    destruct Hout as [_ Hfresh]; [done|]. simpl in *. split_and!.
    + eapply (values_inv_new _ _ _ s _ _ (VectorValue (length (memory s)) _));
        done.
    + split; [by eexists|]. intros id Hid. unfold slot. simpl.
      apply list_lookup_insert_ne. by intros <-.
    + split; [done|]. simpl. eexists _, _. split.
      * unfold slot. simpl. by apply list_lookup_insert_eq.
      * simpl. by rewrite lookup_app_r, Nat.sub_diag by lia.
  - unfold get_mutable_single in H. eval_inv.
    destruct Hout as [Hown Hfresh]; [done|]. specialize (Hin eq_refl).
    assert (socket_origin net (input_for_param net node i) ∉ pending)
      as Hfrom by (intros ?; apply Hin; by apply Hpending).
    assert (socket_origin net (input_for_param net node i)
            ≠ output_for_param net node i) as Hne
      by (intros Heq; apply Hin; by rewrite Heq).
    destruct a0 as [[f|f|b users|b users]|]; eval_inv; try done.
    + pose proof (Hv _ _ H Hfrom) as Hval. simpl in *. split_and!.
      * eapply (values_inv_new _ _ _ s _ _
                  (SingleValue (length (memory s)) _)); done.
      * split; [by eexists|]. intros id Hid. unfold slot. simpl.
        apply list_lookup_insert_ne. by intros <-.
      * split.
        -- simpl. eexists. split;
             [by rewrite lookup_app_r, Nat.sub_diag by lia|].
           intros j Hj. rewrite materialize_to_uninitialized_lookup.
           ++ by rewrite Hval.
           ++ done.
           ++ rewrite length_replicate. by apply min_array_size_gt.
        -- eexists _, _. split.
           ++ unfold slot. simpl. by apply list_lookup_insert_eq.
           ++ simpl. by rewrite lookup_app_r, Nat.sub_diag by lia.
    + pose proof (Hv _ _ H Hfrom) as (cells & Hcells & Hval).
      case_bool_decide; eval_inv; simpl in *.
      * split_and!.
        -- eapply (values_inv_move _ _ _ s _ _ _ (SingleValue b _)
                     (SingleValue b _) b); try done.
        -- split; [exists []; by rewrite app_nil_r|].
           intros id Hid. unfold slot. simpl.
           rewrite !list_lookup_insert_ne; [done|by intros <-..].
        -- split; [by exists cells|]. eexists _, cells. split; [|done].
           unfold slot. simpl. rewrite list_lookup_insert_ne by done.
           by apply list_lookup_insert_eq.
      * match goal with
        | Hr : memory s !! b = Some (Some (ArrayBuffer ?src)) |- _ =>
            tryif constr_eq src cells then fail
            else (rewrite Hcells in Hr; injection Hr as <-)
        end.
        split_and!.
        -- eapply (values_inv_new _ _ _ s _ _
                     (SingleValue (length (memory s)) _)); done.
        -- split; [by eexists|]. intros id Hid. unfold slot. simpl.
           apply list_lookup_insert_ne. by intros <-.
        -- split.
           ++ simpl. eexists. split;
                [by rewrite lookup_app_r, Nat.sub_diag by lia|].
              intros j Hj. rewrite copy_to_uninitialized_indices_lookup.
              ** by rewrite (Hval j Hj).
              ** done.
              ** rewrite length_replicate. by apply min_array_size_gt.
           ++ eexists _, _. split.
              ** unfold slot. simpl. by apply list_lookup_insert_eq.
              ** simpl. by rewrite lookup_app_r, Nat.sub_diag by lia.
  - unfold get_mutable_vector in H. eval_inv.
    destruct Hout as [Hown Hfresh]; [done|]. specialize (Hin eq_refl).
    assert (socket_origin net (input_for_param net node i) ∉ pending)
      as Hfrom by (intros ?; apply Hin; by apply Hpending).
    assert (socket_origin net (input_for_param net node i)
            ≠ output_for_param net node i) as Hne
      by (intros Heq; apply Hin; by rewrite Heq).
    destruct a0 as [[f|f|b users|b users]|]; eval_inv; try done.
    + pose proof (Hv _ _ H Hfrom) as Hval. simpl in *. split_and!.
      * eapply (values_inv_new _ _ _ s _ _
                  (VectorValue (length (memory s)) _)); done.
      * split; [by eexists|]. intros id Hid. unfold slot. simpl.
        apply list_lookup_insert_ne. by intros <-.
      * split.
        -- simpl. eexists. split;
             [by rewrite lookup_app_r, Nat.sub_diag by lia|].
           intros j Hj.
           pose proof (lookup_extend_new_vector (m_mask s) f j Hmask Hj)
             as Hl.
           unfold extend_multiple__copy in Hl. rewrite Hl.
           by rewrite Hval.
        -- eexists _, _. split.
           ++ unfold slot. simpl. by apply list_lookup_insert_eq.
           ++ simpl. by rewrite lookup_app_r, Nat.sub_diag by lia.
    + pose proof (Hv _ _ H Hfrom) as (lists & Hlists & Hval).
      case_bool_decide; eval_inv; simpl in *.
      * split_and!.
        -- eapply (values_inv_move _ _ _ s _ _ _ (VectorValue b _)
                     (VectorValue b _) b); try done.
        -- split; [exists []; by rewrite app_nil_r|].
           intros id Hid. unfold slot. simpl.
           rewrite !list_lookup_insert_ne; [done|by intros <-..].
        -- split; [by exists lists|]. eexists _, lists. split; [|done].
           unfold slot. simpl. rewrite list_lookup_insert_ne by done.
           by apply list_lookup_insert_eq.
      * match goal with
        | Hr : memory s !! b = Some (Some (VectorArray ?src)) |- _ =>
            tryif constr_eq src lists then fail
            else (rewrite Hlists in Hr; injection Hr as <-)
        end.
        split_and!.
        -- eapply (values_inv_new _ _ _ s _ _
                     (VectorValue (length (memory s)) _)); done.
        -- split; [by eexists|]. intros id Hid. unfold slot. simpl.
           apply list_lookup_insert_ne. by intros <-.
        -- split.
           ++ simpl. eexists. split;
                [by rewrite lookup_app_r, Nat.sub_diag by lia|].
              intros j Hj.
              rewrite (lookup_extend_new_vector (m_mask s) (lists_of lists)
                         j Hmask Hj).
              unfold lists_of. by rewrite (Hval j Hj).
           ++ eexists _, _. split.
              ** unfold slot. simpl. by apply list_lookup_insert_eq.
              ** simpl. by rewrite lookup_app_r, Nat.sub_diag by lia.
Qed.

Lemma bind_params_values node : ∀ types i pending s ps s',
  NoDup (node_outputs net node) →
  node_outputs net node = pending ++ param_outputs fn node i types →
  (∀ socket, socket ∈ param_inputs fn node i types →
     socket_origin net socket ∉ node_outputs net node) →
  values_inv mask val pending s →
  bind_params fn node i types s = Ok ps s' →
  values_inv mask val (node_outputs net node) s' ∧
  binding_stable pending s s' ∧
  length ps = length types ∧
  ∀ j t, types !! j = Some t →
    ∃ p, ps !! j = Some p ∧ param_bound mask val net node (i + j) t p s'.
Proof using Hmask.
  induction types as [|t types IH]; intros i pending s ps s' Hnd Houts Hins
    Hinv H; simpl in H.
  - apply ret_Ok in H as [-> ->]. simpl in Houts. rewrite app_nil_r in Houts.
    rewrite Houts. split_and!; [done|apply binding_stable_refl|done..].
  - apply bind_Ok in H as (p & s1 & Hp & H).
    apply bind_Ok in H as (ps' & s2 & Hps & H).
    apply ret_Ok in H as [-> ->]. simpl in Houts, Hins.
    assert (∀ id, id ∈ pending → id ∈ node_outputs net node) as Hpending.
    { intros id Hid. rewrite Houts. apply elem_of_app. by left. }
    destruct (bind_param_values node i t pending s p s1 Hinv Hpending)
      as (Hinv1 & Hstable1 & Hbound1); [| |done|].
    { intros Ht. rewrite Ht in Houts. split.
      - rewrite Houts. apply elem_of_app. right. by left.
      - rewrite Houts in Hnd. apply NoDup_app in Hnd as (_ & Hnd & _).
        intros Hin. apply (Hnd _ Hin). by left. }
    { intros Ht. apply Hins. rewrite Ht. by left. }
    destruct (IH (S i)
                (pending ++ if is_output_param t
                            then [output_for_param net node i] else [])
                s1 ps' s2 Hnd) as (Hinv2 & Hstable2 & Hlen2 & Hbound2);
      [by rewrite <- app_assoc| |done|done|].
    { intros socket Hs. apply Hins. apply elem_of_app. by right. }
    split_and!; [done| |by simpl; rewrite Hlen2|].
    + eapply binding_stable_trans; [|done..].
      intros id Hid. apply elem_of_app. by left.
    + intros [|j] t' Hj; simpl in Hj.
      * injection Hj as <-. exists p. split; [done|]. rewrite Nat.add_0_r.
        eapply param_bound_stable; [done..|].
        intros Ht. rewrite Ht. apply elem_of_app. right. by left.
      * destruct (Hbound2 j t' Hj) as (p' & Hp' & Hb'). exists p'.
        split; [done|]. by replace (i + S j) with (S i + j) by lia.
Qed.

Lemma elem_of_param_outputs node socket types : ∀ i,
  socket ∈ param_outputs fn node i types ↔
  ∃ j t, types !! j = Some t ∧ is_output_param t = true ∧
         socket = output_for_param net node (i + j).
Proof.
  induction types as [|t types IH]; intros i; simpl.
  - split; [by intros ?%elem_of_nil|by intros (j & t & ? & _)].
  - rewrite elem_of_app, IH. split.
    + intros [H|(j & t' & Hj & Ht & ->)].
      * exists 0, t. rewrite Nat.add_0_r.
        destruct (is_output_param t); [|by apply elem_of_nil in H].
        by apply list_elem_of_singleton in H as ->.
      * exists (S j), t'. split_and!; [done..|]. f_equal. lia.
    + intros ([|j] & t' & Hj & Ht & ->); simpl in Hj.
      * injection Hj as ->. left. rewrite Ht, Nat.add_0_r. by left.
      * right. exists j, t'. split_and!; [done..|]. f_equal. lia.
Qed.

Lemma elem_of_param_inputs node socket types : ∀ i,
  socket ∈ param_inputs fn node i types ↔
  ∃ j t, types !! j = Some t ∧ is_input_param t = true ∧
         socket = input_for_param net node (i + j).
Proof.
  induction types as [|t types IH]; intros i; simpl.
  - split; [by intros ?%elem_of_nil|by intros (j & t & ? & _)].
  - rewrite elem_of_app, IH. split.
    + intros [H|(j & t' & Hj & Ht & ->)].
      * exists 0, t. rewrite Nat.add_0_r.
        destruct (is_input_param t); [|by apply elem_of_nil in H].
        by apply list_elem_of_singleton in H as ->.
      * exists (S j), t'. split_and!; [done..|]. f_equal. lia.
    + intros ([|j] & t' & Hj & Ht & ->); simpl in Hj.
      * injection Hj as ->. left. rewrite Ht, Nat.add_0_r. by left.
      * right. exists j, t'. split_and!; [done..|]. f_equal. lia.
Qed.

Lemma length_write_results r ps : ∀ i h,
  length (write_results r i ps h) = length h.
Proof.
  induction ps as [|p ps IH]; intros i h; simpl; [done|]. rewrite IH.
  unfold write_array, write_vector_array.
  destruct p as [| |b|b|b|b]; try done;
    destruct (h !! b) as [[[c|l]|]|]; by rewrite ?length_insert.
Qed.

Lemma param_bound_single node j t p s b :
  param_bound mask val net node j t p s → writes_single p b →
  (t = SingleOutput ∨ t = MutableSingle) ∧
  ∃ users cells,
    slot s (output_for_param net node j) = Some (Some (SingleValue b users)) ∧
    memory s !! b = Some (Some (ArrayBuffer cells)).
Proof.
  intros [Hshows Hslot] Hw.
  destruct p; simpl in Hw; try done; subst;
    destruct t; simpl in Hshows; try done; eauto.
Qed.

Lemma param_bound_vector node j t p s b :
  param_bound mask val net node j t p s → writes_vector p b →
  (t = VectorOutput ∨ t = MutableVector) ∧
  ∃ users lists,
    slot s (output_for_param net node j) = Some (Some (VectorValue b users)) ∧
    memory s !! b = Some (Some (VectorArray lists)).
Proof.
  intros [Hshows Hslot] Hw.
  destruct p; simpl in Hw; try done; subst;
    destruct t; simpl in Hshows; try done; eauto.
Qed.

Lemma param_bound_output node j t p s :
  param_bound mask val net node j t p s → is_output_param t = true →
  (∃ b, writes_single p b) ∨ (∃ b, writes_vector p b).
Proof.
  intros [Hshows _] Ht.
  destruct t, p as [[f|b]|[f|b]|b|b|b|b]; simpl in *; try done; eauto.
Qed.

Lemma param_bound_writer node j t p s b :
  param_bound mask val net node j t p s →
  writes_single p b ∨ writes_vector p b →
  is_output_param t = true ∧
  ∃ v, slot s (output_for_param net node j) = Some (Some v) ∧
       owned_buffer v = Some b.
Proof.
  intros Hbound [Hw|Hw].
  - destruct (param_bound_single _ _ _ _ _ _ Hbound Hw)
      as ([-> | ->] & users & cells & Hs & _); eauto.
  - destruct (param_bound_vector _ _ _ _ _ _ Hbound Hw)
      as ([-> | ->] & users & cells & Hs & _); eauto.
Qed.

(** ** Evaluating a node *)

Lemma call_function_values node ps s s' :
  body_computes mask val net node →
  values_inv mask val (node_outputs net node) s →
  node_outputs net node = param_outputs fn node 0 (fn_param_types net node) →
  length ps = length (fn_param_types net node) →
  (∀ j t, fn_param_types net node !! j = Some t →
     ∃ p, ps !! j = Some p ∧ param_bound mask val net node j t p s) →
  call_function fn node ps s = Ok tt s' →
  values_inv mask val [] s'.
Proof.
  intros Hbody (Hm & Hv & Ha & Hd) Houts Hlen Hbound H.
  unfold call_function in H. injection H as <-.
  set (r := fn_call net node (m_mask s) ps (memory s)).
  assert (∀ j p, ps !! j = Some p →
            ∃ t, fn_param_types net node !! j = Some t ∧
                 param_bound mask val net node j t p s) as Hps.
  { intros j p Hj.
    destruct (lookup_lt_is_Some_2 (fn_param_types net node) j) as [t Ht].
    { rewrite <- Hlen. by eapply lookup_lt_Some. }
    exists t. split; [done|]. destruct (Hbound j t Ht) as (p' & Hp' & Hb).
    congruence. }
  assert (∀ j t, fn_param_types net node !! j = Some t →
            param_shows mask val (memory s)
              (socket_origin net (input_for_param net node j)) t (ps !! j))
    as Hshows.
  { intros j t Ht. destruct (Hbound j t Ht) as (p & -> & Hb & _). done. }
  pose proof (Hbody ps (memory s) Hshows) as Hresult.
  fold r in Hresult. rewrite <- Hm in Hresult.
  split_and!; simpl.
  - done.
  - intros socket v Hs _. unfold slot in Hs. simpl in Hs.
    destruct (decide (socket ∈ node_outputs net node)) as [Hown|Hother].
    + rewrite Houts in Hown.
      apply elem_of_param_outputs in Hown as (j & t & Ht & Hout & ->).
      simpl in *. destruct (Hbound j t Ht) as (p & Hp & Hb).
      destruct (param_bound_output _ _ _ _ _ Hb Hout) as [[b Hw]|[b Hw]].
      * destruct (param_bound_single _ _ _ _ _ _ Hb Hw)
          as (_ & users & cells & Hslot & Hcells).
        unfold slot in Hslot. rewrite Hslot in Hs. injection Hs as <-.
        destruct (write_results_single r b ps 0 (memory s) cells Hcells)
          as (j' & p' & Hp' & Hw' & Hfinal).
        { exists p. split; [by eapply list_elem_of_lookup_2|done]. }
        destruct (Hps j' p' Hp') as (t' & Ht' & Hb').
        destruct (param_bound_single _ _ _ _ _ _ Hb' Hw')
          as (Hkind & users' & cells' & Hslot' & _).
        assert (output_for_param net node j' = output_for_param net node j)
          as Hsame by (by eapply Hd).
        simpl. eexists. split; [done|]. intros x Hx.
        specialize (Hresult j' t' Ht'). rewrite Hsame in Hresult.
        destruct Hkind as [-> | ->]; apply Hresult; by rewrite Hm.
      * destruct (param_bound_vector _ _ _ _ _ _ Hb Hw)
          as (_ & users & lists & Hslot & Hlists).
        unfold slot in Hslot. rewrite Hslot in Hs. injection Hs as <-.
        destruct (write_results_vector r b ps 0 (memory s) lists Hlists)
          as (j' & p' & Hp' & Hw' & Hfinal).
        { exists p. split; [by eapply list_elem_of_lookup_2|done]. }
        destruct (Hps j' p' Hp') as (t' & Ht' & Hb').
        destruct (param_bound_vector _ _ _ _ _ _ Hb' Hw')
          as (Hkind & users' & lists' & Hslot' & _).
        assert (output_for_param net node j' = output_for_param net node j)
          as Hsame by (by eapply Hd).
        simpl. eexists. split; [done|]. intros x Hx.
        specialize (Hresult j' t' Ht'). rewrite Hsame in Hresult.
        destruct Hkind as [-> | ->]; apply Hresult; by rewrite Hm.
    + eapply value_holds_ext; [|by apply Hv].
      intros b Hb. apply write_results_unwritten.
      intros p [j Hj]%list_elem_of_lookup.
      destruct (Hps j p Hj) as (t & Ht & Hbd).
      assert (¬ (writes_single p b ∨ writes_vector p b)) as Hno; [|tauto].
      intros Hw.
      destruct (param_bound_writer _ _ _ _ _ _ Hbd Hw)
        as (Hout & v' & Hslot & Hb').
      apply Hother. rewrite Houts. apply elem_of_param_outputs.
      exists j, t. split_and!; [done..|]. simpl. by eapply Hd.
  - intros socket v b Hs Hb. rewrite length_write_results. by eapply Ha.
  - done.
Qed.

Lemma evaluate_function_values node s s' :
  node < node_id_amount net → node_is_dummy net node = false →
  body_computes mask val net node →
  values_inv mask val [] s →
  evaluate_function fn node s = Ok tt s' →
  values_inv mask val [] s'.
Proof using Hwf Hmask.
  intros Hnode Hdummy Hbody Hinv H. unfold evaluate_function in H.
  apply bind_Ok in H as (ps & s1 & Hbind & H).
  apply bind_Ok in H as ([] & s2 & Hcall & Hfinish).
  destruct (wf_function_node fn rank Hwf node Hnode Hdummy)
    as (Hins & Houts & _).
  destruct (bind_params_values node (fn_param_types net node) 0 [] s ps s1)
    as (Hinv1 & _ & Hlen & Hbound); try done.
  { by apply (wf_NoDup_outputs fn rank Hwf). }
  { intros socket Hs. rewrite <- Hins in Hs.
    by apply (wf_origin_not_own_output fn rank Hwf). }
  pose proof (call_function_values node ps s1 s2 Hbody Hinv1 Houts Hlen
                Hbound Hcall) as Hinv2.
  eapply (for_each_ind (values_inv mask val [])); [exact Hinv2| |exact Hfinish].
  intros x sa sb _ Ha Hstep. by eapply finish_input_socket_values.
Qed.

(** ** The scheduler *)

Lemma scheduler_iteration_values max_depths socket below s stack' s' :
  (∀ node, needed fn node → body_computes mask val net node) →
  socket < socket_id_amount net →
  stack_needed fn (socket :: below) →
  values_inv mask val [] s →
  scheduler_iteration std_sort fn max_depths socket below s = Ok stack' s' →
  values_inv mask val [] s'.
Proof using Hwf Hmask.
  intros Hmodel Hlt Hstack Hinv H. unfold scheduler_iteration in H.
  apply Forall_cons in Hstack as [Htop _].
  destruct (socket_is_input net socket).
  - unfold input_is_computed in H. eval_inv.
    destruct (negb (is_null a0)); by eval_inv.
  - apply bind_Ok in H as ([] & s1 & Hassert & H).
    apply BLI_assert_Ok in Hassert as [Hd ->].
    apply negb_true_iff in Hd.
    destruct Htop as [|Hneeded]; [congruence|].
    apply bind_Ok in H as (missing & s2 & Hfind & H).
    apply (find_missing_inputs_Ok fn) in Hfind as (-> & _).
    destruct missing as [|m missing].
    + apply bind_Ok in H as ([] & s3 & Heval & H).
      apply ret_Ok in H as [_ ->].
      eapply evaluate_function_values; [| |by apply Hmodel|done..]; [|done].
      by apply (wf_socket_node fn rank Hwf).
    + by apply ret_Ok in H as [_ ->].
Qed.

Lemma scheduler_loop_values max_depths fuel : ∀ stack s s',
  (∀ node, needed fn node → body_computes mask val net node) →
  Forall (λ t, t < socket_id_amount net) stack →
  stack_needed fn stack →
  (∀ node, node ∈ called_nodes s → needed fn node) →
  values_inv mask val [] s →
  scheduler_loop std_sort fn fuel max_depths stack s = Ok tt s' →
  values_inv mask val [] s'.
Proof using Hwf Hsort Hmask.
  induction fuel as [|fuel IH];
    intros [|socket below] s s' Hmodel Hrange Hstack Hcalled Hinv H;
    simpl in H; try done.
  - by apply ret_Ok in H as [_ ->].
  - by apply ret_Ok in H as [_ ->].
  - apply bind_Ok in H as (stack' & s1 & Hstep & H).
    destruct (scheduler_iteration_needed std_sort Hsort fn rank Hwf
                max_depths socket below s Hrange Hstack Hcalled)
      as [Hcalled1 Hnext].
    rewrite Hstep in Hcalled1. simpl in Hcalled1.
    destruct (Hnext stack' s1 Hstep) as [Hrange1 Hstack1].
    apply (IH stack' s1 s' Hmodel Hrange1 Hstack1 Hcalled1); [|done].
    eapply scheduler_iteration_values; [done| |done..].
    by apply Forall_cons in Hrange as [? _].
Qed.

(** ** The boundary of the call *)

Lemma values_inv_new_storage n : values_inv mask val [] (new_storage mask n).
Proof.
  assert (∀ id v, slot (new_storage mask n) id ≠ Some (Some v)) as Hnone.
  { intros id v H. unfold slot in H. simpl in H.
    by apply lookup_replicate in H as [[=] _]. }
  split_and!; [done|..].
  - intros socket v H. by destruct (Hnone _ _ H).
  - intros socket v b H. by destruct (Hnone _ _ H).
  - intros id id' v v' b H. by destruct (Hnone _ _ H).
Qed.

(** A slot is given a view of the caller. *)
Lemma values_inv_lend s s' id v :
  values_inv mask val [] s →
  id < length (m_value_per_output_id s) →
  owned_buffer v = None →
  (∀ h, value_holds mask val h id v) →
  m_mask s' = m_mask s →
  m_value_per_output_id s' = <[id := Some v]> (m_value_per_output_id s) →
  memory s' = memory s →
  values_inv mask val [] s'.
Proof.
  intros (Hm & Hv & Ha & Hd) Hid Hb Hholds Hm' Hv' Hh'.
  assert (∀ id1 v1, slot s' id1 = Some (Some v1) →
            (id1 = id ∧ v1 = v) ∨
            (id1 ≠ id ∧ slot s id1 = Some (Some v1))) as Hold.
  { intros id1 v1 H. unfold slot in H |- *. rewrite Hv' in H.
    destruct (decide (id1 = id)) as [->|Hne].
    - rewrite list_lookup_insert_eq in H by done.
      left. split; congruence.
    - rewrite list_lookup_insert_ne in H by done. by right. }
  split_and!.
  - congruence.
  - intros socket v1 Hs Hp. rewrite Hh'.
    destruct (Hold _ _ Hs) as [[-> ->]|[_ Hs']]; [done|by apply Hv].
  - intros socket v1 b Hs Hb1. rewrite Hh'.
    destruct (Hold _ _ Hs) as [[-> ->]|[_ Hs']]; [congruence|by eapply Ha].
  - intros id1 id2 v1 v2 b H1 H2 Hb1 Hb2.
    destruct (Hold _ _ H1) as [[-> ->]|[Hne1 H1']]; [congruence|].
    destruct (Hold _ _ H2) as [[-> ->]|[Hne2 H2']]; [congruence|].
    by eapply Hd.
Qed.

Lemma copy_inputs_from_values params inputs : ∀ i s s',
  (∀ k socket, inputs !! k = Some socket →
     match params !! (i + k) with
     | Some (ParamSingleInput f) =>
         ∀ j, j ∈ mask → f j = single_at val socket j
     | Some (ParamVectorInput f) =>
         ∀ j, j ∈ mask → f j = vector_at val socket j
     | _ => True
     end) →
  values_inv mask val [] s →
  copy_inputs_from fn params i inputs s = Ok tt s' →
  values_inv mask val [] s'.
Proof.
  induction inputs as [|socket inputs IH]; intros i s s' Hmodel Hinv H;
    simpl in H.
  - by apply ret_Ok in H as [_ ->].
  - apply bind_Ok in H as ([] & s1 & Hstep & H).
    apply (IH (S i) s1 s'); [|clear H|done].
    { intros k t Hk. specialize (Hmodel (S k) t Hk).
      by replace (S i + k) with (i + S k) by lia. }
    specialize (Hmodel 0 socket eq_refl). rewrite Nat.add_0_r in Hmodel.
    unfold readonly_single_input, readonly_vector_input,
      add_single_from_caller, add_vector_from_caller in Hstep.
    destruct (is_single (socket_data_type net socket));
      destruct (params !! i) as [[f|f|c|l]|]; eval_inv; try done.
    + eapply (values_inv_lend s _ socket (SingleFromCallerValue f));
        try done.
    + eapply (values_inv_lend s _ socket (VectorFromCallerValue f));
        try done.
Qed.

Lemma copy_output_values params i socket s params' s' :
  values_inv mask val [] s →
  copy_output fn params i socket s = Ok params' s' →
  ∃ entry, params' = <[length (m_inputs fn) + i := entry]> params ∧
    length (m_inputs fn) + i < length params ∧
    destination_holds mask val (socket_origin net socket)
      (params !! (length (m_inputs fn) + i)) (Some entry).
Proof using Hmask.
  intros (Hm & Hv & _) H.
  unfold copy_output, get_single_input, get_vector_input,
    uninitialized_single_output, vector_output in H.
  apply bind_Ok in H as (m & s1 & Hmask' & H).
  apply gets_Ok in Hmask' as [-> ->]. rewrite Hm in H.
  destruct (is_single (socket_data_type net socket)).
  - apply bind_Ok in H as (view & s2 & Hview & H).
    apply bind_Ok in Hview as (x & s3 & Hx & Hview).
    apply get_value_Ok in Hx as [Hx ->].
    apply bind_Ok in H as (cells & s4 & Hcells & H).
    destruct (params !! (length (m_inputs fn) + i)) as [[| |cells'|]|] eqn:Hp;
      eval_inv; try done.
    pose proof (lookup_lt_Some _ _ _ Hp) as Hlt.
    destruct x as [[f|f|b users|b users]|]; eval_inv; try done.
    + eexists. split_and!; [done..|]. simpl. intros j Hj.
      match goal with
      | Hfit : mask_fits _ _ = true |- _ =>
          pose proof (proj1 (mask_fits_spec _ _) Hfit) as Hroom
      end.
      rewrite materialize_to_uninitialized_lookup by auto.
      pose proof (Hv _ _ Hx) as Hval. simpl in Hval.
      by rewrite Hval by (done || apply not_elem_of_nil).
    + eexists. split_and!; [done..|]. simpl. intros j Hj.
      match goal with
      | Hfit : mask_fits _ _ = true |- _ =>
          pose proof (proj1 (mask_fits_spec _ _) Hfit) as Hroom
      end.
      rewrite copy_to_uninitialized_indices_lookup by auto.
      destruct (Hv _ _ Hx) as (src & Hsrc & Hval); [apply not_elem_of_nil|].
      match goal with
      | Hr : memory _ !! b = Some (Some (ArrayBuffer ?c)) |- _ =>
          tryif constr_eq c src then fail
          else (rewrite Hsrc in Hr; injection Hr as <-)
      end.
      by rewrite (Hval j Hj).
  - apply bind_Ok in H as (view & s2 & Hview & H).
    apply bind_Ok in Hview as (x & s3 & Hx & Hview).
    apply get_value_Ok in Hx as [Hx ->].
    apply bind_Ok in H as (lists & s4 & Hlists & H).
    destruct (params !! (length (m_inputs fn) + i)) as [[| | |lists']|] eqn:Hp;
      eval_inv; try done.
    pose proof (lookup_lt_Some _ _ _ Hp) as Hlt.
    destruct x as [[f|f|b users|b users]|]; eval_inv; try done.
    + eexists. split_and!; [done..|]. simpl. intros j Hj.
      match goal with
      | Hfit : mask_fits _ _ = true |- _ =>
          pose proof (proj1 (mask_fits_spec _ _) Hfit) as Hroom
      end.
      destruct (lookup_lt_is_Some_2 lists' j (Hroom j Hj)) as [old Hold].
      exists old. split; [done|].
      rewrite (extend_multiple__copy_lookup _ _ _ _ old) by done.
      pose proof (Hv _ _ Hx) as Hval. simpl in Hval.
      by rewrite Hval by (done || apply not_elem_of_nil).
    + eexists. split_and!; [done..|]. simpl. intros j Hj.
      match goal with
      | Hfit : mask_fits _ _ = true |- _ =>
          pose proof (proj1 (mask_fits_spec _ _) Hfit) as Hroom
      end.
      destruct (lookup_lt_is_Some_2 lists' j (Hroom j Hj)) as [old Hold].
      exists old. split; [done|].
      rewrite (extend_multiple__copy_lookup _ _ _ _ old) by done.
      destruct (Hv _ _ Hx) as (src & Hsrc & Hval); [apply not_elem_of_nil|].
      match goal with
      | Hr : memory _ !! b = Some (Some (VectorArray ?c)) |- _ =>
          tryif constr_eq c src then fail
          else (rewrite Hsrc in Hr; injection Hr as <-)
      end.
      unfold lists_of. by rewrite (Hval j Hj).
Qed.

Lemma copy_outputs_from_values outputs : ∀ params i s params' s',
  values_inv mask val [] s →
  copy_outputs_from fn params i outputs s = Ok params' s' →
  ∀ k socket, outputs !! k = Some socket →
    destination_holds mask val (socket_origin net socket)
      (params !! (length (m_inputs fn) + i + k))
      (params' !! (length (m_inputs fn) + i + k)).
Proof using Hmask.
  induction outputs as [|t outputs IH]; intros params i s params' s' Hinv H;
    simpl in H; [done|].
  apply bind_Ok in H as (p1 & s1 & Hfirst & Hrest).
  pose proof Hfirst as Hsame. apply copy_output_spec in Hsame as [-> _].
  apply (copy_output_values _ _ _ _ _ _ Hinv) in Hfirst
    as (entry & -> & Hlt & Hentry).
  destruct (copy_outputs_from_spec fn _ _ _ _ _ _ Hrest) as (_ & Hframe & _).
  intros [|k] socket Hk; simpl in Hk.
  - injection Hk as ->. rewrite Nat.add_0_r.
    rewrite Hframe by lia. by rewrite list_lookup_insert_eq by done.
  - pose proof (IH _ _ _ _ _ Hinv Hrest k socket Hk) as Hcopy.
    replace (length (m_inputs fn) + i + S k)
      with (length (m_inputs fn) + S i + k) by lia.
    by rewrite list_lookup_insert_ne in Hcopy by lia.
Qed.

Lemma call_values params fuel params' s' :
  is_model mask val fn params →
  call std_sort fn fuel mask params = Evaluated (Ok params' s') →
  ∀ k socket, m_outputs fn !! k = Some socket →
    destination_holds mask val (socket_origin net socket)
      (params !! (length (m_inputs fn) + k))
      (params' !! (length (m_inputs fn) + k)).
Proof using Hwf Hsort Hmask.
  intros [Hinputs Hbodies] Hcall.
  apply call_Ok_inv in Hcall as (s0 & s1 & Hcopy & Hrun & Hout & _).
  destruct (copy_inputs_spec fn rank Hwf mask params s0 Hcopy)
    as (_ & Hcalled & _).
  assert (values_inv mask val [] s0) as Hinv0.
  { eapply copy_inputs_from_values; [|apply values_inv_new_storage|done].
    intros k socket Hk. by apply Hinputs. }
  assert (values_inv mask val [] s1) as Hinv1.
  { unfold evaluate_network_to_compute_outputs in Hrun.
    destruct (compute_max_depth_per_node net fuel) as [depths| |]; [|done..].
    eapply scheduler_loop_values; [done| | | |done..].
    - apply Forall_forall. intros t Ht. rewrite elem_of_reverse in Ht.
      by apply (wf_m_output fn rank Hwf).
    - apply Forall_forall. intros t Ht. rewrite elem_of_reverse in Ht.
      destruct (wf_m_output fn rank Hwf t Ht) as (_ & -> & _). by left.
    - rewrite Hcalled. by intros ? ?%elem_of_nil. }
  intros k socket Hk.
  pose proof (copy_outputs_from_values _ _ _ _ _ _ Hinv1 Hout k socket Hk)
    as Hdest.
  by rewrite Nat.add_0_r in Hdest.
Qed.

(** A call computes the model of its network.  Let the valuation give to
    the inputs of the call the values of the views of the caller, and to
    the outputs of every needed node what its body computes from the
    values of the origins of its inputs.  Then a call that returns has
    written to every destination, at every index of the mask, the value
    of the origin of the requested output (appended to the list that was
    there, for a vector); and on a network without mutable parameters,
    built with at least one requested output as the constructor demands,
    with parameters of the kinds of the boundary sockets and every
    destination having every index of the mask, the call returns, once
    the fuel suffices. *)
Theorem call_computes_the_model params :
  is_model mask val fn params →
  (∀ fuel params' s',
     call std_sort fn fuel mask params = Evaluated (Ok params' s') →
     ∀ k socket, m_outputs fn !! k = Some socket →
       destination_holds mask val (socket_origin net socket)
         (params !! (length (m_inputs fn) + k))
         (params' !! (length (m_inputs fn) + k))) ∧
  (¬ has_mutable_param fn → m_outputs fn ≠ [] → mask ≠ [] →
   params_fit fn mask params →
   ∃ fuel0, ∀ fuel, fuel0 ≤ fuel →
     ∃ params' s',
       call std_sort fn fuel mask params = Evaluated (Ok params' s') ∧
       ∀ k socket, m_outputs fn !! k = Some socket →
         destination_holds mask val (socket_origin net socket)
           (params !! (length (m_inputs fn) + k))
           (params' !! (length (m_inputs fn) + k))).
Proof using Hwf Hsort Hmask.
  intros Hmodel. split.
  { intros fuel params' s'. by apply call_values. }
  intros Hpure _ Hne [Hfit_in Hfit_out].
  destruct (copy_inputs_from_total fn params (m_inputs fn) 0
              (new_storage mask (socket_id_amount net))
              (wf_m_inputs_NoDup fn rank Hwf)) as [s0 Hcopy].
  { intros k socket Hk. split; [|by apply Hfit_in].
    unfold slot. simpl. apply lookup_replicate_2.
    apply (wf_m_input fn rank Hwf). by eapply list_elem_of_lookup_2. }
  destruct (copy_inputs_spec fn rank Hwf mask params s0 Hcopy) as (Hb0 & _).
  destruct (scheduler_run std_sort Hsort fn rank Hwf params mask s0 Hb0)
    as (fuel0 & o & Ho & Hcase).
  destruct o as [[] s1|s1|s1]; [|by destruct Hcase|done].
  destruct Hcase as ((Hinv & _) & _ & Hres).
  destruct (copy_outputs_from_total_heap fn (m_outputs fn) params 0 s1)
    as [params' Hout].
  { intros k socket Hk. rewrite Nat.add_0_r.
    destruct (Hfit_out k socket Hk) as [Hkind_out Hroom].
    split; [done|]. split; [by rewrite (ci_mask _ _ _ _ Hinv)|].
    assert (socket ∈ m_outputs fn) as Hs by (by eapply list_elem_of_lookup_2).
    destruct (wf_m_output fn rank Hwf socket Hs) as (Hlt & Hin & Hd).
    destruct (wf_input fn rank Hwf socket Hlt Hin)
      as (_ & _ & _ & _ & Htype & _).
    pose proof (resolved_input_computed fn rank Hwf params mask s1 socket
                  Hinv Hlt Hin
                  (unfinished_of_dummy fn params mask s1 socket Hinv Hd)
                  (Hres socket Hs)) as Hfull.
    destruct (computed_input fn rank Hwf params mask s1 socket Hinv Hlt Hin
                Hfull) as [(v & Hv & Hkind) _].
    exists v. split_and!; [done|by rewrite Htype|].
    by apply (hi_matches _ (ci_heap _ _ _ _ Hinv) _ _ Hv). }
  destruct (destruct_storage_total_heap s1 (ci_heap _ _ _ _ Hinv))
    as [s' Hfree].
  exists fuel0. intros fuel Hfuel. exists params', s'.
  assert (call std_sort fn fuel mask params = Evaluated (Ok params' s'))
    as Hcall.
  { unfold call. rewrite bool_decide_false by (by destruct mask).
    f_equal. rewrite (bind_eq_Ok _ _ _ _ _ Hcopy).
    rewrite (bind_eq_Ok _ _ _ _ _ (Ho fuel Hfuel)).
    unfold copy_computed_values_to_outputs.
    rewrite (bind_eq_Ok _ _ _ _ _ Hout).
    by rewrite (bind_eq_Ok _ _ _ _ _ Hfree). }
  split; [done|]. by eapply call_values.
Qed.

End values_of_a_call.

(** * A mutable parameter that is the only user of its input *)

Section sole_user.
Variable std_sort : (nat → nat → bool) → list nat → list nat.
Hypothesis Hsort : ∀ lt l, std_sort lt l ≡ₚ l.
Variable fn : MF_EvaluateNetwork.
Variable rank : nat → nat.
Hypothesis Hwf : network_wf fn rank.
Local Abbreviation net := (network fn).

(** Binding a parameter leaves a slot that is not its output as it was,
    or clears it. *)
Lemma bind_param_slot node i t s p s' id :
  (is_output_param t = true → id ≠ output_for_param net node i) →
  bind_param fn node i t s = Ok p s' →
  slot s' id = slot s id ∨ slot s' id = Some None.
Proof.
  intros Hne H. unfold slot.
  destruct t; simpl in *;
    unfold get_single_input, get_vector_input, allocate_single_output,
      allocate_vector_output, get_mutable_single, get_mutable_vector in H;
    eval_inv.
  - left. destruct a0 as [[| | |]|]; by eval_inv.
  - left. destruct a0 as [[| | |]|]; by eval_inv.
  - left. simpl. by rewrite list_lookup_insert_ne by (by apply not_eq_sym, Hne).
  - left. simpl. by rewrite list_lookup_insert_ne by (by apply not_eq_sym, Hne).
  - specialize (Hne eq_refl).
    destruct a0 as [[f|f|b users|b users]|]; eval_inv; try done.
    + left. simpl. by rewrite list_lookup_insert_ne by done.
    + case_bool_decide; eval_inv; simpl.
      * destruct (decide (id = socket_origin net (input_for_param net node i)))
          as [->|Hother].
        -- right. by apply list_lookup_insert_eq.
        -- left. by rewrite !list_lookup_insert_ne by done.
      * left. by rewrite list_lookup_insert_ne by done.
  - specialize (Hne eq_refl).
    destruct a0 as [[f|f|b users|b users]|]; eval_inv; try done.
    + left. simpl. by rewrite list_lookup_insert_ne by done.
    + case_bool_decide; eval_inv; simpl.
      * destruct (decide (id = socket_origin net (input_for_param net node i)))
          as [->|Hother].
        -- right. by apply list_lookup_insert_eq.
        -- left. by rewrite !list_lookup_insert_ne by done.
      * left. by rewrite list_lookup_insert_ne by done.
Qed.

(** Binding a mutable parameter whose input has one remaining user takes
    the buffer and clears the slot of the origin. *)
Lemma bind_param_moves node i t s p s' v :
  is_mutable_param t = true →
  socket_origin net (input_for_param net node i)
  ≠ output_for_param net node i →
  slot s (socket_origin net (input_for_param net node i)) = Some (Some v) →
  remaining_users v = Some 1%Z →
  bind_param fn node i t s = Ok p s' →
  slot s' (socket_origin net (input_for_param net node i)) = Some None.
Proof.
  intros Ht Hne Hv Husers H. unfold slot in *.
  destruct t; simpl in *; try done;
    unfold get_mutable_single, get_mutable_vector in H; eval_inv;
    match goal with
    | Hx : m_value_per_output_id s !! _ = Some ?x |- _ =>
        rewrite Hv in Hx; injection Hx as <-
    end;
    destruct v as [f|f|b users|b users]; simpl in Husers; eval_inv;
    try done; injection Husers as ->;
    rewrite bool_decide_true in * by done; eval_inv; simpl;
    by apply list_lookup_insert_eq.
Qed.

Lemma bind_params_moves node origin : ∀ types j s ps s1 k t,
  bind_params fn node j types s = Ok ps s1 →
  types !! k = Some t → is_mutable_param t = true →
  origin = socket_origin net (input_for_param net node (j + k)) →
  (∀ id, id ∈ param_outputs fn node j types → id ≠ origin) →
  (slot s origin = Some None ∨
   ∃ v, slot s origin = Some (Some v) ∧ remaining_users v = Some 1%Z) →
  slot s1 origin = Some None.
Proof.
  induction types as [|t0 types IH]; intros j s ps s1 k t H Hk Ht Horigin
    Houts Hslot; [done|].
  simpl in H. apply bind_Ok in H as (p & s' & Hp & H).
  apply bind_Ok in H as (ps' & s2 & Hps & H). apply ret_Ok in H as [-> ->].
  simpl in Houts.
  assert (is_output_param t0 = true → origin ≠ output_for_param net node j)
    as Hne.
  { intros Hout. apply not_eq_sym, Houts. rewrite Hout. by left. }
  assert (∀ id, id ∈ param_outputs fn node (S j) types → id ≠ origin)
    as Houts'.
  { intros id Hid. apply Houts. apply elem_of_app. by right. }
  destruct k as [|k]; simpl in Hk.
  - injection Hk as ->. rewrite Nat.add_0_r in Horigin.
    assert (slot s' origin = Some None) as Hcleared.
    { destruct Hslot as [Hnull|(v & Hv & Husers)].
      - exfalso. unfold slot in Hnull. rewrite Horigin in Hnull.
        destruct t; simpl in *; try done;
          unfold get_mutable_single, get_mutable_vector in Hp; eval_inv;
          match goal with
          | Hx : m_value_per_output_id s !! _ = Some ?x |- _ =>
              rewrite Hnull in Hx; injection Hx as <-
          end; done.
      - subst origin. eapply bind_param_moves; try done.
        apply Hne. by destruct t. }
    eapply (bind_params_keeps_empty fn); [done| |done].
    intros Hin. by apply (Houts' _ Hin).
  - apply (IH (S j) s' ps' s2 k t); try done.
    + by replace (S j + k) with (j + S k) by lia.
    + destruct (bind_param_slot node j t0 s p s' origin Hne Hp) as [Hsame|Hnull].
      * by rewrite Hsame.
      * by left.
Qed.

(** The evaluation of a node with a mutable parameter whose input has one
    remaining user does not return. *)
Lemma evaluate_function_move_fails node i t s v s' :
  node < node_id_amount net → node_is_dummy net node = false →
  fn_param_types net node !! i = Some t → is_mutable_param t = true →
  slot s (socket_origin net (input_for_param net node i)) = Some (Some v) →
  remaining_users v = Some 1%Z →
  evaluate_function fn node s ≠ Ok tt s'.
Proof using Hwf.
  intros Hnode Hdummy Hi Ht Hv Husers H. unfold evaluate_function in H.
  apply bind_Ok in H as (ps & s1 & Hbind & H).
  apply bind_Ok in H as ([] & s2 & Hcall & Hfinish).
  destruct (wf_function_node fn rank Hwf node Hnode Hdummy)
    as (Hins & Houts & _).
  assert (input_for_param net node i ∈ node_inputs net node) as Hinput.
  { rewrite Hins. apply elem_of_param_inputs. exists i, t.
    split_and!; [done|by destruct t|done]. }
  apply (finish_inputs_need_origins _ _ _ _ Hfinish _ Hinput).
  unfold call_function in Hcall. injection Hcall as <-.
  change (slot s1 (socket_origin net (input_for_param net node i))
          = Some None).
  eapply (bind_params_moves node _ _ 0 s ps s1 i t); try done.
  - intros id Hid ->. rewrite <- Houts in Hid.
    by apply (wf_origin_not_own_output fn rank Hwf node _ Hnode Hdummy Hinput).
  - right. by exists v.
Qed.

(** Every node a run of the scheduler invokes is evaluated in a state
    between two iterations in which it was not invoked and the origins of
    its inputs hold values. *)
Lemma scheduler_loop_evaluations args mask max_depths fuel : ∀ stack s s',
  boundary_inv fn args mask s →
  Forall (λ t, t < socket_id_amount net) stack →
  stack_needed fn stack →
  (∀ node, node ∈ called_nodes s → needed fn node) →
  NoDup (called_nodes s') →
  scheduler_loop std_sort fn fuel max_depths stack s = Ok tt s' →
  ∀ node, node ∈ called_nodes s' →
    node ∈ called_nodes s ∨
    ∃ s1 s2,
      boundary_inv fn args mask s1 ∧ (node ∉ called_nodes s1) ∧
      (∀ socket, socket ∈ node_inputs net node →
         slot s1 (socket_origin net socket) ≠ Some None) ∧
      evaluate_function fn node s1 = Ok tt s2.
Proof using Hwf Hsort.
  induction fuel as [|fuel IH];
    intros [|socket below] s s' Hinv Hrange Hstack Hcalled Hnd H node Hnode;
    simpl in H; try done.
  - apply ret_Ok in H as [_ ->]. by left.
  - apply ret_Ok in H as [_ ->]. by left.
  - apply bind_Ok in H as (stack' & s1 & Hstep & H).
    destruct (scheduler_iteration_needed std_sort Hsort fn rank Hwf
                max_depths socket below s Hrange Hstack Hcalled)
      as [Hcalled1 Hnext].
    rewrite Hstep in Hcalled1. simpl in Hcalled1.
    destruct (Hnext stack' s1 Hstep) as [Hrange1 Hstack1].
    pose proof (extends_calls_scheduler_loop std_sort fn fuel max_depths
                  stack' s1) as Hsuffix.
    rewrite H in Hsuffix. simpl in Hsuffix.
    pose proof (NoDup_suffix _ _ Hsuffix Hnd) as Hnd1.
    apply Forall_cons in Hrange as [Hlt _].
    unfold scheduler_iteration in Hstep.
    destruct (socket_is_input net socket) eqn:Hin.
    { assert (s1 = s) as ->.
      { unfold input_is_computed in Hstep. eval_inv.
        destruct (negb (is_null a0)); by eval_inv. }
      by apply (IH stack' s s'). }
    apply bind_Ok in Hstep as ([] & s2 & Hassert & Hstep).
    apply BLI_assert_Ok in Hassert as [Hd ->]. apply negb_true_iff in Hd.
    apply bind_Ok in Hstep as (missing & s3 & Hfind & Hstep).
    apply (find_missing_inputs_Ok fn) in Hfind as (-> & _ & Hpresent).
    destruct missing as [|m missing].
    + apply bind_Ok in Hstep as ([] & s4 & Heval & Hstep).
      apply ret_Ok in Hstep as [-> ->].
      destruct (evaluate_function_calls fn (socket_node net socket) s)
        as [_ Hlog].
      specialize (Hlog _ Heval). rewrite Hlog in Hnd1.
      apply NoDup_cons in Hnd1 as [Hfresh _].
      assert (∀ t, t ∈ node_inputs net (socket_node net socket) →
                   slot s (socket_origin net t) ≠ Some None) as Hready.
      { intros t Ht. destruct (Hpresent t Ht) as [v Hv];
          [apply not_elem_of_nil|]. by rewrite Hv. }
      destruct (evaluate_function_spec fn rank Hwf args mask s
                  (socket_node net socket) Hinv
                  (wf_socket_node fn rank Hwf _ Hlt) Hd Hfresh Hready)
        as [(s5 & H5 & Hinv1 & _)|(s5 & H5 & _)]; [|congruence].
      assert (s5 = s4) as -> by congruence.
      destruct (IH below s4 s' Hinv1 Hrange1 Hstack1 Hcalled1 Hnd H node
                  Hnode) as [Hbefore|Hlater]; [|by right].
      rewrite Hlog in Hbefore.
      apply elem_of_cons in Hbefore as [->|Hbefore]; [|by left].
      right. by exists s, s4.
    + apply ret_Ok in Hstep as [-> ->].
      by eapply (IH _ s s').
Qed.

Lemma sole_user_evaluate_fails node i t args mask fuel s0 s1 :
  needed fn node →
  fn_param_types net node !! i = Some t → is_mutable_param t = true →
  node_is_dummy net (origin_node net (input_for_param net node i)) = false →
  socket_targets net (socket_origin net (input_for_param net node i))
  = [input_for_param net node i] →
  boundary_inv fn args mask s0 → called_nodes s0 = [] →
  evaluate_network_to_compute_outputs std_sort fn fuel s0 ≠ Ok tt s1.
Proof using Hwf Hsort.
  intros Hneeded Hi Ht Horigin Htargets Hb0 Hnone Hrun.
  destruct (evaluate_Ok_inv std_sort Hsort fn rank Hwf args mask fuel s0 s1
              Hb0 Hrun) as ((Hinv1 & _) & Hres).
  assert (node ∈ called_nodes s1) as Hnode.
  { clear Hi Horigin Htargets.
    induction Hneeded as [socket Hreq Hd|node socket Hn IH Hs Hd].
    - destruct (wf_m_output fn rank Hwf socket Hreq) as (_ & Hin & _).
      destruct (Hres socket Hreq) as [[_ Hdummy]|Hc]; unfold item_node in *;
        rewrite Hin in *; [congruence|done].
    - destruct (ci_closed _ _ _ _ Hinv1 node socket IH Hs); [congruence|done]. }
  destruct (ci_called _ _ _ _ Hinv1 node Hnode) as [Hlt Hdummy].
  unfold evaluate_network_to_compute_outputs in Hrun.
  destruct (compute_max_depth_per_node net fuel) as [depths| |]; [|done..].
  destruct (scheduler_loop_evaluations args mask depths fuel
              (reverse (m_outputs fn)) s0 s1 Hb0) with (node := node)
    as [Hbefore|(sa & sb & [Hinv _] & Hfresh & Hready & Heval)]; try done.
  - apply Forall_forall. intros x Hx. rewrite elem_of_reverse in Hx.
    by apply (wf_m_output fn rank Hwf).
  - apply Forall_forall. intros x Hx. rewrite elem_of_reverse in Hx.
    destruct (wf_m_output fn rank Hwf x Hx) as (_ & -> & _). by left.
  - rewrite Hnone. by intros ? ?%elem_of_nil.
  - by apply (ci_called_NoDup _ _ _ _ Hinv1).
  - rewrite Hnone in Hbefore. by apply elem_of_nil in Hbefore.
  - set (input := input_for_param net node i) in *.
    assert (input ∈ node_inputs net node) as Hinput.
    { destruct (wf_function_node fn rank Hwf node Hlt Hdummy) as (-> & _).
      apply elem_of_param_inputs. exists i, t.
      split_and!; [done|by destruct t|done]. }
    destruct (wf_node_input fn rank Hwf node input Hlt Hinput)
      as (Hilt & Hiin & Hinode).
    destruct (wf_input fn rank Hwf input Hilt Hiin) as (_ & Holt & Hoout & _).
    assert (socket_node net (socket_origin net input) ∈ called_nodes sa)
      as Hproduced.
    { destruct (decide (socket_node net (socket_origin net input)
                        ∈ called_nodes sa)) as [|Hnot]; [done|].
      destruct (Hready input Hinput).
      by apply (ci_uncalled _ _ _ _ Hinv). }
    destruct (ci_called_slot _ _ _ _ Hinv _ Holt Hoout Hproduced)
      as [(v & Hv & Husers & _)|(Hnull & _)];
      [|by destruct (Hready input Hinput)].
    apply (evaluate_function_move_fails node i t sa v sb Hlt Hdummy Hi Ht Hv);
      [|done].
    rewrite Husers. f_equal.
    rewrite unfinished_targets_all; [by rewrite Htargets|].
    intros x Hx. rewrite Htargets in Hx.
    apply list_elem_of_singleton in Hx as ->.
    apply (unfinished_of_uncalled fn args mask sa input Hinv).
    by rewrite Hinode.
Qed.

Lemma sole_user_no_return node i t fuel mask params :
  needed fn node →
  fn_param_types net node !! i = Some t → is_mutable_param t = true →
  node_is_dummy net (origin_node net (input_for_param net node i)) = false →
  socket_targets net (socket_origin net (input_for_param net node i))
  = [input_for_param net node i] →
  mask ≠ [] → returned (call std_sort fn fuel mask params) = None.
Proof using Hwf Hsort.
  intros Hneeded Hi Ht Horigin Htargets Hmask.
  destruct (call std_sort fn fuel mask params) as [p|[params' s'|s'|s']]
    eqn:Hcall; simpl; try done.
  { unfold call in Hcall. by rewrite bool_decide_false in Hcall
      by (by destruct mask). }
  apply call_Ok_inv in Hcall as (s0 & s1 & Hcopy & Hrun & _).
  destruct (copy_inputs_spec fn rank Hwf mask params s0 Hcopy)
    as (Hb0 & Hnone & _).
  by destruct (sole_user_evaluate_fails node i t params mask fuel s0 s1).
Qed.

(** A mutable parameter that is the only user of what another node
    produced aborts the call.  When a needed node has a mutable parameter
    whose input comes from a function node and is the only target of its
    origin, no call with a mask that is not empty returns; with such a
    mask and a view of the right kind for every input of the call, a
    contract check fails once the fuel suffices. *)
Theorem sole_user_in_place_aborts node i t :
  needed fn node →
  fn_param_types net node !! i = Some t → is_mutable_param t = true →
  node_is_dummy net (origin_node net (input_for_param net node i)) = false →
  socket_targets net (socket_origin net (input_for_param net node i))
  = [input_for_param net node i] →
  (∀ fuel mask params,
     mask ≠ [] → returned (call std_sort fn fuel mask params) = None) ∧
  (∀ mask params,
     mask ≠ [] →
     (∀ j socket, m_inputs fn !! j = Some socket →
        fits_input (socket_data_type net socket) (params !! j)) →
     ∃ fuel0, ∀ fuel, fuel0 ≤ fuel →
       ∃ s, call std_sort fn fuel mask params = Evaluated (AssertFail s)).
Proof using Hwf Hsort.
  intros Hneeded Hi Ht Horigin Htargets. split.
  - intros fuel mask params Hmask. by eapply sole_user_no_return.
  - intros mask params Hmask Hfit.
    destruct (copy_inputs_from_total fn params (m_inputs fn) 0
                (new_storage mask (socket_id_amount net))
                (wf_m_inputs_NoDup fn rank Hwf)) as [s0 Hcopy].
    { intros k socket Hk. split; [|by apply Hfit].
      unfold slot. simpl. apply lookup_replicate_2.
      apply (wf_m_input fn rank Hwf). by eapply list_elem_of_lookup_2. }
    destruct (copy_inputs_spec fn rank Hwf mask params s0 Hcopy)
      as (Hb0 & Hnone & _).
    destruct (scheduler_run std_sort Hsort fn rank Hwf params mask s0 Hb0)
      as (fuel0 & o & Ho & Hcase).
    exists fuel0. intros fuel Hfuel. specialize (Ho fuel Hfuel).
    destruct o as [[] s1|s1|s1]; [|exists s1|done].
    + by destruct (sole_user_evaluate_fails node i t params mask fuel s0 s1).
    + unfold call. rewrite bool_decide_false by (by destruct mask).
      f_equal. rewrite (bind_eq_Ok _ _ _ _ _ Hcopy).
      by rewrite (bind_eq_AssertFail _ _ _ _ Ho).
Qed.

End sole_user.

(** * The buffers a call allocates *)

Section allocations.
Variable std_sort : (nat → nat → bool) → list nat → list nat.
Hypothesis Hsort : ∀ lt l, std_sort lt l ≡ₚ l.
Variable fn : MF_EvaluateNetwork.
Variable rank : nat → nat.
Hypothesis Hwf : network_wf fn rank.
Local Abbreviation net := (network fn).

(** Binding a parameter allocates one buffer for an output, or takes the
    buffer of its input and clears the slot of the origin. *)
Lemma bind_param_allocates node i t s p s' :
  bind_param fn node i t s = Ok p s' →
  length (memory s')
  = length (memory s) + (if is_output_param t then 1 else 0) ∨
  (is_mutable_param t = true ∧
   slot s' (socket_origin net (input_for_param net node i)) = Some None).
Proof.
  intros H. unfold slot.
  destruct t; simpl in *;
    unfold get_single_input, get_vector_input, allocate_single_output,
      allocate_vector_output, get_mutable_single, get_mutable_vector in H;
    eval_inv.
  - left. destruct a0 as [[| | |]|]; eval_inv; try done; lia.
  - left. destruct a0 as [[| | |]|]; eval_inv; try done; lia.
  - left. simpl. rewrite length_app. simpl. lia.
  - left. simpl. rewrite length_app. simpl. lia.
  - destruct a0 as [[f|f|b users|b users]|]; eval_inv; try done.
    + left. simpl. rewrite length_app. simpl. lia.
    + case_bool_decide; eval_inv; simpl.
      * right. split; [done|]. by apply list_lookup_insert_eq.
      * left. rewrite length_app. simpl. lia.
  - destruct a0 as [[f|f|b users|b users]|]; eval_inv; try done.
    + left. simpl. rewrite length_app. simpl. lia.
    + case_bool_decide; eval_inv; simpl.
      * right. split; [done|]. by apply list_lookup_insert_eq.
      * left. rewrite length_app. simpl. lia.
Qed.

Lemma bind_params_allocate node : ∀ types j s ps s1,
  (∀ k t, types !! k = Some t → is_mutable_param t = true →
     socket_origin net (input_for_param net node (j + k))
     ∉ param_outputs fn node j types) →
  bind_params fn node j types s = Ok ps s1 →
  length (memory s1)
  = length (memory s) + length (param_outputs fn node j types) ∨
  ∃ k t, types !! k = Some t ∧ is_mutable_param t = true ∧
         slot s1 (socket_origin net (input_for_param net node (j + k)))
         = Some None.
Proof.
  induction types as [|t0 types IH]; intros j s ps s1 Hfar H; simpl in H.
  - apply ret_Ok in H as [_ ->]. left. simpl. lia.
  - apply bind_Ok in H as (p & s' & Hp & H).
    apply bind_Ok in H as (ps' & s2 & Hps & H). apply ret_Ok in H as [-> ->].
    simpl in Hfar.
    destruct (bind_param_allocates node j t0 s p s' Hp)
      as [Hlen|[Ht Hnull]].
    + destruct (IH (S j) s' ps' s2) as [Hlen'|(k & t & Hk & Ht & Hnull)];
        [|done| |].
      * intros k t Hk Ht Hin. apply (Hfar (S k) t Hk Ht).
        replace (j + S k) with (S j + k) by lia.
        apply elem_of_app. by right.
      * left. simpl. rewrite length_app, Hlen', Hlen.
        destruct (is_output_param t0); simpl; lia.
      * right. exists (S k), t. split_and!; [done..|].
        by replace (j + S k) with (S j + k) by lia.
    + right. exists 0, t0. rewrite Nat.add_0_r. split_and!; [done..|].
      eapply (bind_params_keeps_empty fn); [done| |done].
      intros Hin. apply (Hfar 0 t0 eq_refl Ht). rewrite Nat.add_0_r.
      apply elem_of_app. by right.
Qed.

Lemma finish_input_socket_length socket s s' :
  finish_input_socket net socket s = Ok tt s' →
  length (memory s') = length (memory s).
Proof.
  intros H. unfold finish_input_socket in H. eval_inv.
  destruct a0 as [[f|f|b users|b users]|]; eval_inv; try done;
    case_bool_decide; eval_inv; simpl; by rewrite ?length_insert.
Qed.

(** A node that is evaluated is given one new buffer for each of its
    output sockets. *)
Lemma evaluate_function_allocates node s s' :
  node < node_id_amount net → node_is_dummy net node = false →
  evaluate_function fn node s = Ok tt s' →
  length (memory s')
  = length (memory s) + length (node_outputs net node).
Proof using Hwf.
  intros Hnode Hdummy H. unfold evaluate_function in H.
  apply bind_Ok in H as (ps & s1 & Hbind & H).
  apply bind_Ok in H as ([] & s2 & Hcall & Hfinish).
  destruct (wf_function_node fn rank Hwf node Hnode Hdummy)
    as (Hins & Houts & _).
  assert (∀ k t, fn_param_types net node !! k = Some t →
                 is_mutable_param t = true →
                 input_for_param net node k ∈ node_inputs net node) as Hinput.
  { intros k t Hk Ht. rewrite Hins. apply elem_of_param_inputs.
    exists k, t. split_and!; [done|by destruct t|done]. }
  assert (length (memory s') = length (memory s2)) as ->.
  { apply (for_each_ind (λ x, length (memory x) = length (memory s2))
             _ _ _ _ eq_refl) in Hfinish; [done|].
    intros x sa sb _ Hsa Hstep.
    by rewrite (finish_input_socket_length _ _ _ Hstep). }
  unfold call_function in Hcall. injection Hcall as <-. simpl.
  rewrite length_write_results, Houts.
  destruct (bind_params_allocate node (fn_param_types net node) 0 s ps s1)
    as [Hlen|(k & t & Hk & Ht & Hnull)]; [|done|done|].
  - intros k t Hk Ht. rewrite <- Houts.
    apply (wf_origin_not_own_output fn rank Hwf node _ Hnode Hdummy).
    by eapply Hinput.
  - exfalso.
    by apply (finish_inputs_need_origins _ _ _ _ Hfinish _
                (Hinput k t Hk Ht)).
Qed.

Lemma scheduler_loop_allocates max_depths fuel : ∀ stack s s',
  Forall (λ t, t < socket_id_amount net) stack →
  stack_needed fn stack →
  (∀ node, node ∈ called_nodes s → needed fn node) →
  length (memory s) = output_count net (called_nodes s) →
  scheduler_loop std_sort fn fuel max_depths stack s = Ok tt s' →
  length (memory s') = output_count net (called_nodes s').
Proof using Hwf Hsort.
  induction fuel as [|fuel IH];
    intros [|socket below] s s' Hrange Hstack Hcalled Hcount H;
    simpl in H; try done.
  - by apply ret_Ok in H as [_ ->].
  - by apply ret_Ok in H as [_ ->].
  - apply bind_Ok in H as (stack' & s1 & Hstep & H).
    destruct (scheduler_iteration_needed std_sort Hsort fn rank Hwf
                max_depths socket below s Hrange Hstack Hcalled)
      as [Hcalled1 Hnext].
    rewrite Hstep in Hcalled1. simpl in Hcalled1.
    destruct (Hnext stack' s1 Hstep) as [Hrange1 Hstack1].
    apply (IH stack' s1 s' Hrange1 Hstack1 Hcalled1); [|done].
    apply Forall_cons in Hrange as [Hlt _].
    unfold scheduler_iteration in Hstep.
    destruct (socket_is_input net socket).
    { unfold input_is_computed in Hstep. eval_inv.
      destruct (negb (is_null a0)); by eval_inv. }
    apply bind_Ok in Hstep as ([] & s2 & Hassert & Hstep).
    apply BLI_assert_Ok in Hassert as [Hd ->]. apply negb_true_iff in Hd.
    apply bind_Ok in Hstep as (missing & s3 & Hfind & Hstep).
    apply (find_missing_inputs_Ok fn) in Hfind as (-> & _).
    destruct missing as [|m missing]; [|by apply ret_Ok in Hstep as [_ ->]].
    apply bind_Ok in Hstep as ([] & s4 & Heval & Hstep).
    apply ret_Ok in Hstep as [_ ->].
    destruct (evaluate_function_calls fn (socket_node net socket) s)
      as [_ Hlog].
    rewrite (Hlog _ Heval).
    rewrite (evaluate_function_allocates _ _ _
               (wf_socket_node fn rank Hwf _ Hlt) Hd Heval).
    unfold output_count in *. simpl. lia.
Qed.

(** A call that returns has allocated one buffer for every output socket
    of every node it invoked, mutable parameters included: no buffer
    serves two sockets.  All of them are freed when the call returns. *)
Theorem a_buffer_for_every_output fuel mask params params' s' :
  call std_sort fn fuel mask params = Evaluated (Ok params' s') →
  length (memory s') = output_count net (called_nodes s') ∧
  ∀ b x, memory s' !! b = Some x → x = None.
Proof using Hwf Hsort.
  intros Hcall.
  apply call_Ok_inv in Hcall as (s0 & s1 & Hcopy & Hrun & _ & Hfree).
  destruct (copy_inputs_spec fn rank Hwf mask params s0 Hcopy)
    as (Hb0 & Hcalled & _ & Hmemory & _).
  destruct (evaluate_Ok_inv std_sort Hsort fn rank Hwf params mask fuel s0 s1
              Hb0 Hrun) as ((Hinv & _) & _).
  split; [|by apply (destruct_storage_frees_all s1 s' (ci_heap _ _ _ _ Hinv))].
  assert (length (memory s1) = output_count net (called_nodes s1)) as Hcount.
  { unfold evaluate_network_to_compute_outputs in Hrun.
    destruct (compute_max_depth_per_node net fuel) as [depths| |]; [|done..].
    eapply scheduler_loop_allocates; [| | | |done].
    - apply Forall_forall. intros t Ht. rewrite elem_of_reverse in Ht.
      by apply (wf_m_output fn rank Hwf).
    - apply Forall_forall. intros t Ht. rewrite elem_of_reverse in Ht.
      destruct (wf_m_output fn rank Hwf t Ht) as (_ & -> & _). by left.
    - rewrite Hcalled. by intros ? ?%elem_of_nil.
    - by rewrite Hcalled, Hmemory. }
  destruct (destruct_storage_frees_owned _ _ Hfree) as (_ & _ & -> & _).
  rewrite <- Hcount. unfold destruct_storage in Hfree.
  apply bind_Ok in Hfree as (values & s2 & Hvalues & Hfree).
  apply gets_Ok in Hvalues as [-> ->].
  by apply for_each_deallocate in Hfree as [-> _].
Qed.

End allocations.

(** * A forwarded input next to an output computed in place *)

Lemma forward_and_in_place_wf :
  network_wf Networks.forward_and_in_place (λ n, n).
Proof. apply (bool_decide_unpack _). vm_compute. exact I. Qed.

Lemma in_place_and_forward_wf :
  network_wf Networks.in_place_and_forward (λ n, n).
Proof. apply (bool_decide_unpack _). vm_compute. exact I. Qed.

Lemma forward_and_in_place_params_fit :
  params_fit Networks.forward_and_in_place [0; 1; 2]
    Networks.forward_and_in_place_params ∧
  params_fit Networks.in_place_and_forward [0; 1; 2]
    Networks.forward_and_in_place_params.
Proof.
  split; (split;
    [intros [|[|j]] socket H; simpl in H; try done; by injection H as <-
    |intros [|[|[|k]]] socket H; simpl in H; try done; injection H as <-;
       (split; [done|]); simpl; intros i Hi;
       repeat (apply elem_of_cons in Hi as [->|Hi]; [lia|]);
       by apply elem_of_nil in Hi]).
Qed.

(** C7.  The network [forward_and_in_place] is well formed, and socket 4,
    a requested output, has socket 0 as its origin, an input of the call.
    The other requested output, socket 5, is computed by node 2 in place,
    as the only user of socket 1; this is the move of
    [get_mutable_single] that [finish_input_socket] does not expect, the
    defect of C2 and C9.  With the mask [0; 1; 2] and parameters that fit,
    the call stops in the failed contract check of [finish_input_socket]
    on socket 2, in either order of the requested outputs, before
    [copy_computed_values_to_outputs] is reached: whatever the fuel the
    call does not return, and the values of the caller are copied to no
    destination. *)
Theorem forwarded_input_is_not_copied :
  network_wf Networks.forward_and_in_place (λ n, n) ∧
  4 ∈ m_outputs Networks.forward_and_in_place ∧
  socket_origin Networks.forward_and_in_place_net 4
    ∈ m_inputs Networks.forward_and_in_place ∧
  params_fit Networks.forward_and_in_place [0; 1; 2]
    Networks.forward_and_in_place_params ∧
  call Networks.insertion_sort Networks.forward_and_in_place 30 [0; 1; 2]
    Networks.forward_and_in_place_params
  = Evaluated (AssertFail Networks.forward_and_in_place_stopped) ∧
  call Networks.insertion_sort Networks.in_place_and_forward 30 [0; 1; 2]
    Networks.forward_and_in_place_params
  = Evaluated (AssertFail Networks.forward_and_in_place_stopped) ∧
  slot Networks.forward_and_in_place_stopped
    (socket_origin Networks.forward_and_in_place_net 2) = Some None ∧
  finished_inputs Networks.forward_and_in_place_stopped = [2] ∧
  called_nodes Networks.forward_and_in_place_stopped = [2; 1] ∧
  ∀ fuel,
    returned (call Networks.insertion_sort Networks.forward_and_in_place
                fuel [0; 1; 2] Networks.forward_and_in_place_params)
    = None ∧
    returned (call Networks.insertion_sort Networks.in_place_and_forward
                fuel [0; 1; 2] Networks.forward_and_in_place_params)
    = None.
Proof.
  split; [apply forward_and_in_place_wf|].
  split; [simpl; left|]. split; [simpl; left|].
  split; [apply forward_and_in_place_params_fit|].
  split; [vm_compute; reflexivity|]. split; [vm_compute; reflexivity|].
  split_and!; [done..|]. intros fuel. split.
  - apply (sole_user_no_return Networks.insertion_sort
             insertion_sort_Permutation Networks.forward_and_in_place
             (λ n, n) forward_and_in_place_wf 2 0 MutableSingle);
      try done.
    apply (needed_requested Networks.forward_and_in_place 5);
      [simpl; right; left|done].
  - apply (sole_user_no_return Networks.insertion_sort
             insertion_sort_Permutation Networks.in_place_and_forward
             (λ n, n) in_place_and_forward_wf 2 0 MutableSingle);
      try done.
    apply (needed_requested Networks.in_place_and_forward 5);
      [simpl; left|done].
Qed.

(** * Further theorems at the example networks *)

Lemma add_mul_params_fit :
  params_fit Networks.add_mul [0; 1; 2] Networks.add_mul_params.
Proof.
  split.
  - intros [|[|[|[|j]]]] socket H; simpl in H; try done;
      by injection H as <-.
  - intros [|[|k]] socket H; simpl in H; try done. injection H as <-.
    split; [done|]. simpl. intros i Hi.
    repeat (apply elem_of_cons in Hi as [->|Hi]; [lia|]).
    by apply elem_of_nil in Hi.
Qed.

Lemma add_mul_has_no_mutable_param : ¬ has_mutable_param Networks.add_mul.
Proof. apply (bool_decide_unpack _). vm_compute. exact I. Qed.

Lemma self_loop_feeds_itself :
  feed_one_another Networks.self_loop_net [2].
Proof.
  split; [done|]. intros node ->%list_elem_of_singleton. split_and!.
  - simpl. by left.
  - simpl. intros [?|[?|?%elem_of_nil]%elem_of_cons]%elem_of_cons; done.
  - exists 2. split; simpl; by left.
Qed.

Lemma view_single_shows mask val h origin p j :
  param_shows mask val h origin SingleInput p → j ∈ mask →
  Networks.view_single h p j = single_at val origin j.
Proof.
  destruct p as [[[f|b]|[f|b]|b|b|b|b]|]; simpl; try done.
  - intros H Hj. by apply H.
  - intros (cells & Hb & Hcells) Hj. by rewrite Hb, (Hcells j Hj).
Qed.

Lemma pointwise_computes op h params origin0 origin1 (f : nat → Z) i j :
  param_shows [0; 1; 2] add_mul_values h origin0 SingleInput (params !! 0) →
  param_shows [0; 1; 2] add_mul_values h origin1 SingleInput (params !! 1) →
  (∀ k, op (single_at add_mul_values origin0 k)
           (single_at add_mul_values origin1 k) = f k) →
  j ∈ [0; 1; 2] →
  single_result (Networks.pointwise op [0; 1; 2] params h) i !! j
  = Some (Some (f j)).
Proof.
  intros H0 H1 Hop Hj. simpl.
  rewrite !(view_single_shows _ _ _ _ _ _ H0)
    by (repeat first [by left|right]).
  rewrite !(view_single_shows _ _ _ _ _ _ H1)
    by (repeat first [by left|right]).
  rewrite !Hop.
  repeat (apply elem_of_cons in Hj as [->|Hj]); try done.
  by apply elem_of_nil in Hj.
Qed.

Lemma add_mul_model :
  is_model [0; 1; 2] add_mul_values Networks.add_mul Networks.add_mul_params.
Proof.
  split.
  - intros [|[|[|k]]] socket Hk; simpl in Hk; try done;
      by injection Hk as <-.
  - intros node Hneeded.
    assert (node_is_dummy Networks.add_mul_net node = false) as Hd
      by (by destruct Hneeded).
    destruct node as [|[|[|node]]]; simpl in Hd; try done.
    + intros params h Hshows [|[|[|i]]] t Ht; simpl in Ht; try done;
        injection Ht as <-; try done.
      intros j Hj.
      apply (pointwise_computes Z.add h params 0 1); try done.
      * apply (Hshows 0 SingleInput eq_refl).
      * apply (Hshows 1 SingleInput eq_refl).
    + intros params h Hshows [|[|[|i]]] t Ht; simpl in Ht; try done;
        injection Ht as <-; try done.
      intros j Hj.
      apply (pointwise_computes Z.mul h params 5 2); try done.
      * apply (Hshows 0 SingleInput eq_refl).
      * apply (Hshows 1 SingleInput eq_refl).
Qed.

Lemma call_writes_only_the_destinations_witness :
  length Networks.add_mul_returned = length Networks.add_mul_params ∧
  (∀ j, j < length (m_inputs Networks.add_mul) ∨
        length (m_inputs Networks.add_mul)
        + length (m_outputs Networks.add_mul) ≤ j →
        Networks.add_mul_returned !! j = Networks.add_mul_params !! j) ∧
  ∀ k, k < length (m_outputs Networks.add_mul) →
    same_outside [0; 1; 2]
      (Networks.add_mul_params !! (length (m_inputs Networks.add_mul) + k))
      (Networks.add_mul_returned !! (length (m_inputs Networks.add_mul) + k)).
Proof.
  apply (call_writes_only_the_destinations Networks.insertion_sort
           insertion_sort_Permutation Networks.add_mul (λ n, n) add_mul_wf
           30 [0; 1; 2] Networks.add_mul_params Networks.add_mul_returned
           Networks.add_mul_final).
  vm_compute. reflexivity.
Defined.

Lemma call_returns_witness :
  ∃ fuel0, ∀ fuel, fuel0 ≤ fuel →
    ∃ params' s',
      call Networks.insertion_sort Networks.add_mul fuel [0; 1; 2]
        Networks.add_mul_params = Evaluated (Ok params' s').
Proof.
  apply (call_returns Networks.insertion_sort insertion_sort_Permutation
           Networks.add_mul (λ n, n) add_mul_wf).
  - apply add_mul_has_no_mutable_param.
  - done.
  - done.
  - apply add_mul_params_fit.
Defined.

Lemma cycle_is_never_evaluated_witness :
  (compute_max_depth_per_node Networks.self_loop_net 100 = Exhausted ∨
   compute_max_depth_per_node Networks.self_loop_net 100 = Failed) ∧
  (evaluate_network_to_compute_outputs Networks.insertion_sort
     Networks.self_loop 100 (new_storage [0] 4)
   = OutOfFuel (new_storage [0] 4) ∨
   evaluate_network_to_compute_outputs Networks.insertion_sort
     Networks.self_loop 100 (new_storage [0] 4)
   = AssertFail (new_storage [0] 4)).
Proof.
  destruct (cycle_is_never_evaluated Networks.insertion_sort
              Networks.self_loop [2] self_loop_feeds_itself)
    as [Hdepth Hrun].
  split; [apply Hdepth|apply Hrun].
Defined.

Lemma finishes_count_down_witness :
  ∃ s',
    for_each [1] (finish_input_socket Networks.in_place_net)
      Networks.held_once = Ok tt s' ∧
    slot s' 0 = Some None ∧
    memory s' = <[0 := None]> (memory Networks.held_once) ∧
    finished_inputs s' = reverse [1] ++ finished_inputs Networks.held_once.
Proof.
  destruct (finishes_count_down Networks.in_place_net 0 [1]
              Networks.held_once (SingleValue 0 1) 1 0)
    as (_ & Hexact & _).
  - intros socket ->%list_elem_of_singleton. reflexivity.
  - reflexivity.
  - reflexivity.
  - reflexivity.
  - simpl. by eexists.
  - done.
  - by apply Hexact.
Defined.

Lemma invocations_follow_dependencies_witness :
  in_dependency_order Networks.add_mul
    (invoked_nodes
       (call Networks.insertion_sort Networks.add_mul 30 [0; 1; 2]
          Networks.add_mul_params)).
Proof.
  apply (invocations_follow_dependencies Networks.insertion_sort
           insertion_sort_Permutation Networks.add_mul (λ n, n) add_mul_wf).
Defined.

Lemma caller_view_round_trip_witness :
  ∃ s',
    add_single_from_caller 0 (λ i, Z.of_nat i) (new_storage [0; 1; 2] 10)
    = Ok tt s' ∧
    get_single_input Networks.add_mul_net 3 s'
    = Ok (ListOfCaller (λ i, Z.of_nat i)) s'.
Proof.
  destruct (caller_view_round_trip Networks.add_mul_net
              (new_storage [0; 1; 2] 10) 0 eq_refl) as [Hsingle _].
  destruct (Hsingle (λ i, Z.of_nat i)) as (s' & Hadd & _ & _ & Hread & _).
  exists s'. split; [done|]. by apply Hread.
Defined.

Lemma copy_inputs_needs_fitting_views_witness :
  copy_inputs_to_storage Networks.add_mul Networks.add_mul_params
    (new_storage [0; 1; 2] 10) = Ok tt Networks.add_mul_bound ∧
  ∃ s, copy_inputs_to_storage Networks.add_mul
         [ParamSingleInput (λ _, 0%Z); ParamVectorInput (λ _, [])]
         (new_storage [0; 1; 2] 10) = AssertFail s.
Proof.
  destruct (copy_inputs_needs_fitting_views Networks.add_mul (λ n, n)
              add_mul_wf [0; 1; 2]
              [ParamSingleInput (λ _, 0%Z); ParamVectorInput (λ _, [])])
    as [_ Hmisfit].
  split; [apply add_mul_copy_inputs|].
  apply (Hmisfit 1 1); [reflexivity|]. simpl. done.
Defined.

Lemma call_invokes_the_needed_nodes_witness :
  (∀ node,
     node ∈ invoked_nodes
              (call Networks.insertion_sort Networks.add_mul 30 [0; 1; 2]
                 Networks.add_mul_params) →
     needed Networks.add_mul node) ∧
  (∀ node, needed Networks.add_mul node →
     node ∈ invoked_nodes
              (call Networks.insertion_sort Networks.add_mul 30 [0; 1; 2]
                 Networks.add_mul_params)) ∧
  call Networks.insertion_sort Networks.add_mul 30 []
    Networks.add_mul_params = ReturnedAtOnce Networks.add_mul_params.
Proof.
  destruct (call_invokes_the_needed_nodes Networks.insertion_sort
              insertion_sort_Permutation Networks.add_mul (λ n, n)
              add_mul_wf 30 [0; 1; 2] Networks.add_mul_params)
    as (Hsound & Hcomplete & _).
  split; [exact Hsound|]. split.
  - apply (Hcomplete ltac:(done) Networks.add_mul_returned).
    by rewrite add_mul_call.
  - reflexivity.
Defined.

Lemma call_computes_the_model_witness :
  destination_holds [0; 1; 2] add_mul_values 8
    (Networks.add_mul_params !! 3) (Networks.add_mul_returned !! 3) ∧
  ∃ fuel0, ∀ fuel, fuel0 ≤ fuel →
    ∃ params' s',
      call Networks.insertion_sort Networks.add_mul fuel [0; 1; 2]
        Networks.add_mul_params = Evaluated (Ok params' s') ∧
      ∀ k socket, m_outputs Networks.add_mul !! k = Some socket →
        destination_holds [0; 1; 2] add_mul_values
          (socket_origin Networks.add_mul_net socket)
          (Networks.add_mul_params
             !! (length (m_inputs Networks.add_mul) + k))
          (params' !! (length (m_inputs Networks.add_mul) + k)).
Proof.
  destruct (call_computes_the_model Networks.insertion_sort
              insertion_sort_Permutation Networks.add_mul (λ n, n)
              add_mul_wf [0; 1; 2] add_mul_values) with
    (params := Networks.add_mul_params) as [Hreturned Hreturns].
  - apply (bool_decide_unpack _). vm_compute. exact I.
  - apply add_mul_model.
  - split.
    + apply (Hreturned 30 Networks.add_mul_returned Networks.add_mul_final
               add_mul_call 0 9 eq_refl).
    + apply Hreturns.
      * apply add_mul_has_no_mutable_param.
      * done.
      * done.
      * apply add_mul_params_fit.
Defined.

Lemma sole_user_in_place_aborts_witness :
  (∀ fuel mask params,
     mask ≠ [] →
     returned (call Networks.insertion_sort Networks.in_place fuel mask
                 params) = None) ∧
  ∃ fuel0, ∀ fuel, fuel0 ≤ fuel →
    ∃ s, call Networks.insertion_sort Networks.in_place fuel [0; 1; 2]
           [ParamSingleOutput [None; None; None]]
         = Evaluated (AssertFail s).
Proof.
  destruct (sole_user_in_place_aborts Networks.insertion_sort
              insertion_sort_Permutation Networks.in_place _ in_place_wf
              1 0 MutableSingle) as [Hnever Haborts].
  - exact (needed_requested Networks.in_place 3
             (list_elem_of_here 3 []) eq_refl).
  - reflexivity.
  - reflexivity.
  - reflexivity.
  - reflexivity.
  - split; [exact Hnever|]. apply Haborts; [done|].
    intros j socket Hj. simpl in Hj. by rewrite lookup_nil in Hj.
Defined.

Lemma a_buffer_for_every_output_witness :
  length (memory Networks.add_mul_final)
  = output_count Networks.add_mul_net (called_nodes Networks.add_mul_final) ∧
  ∀ b x, memory Networks.add_mul_final !! b = Some x → x = None.
Proof.
  apply (a_buffer_for_every_output Networks.insertion_sort
           insertion_sort_Permutation Networks.add_mul (λ n, n) add_mul_wf
           30 [0; 1; 2] Networks.add_mul_params Networks.add_mul_returned
           Networks.add_mul_final).
  apply add_mul_call.
Defined.

